(** * Moon: driver dispatch loop and view reconciliation engine

    A shallow embedding of [packages/moon/dist/moon.js]: the dispatch loop
    [run], the reconciliation engine ([viewCreate], [viewPatch],
    [removeDataProperty]) and the event dispatcher ([MoonEvent]), together
    with the properties the specification states about them.

    JavaScript objects with reference identity carry a [ref] (their address);
    [===] on objects compares addresses only.  An attribute object is a
    plain object: [key in obj] and [obj[key]] see its own properties and
    the members of [Object.prototype].  The DOM is an explicit state
    threaded through a state-and-exception monad; every DOM call the engine
    issues is appended to a log, unless the DOM refuses it, in which case
    the call throws. *)

From Stdlib Require Import ZArith String Ascii List Lia Bool.
From stdpp Require Import base gmap strings list fin_maps.

Open Scope string_scope.
Open Scope list_scope.

(** ** JavaScript values and description nodes *)

(** [ref] is the address of an object.  An attribute object ([data], or a
    group such as [style]) is given by its own enumerable properties in
    [for ... in] order; the arrays of a description hold nodes.  A number is
    an integer or [NaN]. *)
#[local] Unset Elimination Schemes.
Inductive value : Type :=
| VUndef
| VNull
| VBool (b : bool)
| VNum (n : Z)
| VNaN
| VStr (s : string)
| VFun (ref : nat)
| VObj (ref : nat) (fields : list (string * value))
| VArr (ref : nat) (items : list NodeNew)
(** [new NodeNew(name, data)] *)
with NodeNew : Type :=
| mkNodeNew (ref : nat) (name : string) (data : list (string * value)).
#[local] Set Elimination Schemes.

Definition ref (n : NodeNew) : nat := match n with mkNodeNew r _ _ => r end.
Definition name (n : NodeNew) : string := match n with mkNodeNew _ s _ => s end.
Definition data (n : NodeNew) : list (string * value) :=
  match n with mkNodeNew _ _ d => d end.

(** [new NodeOld(node, element, children)]; [children_ref] is the address of
    the [children] array. *)
#[local] Unset Elimination Schemes.
Inductive NodeOld : Type :=
| mkNodeOld (node : NodeNew) (element : nat) (children_ref : nat)
            (children : list NodeOld).
#[local] Set Elimination Schemes.

Definition node (r : NodeOld) : NodeNew :=
  match r with mkNodeOld n _ _ _ => n end.
Definition element (r : NodeOld) : nat :=
  match r with mkNodeOld _ e _ _ => e end.
Definition children_ref (r : NodeOld) : nat :=
  match r with mkNodeOld _ _ c _ => c end.
Definition children (r : NodeOld) : list NodeOld :=
  match r with mkNodeOld _ _ _ cs => cs end.

(** [a === b]. *)
Definition strict_eq (a b : value) : bool :=
  match a, b with
  | VUndef, VUndef => true
  | VNull, VNull => true
  | VBool x, VBool y => Bool.eqb x y
  | VNum x, VNum y => Z.eqb x y
  | VStr x, VStr y => String.eqb x y
  | VFun x, VFun y => Nat.eqb x y
  | VObj x _, VObj y _ => Nat.eqb x y
  | VArr x _, VArr y _ => Nat.eqb x y
  | _, _ => false
  end.

(** Truthiness, as tested by [if (value)]. *)
Definition truthy (v : value) : bool :=
  match v with
  | VUndef | VNull | VNaN => false
  | VBool b => b
  | VNum n => negb (Z.eqb n 0)
  | VStr s => negb (String.eqb s "")
  | VFun _ | VObj _ _ | VArr _ _ => true
  end.

(** [obj[key]] for an own property of an attribute object: the value, or
    [undefined] when the object has no such property of its own. *)
Fixpoint get (key : string) (obj : list (string * value)) : value :=
  match obj with
  | [] => VUndef
  | (k, v) :: rest => if String.eqb k key then v else get key rest
  end.

(** Whether [key] is an own property of an attribute object. *)
Fixpoint has (key : string) (obj : list (string * value)) : bool :=
  match obj with
  | [] => false
  | (k, _) :: rest => if String.eqb k key then true else has key rest
  end.

(** The members every plain object inherits from [Object.prototype]: the
    built-in functions, each at an address of its own, and behind
    [__proto__] the prototype itself, which has no enumerable property. *)
Definition Object_prototype : list (string * value) :=
  [("constructor", VFun 100);
   ("__defineGetter__", VFun 101);
   ("__defineSetter__", VFun 102);
   ("hasOwnProperty", VFun 103);
   ("__lookupGetter__", VFun 104);
   ("__lookupSetter__", VFun 105);
   ("isPrototypeOf", VFun 106);
   ("propertyIsEnumerable", VFun 107);
   ("toString", VFun 108);
   ("valueOf", VFun 109);
   ("__proto__", VObj 110 []);
   ("toLocaleString", VFun 111)].

(** [key in Object.prototype] *)
Definition inherited (key : string) : bool := has key Object_prototype.

(** [key in obj] on a plain object: an own property, or one the object
    inherits. *)
Definition key_in (key : string) (obj : list (string * value)) : bool :=
  has key obj || inherited key.

(** [obj[key]] on a plain object: the own property, else the inherited
    one, else [undefined]. *)
Definition at_key (key : string) (obj : list (string * value)) : value :=
  if has key obj then get key obj else get key Object_prototype.

(** ** Results, exceptions and the engine state *)

Inductive exn : Type :=
| TypeError
| NotFoundError
| HierarchyRequestError
| InvalidCharacterError
| SyntaxError
| IllShaped.   (* a value outside the Description Node shape *)

Inductive res (A : Type) : Type :=
| Ok (a : A)
| Throw (e : exn).
Arguments Ok {A} a.
Arguments Throw {A} e.

(** A handle is the address of a DOM node. *)
Abbreviation handle := nat (only parsing).

(** One entry per DOM call issued by the engine. *)
Inductive effect : Type :=
| CreateTextNode (h : handle) (text : value)
| CreateElement (h : handle) (tag : string)
| CreateBlank (h : handle) (tag : string)
| AddEventListener (h : handle) (type : string)
| RemoveEventListener (h : handle) (type : string)
| SetAttribute (h : handle) (attr : string) (v : value)
| RemoveAttribute (h : handle) (attr : string)
| SetDataset (h : handle) (key : string) (v : value)
| DeleteDataset (h : handle) (key : string)
| SetStyle (h : handle) (key : string) (v : value)
| Focus (h : handle)
| Blur (h : handle)
| SetProperty (h : handle) (key : string) (v : value)
| AppendChild (parent child : handle)
| RemoveChild (parent child : handle)
| ReplaceChild (parent new old : handle).

Record state : Type := mkState {
  next : nat;
  texts : gset handle;
  parentNode : gmap handle handle;
  MoonEvents : gmap handle (gmap string value);
  removeDataPropertyCache : gmap string handle;
  log : list effect;
  (** the exception with which the DOM of the page refuses a call, if it
      does: an element or attribute name it takes for invalid, a property
      it holds read-only *)
  refused : effect -> option exn
}.

(** A computation over a state [S] that returns or throws; what it did to
    the state before throwing stays done. *)
Definition ST (S A : Type) : Type := S -> res A * S.

Definition ret {S A} (a : A) : ST S A := fun st => (Ok a, st).

Definition bind {S A B} (m : ST S A) (f : A -> ST S B) : ST S B :=
  fun st =>
    match m st with
    | (Ok a, st') => f a st'
    | (Throw e, st') => (Throw e, st')
    end.

Definition throw {S A} (e : exn) : ST S A := fun st => (Throw e, st).

Definition read {S A} (f : S -> A) : ST S A := fun st => (Ok (f st), st).

Definition lift {S A} (r : res A) : ST S A := fun st => (r, st).

(** The engine acts on the DOM state. *)
Definition M (A : Type) : Type := ST state A.

Declare Scope moon_scope.
Delimit Scope moon_scope with moon.
Notation "'let*' x ':=' m 'in' k" := (bind m (fun x => k))
  (at level 10, x pattern, m at level 100, k at level 200) : moon_scope.
Notation "m ';;' k" := (bind m (fun _ => k))
  (at level 100, k at level 200, right associativity) : moon_scope.
Open Scope moon_scope.

Section Loops.
Context {S A X : Type}.
Variable body : X -> A -> ST S X.

(** A loop over a list that threads a local variable. *)
Fixpoint fold_m (l : list A) (x : X) : ST S X :=
  match l with
  | [] => ret x
  | a :: rest => let* x' := body x a in fold_m rest x'
  end.
End Loops.

Section Each.
Context {S A : Type}.
Variable body : A -> ST S unit.

Fixpoint for_each (l : list A) : ST S unit :=
  match l with
  | [] => ret tt
  | a :: rest => body a ;; for_each rest
  end.
End Each.

(** ** DOM primitives *)

Definition alloc : M handle :=
  fun st => (Ok (next st),
             mkState (S (next st)) (texts st) (parentNode st) (MoonEvents st)
                     (removeDataPropertyCache st) (log st) (refused st)).

Definition emit (e : effect) : M unit :=
  fun st => (Ok tt,
             mkState (next st) (texts st) (parentNode st) (MoonEvents st)
                     (removeDataPropertyCache st) (log st ++ [e]) (refused st)).

Definition set_texts (t : gset handle) : M unit :=
  fun st => (Ok tt,
             mkState (next st) t (parentNode st) (MoonEvents st)
                     (removeDataPropertyCache st) (log st) (refused st)).

Definition set_parentNode (p : gmap handle handle) : M unit :=
  fun st => (Ok tt,
             mkState (next st) (texts st) p (MoonEvents st)
                     (removeDataPropertyCache st) (log st) (refused st)).

Definition set_MoonEvents (m : gmap handle (gmap string value)) : M unit :=
  fun st => (Ok tt,
             mkState (next st) (texts st) (parentNode st) m
                     (removeDataPropertyCache st) (log st) (refused st)).

Definition set_cache (c : gmap string handle) : M unit :=
  fun st => (Ok tt,
             mkState (next st) (texts st) (parentNode st) (MoonEvents st)
                     c (log st) (refused st)).

(** A call that the DOM may refuse: it throws and nothing is done, or it
    is issued. *)
Definition request (e : effect) : M unit :=
  let* refuses := read refused in
  match refuses e with
  | Some x => throw x
  | None => emit e
  end.

(** [document.createElement(name)] *)
Definition createElement (tag : string) : M handle :=
  let* h := alloc in
  request (CreateElement h tag) ;;
  ret h.

(** [document.createTextNode(text)] *)
Definition createTextNode (text : value) : M handle :=
  let* h := alloc in
  let* t := read texts in
  set_texts ({[h]} ∪ t) ;;
  emit (CreateTextNode h text) ;;
  ret h.

(** The members [setAttribute], [removeAttribute], [dataset], [style],
    [focus] and [blur] exist on elements only: on a text node the access
    raises a [TypeError]. *)
Definition element_only (h : handle) : M unit :=
  let* t := read texts in
  if decide (h ∈ t) then throw TypeError else ret tt.

Definition setAttribute (h : handle) (attr : string) (v : value) : M unit :=
  element_only h ;; request (SetAttribute h attr v).

Definition removeAttribute (h : handle) (attr : string) : M unit :=
  element_only h ;; emit (RemoveAttribute h attr).

Definition setDataset (h : handle) (key : string) (v : value) : M unit :=
  element_only h ;; request (SetDataset h key v).

Definition deleteDataset (h : handle) (key : string) : M unit :=
  element_only h ;; emit (DeleteDataset h key).

Definition setStyle (h : handle) (key : string) (v : value) : M unit :=
  element_only h ;; request (SetStyle h key v).

Definition focus (h : handle) : M unit :=
  element_only h ;; emit (Focus h).

Definition blur (h : handle) : M unit :=
  element_only h ;; emit (Blur h).

(** [element[key] = v] for a property the model does not interpret; the
    code is strict, so the assignment to a read-only property throws. *)
Definition setProperty (h : handle) (key : string) (v : value) : M unit :=
  request (SetProperty h key v).

Definition addEventListener (h : handle) (type : string) : M unit :=
  emit (AddEventListener h type).

Definition removeEventListener (h : handle) (type : string) : M unit :=
  emit (RemoveEventListener h type).

(** [parent.appendChild(child)]; a text node takes no children. *)
Definition appendChild (parent child : handle) : M unit :=
  let* t := read texts in
  if decide (parent ∈ t) then throw HierarchyRequestError
  else
    let* p := read parentNode in
    set_parentNode (<[child := parent]> p) ;;
    emit (AppendChild parent child).

(** [parent.removeChild(child)]; [child] must be a child of [parent]. *)
Definition removeChild (parent child : handle) : M unit :=
  let* p := read parentNode in
  if decide (p !! child = Some parent) then
    set_parentNode (delete child p) ;;
    emit (RemoveChild parent child)
  else throw NotFoundError.

(** [old.parentNode.replaceChild(new, old)] *)
Definition replaceInParent (new old : handle) : M unit :=
  let* p := read parentNode in
  match p !! old with
  | None => throw TypeError
  | Some parent =>
      set_parentNode (<[new := parent]> (delete old p)) ;;
      emit (ReplaceChild parent new old)
  end.

(** ** Attribute keys *)

Inductive key_class : Type :=
| KEvent | KAriaset | KDataset | KStyle | KFocus | KClass | KFor | KChildren
| KProperty.

(** [key.charCodeAt(0) === 64] *)
Definition is_event (key : string) : bool :=
  match key with
  | String c _ => Ascii.eqb c "@"
  | EmptyString => false
  end.

(** [key.slice(1)] *)
Definition slice1 (key : string) : string :=
  match key with
  | String _ s => s
  | EmptyString => ""
  end.

(** The sigil test followed by the [switch] of [viewCreate] and of the
    update loop of [viewPatch]. *)
Definition classify (key : string) : key_class :=
  if is_event key then KEvent
  else if String.eqb key "ariaset" then KAriaset
  else if String.eqb key "dataset" then KDataset
  else if String.eqb key "style" then KStyle
  else if String.eqb key "focus" then KFocus
  else if String.eqb key "class" then KClass
  else if String.eqb key "for" then KFor
  else if String.eqb key "children" then KChildren
  else KProperty.

(** The keys and values visited by [for (k in v)] on a group value: the
    own properties of an object, nothing on a primitive; the index
    properties of strings and arrays are outside the model. *)
Definition enumerate (v : value) : res (list (string * value)) :=
  match v with
  | VObj _ fields => Ok fields
  | VStr _ | VArr _ _ => Throw IllShaped
  | _ => Ok []
  end.

Definition for_in {S} (v : value) : ST S (list (string * value)) :=
  lift (enumerate v).

(** [valueOld === undefined ? valueOld : valueOld[key]] *)
Definition get_sub (valueOld : value) (key : string) : M value :=
  match valueOld with
  | VUndef => ret VUndef
  | VNull => throw TypeError
  | VObj _ fields => ret (at_key key fields)
  | VBool _ | VNum _ | VNaN => ret VUndef
  | VStr _ | VArr _ _ | VFun _ => throw IllShaped
  end.

(** [key in valueNew] *)
Definition has_sub (key : string) (valueNew : value) : M bool :=
  match valueNew with
  | VObj _ fields => ret (key_in key fields)
  | VArr _ _ | VFun _ => throw IllShaped
  | _ => throw TypeError
  end.

(** [valueOld[i] !== childNew]: an element of an array is compared by
    address; any other value is not the node. *)
Definition differs_at (valueOld : value) (i : nat) (childNew : NodeNew)
  : M bool :=
  match valueOld with
  | VArr _ olds =>
      match olds !! i with
      | Some o => ret (negb (Nat.eqb (ref o) (ref childNew)))
      | None => ret true
      end
  | VUndef | VNull => throw TypeError
  | _ => ret true
  end.

(** ** The reconciliation engine *)

Section Engine.

(** [removeDataPropertyCache[tag][key]] in a cache that only
    [removeDataProperty] fills: the value that a blank element of kind
    [tag], which nothing has touched since [document.createElement(tag)]
    built it, has for the property [key]; and for a [tag] that names a
    member of [Object.prototype], which the cache inherits, the value that
    member has for [key]. *)
Variable factory_default : string -> string -> value.

(** [document.createElement(name)] as issued by [removeDataProperty]; the
    log keeps these apart from the elements of the view. *)
Definition createBlank (tag : string) : M handle :=
  let* h := alloc in
  request (CreateBlank h tag) ;;
  ret h.

(** The test [name in removeDataPropertyCache] holds for a kind that has a
    blank element in the cache, and for a kind named like a member of
    [Object.prototype]: for the latter no blank element is ever built. *)
Definition removeDataProperty (el : handle) (tag key : string) : M unit :=
  let* cache := read removeDataPropertyCache in
  let* v :=
    match cache !! tag with
    | Some _ => ret (factory_default tag key)
    | None =>
        if inherited tag then ret (factory_default tag key)
        else
          let* blank := createBlank tag in
          set_cache (<[tag := blank]> cache) ;;
          ret (factory_default tag key)
    end in
  setProperty el key v.

(** [element.MoonEvent[key] = v], creating the dispatcher when it is
    [null]. *)
Definition setMoonEvent (el : handle) (key : string) (v : value) : M unit :=
  let* m := read MoonEvents in
  set_MoonEvents (<[el := <[key := v]> (default ∅ (m !! el))]> m).

(** The tail of every children loop: create, push, append. *)
Definition appendNew (create : NodeNew -> M NodeOld) (el : handle)
  : list NodeNew -> list NodeOld -> M (list NodeOld) :=
  fold_m (fun (cs : list NodeOld) c =>
            let* childOld := create c in
            appendChild el (element childOld) ;;
            ret (cs ++ [childOld])).

Definition createData (create : NodeNew -> M NodeOld) (el : handle)
           (key : string) (v : value) (cs : list NodeOld)
  : M (list NodeOld) :=
  match classify key with
  | KEvent =>
      setMoonEvent el key v ;;
      addEventListener el (slice1 key) ;;
      ret cs
  | KAriaset =>
      let* fields := for_in v in
      for_each (fun kv => setAttribute el ("aria-" ++ kv.1)%string kv.2) fields ;;
      ret cs
  | KDataset =>
      let* fields := for_in v in
      for_each (fun kv => setDataset el kv.1 kv.2) fields ;;
      ret cs
  | KStyle =>
      let* fields := for_in v in
      for_each (fun kv => setStyle el kv.1 kv.2) fields ;;
      ret cs
  | KFocus =>
      (if truthy v then focus el else ret tt) ;;
      ret cs
  | KClass => setProperty el "className" v ;; ret cs
  | KFor => setProperty el "htmlFor" v ;; ret cs
  | KChildren =>
      match v with
      | VArr _ items => appendNew create el items cs
      | VUndef | VNull => throw TypeError
      | _ => throw IllShaped
      end
  | KProperty => setProperty el key v ;; ret cs
  end.

Fixpoint viewCreate (n : NodeNew) : M NodeOld :=
  match n with
  | mkNodeNew _ nodeName nodeData =>
      let* cref := alloc in
      if String.eqb nodeName "text" then
        let* el := createTextNode (get "data" nodeData) in
        ret (mkNodeOld n el cref [])
      else
        let* el := createElement nodeName in
        let* cs :=
          fold_m (fun cs kv => createData viewCreate el kv.1 kv.2 cs)
                 nodeData [] in
        ret (mkNodeOld n el cref cs)
  end.

(** [nodeOldElement.removeChild(childrenOld.pop().element)], [n] times. *)
Fixpoint popChildren (el : handle) (n : nat) (cs : list NodeOld)
  : M (list NodeOld) :=
  match n with
  | 0 => ret cs
  | S n' =>
      match last cs with
      | None => throw TypeError
      | Some c =>
          removeChild el (element c) ;;
          popChildren el n' (removelast cs)
      end
  end.

Section PatchChildren.
Variable patch : NodeOld -> NodeNew -> M NodeOld.
Variable valueOld : value.

(** The loop shared by the three regimes: for [k] indices from [i] on,
    [if (valueOld[i] !== childNew) viewPatch(childrenOld[i], childNew)]. *)
Fixpoint patchPrefix (k i : nat) (items : list NodeNew)
         (cs : list NodeOld) {struct items} : M (list NodeOld) :=
  match k, items with
  | S k', childNew :: rest =>
      let* differs := differs_at valueOld i childNew in
      let* cs' :=
        if differs then
          match cs !! i with
          | Some c =>
              let* c' := patch c childNew in
              ret (<[i := c']> cs)
          | None => throw TypeError
          end
        else ret cs in
      patchPrefix k' (S i) rest cs'
  | _, _ => ret cs
  end.

Definition patchChildren (el : handle) (items : list NodeNew)
           (childrenOld : list NodeOld) : M (list NodeOld) :=
  let childrenOldLength := length childrenOld in
  let valueNewLength := length items in
  if Nat.eqb childrenOldLength valueNewLength then
    patchPrefix childrenOldLength 0 items childrenOld
  else if Nat.ltb valueNewLength childrenOldLength then
    let* cs := patchPrefix valueNewLength 0 items childrenOld in
    popChildren el (childrenOldLength - valueNewLength) cs
  else
    let* cs := patchPrefix childrenOldLength 0 items childrenOld in
    appendNew viewCreate el (skipn childrenOldLength items) cs.
End PatchChildren.

(** The body of the update loop for a key whose value changed. *)
Definition patchData (patch : NodeOld -> NodeNew -> M NodeOld)
           (el : handle) (valueOld : value) (keyNew : string)
           (valueNew : value) (cs : list NodeOld) : M (list NodeOld) :=
  match classify keyNew with
  | KEvent =>
      let* m := read MoonEvents in
      if decide (is_Some (default ∅ (m !! el) !! keyNew)) then
        setMoonEvent el keyNew valueNew ;;
        ret cs
      else
        setMoonEvent el keyNew valueNew ;;
        addEventListener el (slice1 keyNew) ;;
        ret cs
  | KAriaset =>
      let* fields := for_in valueNew in
      for_each (fun kv =>
                  let* setValueOld := get_sub valueOld kv.1 in
                  if strict_eq setValueOld kv.2 then ret tt
                  else setAttribute el ("aria-" ++ kv.1)%string kv.2) fields ;;
      (if strict_eq valueOld VUndef then ret tt
       else
         let* olds := for_in valueOld in
         for_each (fun kv =>
                     let* present := has_sub kv.1 valueNew in
                     if present then ret tt
                     else removeAttribute el ("aria-" ++ kv.1)%string) olds) ;;
      ret cs
  | KDataset =>
      let* fields := for_in valueNew in
      for_each (fun kv =>
                  let* setValueOld := get_sub valueOld kv.1 in
                  if strict_eq setValueOld kv.2 then ret tt
                  else setDataset el kv.1 kv.2) fields ;;
      (if strict_eq valueOld VUndef then ret tt
       else
         let* olds := for_in valueOld in
         for_each (fun kv =>
                     let* present := has_sub kv.1 valueNew in
                     if present then ret tt
                     else deleteDataset el kv.1) olds) ;;
      ret cs
  | KStyle =>
      let* fields := for_in valueNew in
      for_each (fun kv =>
                  let* setValueOld := get_sub valueOld kv.1 in
                  if strict_eq setValueOld kv.2 then ret tt
                  else setStyle el kv.1 kv.2) fields ;;
      (if strict_eq valueOld VUndef then ret tt
       else
         let* olds := for_in valueOld in
         for_each (fun kv =>
                     let* present := has_sub kv.1 valueNew in
                     if present then ret tt
                     else setStyle el kv.1 (VStr "")) olds) ;;
      ret cs
  | KFocus =>
      (if truthy valueNew then focus el else blur el) ;;
      ret cs
  | KClass => setProperty el "className" valueNew ;; ret cs
  | KFor => setProperty el "htmlFor" valueNew ;; ret cs
  | KChildren =>
      match valueNew with
      | VArr _ items => patchChildren patch valueOld el items cs
      | VUndef | VNull => throw TypeError
      | _ => throw IllShaped
      end
  | KProperty => setProperty el keyNew valueNew ;; ret cs
  end.

(** The body of the removal loop for a key of the old data that the new
    data lacks.  Its [switch] has no [style] case. *)
Definition removeData (el : handle) (nodeOldNodeName keyOld : string)
           (valueOld : value) (cs : list NodeOld) : M (list NodeOld) :=
  match classify keyOld with
  | KEvent =>
      let* m := read MoonEvents in
      match m !! el with
      | None => throw TypeError
      | Some d =>
          set_MoonEvents (<[el := delete keyOld d]> m) ;;
          removeEventListener el (slice1 keyOld) ;;
          ret cs
      end
  | KAriaset =>
      let* olds := for_in valueOld in
      for_each (fun kv => removeAttribute el ("aria-" ++ kv.1)%string) olds ;;
      ret cs
  | KDataset =>
      let* olds := for_in valueOld in
      for_each (fun kv => deleteDataset el kv.1) olds ;;
      ret cs
  | KFocus =>
      (if truthy valueOld then blur el else ret tt) ;;
      ret cs
  | KClass => setProperty el "className" (VStr "") ;; ret cs
  | KFor => setProperty el "htmlFor" (VStr "") ;; ret cs
  | KChildren => popChildren el (length cs) cs
  | KStyle | KProperty =>
      removeDataProperty el nodeOldNodeName keyOld ;;
      ret cs
  end.

(** The body of the first loop of [viewPatch]. *)
Definition updateData (patch : NodeOld -> NodeNew -> M NodeOld)
           (el : handle) (nodeOldNodeData : list (string * value))
           (cs : list NodeOld) (kv : string * value) : M (list NodeOld) :=
  match kv with
  | (keyNew, valueNew) =>
      let valueOld := at_key keyNew nodeOldNodeData in
      if strict_eq valueOld valueNew then ret cs
      else patchData patch el valueOld keyNew valueNew cs
  end.

(** The body of the second loop of [viewPatch]. *)
Definition removeOld (el : handle) (nodeOldNodeName : string)
           (nodeNewData : list (string * value))
           (cs : list NodeOld) (kv : string * value) : M (list NodeOld) :=
  match kv with
  | (keyOld, valueOld) =>
      if key_in keyOld nodeNewData then ret cs
      else removeData el nodeOldNodeName keyOld valueOld cs
  end.

Fixpoint viewPatch (nodeOld : NodeOld) (nodeNew : NodeNew) {struct nodeNew}
  : M NodeOld :=
  match nodeNew with
  | mkNodeNew _ nodeNewName nodeNewData =>
      let nodeOldNode := node nodeOld in
      let nodeOldNodeName := name nodeOldNode in
      let nodeOldElement := element nodeOld in
      if negb (String.eqb nodeOldNodeName nodeNewName) then
        let* nodeOldNew := viewCreate nodeNew in
        replaceInParent (element nodeOldNew) nodeOldElement ;;
        ret (mkNodeOld nodeNew (element nodeOldNew)
                       (children_ref nodeOldNew) (children nodeOldNew))
      else
        let nodeOldNodeData := data nodeOldNode in
        let* cs :=
          fold_m (updateData viewPatch nodeOldElement nodeOldNodeData)
                 nodeNewData (children nodeOld) in
        let* cs :=
          fold_m (removeOld nodeOldElement nodeOldNodeName nodeNewData)
                 nodeOldNodeData cs in
        ret (mkNodeOld nodeNew nodeOldElement (children_ref nodeOld) cs)
  end.

End Engine.

(** ** Drivers and the dispatch loop *)

(** What [error] writes to the console. *)
Inductive report : Type :=
| InvalidRoot
| NoInput (driver : string)
| UnknownDriver (driver : string)
| NoOutput (driver : string).

(** What a cycle does, in order: reports, and calls of the drivers'
    functions and of the application. *)
Inductive call : Type :=
| Report (r : report)
| CallInput (driver : string)
| CallRoot (root : value) (input : list (string * value))
| CallOutput (driver : string) (v : value).

Section Dispatch.

(** The world the drivers act on. *)
Variable W : Type.

(** A driver is an object; each of [input] and [output] is a function or
    absent. *)
Record driver : Type := mkDriver {
  input : option (ST W value);
  output : option (value -> ST W unit)
}.

Record cycle : Type := mkCycle {
  world : W;
  journal : list call
}.

(** What the function at an address returns on an input record. *)
Variable apply : nat -> list (string * value) -> res value.

Definition note (c : call) : ST cycle unit :=
  fun s => (Ok tt, mkCycle (world s) (journal s ++ [c])).

(** [console.error] of one of the messages of [run]. *)
Definition error (r : report) : ST cycle unit := note (Report r).

(** A call of a driver's function: it acts on the world. *)
Definition on_world {A} (m : ST W A) : ST cycle A :=
  fun s =>
    match m (world s) with
    | (r, w) => (r, mkCycle w (journal s))
    end.

(** [drivers[key]] for a driver registered under [key]. *)
Fixpoint find_driver (key : string) (drivers : list (string * driver))
  : option driver :=
  match drivers with
  | [] => None
  | (k, d) :: rest => if String.eqb k key then Some d else find_driver key rest
  end.

(** [obj[key] = v] on a record under construction. *)
Fixpoint set (key : string) (v : value) (obj : list (string * value))
  : list (string * value) :=
  match obj with
  | [] => [(key, v)]
  | (k, w) :: rest =>
      if String.eqb k key then (k, v) :: rest else (k, w) :: set key v rest
  end.

(** [root(input)] *)
Definition call_root (root : value) (input : list (string * value))
  : ST cycle value :=
  match root with
  | VFun f =>
      note (CallRoot root input) ;;
      lift (apply f input)
  | _ => throw TypeError
  end.

(** The first loop of [run]: [input[driver] = drivers[driver].input()]. *)
Definition gather (drivers : list (string * driver))
  : ST cycle (list (string * value)) :=
  fold_m (fun inputs kd =>
            match input kd.2 with
            | None => error (NoInput kd.1) ;; throw TypeError
            | Some f =>
                note (CallInput kd.1) ;;
                let* v := on_world f in
                ret (set kd.1 v inputs)
            end) drivers [].

(** The body of the second loop of [run].  A key that names a member of
    [Object.prototype] and no driver passes the test [_driver in drivers];
    what [drivers[_driver]] then gives is a built-in without [output]. *)
Definition deliver (drivers : list (string * driver)) (kv : string * value)
  : ST cycle unit :=
  match find_driver kv.1 drivers with
  | None =>
      if inherited kv.1 then error (NoOutput kv.1) ;; throw TypeError
      else error (UnknownDriver kv.1) ;; throw TypeError
  | Some d =>
      match output d with
      | None => error (NoOutput kv.1) ;; throw TypeError
      | Some f => note (CallOutput kv.1 kv.2) ;; on_world (f kv.2)
      end
  end.

Definition run (drivers : list (string * driver)) (root : value)
  : ST cycle unit :=
  (match root with VFun _ => ret tt | _ => error InvalidRoot end) ;;
  let* inputs := gather drivers in
  let* outputs := call_root root inputs in
  let* entries := for_in outputs in
  for_each (deliver drivers) entries.

End Dispatch.

Arguments mkDriver {W}.
Arguments input {W}.
Arguments output {W}.
Arguments mkCycle {W}.
Arguments world {W}.
Arguments journal {W}.
Arguments note {W}.
Arguments error {W}.
Arguments on_world {W A}.
Arguments find_driver {W}.
Arguments call_root {W}.
Arguments gather {W}.
Arguments deliver {W}.
Arguments run {W}.

(** ** Vocabulary for the properties of the dispatch loop *)

(** Calling [input] of each driver in turn, in registry order, from the
    world [w]: the record of the values the calls return, each under the
    name of its driver, and the world the calls leave. *)
Inductive asked {W} :
  list (string * driver W) -> W -> list (string * value) -> W -> Prop :=
| asked_nil w : asked [] w [] w
| asked_cons k d f drivers w v w1 inputs w' :
    input d = Some f ->
    f w = (Ok v, w1) ->
    asked drivers w1 inputs w' ->
    asked ((k, d) :: drivers) w ((k, v) :: inputs) w'.

(** Calling, for each entry in turn, [output] of the registered driver of
    that name on the value of the entry, from the world [w]: the world
    the calls leave. *)
Inductive served {W} (drivers : list (string * driver W)) :
  list (string * value) -> W -> W -> Prop :=
| served_nil w : served drivers [] w w
| served_cons k v entries d f w w1 w' :
    find_driver k drivers = Some d ->
    output d = Some f ->
    f v w = (Ok tt, w1) ->
    served drivers entries w1 w' ->
    served drivers ((k, v) :: entries) w w'.

(** An output entry that names a registered driver with an [output]
    function. *)
Definition deliverable {W} (drivers : list (string * driver W))
           (kv : string * value) : Prop :=
  exists d f, find_driver kv.1 drivers = Some d /\ output d = Some f.

(** What is wrong with the output key [k], if anything. *)
Definition offence {W} (drivers : list (string * driver W)) (k : string)
  : option report :=
  match find_driver k drivers with
  | None => Some (if inherited k then NoOutput k else UnknownDriver k)
  | Some d =>
      match output d with
      | None => Some (NoOutput k)
      | Some _ => None
      end
  end.

(** The reading of the error handling of [run] under which a cycle serves
    every well-formed entry of the output record, whatever else the record
    holds. *)
Definition serves_every_deliverable_entry {W}
           (apply : nat -> list (string * value) -> res value)
           (drivers : list (string * driver W)) (root : value)
           (s : cycle W) : Prop :=
  forall f inputs s1 outputs entries kv,
    root = VFun f ->
    gather drivers s = (Ok inputs, s1) ->
    apply f inputs = Ok outputs ->
    enumerate outputs = Ok entries ->
    In kv entries ->
    deliverable drivers kv ->
    In (CallOutput kv.1 kv.2) (journal (run apply drivers root s).2).

(** The journal entries written between two states of a cycle all satisfy
    [ok]. *)
Definition journals_only {W} (ok : call -> Prop) (c c' : cycle W) : Prop :=
  exists d, journal c' = journal c ++ d /\ Forall ok d.

(** An entry other than a call of an application other than [root]. *)
Definition calls_root (root : value) (x : call) : Prop :=
  match x with
  | CallRoot r _ => r = root
  | _ => True
  end.

(** ** Events *)

(** The process-wide state the dispatcher acts on: the DOM and the slot of
    the current view event. *)
Record process : Type := mkProcess {
  dom : state;
  viewEvent : value
}.

(** [viewEvent.type] *)
Definition event_type (ev : value) : ST (cycle process) string :=
  match ev with
  | VUndef | VNull => throw TypeError
  | VObj _ fields =>
      match get "type" fields with
      | VStr t => ret t
      | _ => throw IllShaped
      end
  | _ => throw IllShaped
  end.

(** [MoonEvent.prototype.handleEvent]; [this] is the dispatcher. *)
Definition handleEvent (apply : nat -> list (string * value) -> res value)
           (drivers : list (string * driver process))
           (this : gmap string value) (viewEventNew : value)
  : ST (cycle process) unit :=
  on_world (fun p => (Ok tt, mkProcess (dom p) viewEventNew)) ;;
  let* type := event_type viewEventNew in
  run apply drivers (default VUndef (this !! ("@" ++ type)%string)).

(** The registrations ([true]) and removals ([false]) of the dispatcher of
    [h] for [type] among the calls logged, in order. *)
Fixpoint registrations (h : handle) (type : string) (l : list effect)
  : list bool :=
  match l with
  | [] => []
  | AddEventListener h' t :: rest =>
      if Nat.eqb h' h && String.eqb t type
      then true :: registrations h type rest
      else registrations h type rest
  | RemoveEventListener h' t :: rest =>
      if Nat.eqb h' h && String.eqb t type
      then false :: registrations h type rest
      else registrations h type rest
  | _ :: rest => registrations h type rest
  end.

(** Whether the calls logged so far leave the dispatcher of [h] registered
    for [type]. *)
Definition listening (h : handle) (type : string) (l : list effect) : bool :=
  match last (registrations h type l) with
  | Some b => b
  | None => false
  end.

(** The browser delivering an event to [h]: it calls [handleEvent] of the
    dispatcher registered for the type of the event, if any. *)
Definition dispatchEvent (apply : nat -> list (string * value) -> res value)
           (drivers : list (string * driver process))
           (h : handle) (ev : value) : ST (cycle process) unit :=
  let* type := event_type ev in
  let* p := read world in
  if listening h type (log (dom p)) then
    match MoonEvents (dom p) !! h with
    | Some this => handleEvent apply drivers this ev
    | None => ret tt
    end
  else ret tt.

(** ** Vocabulary for the properties of the engine *)

(** The number of nodes of a description tree. *)
Fixpoint size (n : NodeNew) : nat :=
  match n with
  | mkNodeNew _ _ nodeData =>
      S (list_sum
           (map (fun kv =>
                   match kv with
                   | (_, VArr _ items) => list_sum (map size items)
                   | _ => 0
                   end) nodeData))
  end.

(** A relation between the state before and the state after that every
    step of a computation keeps, whether the computation returns or
    throws. *)
Definition respects {S A} (R : S -> S -> Prop) (m : ST S A) : Prop :=
  forall s r s', m s = (r, s') -> R s s'.

(** The DOM calls that build a blank element for the cache. *)
Definition is_blank (e : effect) : bool :=
  match e with
  | CreateBlank _ _ => true
  | _ => false
  end.

(** The state only grows: the log is extended, no address is reused, a text
    node stays a text node, and a cached blank element stays cached. *)
Definition extends (st st' : state) : Prop :=
  (exists d, log st' = log st ++ d) /\
  next st <= next st' /\
  texts st ⊆ texts st' /\
  removeDataPropertyCache st ⊆ removeDataPropertyCache st'.

(** How many blank elements of kind [tag] the logged calls built. *)
Fixpoint blanks (tag : string) (l : list effect) : nat :=
  match l with
  | [] => 0
  | CreateBlank _ t :: rest =>
      (if String.eqb t tag then 1 else 0) + blanks tag rest
  | _ :: rest => blanks tag rest
  end.

(** The cache is in step with the log: for a kind it holds, one blank
    element was built, and it is the one the cache holds; for any other
    kind none was built. *)
Definition cache_ok (st : state) : Prop :=
  forall tag,
    match removeDataPropertyCache st !! tag with
    | Some blank =>
        blanks tag (log st) = 1 /\ In (CreateBlank blank tag) (log st)
    | None => blanks tag (log st) = 0
    end.

(** One operation of the engine issued during the life of the process, a
    creation or a patch, whether it returns or throws. *)
Definition engine_step (factory_default : string -> string -> value)
           (st st' : state) : Prop :=
  (exists n r, viewCreate n st = (r, st')) \/
  (exists nodeOld nodeNew r,
      viewPatch factory_default nodeOld nodeNew st = (r, st')).

(** The reading of the removal of attributes under which a patch with a
    description of the record's kind resets every generic key that the old
    description has and the new one has not, whatever the key. *)
Definition resets_every_dropped_property
           (factory_default : string -> string -> value)
           (nodeOld : NodeOld) (nodeNew : NodeNew) (st : state) : Prop :=
  forall nodeOld' st' k v,
    name (node nodeOld) = name nodeNew ->
    In (k, v) (data (node nodeOld)) ->
    has k (data nodeNew) = false ->
    classify k = KProperty ->
    viewPatch factory_default nodeOld nodeNew st = (Ok nodeOld', st') ->
    exists pre post,
      log st' =
      log st ++ pre
      ++ SetProperty (element nodeOld) k
           (factory_default (name (node nodeOld)) k) :: post.

(** The reading of the identity skip under which patching a record a second
    time with the same description issues no DOM call, whatever the
    description holds. *)
Definition second_patch_is_silent
           (factory_default : string -> string -> value)
           (nodeOld : NodeOld) (nodeNew : NodeNew) (st : state) : Prop :=
  forall nodeOld1 st1,
    viewPatch factory_default nodeOld nodeNew st = (Ok nodeOld1, st1) ->
    log (viewPatch factory_default nodeOld1 nodeNew st1).2 = log st1.

(** The DOM calls through which the removal loop of [viewPatch] acts. *)
Definition removal_effect (e : effect) : bool :=
  match e with
  | CreateBlank _ _ | RemoveEventListener _ _ | RemoveAttribute _ _
  | DeleteDataset _ _ | Blur _ | SetProperty _ _ _ | RemoveChild _ _ => true
  | _ => false
  end.

(** The calls logged between two states all belong to a class. *)
Definition logs_only (allowed : effect -> bool) (st st' : state) : Prop :=
  exists d, log st' = log st ++ d /\ Forall (fun e => allowed e = true) d.

(** The node a DOM call acts on: the receiver of the call, and for
    [replaceChild] the child that is replaced. *)
Definition subject (e : effect) : handle :=
  match e with
  | CreateTextNode h _ | CreateElement h _ | CreateBlank h _
  | AddEventListener h _ | RemoveEventListener h _
  | SetAttribute h _ _ | RemoveAttribute h _
  | SetDataset h _ _ | DeleteDataset h _ | SetStyle h _ _
  | Focus h | Blur h | SetProperty h _ _ => h
  | AppendChild p _ | RemoveChild p _ => p
  | ReplaceChild _ _ old => old
  end.

(** The handles a record and the records below it hold. *)
Fixpoint handles (r : NodeOld) : list handle :=
  match r with
  | mkNodeOld _ el _ cs => el :: flat_map handles cs
  end.

(** Between two states, the parent and the dispatcher of a node outside [F]
    are left as they were, and the calls logged are all [allowed]. *)
Definition within (F : handle -> Prop) (allowed : effect -> Prop)
           (st st' : state) : Prop :=
  (forall h, ~ F h ->
             parentNode st' !! h = parentNode st !! h /\
             MoonEvents st' !! h = MoonEvents st !! h) /\
  exists d, log st' = log st ++ d /\ Forall allowed d.

Definition is_listener (e : effect) : bool :=
  match e with
  | AddEventListener _ _ | RemoveEventListener _ _ => true
  | _ => false
  end.

(** The application the dispatcher of [el] holds for [key]. *)
Definition bound (st : state) (el : handle) (key : string) : option value :=
  default ∅ (MoonEvents st !! el) !! key.

(** Between two states, the binding of [key] at [el] is left as it was, and
    no call registers or removes the dispatcher of [el] for the event of
    [key]. *)
Definition keeps (el : handle) (key : string) (st st' : state) : Prop :=
  bound st' el key = bound st el key /\
  exists d, log st' = log st ++ d /\ registrations el (slice1 key) d = [].

(** What the rest of the process may do between two operations on the
    record of the element [el] without touching the event of [key] there:
    the binding of [key] at [el] is left as it was, no call registers or
    removes the dispatcher of [el] for the event of [key], and no address
    is reused. *)
Definition undisturbed (el : handle) (key : string) (st st' : state)
  : Prop :=
  keeps el key st st' /\ next st <= next st'.

(** The calls allowed to a loop that works for the element [el] on the
    nodes [G]: calls on the nodes [G], and calls on [el] other than the
    registration or removal of a listener. *)
Definition own_or (G : handle -> Prop) (el : handle) (e : effect) : Prop :=
  G (subject e) \/ (subject e = el /\ is_listener e = false).

(** The nodes a patch of the record [r] may act on from state [st]: those
    of the record, and those allocated from then on. *)
Definition reach (r : NodeOld) (st : state) (h : handle) : Prop :=
  In h (handles r) \/ next st <= h.

(** What [viewPatch] establishes when it returns [r'] in state [st'] from
    the record [r] in state [st]: it acted on the nodes within reach only,
    and the nodes of the record it returns are within reach. *)
Definition patched (r : NodeOld) (st : state) (r' : NodeOld) (st' : state)
  : Prop :=
  next st <= next st' /\
  within (reach r st) (fun e => reach r st (subject e)) st st' /\
  Forall (reach r st) (handles r').

(** What [viewCreate] establishes when it returns [r] from state [st] in
    state [st']: the record holds the description, a new array and a new
    node; every handle in it was allocated by this call; the call acted on
    new nodes only; and its first DOM call built the node of the record,
    of the kind of the description. *)
Definition created (n : NodeNew) (st : state) (r : NodeOld) (st' : state)
  : Prop :=
  node r = n /\
  children_ref r = next st /\
  element r = S (next st) /\
  S (S (next st)) <= next st' /\
  Forall (fun c => Forall (fun h => S (next st) < h < next st') (handles c))
         (children r) /\
  within (fun h => next st <= h) (fun e => next st <= subject e) st st' /\
  exists rest,
    log st' =
    log st
    ++ (if String.eqb (name n) "text"
        then CreateTextNode (S (next st)) (get "data" (data n))
        else CreateElement (S (next st)) (name n)) :: rest.

(** The old array of children holds at index [i] the very description
    [childNew]: the pair that a patch of the children skips. *)
Definition same_at (valueOld : value) (i : nat) (childNew : NodeNew)
  : Prop :=
  exists a olds o,
    valueOld = VArr a olds /\ olds !! i = Some o /\ ref o = ref childNew.

(** Patching records position by position, from the index [i] on: each
    record in turn is patched with the description at its position, in the
    state the patch before it left, unless the old array holds that very
    description there, in which case the record is left as it is and
    nothing is done. *)
Inductive patched_in_place (patch : NodeOld -> NodeNew -> M NodeOld)
          (valueOld : value) :
  nat -> list NodeOld -> list NodeNew -> state ->
  list NodeOld -> state -> Prop :=
| in_place_done i s : patched_in_place patch valueOld i [] [] s [] s
| in_place_skip i c cs childNew items s cs' s' :
    same_at valueOld i childNew ->
    patched_in_place patch valueOld (S i) cs items s cs' s' ->
    patched_in_place patch valueOld i (c :: cs) (childNew :: items) s
                     (c :: cs') s'
| in_place_patch i c cs childNew items s c' s1 cs' s' :
    ~ same_at valueOld i childNew ->
    patch c childNew s = (Ok c', s1) ->
    patched_in_place patch valueOld (S i) cs items s1 cs' s' ->
    patched_in_place patch valueOld i (c :: cs) (childNew :: items) s
                     (c' :: cs') s'.

(** Removing from the element [el] the nodes of records, one
    [removeChild] each, in turn. *)
Inductive removed_from (el : handle) : list NodeOld -> state -> state -> Prop :=
| removed_none s : removed_from el [] s s
| removed_next c cs s s1 s' :
    removeChild el (element c) s = (Ok tt, s1) ->
    removed_from el cs s1 s' ->
    removed_from el (c :: cs) s s'.

(** Creating a record for each description in turn and appending its node
    to the element [el]. *)
Inductive created_under (el : handle) :
  list NodeNew -> state -> list NodeOld -> state -> Prop :=
| created_none s : created_under el [] s [] s
| created_next childNew items s c s1 s2 cs s' :
    viewCreate childNew s = (Ok c, s1) ->
    appendChild el (element c) s1 = (Ok tt, s2) ->
    created_under el items s2 cs s' ->
    created_under el (childNew :: items) s (c :: cs) s'.

(** The number of children a description implies: the length of its
    [children] attribute, or zero when the key is absent or the kind is
    text. *)
Definition children_count (nodeData : list (string * value)) : nat :=
  match get "children" nodeData with
  | VArr _ items => length items
  | _ => 0
  end.

Definition implied (n : NodeNew) : nat :=
  if String.eqb (name n) "text" then 0 else children_count (data n).

(** A description as JavaScript builds it, read against the arrays [H] of
    the heap: the property names of its attribute object are distinct, and
    its array of children is the array the heap holds at that address; the
    same holds of the children. *)
#[local] Unset Elimination Schemes.
Inductive shaped (H : gmap nat (list NodeNew)) : NodeNew -> Prop :=
| shaped_node r nm nodeData :
    NoDup (map fst nodeData) ->
    (forall a items,
        In ("children", VArr a items) nodeData ->
        H !! a = Some items /\ Forall (shaped H) items) ->
    shaped H (mkNodeNew r nm nodeData).

(** The invariant of a record and of the records below it: the record has
    as many child records as its description implies, its description is
    shaped, and the node of a text description is a text node. *)
Inductive tracked (H : gmap nat (list NodeNew)) (st : state)
  : NodeOld -> Prop :=
| tracked_record n el cref cs :
    length cs = implied n ->
    shaped H n ->
    (name n = "text" -> el ∈ texts st) ->
    Forall (tracked H st) cs ->
    tracked H st (mkNodeOld n el cref cs).
#[local] Set Elimination Schemes.

(** Patching with any of [items] keeps the invariant. *)
Definition patches_track (H : gmap nat (list NodeNew))
           (factory_default : string -> string -> value)
           (items : list NodeNew) : Prop :=
  forall childNew, In childNew items ->
    forall c s c' s',
      tracked H s c -> shaped H childNew ->
      viewPatch factory_default c childNew s = (Ok c', s') ->
      tracked H s' c'.

(** The two operations of the engine. *)
Inductive operation : Type :=
| Create (n : NodeNew)
| Patch (nodeOld : NodeOld) (nodeNew : NodeNew).

Definition perform (factory_default : string -> string -> value)
           (op : operation) : M NodeOld :=
  match op with
  | Create n => viewCreate n
  | Patch nodeOld nodeNew => viewPatch factory_default nodeOld nodeNew
  end.

(** What an operation expects of its arguments. *)
Definition ready (H : gmap nat (list NodeNew)) (st : state) (op : operation)
  : Prop :=
  match op with
  | Create n => shaped H n
  | Patch nodeOld nodeNew => tracked H st nodeOld /\ shaped H nodeNew
  end.

(** A relation that the state changes of the engine keep; [viewCreate] and
    [viewPatch] are built from these changes alone. *)
Class Kept (factory_default : string -> string -> value)
      (R : state -> state -> Prop) : Prop := {
  kept_refl : forall s, R s s;
  kept_trans : forall a b c, R a b -> R b c -> R a c;
  kept_alloc : respects R alloc;
  kept_emit : forall e, is_blank e = false -> respects R (emit e);
  kept_createTextNode : forall v, respects R (createTextNode v);
  kept_set_parentNode : forall p, respects R (set_parentNode p);
  kept_set_MoonEvents : forall m, respects R (set_MoonEvents m);
  kept_removeDataProperty :
    forall el tag key,
      respects R (removeDataProperty factory_default el tag key)
}.

(** ** Examples *)

(** A registry with one healthy driver, and an application whose output
    names an unregistered driver before it. *)
Definition one_driver : list (string * driver unit) :=
  [("a", mkDriver (Some (ret VNull)) (Some (fun _ => ret tt)))].

Definition ghost_first (_ : nat) (_ : list (string * value)) : res value :=
  Ok (VObj 1 [("ghost", VNum 1); ("a", VNum 2)]).

Definition echo (_ : nat) (_ : list (string * value)) : res value :=
  Ok (VObj 1 [("a", VNum 2)]).

(** What the DOM of the pages below refuses: the assignment to the
    read-only [tagName], and an element without a name. *)
Definition read_only_tagName (e : effect) : option exn :=
  match e with
  | SetProperty _ key _ =>
      if String.eqb key "tagName" then Some TypeError else None
  | CreateElement _ tag | CreateBlank _ tag =>
      if String.eqb tag "" then Some InvalidCharacterError else None
  | _ => None
  end.

(** A page whose root element [1] sits in the body [0]; every property of a
    fresh element is the empty string. *)
Definition page : state :=
  mkState 2 ∅ {[ 1 := 0 ]} ∅ ∅ [] read_only_tagName.

Definition empty_defaults (_ _ : string) : value := VStr "".

(** The record of the root as the view driver adopts it. *)
Definition adopted : NodeOld :=
  mkNodeOld (mkNodeNew 0 "div" []) 1 0 [].

Definition nan_titled : NodeNew := mkNodeNew 10 "div" [("title", VNaN)].

Definition styled : NodeNew :=
  mkNodeNew 11 "div" [("style", VObj 12 [("color", VStr "red")]);
                      ("title", VStr "t")].

Definition bare : NodeNew := mkNodeNew 13 "div" [].

(** A [div] with an attribute named like a member of [Object.prototype]. *)
Definition constructed : NodeNew :=
  mkNodeNew 18 "div" [("constructor", VStr "x")].

(** The page after the root, holding [styled], was patched with [bare]. *)
Definition page_after_drop : state :=
  mkState 3 ∅ {[ 1 := 0 ]} ∅ {[ "div" := 2 ]}
          [CreateBlank 2 "div"; SetProperty 1 "style" (VStr "");
           SetProperty 1 "title" (VStr "")]
          read_only_tagName.

Definition spanned : NodeNew :=
  mkNodeNew 14 "span" [("children", VArr 15 [mkNodeNew 16 "text"
                                               [("data", VStr "hi")]])].

Definition listed : NodeNew :=
  mkNodeNew 17 "div" [("children", VArr 15 [mkNodeNew 16 "text"
                                              [("data", VStr "hi")]])].

(** The arrays of the heap that [listed] and [spanned] refer to. *)
Definition arrays : gmap nat (list NodeNew) :=
  {[ 15 := [mkNodeNew 16 "text" [("data", VStr "hi")]] ]}.

(** A page whose root [1] holds a titled [div] with two text children,
    [3] and [5]. *)
Definition text_x : NodeNew := mkNodeNew 22 "text" [("data", VStr "x")].
Definition text_y : NodeNew := mkNodeNew 23 "text" [("data", VStr "y")].
Definition text_z : NodeNew := mkNodeNew 24 "text" [("data", VStr "z")].

Definition two_texts : list NodeOld :=
  [mkNodeOld text_x 3 2 []; mkNodeOld text_y 5 4 []].

Definition div_record : NodeOld :=
  mkNodeOld (mkNodeNew 20 "div" [("title", VStr "t");
                                 ("children", VArr 21 [text_x; text_y])])
            1 0 two_texts.

Definition lived_in : state :=
  mkState 6 {[ 3; 5 ]} {[ 1 := 0; 3 := 1; 5 := 1 ]} ∅ ∅ []
          read_only_tagName.

(** Two buttons of the same kind that bind the click to the applications
    [1] and [2]. *)
Definition press_A : NodeNew :=
  mkNodeNew 40 "button"
            [("@click", VFun 1);
             ("children", VArr 42 [mkNodeNew 43 "text" [("data", VStr "0")]])].

Definition press_B : NodeNew :=
  mkNodeNew 44 "button"
            [("@click", VFun 2);
             ("children", VArr 45 [mkNodeNew 46 "text" [("data", VStr "1")]])].

Definition pressed : NodeOld :=
  mkNodeOld press_A 3 2
            [mkNodeOld (mkNodeNew 43 "text" [("data", VStr "0")]) 5 4 []].

Definition page_pressed : state := (viewCreate press_A page).2.

Definition repressed : NodeOld :=
  mkNodeOld press_B 3 2
            [mkNodeOld (mkNodeNew 46 "text" [("data", VStr "1")]) 5 4 []].

Definition page_repressed : state :=
  (viewPatch empty_defaults pressed press_B page_pressed).2.

(** What creating [spanned] on the lived-in page returns. *)
Definition span_record : NodeOld :=
  mkNodeOld spanned 7 6
            [mkNodeOld (mkNodeNew 16 "text" [("data", VStr "hi")]) 9 8 []].

Definition lived_in_spanned : state := (viewCreate spanned lived_in).2.

(** The children loop on the lived-in page, towards one child. *)
Definition shrunk : res (list NodeOld) * state :=
  patchChildren (viewPatch empty_defaults) (VArr 21 [text_x; text_y]) 1
                [text_z] two_texts lived_in.

(** ** The view driver *)

(** [input] of the driver [driver$1] returns: the current view event. *)
Definition view_input : ST process value := read viewEvent.

(** A function of a driver that leaves the current view event as it is. *)
Definition keeps_viewEvent {A} (m : ST process A) : Prop :=
  respects (fun p p' => viewEvent p' = viewEvent p) m.

(** ** Vocabulary for the diff of a group *)

(** The state after the DOM calls [d] were logged and nothing else
    changed. *)
Definition logging (d : list effect) (st : state) : state :=
  mkState (next st) (texts st) (parentNode st) (MoonEvents st)
          (removeDataPropertyCache st) (log st ++ d) (refused st).

(** The sub-keys the old value of a group brings to a diff: the own
    properties of the object, and none when the key was absent from the
    old data. *)
Inductive group_of : value -> list (string * value) -> Prop :=
| group_absent : group_of VUndef []
| group_object r fields : group_of (VObj r fields) fields.

(** [valueOld === undefined ? valueOld : valueOld[key]] for such a value:
    what the object has or inherits for the sub-key, and [undefined] when
    the key was absent from the old data. *)
Definition old_at (valueOld : value) (key : string) : value :=
  match valueOld with
  | VObj _ olds => at_key key olds
  | _ => VUndef
  end.

(** The sub-keys of the new group whose value is not the old one, and the
    sub-keys of the old group for which [key in valueNew] fails. *)
Definition changed (valueOld : value) (fields : list (string * value))
  : list (string * value) :=
  List.filter (fun kv => negb (strict_eq (old_at valueOld kv.1) kv.2)) fields.

Definition dropped (olds fields : list (string * value))
  : list (string * value) :=
  List.filter (fun kv => negb (key_in kv.1 fields)) olds.

(** The DOM refuses none of the calls [d]. *)
Definition accepted (st : state) (d : list effect) : Prop :=
  Forall (fun e => refused st e = None) d.

(** ** Vocabulary for the reach of a patch *)

(** The node a DOM call is made on. *)
Definition receiver (e : effect) : handle :=
  match e with
  | CreateTextNode h _ | CreateElement h _ | CreateBlank h _
  | AddEventListener h _ | RemoveEventListener h _
  | SetAttribute h _ _ | RemoveAttribute h _
  | SetDataset h _ _ | DeleteDataset h _ | SetStyle h _ _
  | Focus h | Blur h | SetProperty h _ _ => h
  | AppendChild p _ | RemoveChild p _ | ReplaceChild p _ _ => p
  end.

(** A DOM call within the reach [R]: a call made on a node of [R], or the
    [replaceChild] that replaces a node of [R]; the latter is made on the
    parent of that node, which need not be in [R]. *)
Definition call_within (R : handle -> Prop) (e : effect) : Prop :=
  match e with
  | ReplaceChild _ _ old => R old
  | _ => R (receiver e)
  end.

(** ** Further examples *)

(** A driver with neither function. *)
Definition mute : driver unit := mkDriver None None.

(** A button of the kind of [press_A] that binds no event. *)
Definition released : NodeNew :=
  mkNodeNew 47 "button"
            [("children", VArr 42 [mkNodeNew 43 "text" [("data", VStr "0")]])].

Definition page_released : state :=
  (viewPatch empty_defaults pressed released page_pressed).2.

(** The view driver alone, a dispatcher that binds the click to the
    application [1], and a click. *)
Definition view_only : list (string * driver process) :=
  [("view", mkDriver (Some view_input) None)].

Definition on_click : gmap string value := {[ "@click" := VFun 1 ]}.

Definition click : value := VObj 50 [("type", VStr "click")].

(** Two values of a group. *)
Definition red_wide : list (string * value) :=
  [("color", VStr "red"); ("width", VStr "1px")].

Definition blue : list (string * value) := [("color", VStr "blue")].
(** ** Descriptions the engine renders, and records in step with the DOM *)

(** Keys whose value is a group of sub-keys. *)
Definition is_group (k : string) : bool :=
  match classify k with
  | KAriaset | KDataset | KStyle => true
  | _ => false
  end.

(** Keys whose value is assigned to a property of the node. *)
Definition is_plain (k : string) : bool :=
  match classify k with
  | KProperty | KClass | KFor => true
  | _ => false
  end.

(** The name that a DOM call passes to the page and that the page may
    refuse: the name of the element to build, of the attribute to set, of
    the property to assign. *)
Definition mentions (e : effect) : option string :=
  match e with
  | CreateElement _ tag | CreateBlank _ tag => Some tag
  | SetAttribute _ attr _ => Some attr
  | SetDataset _ key _ | SetStyle _ key _ | SetProperty _ key _ => Some key
  | _ => None
  end.

(** The own properties of a group value. *)
Definition fields_of (v : value) : list (string * value) :=
  match v with
  | VObj _ fields => fields
  | _ => []
  end.

(** The names that the attribute [k] with the value [v] makes the engine
    pass to the DOM, when it is created, updated or removed. *)
Definition names_of (k : string) (v : value) : list string :=
  match classify k with
  | KProperty => [k]
  | KClass => ["className"]
  | KFor => ["htmlFor"]
  | KStyle => "style" :: map fst (fields_of v)
  | KAriaset => map (fun kv => "aria-" ++ kv.1)%string (fields_of v)
  | KDataset => map fst (fields_of v)
  | KEvent | KFocus | KChildren => []
  end.

Section Rendering.

(** The names the DOM of the page has no objection to. *)
Variable N : string -> Prop.

(** The DOM refuses no call on the names [N]. *)
Definition welcomes (st : state) : Prop :=
  forall e k, mentions e = Some k -> N k -> refused st e = None.

(** The kind of a description and the names of its attributes are
    among [N]. *)
Definition voiced (n : NodeNew) : Prop :=
  N (name n) /\
  forall k v, In (k, v) (data n) -> Forall N (names_of k v).

(** A description whose attributes have the values the engine expects of
    them: a text holds properties only; in an element an event key holds
    a value other than [undefined], a group key holds an object, and
    [children] holds an array of such descriptions; and the DOM has no
    objection to the names it uses. *)
#[local] Unset Elimination Schemes.
Inductive renderable : NodeNew -> Prop :=
| renderable_text r nodeData :
    (forall k v, In (k, v) nodeData -> is_plain k = true) ->
    voiced (mkNodeNew r "text" nodeData) ->
    renderable (mkNodeNew r "text" nodeData)
| renderable_element r nm nodeData :
    nm <> "text" ->
    (forall k v, In (k, v) nodeData -> is_event k = true -> v <> VUndef) ->
    (forall k v, In (k, v) nodeData -> is_group k = true ->
                 exists a fields, v = VObj a fields) ->
    (forall v, In ("children", v) nodeData ->
               exists a items, v = VArr a items /\ Forall renderable items) ->
    voiced (mkNodeNew r nm nodeData) ->
    renderable (mkNodeNew r nm nodeData).

(** A record in step with the DOM, and so the records below it: its
    description is renderable; its node was allocated, and is a text node
    exactly when the description is a text; the node has a dispatcher
    when the description binds an event; the node of each child record is
    a child of the node; and no node occurs twice in the record. *)
Inductive wired (st : state) : NodeOld -> Prop :=
| wired_record n el cref cs :
    renderable n ->
    el < next st ->
    (el ∈ texts st <-> name n = "text") ->
    ((exists k v, In (k, v) (data n) /\ is_event k = true) ->
     is_Some (MoonEvents st !! el)) ->
    Forall (fun c => parentNode st !! element c = Some el) cs ->
    NoDup (el :: flat_map handles cs) ->
    Forall (wired st) cs ->
    wired st (mkNodeOld n el cref cs).
#[local] Set Elimination Schemes.

(** Every text node was allocated. *)
Definition allocated (st : state) : Prop :=
  forall h, h ∈ texts st -> h < next st.

(** Between two states no address is reused, and the text nodes that
    appear are new. *)
Definition grows (st st' : state) : Prop :=
  next st <= next st' /\
  forall h, h ∈ texts st' -> h ∈ texts st \/ next st <= h < next st'.

(** The DOM refuses after what it refused before. *)
Definition same_rules (st st' : state) : Prop := refused st' = refused st.

(** What the loops that build and patch the children [cs] of the element
    [el] keep: [el] is an element that was allocated, each of [cs] is in
    step with the DOM and has its node under [el], no node occurs twice
    among [el] and the nodes of [cs], and the DOM refuses no call on the
    names [N]. *)
Definition nest (el : handle) (st : state) (cs : list NodeOld) : Prop :=
  allocated st /\
  el < next st /\
  (el ∉ texts st) /\
  Forall (fun c => parentNode st !! element c = Some el) cs /\
  NoDup (el :: flat_map handles cs) /\
  Forall (wired st) cs /\
  welcomes st.

(** Patching with [childNew] a record that is in step with the DOM and
    has a parent returns a record in step with the DOM, under the same
    parent. *)
Definition patches_render (H : gmap nat (list NodeNew))
           (factory_default : string -> string -> value)
           (childNew : NodeNew) : Prop :=
  forall c st,
    allocated st -> welcomes st -> tracked H st c -> wired st c ->
    is_Some (parentNode st !! element c) ->
    exists c' st',
      viewPatch factory_default c childNew st = (Ok c', st') /\
      allocated st' /\ wired st' c' /\
      parentNode st' !! element c' = parentNode st !! element c.

End Rendering.

(** ** The view driver on a root element *)

(** [c.toLowerCase()] on a character of a tag name. *)
Definition lower (c : ascii) : ascii :=
  let n := nat_of_ascii c in
  if Nat.leb 65 n && Nat.leb n 90 then ascii_of_nat (n + 32) else c.

(** [tagName.toLowerCase()]; tag names are ASCII. *)
Fixpoint toLowerCase (s : string) : string :=
  match s with
  | EmptyString => EmptyString
  | String c rest => String (lower c) (toLowerCase rest)
  end.

(** What [driver$1] is given as [root]: a query string or an element. *)
Inductive target : Type :=
| Selector (query : string)
| Element (h : handle).

Section ViewDriver.

(** What the page answers: [document.querySelector(query)] ([None] for
    [null]), and for an element its [tagName] and its [attributes], each a
    name and a value, in order. *)
Variable querySelector : string -> option handle.
Variable tagName : handle -> string.
Variable attributes : handle -> list (string * string).

(** The loop [dataOld[rootAttribute.name] = rootAttribute.value]. *)
Definition dataOld_of (rootAttributes : list (string * string))
  : list (string * value) :=
  fold_left (fun dataOld a => set a.1 (VStr a.2) dataOld) rootAttributes [].

(** [driver$1(root)] up to its [return]: the record [viewOld] that the
    functions of the driver share. *)
Definition driver_view (root : target) : M NodeOld :=
  let* root :=
    match root with
    | Selector query =>
        match querySelector query with
        | Some h => ret h
        | None => throw TypeError
        end
    | Element h => ret h
    end in
  let dataOld := dataOld_of (attributes root) in
  let* ref := alloc in
  let* children_ref := alloc in
  ret (mkNodeOld (mkNodeNew ref (toLowerCase (tagName root)) dataOld)
                 root children_ref []).

End ViewDriver.

(** Successive calls of [output] of one view driver, one per view: each
    is [viewPatch(viewOld, viewNew)] on the record the driver holds, as
    the patches before it left it. *)
Fixpoint outputs (factory_default : string -> string -> value)
         (viewOld : NodeOld) (views : list NodeNew) : M NodeOld :=
  match views with
  | [] => ret viewOld
  | viewNew :: rest =>
      let* viewOld' := viewPatch factory_default viewOld viewNew in
      outputs factory_default viewOld' rest
  end.

(** ** The data driver *)

Section DataDriver.

(** The world holds the variable [data] of the module. *)
Variable W : Type.
Variable data_of : W -> value.
Variable with_data : value -> W -> W.

(** [driver]: [input] returns the stored data, [output] stores its
    argument. *)
Definition data_driver : driver W :=
  mkDriver (Some (fun w => (Ok (data_of w), w)))
           (Some (fun dataNew w => (Ok tt, with_data dataNew w))).

(** A driver whose [output] leaves the stored data alone. *)
Definition keeps_data (d : driver W) : Prop :=
  forall g v, output d = Some g ->
              respects (fun w w' => data_of w' = data_of w) (g v).

End DataDriver.

Arguments data_driver {W}.
Arguments keeps_data {W}.

(** ** Drivers that do not fail *)

(** A driver that has both functions, neither of which throws. *)
Definition healthy {W} (d : driver W) : Prop :=
  (exists f, input d = Some f /\ forall w, exists v w', f w = (Ok v, w')) /\
  (exists g, output d = Some g /\
             forall v w, exists w', g v w = (Ok tt, w')).

(** ** Examples of rendering *)

(** The arrays of the heap that [press_A] and [press_B] refer to. *)
Definition button_arrays : gmap nat (list NodeNew) :=
  {[ 42 := [mkNodeNew 43 "text" [("data", VStr "0")]];
     45 := [mkNodeNew 46 "text" [("data", VStr "1")]] ]}.

(** A page that answers every query with the root [1], a [DIV] with two
    attributes. *)
Definition the_root (_ : string) : option handle := Some 1.
Definition div_tag (_ : handle) : string := "DIV".
Definition id_and_class (_ : handle) : list (string * string) :=
  [("id", "app"); ("class", "x")].

(** The names the DOM of the pages above has no objection to. *)
Definition page_names (k : string) : Prop := k <> "tagName" /\ k <> "".

(** The world of a program that has the data driver only, and an
    application that stores [7]. *)
Definition stored (w : value) : value := w.
Definition store (v : value) (_ : value) : value := v.
Definition data_only : list (string * driver value) :=
  [("data", data_driver stored store)].
Definition seven (_ : nat) (_ : list (string * value)) : res value :=
  Ok (VObj 1 [("data", VNum 7)]).

(** ** Records that mirror their descriptions *)

(** The child descriptions of an attribute object. *)
Definition children_of (nodeData : list (string * value)) : list NodeNew :=
  match get "children" nodeData with
  | VArr _ items => items
  | _ => []
  end.

(** A record that mirrors its description, and so the records below it:
    the description is shaped, and unless it is a text the child records
    hold, position by position, descriptions at the addresses of its
    child descriptions. *)
#[local] Unset Elimination Schemes.
Inductive mirrored (H : gmap nat (list NodeNew)) : NodeOld -> Prop :=
| mirrored_record n el cref cs :
    shaped H n ->
    (name n <> "text" ->
     map ref (map node cs) = map ref (children_of (data n))) ->
    Forall (mirrored H) cs ->
    mirrored H (mkNodeOld n el cref cs).
#[local] Set Elimination Schemes.

(** Patching a record that mirrors its description with any of [items]
    returns a record that mirrors it. *)
Definition patches_mirror (H : gmap nat (list NodeNew))
           (factory_default : string -> string -> value)
           (items : list NodeNew) : Prop :=
  forall childNew, In childNew items ->
    forall c s c' s',
      mirrored H c -> shaped H childNew ->
      viewPatch factory_default c childNew s = (Ok c', s') ->
      mirrored H c'.

(** * Properties *)

(** ** Reasoning about computations *)

Lemma bind_Ok {S A B} (m : ST S A) (f : A -> ST S B) s b s' :
  bind m f s = (Ok b, s') ->
  exists a s1, m s = (Ok a, s1) /\ f a s1 = (Ok b, s').
Proof.
  unfold bind. destruct (m s) as [[a|e] s1]; intros H.
  - exists a, s1. split; [reflexivity | exact H].
  - discriminate H.
Qed.

Lemma bind_Ok_intro {S A B} (m : ST S A) (f : A -> ST S B) s a s1 :
  m s = (Ok a, s1) -> bind m f s = f a s1.
Proof. unfold bind. intros ->. reflexivity. Qed.

Lemma bind_Throw_intro {S A B} (m : ST S A) (f : A -> ST S B) s e s1 :
  m s = (Throw e, s1) -> bind m f s = (Throw e, s1).
Proof. unfold bind. intros ->. reflexivity. Qed.

(** A call the DOM may refuse returns exactly when it is not refused, and
    is then issued. *)
Lemma request_Ok e s u s' :
  request e s = (Ok u, s') ->
  refused s e = None /\ emit e s = (Ok u, s').
Proof.
  unfold request, bind, read. destruct (refused s e); [discriminate|].
  intros H. split; [reflexivity|exact H].
Qed.

Lemma request_accepted e s :
  refused s e = None -> request e s = emit e s.
Proof. unfold request, bind, read. intros ->. reflexivity. Qed.

Lemma request_refused e s x :
  refused s e = Some x -> request e s = (Throw x, s).
Proof. unfold request, bind, read. intros ->. reflexivity. Qed.

Lemma createElement_Ok tag s h s' :
  createElement tag s = (Ok h, s') ->
  h = next s /\
  s' = mkState (S (next s)) (texts s) (parentNode s) (MoonEvents s)
               (removeDataPropertyCache s)
               (log s ++ [CreateElement (next s) tag]) (refused s) /\
  refused s (CreateElement (next s) tag) = None.
Proof.
  unfold createElement. intros H.
  apply bind_Ok in H as (h0 & s0 & Halloc & H). injection Halloc as <- <-.
  apply bind_Ok in H as ([] & s1 & Hreq & H).
  apply request_Ok in Hreq as [Hacc Hreq]. injection Hreq as <-.
  injection H as <- <-. auto.
Qed.

Lemma createElement_accepted tag s :
  refused s (CreateElement (next s) tag) = None ->
  createElement tag s
  = (Ok (next s),
     mkState (S (next s)) (texts s) (parentNode s) (MoonEvents s)
             (removeDataPropertyCache s)
             (log s ++ [CreateElement (next s) tag]) (refused s)).
Proof.
  intros Hacc. unfold createElement, request, bind, alloc, read. simpl.
  rewrite Hacc. reflexivity.
Qed.

(** The members of [Object.prototype] are none of the reserved keys, and
    no event key. *)
Lemma key_in_own key obj :
  inherited key = false -> key_in key obj = has key obj.
Proof. unfold key_in. intros ->. apply orb_false_r. Qed.

Lemma key_in_has key obj : has key obj = true -> key_in key obj = true.
Proof. unfold key_in. intros ->. reflexivity. Qed.

Lemma key_in_false key obj :
  key_in key obj = false -> has key obj = false /\ inherited key = false.
Proof. unfold key_in. apply orb_false_elim. Qed.

Lemma at_key_has key obj : has key obj = true -> at_key key obj = get key obj.
Proof. unfold at_key. intros ->. reflexivity. Qed.

Lemma inherited_event key : is_event key = true -> inherited key = false.
Proof.
  destruct key as [|c key]; [discriminate|]. simpl. intros Hc.
  apply Ascii.eqb_eq in Hc. subst c. reflexivity.
Qed.

Lemma for_each_app {S A} (body : A -> ST S unit) l1 l2 s :
  for_each body (l1 ++ l2) s = (for_each body l1 ;; for_each body l2) s.
Proof.
  revert s. induction l1 as [|a l1 IH]; intros s; simpl.
  - reflexivity.
  - unfold bind. destruct (body a s) as [[[]|e] s1]; [|reflexivity].
    rewrite IH. reflexivity.
Qed.

Lemma size_child r nm nodeData k a items c :
  In (k, VArr a items) nodeData -> In c items ->
  size c < size (mkNodeNew r nm nodeData).
Proof.
  intros Hd Hc. simpl. apply Nat.lt_succ_r.
  induction nodeData as [|kv nodeData IH]; [destruct Hd|].
  simpl. destruct Hd as [->|Hd].
  - clear IH. induction items as [|c' items IH]; [destruct Hc|].
    simpl. destruct Hc as [->|Hc]; [lia|]. specialize (IH Hc). lia.
  - specialize (IH Hd). lia.
Qed.

(** Induction on a description: the children under its array values come
    first. *)
Lemma NodeNew_children_ind (P : NodeNew -> Prop) :
  (forall r nm nodeData,
      (forall k a items c,
          In (k, VArr a items) nodeData -> In c items -> P c) ->
      P (mkNodeNew r nm nodeData)) ->
  forall n, P n.
Proof.
  intros Hstep n.
  remember (size n) as m eqn:Hm. revert n Hm.
  induction m as [m IH] using lt_wf_ind. intros [r nm nodeData] ->.
  apply Hstep. intros k a items c Hd Hc.
  apply (IH (size c)); [|reflexivity].
  eapply size_child; eassumption.
Qed.

Section Respects.
Context {S : Type} (R : S -> S -> Prop).
Hypothesis R_refl : forall s, R s s.
Hypothesis R_trans : forall a b c, R a b -> R b c -> R a c.

Lemma respects_ret {A} (a : A) : respects R (ret a).
Proof. intros s r s' H. injection H as _ <-. apply R_refl. Qed.

Lemma respects_throw {A} e : respects R (throw (A := A) e).
Proof. intros s r s' H. injection H as _ <-. apply R_refl. Qed.

Lemma respects_read {A} (f : S -> A) : respects R (read f).
Proof. intros s r s' H. injection H as _ <-. apply R_refl. Qed.

Lemma respects_lift {A} (x : res A) : respects R (lift x).
Proof. intros s r s' H. injection H as _ <-. apply R_refl. Qed.

Lemma respects_bind {A B} (m : ST S A) (f : A -> ST S B) :
  respects R m -> (forall a, respects R (f a)) -> respects R (bind m f).
Proof.
  intros Hm Hf s r s' H. unfold bind in H.
  destruct (m s) as [[a|e] s1] eqn:Hms.
  - eapply R_trans; [eapply Hm; eassumption | eapply Hf; eassumption].
  - injection H as _ <-. eapply Hm; eassumption.
Qed.

Lemma respects_fold_m {A X} (body : X -> A -> ST S X) l x :
  (forall x a, In a l -> respects R (body x a)) ->
  respects R (fold_m body l x).
Proof.
  revert x. induction l as [|a l IH]; intros x Hb; simpl.
  - apply respects_ret.
  - apply respects_bind; [apply Hb; left; reflexivity|].
    intros x'. apply IH. intros x0 a0 Hin. apply Hb. right. exact Hin.
Qed.

Lemma respects_for_each {A} (body : A -> ST S unit) l :
  (forall a, In a l -> respects R (body a)) ->
  respects R (for_each body l).
Proof.
  induction l as [|a l IH]; intros Hb; simpl.
  - apply respects_ret.
  - apply respects_bind; [apply Hb; left; reflexivity|].
    intros _. apply IH. intros a0 Hin. apply Hb. right. exact Hin.
Qed.

Lemma respects_for_in v : respects R (for_in (S := S) v).
Proof. apply respects_lift. Qed.

End Respects.

(** ** The dispatch loop *)

Section DispatchFacts.
Context {W : Type}.
Variable apply : nat -> list (string * value) -> res value.

Lemma set_fresh key v (obj : list (string * value)) :
  key ∉ map fst obj -> set key v obj = obj ++ [(key, v)].
Proof.
  induction obj as [|[k w] obj IH]; simpl; intros Hk.
  - reflexivity.
  - rewrite not_elem_of_cons in Hk. destruct Hk as [Hne Hk].
    destruct (String.eqb_spec k key) as [->|_]; [congruence|].
    rewrite IH by assumption. reflexivity.
Qed.

Lemma gather_loop (drivers : list (string * driver W)) acc s inputs s' :
  NoDup (map fst drivers) ->
  (forall k, k ∈ map fst acc -> k ∉ map fst drivers) ->
  fold_m (fun inputs kd =>
            match input kd.2 with
            | None => error (NoInput kd.1) ;; throw TypeError
            | Some f =>
                note (CallInput kd.1) ;;
                let* v := on_world f in
                ret (set kd.1 v inputs)
            end) drivers acc s = (Ok inputs, s') ->
  exists new,
    inputs = acc ++ new /\
    asked drivers (world s) new (world s') /\
    journal s' = journal s ++ map (fun kd => CallInput kd.1) drivers.
Proof.
  revert acc s. induction drivers as [|[k d] drivers IH]; intros acc s Hnd Hacc H.
  - simpl in H. injection H as <- <-. exists []. rewrite !app_nil_r.
    split; [reflexivity|]. split; [constructor|reflexivity].
  - simpl in H. apply bind_Ok in H as (acc1 & s1 & Hstep & Hrest).
    simpl in Hnd. apply NoDup_cons in Hnd as [Hk Hnd].
    destruct (input d) as [f|] eqn:Hin.
    + apply bind_Ok in Hstep as ([] & s2 & Hnote & Hstep).
      apply bind_Ok in Hstep as (v & s3 & Hcall & Hret).
      injection Hnote as <-. injection Hret as <- <-.
      unfold on_world in Hcall. simpl in Hcall.
      destruct (f (world s)) as [r w'] eqn:Hf. injection Hcall as -> <-.
      assert (Hfresh : k ∉ map fst acc).
      { intros Hin'. apply (Hacc k Hin'). simpl. left. }
      rewrite set_fresh in Hrest by assumption.
      apply IH in Hrest as (new & -> & Hall & Hj); [|assumption|].
      * exists ((k, v) :: new). split; [|split].
        -- rewrite <- app_assoc. reflexivity.
        -- econstructor; [exact Hin|exact Hf|exact Hall].
        -- rewrite Hj. simpl. rewrite <- app_assoc. reflexivity.
      * intros k' Hk'. rewrite map_app in Hk'. simpl in Hk'.
        apply elem_of_app in Hk' as [Hk'|Hk'].
        -- specialize (Hacc k' Hk'). simpl in Hacc.
           rewrite not_elem_of_cons in Hacc. tauto.
        -- apply list_elem_of_singleton in Hk' as ->. assumption.
    + apply bind_Ok in Hstep as ([] & s2 & _ & Hthrow). discriminate Hthrow.
Qed.

Lemma deliver_loop (drivers : list (string * driver W)) entries s s' :
  for_each (deliver drivers) entries s = (Ok tt, s') ->
  served drivers entries (world s) (world s') /\
  Forall (deliverable drivers) entries /\
  journal s' = journal s ++ map (fun kv => CallOutput kv.1 kv.2) entries.
Proof.
  revert s. induction entries as [|[k v] entries IH]; intros s H; simpl in H.
  - injection H as <-. rewrite app_nil_r.
    split; [constructor|]. split; [constructor|reflexivity].
  - apply bind_Ok in H as ([] & s1 & Hd & Hrest).
    apply IH in Hrest as (Hserved & Hall & Hj).
    unfold deliver in Hd. simpl in Hd.
    destruct (find_driver k drivers) as [d|] eqn:Hfind.
    + destruct (output d) as [f|] eqn:Hout.
      * apply bind_Ok in Hd as ([] & s2 & Hnote & Hcall).
        injection Hnote as <-.
        unfold on_world in Hcall. simpl in Hcall.
        destruct (f v (world s)) as [r w'] eqn:Hf. injection Hcall as -> <-.
        split; [|split].
        -- econstructor; [exact Hfind|exact Hout|exact Hf|exact Hserved].
        -- constructor; [|assumption]. exists d, f. auto.
        -- rewrite Hj. simpl. rewrite <- app_assoc. reflexivity.
      * apply bind_Ok in Hd as ([] & s2 & _ & Hthrow). discriminate Hthrow.
    + destruct (inherited k);
        apply bind_Ok in Hd as ([] & s2 & _ & Hthrow); discriminate Hthrow.
Qed.

(** C5. A cycle of [run] that returns has called [input] of every
    registered driver in registry order, each in the world the call
    before it left, and collected the values returned under the drivers'
    names; it has then called the application once, on that record; and
    it has then called [output] of the same-named registered driver on the
    value of every key of the record the application returned, in the
    record's order, each in the world the call before it left: the world
    after the cycle is the one the last of these calls left. *)
Theorem run_gathers_applies_delivers
        (drivers : list (string * driver W)) (root : value) s s' :
  NoDup (map fst drivers) ->
  run apply drivers root s = (Ok tt, s') ->
  exists f inputs w1 outputs entries,
    root = VFun f /\
    asked drivers (world s) inputs w1 /\
    apply f inputs = Ok outputs /\
    enumerate outputs = Ok entries /\
    served drivers entries w1 (world s') /\
    journal s' =
      journal s
      ++ map (fun kd => CallInput kd.1) drivers
      ++ [CallRoot root inputs]
      ++ map (fun kv => CallOutput kv.1 kv.2) entries.
Proof.
  intros Hnd H. unfold run in H.
  apply bind_Ok in H as ([] & s1 & Hroot & H).
  apply bind_Ok in H as (inputs & s2 & Hg & H).
  apply bind_Ok in H as (outputs & s3 & Hcall & H).
  apply bind_Ok in H as (entries & s4 & Hen & H).
  unfold call_root in Hcall.
  destruct root as [| | | | | |f| |]; try discriminate Hcall.
  injection Hroot as <-.
  apply bind_Ok in Hcall as ([] & s2' & Hnote & Happ).
  injection Hnote as <-. unfold lift in Happ. injection Happ as Happ <-.
  unfold for_in, lift in Hen. injection Hen as Hen <-.
  apply deliver_loop in H as (Hserved & _ & Hj).
  unfold gather in Hg.
  apply gather_loop in Hg as (new & -> & Hin & Hjg);
    [|assumption|intros k Hk; simpl in Hk; inversion Hk].
  exists f, new, (world s2), outputs, entries. simpl in *.
  split; [reflexivity|]. split; [exact Hin|]. split; [exact Happ|].
  split; [exact Hen|]. split; [exact Hserved|].
  rewrite Hj. simpl. rewrite Hjg. rewrite <- !app_assoc. reflexivity.
Qed.

(** C1, as the code has it.  When the output record holds an entry whose
    key names no registered driver, or a driver without an [output]
    function, the failure is reported and that entry is not applied; the
    entries before it in the record have been applied, and the cycle ends
    there with a [TypeError], so no later entry is applied. *)
Theorem run_stops_at_offending_entry
        (drivers : list (string * driver W)) f s inputs s1 outputs
        pre k v post s2 r :
  gather drivers s = (Ok inputs, s1) ->
  apply f inputs = Ok outputs ->
  enumerate outputs = Ok (pre ++ (k, v) :: post) ->
  for_each (deliver drivers) pre
           (mkCycle (world s1) (journal s1 ++ [CallRoot (VFun f) inputs]))
    = (Ok tt, s2) ->
  offence drivers k = Some r ->
  run apply drivers (VFun f) s
    = (Throw TypeError, mkCycle (world s2) (journal s2 ++ [Report r])) /\
  journal s2
    = journal s1 ++ [CallRoot (VFun f) inputs]
      ++ map (fun kv => CallOutput kv.1 kv.2) pre.
Proof.
  intros Hg Happ Hen Hpre Hoff. split.
  - unfold run.
    rewrite (bind_Ok_intro _ _ s tt s) by reflexivity.
    rewrite (bind_Ok_intro _ _ _ _ _ Hg).
    assert (Hcall : call_root apply (VFun f) inputs s1
                    = (Ok outputs, mkCycle (world s1)
                         (journal s1 ++ [CallRoot (VFun f) inputs]))).
    { unfold call_root, bind, note, lift. simpl. rewrite Happ. reflexivity. }
    rewrite (bind_Ok_intro _ _ _ _ _ Hcall).
    assert (Hfor : for_in (S := cycle W) outputs
                     (mkCycle (world s1)
                        (journal s1 ++ [CallRoot (VFun f) inputs]))
                   = (Ok (pre ++ (k, v) :: post),
                      mkCycle (world s1)
                        (journal s1 ++ [CallRoot (VFun f) inputs]))).
    { unfold for_in, lift. rewrite Hen. reflexivity. }
    rewrite (bind_Ok_intro _ _ _ _ _ Hfor).
    rewrite for_each_app.
    rewrite (bind_Ok_intro _ _ _ _ _ Hpre).
    simpl. apply bind_Throw_intro.
    unfold deliver, offence in *. simpl.
    destruct (find_driver k drivers) as [d|].
    + destruct (output d); [discriminate Hoff|].
      injection Hoff as <-. reflexivity.
    + injection Hoff as <-. destruct (inherited k); reflexivity.
  - apply deliver_loop in Hpre as (_ & _ & Hj). rewrite Hj. simpl.
    rewrite <- app_assoc. reflexivity.
Qed.

End DispatchFacts.

(** C1 fails as stated: the entry for the healthy driver [a] sits after an
    entry for an unregistered driver, and [a]'s [output] is never called. *)
Lemma run_abandons_later_entries :
  ~ serves_every_deliverable_entry ghost_first one_driver (VFun 0)
      (mkCycle tt []).
Proof.
  intros H.
  specialize (H 0 [("a", VNull)] (mkCycle tt [CallInput "a"])
                (VObj 1 [("ghost", VNum 1); ("a", VNum 2)])
                [("ghost", VNum 1); ("a", VNum 2)] ("a", VNum 2)
                eq_refl eq_refl eq_refl eq_refl).
  assert (Hin : In ("a", VNum 2) [("ghost", VNum 1); ("a", VNum 2)])
    by (right; left; reflexivity).
  assert (Hd : deliverable one_driver ("a", VNum 2)).
  { exists (mkDriver (Some (ret VNull)) (Some (fun _ => ret tt))),
           (fun _ => ret tt). split; reflexivity. }
  specialize (H Hin Hd). vm_compute in H.
  repeat (destruct H as [H|H]; [discriminate H|]). exact H.
Qed.

Lemma run_stops_at_offending_entry_witness :
  run ghost_first one_driver (VFun 0) (mkCycle tt [])
  = (Throw TypeError,
     mkCycle tt [CallInput "a";
                 CallRoot (VFun 0) [("a", VNull)];
                 Report (UnknownDriver "ghost")]).
Proof.
  apply (run_stops_at_offending_entry ghost_first one_driver 0
           (mkCycle tt []) [("a", VNull)] (mkCycle tt [CallInput "a"])
           (VObj 1 [("ghost", VNum 1); ("a", VNum 2)])
           [] "ghost" (VNum 1) [("a", VNum 2)]
           (mkCycle tt [CallInput "a"; CallRoot (VFun 0) [("a", VNull)]])
           (UnknownDriver "ghost"));
    reflexivity.
Defined.

Lemma run_gathers_applies_delivers_witness :
  exists f inputs w1 outputs entries,
    VFun 0 = VFun f /\
    asked data_only (VNum 3) inputs w1 /\
    seven f inputs = Ok outputs /\
    enumerate outputs = Ok entries /\
    served data_only entries w1 (VNum 7) /\
    [CallInput "data"; CallRoot (VFun 0) [("data", VNum 3)];
     CallOutput "data" (VNum 7)]
    = []
      ++ map (fun kd => CallInput kd.1) data_only
      ++ [CallRoot (VFun 0) inputs]
      ++ map (fun kv => CallOutput kv.1 kv.2) entries.
Proof.
  apply (run_gathers_applies_delivers seven data_only (VFun 0)
           (mkCycle (VNum 3) [])
           (mkCycle (VNum 7)
                    [CallInput "data"; CallRoot (VFun 0) [("data", VNum 3)];
                     CallOutput "data" (VNum 7)])).
  - apply NoDup_cons. split; [apply not_elem_of_nil | apply NoDup_nil_2].
  - reflexivity.
Defined.
(** ** Unfolding the engine *)

Lemma viewCreate_eq n :
  viewCreate n =
  (let* cref := alloc in
   if String.eqb (name n) "text" then
     let* el := createTextNode (get "data" (data n)) in
     ret (mkNodeOld n el cref [])
   else
     let* el := createElement (name n) in
     let* cs :=
       fold_m (fun cs kv => createData viewCreate el kv.1 kv.2 cs)
              (data n) [] in
     ret (mkNodeOld n el cref cs)).
Proof. destruct n. simpl. reflexivity. Qed.

Lemma viewPatch_eq factory_default nodeOld nodeNew :
  viewPatch factory_default nodeOld nodeNew =
  (if negb (String.eqb (name (node nodeOld)) (name nodeNew)) then
     let* nodeOldNew := viewCreate nodeNew in
     replaceInParent (element nodeOldNew) (element nodeOld) ;;
     ret (mkNodeOld nodeNew (element nodeOldNew)
                    (children_ref nodeOldNew) (children nodeOldNew))
   else
     let* cs :=
       fold_m (updateData (viewPatch factory_default) (element nodeOld)
                          (data (node nodeOld)))
              (data nodeNew) (children nodeOld) in
     let* cs :=
       fold_m (removeOld factory_default (element nodeOld)
                         (name (node nodeOld)) (data nodeNew))
              (data (node nodeOld)) cs in
     ret (mkNodeOld nodeNew (element nodeOld) (children_ref nodeOld) cs)).
Proof. destruct nodeNew. simpl. reflexivity. Qed.

(** ** Relations every step of the engine keeps *)

Section EngineRespects.
Context {factory_default : string -> string -> value}.
Context {R : state -> state -> Prop} `{!Kept factory_default R}.

Local Ltac step :=
  first
    [ apply respects_ret; exact kept_refl
    | apply respects_throw; exact kept_refl
    | apply respects_read; exact kept_refl
    | apply respects_lift; exact kept_refl
    | apply respects_for_in; exact kept_refl
    | apply kept_alloc
    | apply kept_emit; reflexivity
    | apply kept_createTextNode
    | apply kept_set_parentNode
    | apply kept_set_MoonEvents
    | apply kept_removeDataProperty
    | apply respects_bind; [exact kept_trans | | intros ?]
    | apply respects_for_each; [exact kept_refl | exact kept_trans | intros ? _]
    | match goal with
      | |- respects _ (if ?b then _ else _) => destruct b
      | |- respects _ (match ?x with _ => _ end) => destruct x
      end ].

Local Ltac steps := repeat step.

Lemma respects_createElement tag : respects R (createElement tag).
Proof. unfold createElement. steps. Qed.

Lemma respects_element_only h : respects R (element_only h).
Proof. unfold element_only. steps. Qed.

Lemma respects_setAttribute h a v : respects R (setAttribute h a v).
Proof. unfold setAttribute, element_only. steps. Qed.

Lemma respects_removeAttribute h a : respects R (removeAttribute h a).
Proof. unfold removeAttribute, element_only. steps. Qed.

Lemma respects_setDataset h k v : respects R (setDataset h k v).
Proof. unfold setDataset, element_only. steps. Qed.

Lemma respects_deleteDataset h k : respects R (deleteDataset h k).
Proof. unfold deleteDataset, element_only. steps. Qed.

Lemma respects_setStyle h k v : respects R (setStyle h k v).
Proof. unfold setStyle, element_only. steps. Qed.

Lemma respects_focus h : respects R (focus h).
Proof. unfold focus, element_only. steps. Qed.

Lemma respects_blur h : respects R (blur h).
Proof. unfold blur, element_only. steps. Qed.

Lemma respects_setProperty h k v : respects R (setProperty h k v).
Proof. unfold setProperty. steps. Qed.

Lemma respects_addEventListener h t : respects R (addEventListener h t).
Proof. unfold addEventListener. steps. Qed.

Lemma respects_removeEventListener h t :
  respects R (removeEventListener h t).
Proof. unfold removeEventListener. steps. Qed.

Lemma respects_appendChild p c : respects R (appendChild p c).
Proof. unfold appendChild. steps. Qed.

Lemma respects_removeChild p c : respects R (removeChild p c).
Proof. unfold removeChild. steps. Qed.

Lemma respects_replaceInParent n o : respects R (replaceInParent n o).
Proof. unfold replaceInParent. steps. Qed.

Lemma respects_setMoonEvent el k v : respects R (setMoonEvent el k v).
Proof. unfold setMoonEvent. steps. Qed.

Lemma respects_get_sub v k : respects R (get_sub v k).
Proof. unfold get_sub. steps. Qed.

Lemma respects_has_sub k v : respects R (has_sub k v).
Proof. unfold has_sub. steps. Qed.

Lemma respects_differs_at v i c : respects R (differs_at v i c).
Proof. unfold differs_at. steps. Qed.

Local Ltac prim :=
  first
    [ apply respects_createElement
    | apply respects_setAttribute
    | apply respects_removeAttribute
    | apply respects_setDataset
    | apply respects_deleteDataset
    | apply respects_setStyle
    | apply respects_focus
    | apply respects_blur
    | apply respects_setProperty
    | apply respects_addEventListener
    | apply respects_removeEventListener
    | apply respects_appendChild
    | apply respects_removeChild
    | apply respects_replaceInParent
    | apply respects_setMoonEvent
    | apply respects_get_sub
    | apply respects_has_sub
    | apply respects_differs_at
    | step ].

Local Ltac prims := repeat prim.

Lemma respects_appendNew create el items cs :
  (forall c, In c items -> respects R (create c)) ->
  respects R (appendNew create el items cs).
Proof.
  intros Hc. unfold appendNew.
  apply respects_fold_m; [exact kept_refl | exact kept_trans |].
  intros cs' c Hin. prims. apply Hc. exact Hin.
Qed.

Lemma respects_createData create el key v cs :
  (forall a items c, v = VArr a items -> In c items ->
                     respects R (create c)) ->
  respects R (createData create el key v cs).
Proof.
  intros Hc. unfold createData.
  destruct (classify key); prims.
  apply respects_appendNew. intros c Hin. eapply Hc; [reflexivity|exact Hin].
Qed.

Lemma respects_viewCreate n : respects R (viewCreate n).
Proof.
  induction n as [r nm nodeData IH] using NodeNew_children_ind.
  rewrite viewCreate_eq. simpl. prims.
  apply respects_fold_m; [exact kept_refl | exact kept_trans |].
  intros cs [k v] Hin. apply respects_createData. simpl.
  intros arr items c -> Hc. eapply IH; eassumption.
Qed.

Lemma respects_popChildren el n cs : respects R (popChildren el n cs).
Proof.
  revert cs. induction n as [|n IH]; intros cs; simpl; prims. apply IH.
Qed.

Lemma respects_patchPrefix patch valueOld k i items cs :
  (forall c childNew, In childNew items -> respects R (patch c childNew)) ->
  respects R (patchPrefix patch valueOld k i items cs).
Proof.
  revert k i cs. induction items as [|childNew items IH]; intros k i cs Hp.
  - destruct k; simpl; prims.
  - destruct k; simpl; prims.
    all: try (apply Hp; left; reflexivity).
    all: apply IH; intros c0 n0 Hin; apply Hp; right; exact Hin.
Qed.

Lemma respects_patchChildren patch valueOld el items cs :
  (forall c childNew, In childNew items -> respects R (patch c childNew)) ->
  respects R (patchChildren patch valueOld el items cs).
Proof.
  intros Hp. unfold patchChildren. prims.
  all: try (apply respects_patchPrefix; exact Hp).
  - apply respects_popChildren.
  - apply respects_appendNew. intros c _. apply respects_viewCreate.
Qed.

Lemma respects_patchData patch el valueOld keyNew valueNew cs :
  (forall a items c childNew, valueNew = VArr a items -> In childNew items ->
                              respects R (patch c childNew)) ->
  respects R (patchData patch el valueOld keyNew valueNew cs).
Proof.
  intros Hp. unfold patchData.
  destruct (classify keyNew); prims.
  apply respects_patchChildren. intros c childNew Hin.
  eapply Hp; [reflexivity|exact Hin].
Qed.

Lemma respects_removeData el nm keyOld valueOld cs :
  respects R (removeData factory_default el nm keyOld valueOld cs).
Proof.
  unfold removeData. destruct (classify keyOld); prims.
  all: apply respects_popChildren.
Qed.

Lemma respects_removeOld el nm nodeNewData cs kv :
  respects R (removeOld factory_default el nm nodeNewData cs kv).
Proof.
  unfold removeOld. destruct kv as [k v]. prims. apply respects_removeData.
Qed.

Lemma respects_viewPatch nodeOld nodeNew :
  respects R (viewPatch factory_default nodeOld nodeNew).
Proof.
  revert nodeOld.
  induction nodeNew as [r nm nodeData IH] using NodeNew_children_ind.
  intros nodeOld.
  rewrite viewPatch_eq. simpl name. simpl data.
  repeat first [apply respects_viewCreate | prim].
  - apply respects_fold_m; [exact kept_refl | exact kept_trans |].
    intros cs [k v] Hin. unfold updateData. prims.
    apply respects_patchData. intros arr items c childNew -> Hc.
    eapply IH; eassumption.
  - apply respects_fold_m; [exact kept_refl | exact kept_trans |].
    intros cs kv _. apply respects_removeOld.
Qed.

Lemma respects_updateData el nodeOldNodeData cs kv :
  respects R (updateData (viewPatch factory_default) el nodeOldNodeData cs kv).
Proof.
  destruct kv as [k v]. unfold updateData. prims.
  apply respects_patchData. intros arr items c childNew _ _.
  apply respects_viewPatch.
Qed.

Lemma respects_update_loop el nodeOldNodeData nodeNewData cs :
  respects R (fold_m (updateData (viewPatch factory_default) el
                                 nodeOldNodeData) nodeNewData cs).
Proof.
  apply respects_fold_m; [exact kept_refl | exact kept_trans |].
  intros cs' [k v] _. unfold updateData. prims.
  apply respects_patchData. intros arr items c childNew _ _.
  apply respects_viewPatch.
Qed.

Lemma respects_removal_loop el nm nodeNewData nodeOldNodeData cs :
  respects R (fold_m (removeOld factory_default el nm nodeNewData)
                     nodeOldNodeData cs).
Proof.
  apply respects_fold_m; [exact kept_refl | exact kept_trans |].
  intros cs' kv _. apply respects_removeOld.
Qed.

End EngineRespects.

(** ** The state only grows *)

#[export] Instance extends_kept factory_default :
  Kept factory_default extends.
Proof.
  split.
  - intros s. unfold extends. repeat split; try reflexivity.
    exists []. rewrite app_nil_r. reflexivity.
  - intros a b c ((d1 & H1) & Hn1 & Ht1 & Hc1) ((d2 & H2) & Hn2 & Ht2 & Hc2).
    split; [exists (d1 ++ d2); rewrite H2, H1, app_assoc; reflexivity|].
    split; [lia|]. split; etrans; eassumption.
  - intros s r s' H. injection H as _ <-. unfold extends. simpl.
    repeat split; try reflexivity; try lia.
    exists []. rewrite app_nil_r. reflexivity.
  - intros e _ s r s' H. injection H as _ <-. unfold extends. simpl.
    repeat split; try reflexivity. exists [e]. reflexivity.
  - intros v s r s' H. injection H as _ <-. unfold extends. simpl.
    repeat split; try reflexivity; try lia; [|set_solver].
    eexists. reflexivity.
  - intros p s r s' H. injection H as _ <-. unfold extends. simpl.
    repeat split; try reflexivity.
    exists []. rewrite app_nil_r. reflexivity.
  - intros m s r s' H. injection H as _ <-. unfold extends. simpl.
    repeat split; try reflexivity.
    exists []. rewrite app_nil_r. reflexivity.
  - intros el tag key s r s' H.
    unfold removeDataProperty, createBlank, setProperty, request, bind, read,
      alloc, emit, set_cache, ret, throw in H. simpl in H.
    assert (Hrefl : extends s s).
    { unfold extends. repeat split; try reflexivity.
      exists []. rewrite app_nil_r. reflexivity. }
    destruct (removeDataPropertyCache s !! tag) as [b|] eqn:Hc; simpl in H;
      [|destruct (inherited tag); simpl in H].
    1, 2: destruct (refused s _); injection H as _ <-; [exact Hrefl|];
      unfold extends; simpl; repeat split; try reflexivity;
      eexists; reflexivity.
    destruct (refused s (CreateBlank _ _)); simpl in H.
    + injection H as _ <-. unfold extends. simpl.
      repeat split; try reflexivity; try lia.
      exists []. rewrite app_nil_r. reflexivity.
    + destruct (refused s (SetProperty _ _ _)); injection H as _ <-;
        unfold extends; simpl; repeat split; try reflexivity; try lia;
        try (apply insert_subseteq; exact Hc);
        eexists; try rewrite <- app_assoc; reflexivity.
Qed.

Lemma extends_refl s : extends s s.
Proof. apply (kept_refl (factory_default := fun _ _ => VUndef)). Qed.

Lemma extends_trans a b c : extends a b -> extends b c -> extends a c.
Proof. apply (kept_trans (factory_default := fun _ _ => VUndef)). Qed.

Lemma appendChild_extends p c s r s' :
  appendChild p c s = (r, s') -> extends s s'.
Proof.
  apply (respects_appendChild (factory_default := fun _ _ => VUndef)).
Qed.

Lemma removeChild_extends p c s r s' :
  removeChild p c s = (r, s') -> extends s s'.
Proof.
  apply (respects_removeChild (factory_default := fun _ _ => VUndef)).
Qed.

Lemma viewPatch_extends factory_default nodeOld nodeNew st r st' :
  viewPatch factory_default nodeOld nodeNew st = (r, st') -> extends st st'.
Proof. apply respects_viewPatch. Qed.

Lemma viewCreate_extends n st r st' :
  viewCreate n st = (r, st') -> extends st st'.
Proof. apply (respects_viewCreate (factory_default := fun _ _ => VUndef)). Qed.

(** ** Loops that return *)

Lemma fold_m_split {S A X} (body : X -> A -> ST S X) l1 a l2 x s x' s' :
  fold_m body (l1 ++ a :: l2) x s = (Ok x', s') ->
  exists x1 s1 x2 s2,
    fold_m body l1 x s = (Ok x1, s1) /\
    body x1 a s1 = (Ok x2, s2) /\
    fold_m body l2 x2 s2 = (Ok x', s').
Proof.
  revert x s. induction l1 as [|b l1 IH]; intros x s H; simpl in H.
  - apply bind_Ok in H as (x2 & s2 & Hb & Hrest).
    exists x, s, x2, s2. auto.
  - apply bind_Ok in H as (y & t & Hb & Hrest).
    apply IH in Hrest as (x1 & s1 & x2 & s2 & H1 & H2 & H3).
    exists x1, s1, x2, s2. split; [|auto].
    simpl. rewrite (bind_Ok_intro _ _ _ _ _ Hb). exact H1.
Qed.

Lemma fold_m_idle {S A X} (body : X -> A -> ST S X) l x s :
  (forall a, In a l -> body x a s = (Ok x, s)) ->
  fold_m body l x s = (Ok x, s).
Proof.
  induction l as [|a l IH]; intros Hb; simpl.
  - reflexivity.
  - rewrite (bind_Ok_intro _ _ _ _ _ (Hb a (or_introl eq_refl))).
    apply IH. intros b Hin. apply Hb. right. exact Hin.
Qed.

Lemma fold_m_inv {S A X} (I : X -> S -> Prop)
      (body : X -> A -> ST S X) l x s x' s' :
  I x s ->
  (forall x a s x1 s1,
      In a l -> I x s -> body x a s = (Ok x1, s1) -> I x1 s1) ->
  fold_m body l x s = (Ok x', s') ->
  I x' s'.
Proof.
  revert x s. induction l as [|a l IH]; intros x s HI Hb H; simpl in H.
  - injection H as <- <-. exact HI.
  - apply bind_Ok in H as (x1 & s1 & Hstep & Hrest).
    eapply IH; [|intros; eapply Hb; [right|..]; eassumption|exact Hrest].
    eapply Hb; [left; reflexivity|exact HI|exact Hstep].
Qed.

Lemma for_each_inv {S A} (I : S -> Prop) (body : A -> ST S unit) l s s' :
  I s ->
  (forall a s s1, In a l -> I s -> body a s = (Ok tt, s1) -> I s1) ->
  for_each body l s = (Ok tt, s') ->
  I s'.
Proof.
  revert s. induction l as [|a l IH]; intros s HI Hb H; simpl in H.
  - injection H as <-. exact HI.
  - apply bind_Ok in H as ([] & s1 & Hstep & Hrest).
    eapply IH; [|intros; eapply Hb; [right|..]; eassumption|exact Hrest].
    eapply Hb; [left; reflexivity|exact HI|exact Hstep].
Qed.

(** ** Attribute objects *)

Lemma get_In key v (obj : list (string * value)) :
  NoDup (map fst obj) -> In (key, v) obj -> get key obj = v.
Proof.
  induction obj as [|[k w] obj IH]; simpl; intros Hnd Hin; [destruct Hin|].
  apply NoDup_cons in Hnd as [Hk Hnd].
  destruct Hin as [Heq|Hin].
  - injection Heq as -> ->. rewrite String.eqb_refl. reflexivity.
  - destruct (String.eqb_spec k key) as [->|_]; [|auto].
    exfalso. apply Hk. apply list_elem_of_In.
    change key with (fst (key, v)). apply in_map. exact Hin.
Qed.

Lemma has_In key v (obj : list (string * value)) :
  In (key, v) obj -> has key obj = true.
Proof.
  induction obj as [|[k w] obj IH]; simpl; intros Hin; [destruct Hin|].
  destruct Hin as [Heq|Hin].
  - injection Heq as -> ->. rewrite String.eqb_refl. reflexivity.
  - destruct (String.eqb k key); auto.
Qed.

Lemma has_false_get key (obj : list (string * value)) :
  has key obj = false -> get key obj = VUndef.
Proof.
  induction obj as [|[k w] obj IH]; simpl; [reflexivity|].
  destruct (String.eqb k key); [discriminate|exact IH].
Qed.

Lemma at_key_own key obj :
  inherited key = false -> at_key key obj = get key obj.
Proof.
  intros Hin. unfold at_key. destruct (has key obj) eqn:Hhas; [reflexivity|].
  rewrite (has_false_get key obj Hhas). apply has_false_get. exact Hin.
Qed.

Lemma strict_eq_refl v : v <> VNaN -> strict_eq v v = true.
Proof.
  destruct v; simpl; intros H; try reflexivity.
  - destruct b; reflexivity.
  - apply Z.eqb_refl.
  - congruence.
  - apply String.eqb_refl.
  - apply Nat.eqb_refl.
  - apply Nat.eqb_refl.
  - apply Nat.eqb_refl.
Qed.

(** ** What a patch leaves in the record *)

Lemma viewPatch_node factory_default nodeOld nodeNew st nodeOld' st' :
  viewPatch factory_default nodeOld nodeNew st = (Ok nodeOld', st') ->
  node nodeOld' = nodeNew.
Proof.
  rewrite viewPatch_eq. intros H.
  destruct (negb (name (node nodeOld) =? name nodeNew)%string).
  - apply bind_Ok in H as (c & s1 & _ & H).
    apply bind_Ok in H as ([] & s2 & _ & H).
    injection H as <- _. reflexivity.
  - apply bind_Ok in H as (cs & s1 & _ & H).
    apply bind_Ok in H as (cs' & s2 & _ & H).
    injection H as <- _. reflexivity.
Qed.

(** C9. A patch with a description of the record's kind keeps the record's
    resource and the record's children array: the record holds the same
    element handle and the same array address after the patch. *)
Theorem viewPatch_same_kind_keeps_resource
        factory_default nodeOld nodeNew st nodeOld' st' :
  name (node nodeOld) = name nodeNew ->
  viewPatch factory_default nodeOld nodeNew st = (Ok nodeOld', st') ->
  element nodeOld' = element nodeOld /\
  children_ref nodeOld' = children_ref nodeOld.
Proof.
  intros Hk. rewrite viewPatch_eq, Hk, String.eqb_refl. simpl. intros H.
  apply bind_Ok in H as (cs & s1 & _ & H).
  apply bind_Ok in H as (cs' & s2 & _ & H).
  injection H as <- _. split; reflexivity.
Qed.

Lemma viewPatch_same_kind_keeps_resource_witness :
  element (mkNodeOld nan_titled 1 0 []) = element adopted /\
  children_ref (mkNodeOld nan_titled 1 0 []) = children_ref adopted.
Proof.
  apply (viewPatch_same_kind_keeps_resource empty_defaults adopted nan_titled
           page (mkNodeOld nan_titled 1 0 [])
           (mkState 2 ∅ {[ 1 := 0 ]} ∅ ∅ [SetProperty 1 "title" VNaN]
                    read_only_tagName));
    reflexivity.
Defined.

(** C2, as the code has it.  When the property names of the description are
    distinct and none of its attribute values is [NaN], patching a record
    again with the description it was just patched with returns the same
    record and leaves the state as it is: no DOM call is issued. *)
Theorem viewPatch_again_is_idle
        factory_default nodeOld nodeNew st nodeOld1 st1 :
  NoDup (map fst (data nodeNew)) ->
  (forall k v, In (k, v) (data nodeNew) -> v <> VNaN) ->
  viewPatch factory_default nodeOld nodeNew st = (Ok nodeOld1, st1) ->
  viewPatch factory_default nodeOld1 nodeNew st1 = (Ok nodeOld1, st1).
Proof.
  intros Hnd Hnan H. apply viewPatch_node in H as Hnode.
  rewrite viewPatch_eq, Hnode, String.eqb_refl. simpl.
  erewrite bind_Ok_intro; cycle 1.
  { apply fold_m_idle. intros [k v] Hin. unfold updateData, at_key.
    rewrite (has_In k v), (get_In k v) by assumption.
    rewrite strict_eq_refl by eauto. reflexivity. }
  erewrite bind_Ok_intro; cycle 1.
  { apply fold_m_idle. intros [k v] Hin. unfold removeOld, key_in.
    rewrite (has_In k v) by assumption. reflexivity. }
  unfold ret. destruct nodeOld1; simpl in *. subst. reflexivity.
Qed.

Lemma viewPatch_again_is_idle_witness :
  let d := mkNodeNew 10 "div" [("title", VStr "t")] in
  let st1 := mkState 2 ∅ {[ 1 := 0 ]} ∅ ∅
                     [SetProperty 1 "title" (VStr "t")] read_only_tagName in
  viewPatch empty_defaults (mkNodeOld d 1 0 []) d st1
  = (Ok (mkNodeOld d 1 0 []), st1).
Proof.
  intros d st1.
  apply (viewPatch_again_is_idle empty_defaults adopted d page).
  - apply NoDup_cons. split; [apply not_elem_of_nil | apply NoDup_nil_2].
  - intros k v [Heq|[]]. injection Heq as _ <-. discriminate.
  - reflexivity.
Defined.

(** C2 fails as stated: a description with a [NaN] attribute value is
    applied again in full on the second patch, because [NaN !== NaN]. *)
Lemma viewPatch_again_reassigns_NaN :
  ~ second_patch_is_silent empty_defaults adopted nan_titled page.
Proof.
  intros H.
  specialize (H (mkNodeOld nan_titled 1 0 [])
                (mkState 2 ∅ {[ 1 := 0 ]} ∅ ∅ [SetProperty 1 "title" VNaN]
                    read_only_tagName)
                eq_refl).
  vm_compute in H. discriminate H.
Qed.

(** ** The calls a loop is made of *)

Section LogsOnly.
Variable allowed : effect -> bool.

Lemma logs_only_refl st : logs_only allowed st st.
Proof. exists []. rewrite app_nil_r. split; [reflexivity|constructor]. Qed.

Lemma logs_only_trans a b c :
  logs_only allowed a b -> logs_only allowed b c -> logs_only allowed a c.
Proof.
  intros (d1 & H1 & F1) (d2 & H2 & F2). exists (d1 ++ d2).
  split; [rewrite H2, H1, app_assoc; reflexivity|].
  apply Forall_app. split; assumption.
Qed.

Lemma logs_only_emit e :
  allowed e = true -> respects (logs_only allowed) (emit e).
Proof.
  intros He s r s' H. injection H as _ <-. exists [e]. simpl.
  split; [reflexivity|]. constructor; [exact He|constructor].
Qed.

Lemma logs_only_request e :
  allowed e = true -> respects (logs_only allowed) (request e).
Proof.
  intros He. unfold request.
  apply respects_bind;
    [apply logs_only_trans|apply respects_read; apply logs_only_refl|].
  intros refuses. destruct (refuses e);
    [apply respects_throw; apply logs_only_refl|apply logs_only_emit; exact He].
Qed.

Lemma logs_only_quiet {A} (m : M A) :
  (forall s r s', m s = (r, s') -> log s' = log s) ->
  respects (logs_only allowed) m.
Proof.
  intros Hm s r s' H. exists []. rewrite app_nil_r.
  split; [eapply Hm; eassumption|constructor].
Qed.

Lemma logs_only_alloc : respects (logs_only allowed) alloc.
Proof. apply logs_only_quiet. intros s r s' H. injection H as _ <-. reflexivity. Qed.

Lemma logs_only_set_parentNode p :
  respects (logs_only allowed) (set_parentNode p).
Proof. apply logs_only_quiet. intros s r s' H. injection H as _ <-. reflexivity. Qed.

Lemma logs_only_set_MoonEvents m :
  respects (logs_only allowed) (set_MoonEvents m).
Proof. apply logs_only_quiet. intros s r s' H. injection H as _ <-. reflexivity. Qed.

Lemma logs_only_set_cache c : respects (logs_only allowed) (set_cache c).
Proof. apply logs_only_quiet. intros s r s' H. injection H as _ <-. reflexivity. Qed.

Lemma logs_only_set_texts t : respects (logs_only allowed) (set_texts t).
Proof. apply logs_only_quiet. intros s r s' H. injection H as _ <-. reflexivity. Qed.

End LogsOnly.

Ltac logs_only_step :=
  first
    [ apply respects_ret; apply logs_only_refl
    | apply respects_throw; apply logs_only_refl
    | apply respects_read; apply logs_only_refl
    | apply respects_lift; apply logs_only_refl
    | apply respects_for_in; apply logs_only_refl
    | apply logs_only_alloc
    | apply logs_only_set_parentNode
    | apply logs_only_set_MoonEvents
    | apply logs_only_set_cache
    | apply logs_only_set_texts
    | apply logs_only_emit; reflexivity
    | apply logs_only_request; reflexivity
    | apply respects_bind; [apply logs_only_trans | | intros ?]
    | apply respects_for_each;
      [apply logs_only_refl | apply logs_only_trans | intros ? _]
    | match goal with
      | |- respects _ (if ?b then _ else _) => destruct b
      | |- respects _ (match ?x with _ => _ end) => destruct x
      end ].

Lemma popChildren_logs_only el n cs :
  respects (logs_only removal_effect) (popChildren el n cs).
Proof.
  revert cs. induction n as [|n IH]; intros cs; simpl.
  - logs_only_step.
  - unfold removeChild. repeat logs_only_step. apply IH.
Qed.

Lemma removeOld_logs_only factory_default el nm nodeNewData cs kv :
  respects (logs_only removal_effect)
           (removeOld factory_default el nm nodeNewData cs kv).
Proof.
  unfold removeOld, removeData. destruct kv as [k v].
  destruct (key_in k nodeNewData); [logs_only_step|].
  destruct (classify k);
    unfold removeDataProperty, createBlank, setProperty, removeEventListener,
      removeAttribute, deleteDataset, blur, element_only;
    repeat logs_only_step.
  all: apply popChildren_logs_only.
Qed.

Lemma fold_m_logs_only {A X} allowed (body : X -> A -> M X) l x :
  (forall x a, respects (logs_only allowed) (body x a)) ->
  respects (logs_only allowed) (fold_m body l x).
Proof.
  intros Hb. apply respects_fold_m;
    [apply logs_only_refl | apply logs_only_trans | intros; apply Hb].
Qed.

(** ** Removing attributes *)

Lemma viewPatch_same_kind_inv factory_default nodeOld nodeNew st nodeOld' st' :
  name (node nodeOld) = name nodeNew ->
  viewPatch factory_default nodeOld nodeNew st = (Ok nodeOld', st') ->
  exists cs1 st1 cs2,
    fold_m (updateData (viewPatch factory_default) (element nodeOld)
                       (data (node nodeOld)))
           (data nodeNew) (children nodeOld) st = (Ok cs1, st1) /\
    fold_m (removeOld factory_default (element nodeOld)
                      (name (node nodeOld)) (data nodeNew))
           (data (node nodeOld)) cs1 st1 = (Ok cs2, st') /\
    nodeOld' = mkNodeOld nodeNew (element nodeOld) (children_ref nodeOld) cs2.
Proof.
  intros Hk. rewrite viewPatch_eq.
  replace (name (node nodeOld) =? name nodeNew)%string with true
    by (symmetry; apply String.eqb_eq; exact Hk).
  simpl. intros H.
  apply bind_Ok in H as (cs1 & s1 & H1 & H).
  apply bind_Ok in H as (cs2 & s2 & H2 & H).
  injection H as <- <-. exists cs1, s1, cs2. auto.
Qed.

Lemma viewPatch_other_kind_inv factory_default nodeOld nodeNew st nodeOld' st' :
  name (node nodeOld) <> name nodeNew ->
  viewPatch factory_default nodeOld nodeNew st = (Ok nodeOld', st') ->
  exists nodeOldNew st1,
    viewCreate nodeNew st = (Ok nodeOldNew, st1) /\
    replaceInParent (element nodeOldNew) (element nodeOld) st1
      = (Ok tt, st') /\
    nodeOld' = mkNodeOld nodeNew (element nodeOldNew)
                         (children_ref nodeOldNew) (children nodeOldNew).
Proof.
  intros Hk. rewrite viewPatch_eq.
  replace (name (node nodeOld) =? name nodeNew)%string with false
    by (symmetry; apply String.eqb_neq; exact Hk).
  simpl. intros H.
  apply bind_Ok in H as (rc & s1 & Hc & H).
  apply bind_Ok in H as ([] & s2 & Hrep & H).
  injection H as <- <-. exists rc, s1. auto.
Qed.

Lemma removeDataProperty_log factory_default el tag key s s' :
  removeDataProperty factory_default el tag key s = (Ok tt, s') ->
  exists built,
    log s' = log s ++ built ++ [SetProperty el key (factory_default tag key)] /\
    (built = [] \/ exists b, built = [CreateBlank b tag]) /\
    (inherited tag = false -> is_Some (removeDataPropertyCache s' !! tag)).
Proof.
  unfold removeDataProperty, createBlank, setProperty. intros H.
  apply bind_Ok in H as (cache & s0 & Hread & H).
  injection Hread as <- <-.
  apply bind_Ok in H as (v & s1 & Hv & H).
  apply request_Ok in H as [_ H]. injection H as <-.
  destruct (removeDataPropertyCache s !! tag) as [b|] eqn:Hc;
    [|destruct (inherited tag) eqn:Hin].
  - injection Hv as <- <-. exists []. simpl. rewrite Hc. eauto.
  - injection Hv as <- <-. exists []. split; [reflexivity|].
    split; [left; reflexivity|discriminate].
  - apply bind_Ok in Hv as (blank & s2 & Hb & Hv).
    apply bind_Ok in Hb as (h & s3 & Ha & Hb).
    injection Ha as <- <-.
    apply bind_Ok in Hb as ([] & s4 & Hreq & Hb).
    apply request_Ok in Hreq as [_ Hreq]. injection Hreq as <-.
    injection Hb as <- <-.
    apply bind_Ok in Hv as ([] & s5 & Hset & Hv).
    injection Hset as <-. injection Hv as <- <-. simpl.
    exists [CreateBlank (next s) tag]. rewrite <- app_assoc.
    rewrite lookup_insert_eq. eauto.
Qed.

(** What the removal loop logs when it meets a key that goes through
    [removeDataProperty]. *)
Lemma removal_loop_restores_default
      factory_default el nm nodeNewData nodeOldNodeData cs st cs' st' k v :
  In (k, v) nodeOldNodeData ->
  key_in k nodeNewData = false ->
  classify k = KStyle \/ classify k = KProperty ->
  fold_m (removeOld factory_default el nm nodeNewData) nodeOldNodeData cs st
    = (Ok cs', st') ->
  exists pre post,
    log st' = log st ++ pre ++ SetProperty el k (factory_default nm k) :: post /\
    Forall (fun e => removal_effect e = true)
           (pre ++ SetProperty el k (factory_default nm k) :: post) /\
    exists st2,
      (inherited nm = false -> is_Some (removeDataPropertyCache st2 !! nm)) /\
      extends st2 st'.
Proof.
  intros Hin Hhas Hclass H.
  apply in_split in Hin as (l1 & l2 & ->).
  apply fold_m_split in H as (x1 & s1 & x2 & s2 & H1 & Hb & H2).
  apply (fold_m_logs_only removal_effect) in H1 as (d1 & Hd1 & F1);
    [|intros; apply removeOld_logs_only].
  apply (fold_m_logs_only removal_effect) in H2 as Hlog2;
    [|intros; apply removeOld_logs_only].
  destruct Hlog2 as (d3 & Hd3 & F3).
  assert (Hext : extends s2 st').
  { eapply (respects_removal_loop (R := extends)). exact H2. }
  apply (removeOld_logs_only factory_default) in Hb as Hlogb.
  destruct Hlogb as (d2 & Hd2 & F2).
  assert (Hstep : removeDataProperty factory_default el nm k s1 = (Ok tt, s2)).
  { unfold removeOld, removeData in Hb. rewrite Hhas in Hb.
    destruct Hclass as [-> | ->] in Hb;
      apply bind_Ok in Hb as ([] & s2' & Hr & Hret);
      injection Hret as _ <-; exact Hr. }
  apply removeDataProperty_log in Hstep as (built & Hlog & _ & Hcache).
  rewrite Hd2 in Hlog. apply app_inv_head in Hlog. subst d2.
  exists (d1 ++ built), d3. split; [|split].
  - rewrite Hd3, Hd2, Hd1. rewrite <- !app_assoc. reflexivity.
  - rewrite <- app_assoc. apply Forall_app. split; [exact F1|].
    change (SetProperty el k (factory_default nm k) :: d3)
      with ([SetProperty el k (factory_default nm k)] ++ d3).
    rewrite app_assoc. apply Forall_app. split; assumption.
  - exists s2. split; assumption.
Qed.

(** C10. In a patch with a description of the record's kind, when [style]
    is among the old attributes and not among the new ones, the removal
    loop assigns the cached default of [style] to the element through the
    generic path, and none of the calls of the removal loop resets a style
    property. *)
Theorem style_removal_takes_default_path
        factory_default nodeOld nodeNew st nodeOld' st' v :
  name (node nodeOld) = name nodeNew ->
  In ("style", v) (data (node nodeOld)) ->
  has "style" (data nodeNew) = false ->
  viewPatch factory_default nodeOld nodeNew st = (Ok nodeOld', st') ->
  exists cs1 st1 removal,
    fold_m (updateData (viewPatch factory_default) (element nodeOld)
                       (data (node nodeOld)))
           (data nodeNew) (children nodeOld) st = (Ok cs1, st1) /\
    log st' = log st1 ++ removal /\
    In (SetProperty (element nodeOld) "style"
                    (factory_default (name (node nodeOld)) "style")) removal /\
    forall h k x, ~ In (SetStyle h k x) removal.
Proof.
  intros Hk Hin Hhas H.
  apply viewPatch_same_kind_inv in H as (cs1 & st1 & cs2 & H1 & H2 & _);
    [|exact Hk].
  eapply removal_loop_restores_default in H2
    as (pre & post & Hlog & Hall & _);
    [|exact Hin|rewrite key_in_own by reflexivity; exact Hhas|left; reflexivity].
  exists cs1, st1, (pre ++ SetProperty (element nodeOld) "style"
                         (factory_default (name (node nodeOld)) "style")
                       :: post).
  split; [exact H1|]. split; [exact Hlog|]. split.
  - apply in_or_app. right. left. reflexivity.
  - intros h k x Hs. rewrite Forall_forall in Hall.
    apply list_elem_of_In in Hs. apply Hall in Hs. discriminate Hs.
Qed.

Lemma style_removal_takes_default_path_witness :
  exists cs1 st1 removal,
    fold_m (updateData (viewPatch empty_defaults) 1 (data styled))
           (data bare) [] page = (Ok cs1, st1) /\
    log page_after_drop = log st1 ++ removal /\
    In (SetProperty 1 "style" (empty_defaults "div" "style")) removal /\
    forall h k x, ~ In (SetStyle h k x) removal.
Proof.
  apply (style_removal_takes_default_path empty_defaults
           (mkNodeOld styled 1 0 []) bare page (mkNodeOld bare 1 0 [])
           page_after_drop (VObj 12 [("color", VStr "red")])).
  - reflexivity.
  - left. reflexivity.
  - reflexivity.
  - reflexivity.
Defined.

(** ** The cache of default values *)

Lemma blanks_app tag l1 l2 :
  blanks tag (l1 ++ l2) = blanks tag l1 + blanks tag l2.
Proof.
  induction l1 as [|e l1 IH]; simpl; [reflexivity|].
  destruct e; try exact IH. rewrite IH. lia.
Qed.

Lemma blanks_none tag l :
  Forall (fun e => is_blank e = false) l -> blanks tag l = 0.
Proof.
  induction 1 as [|e l He _ IH]; [reflexivity|].
  destruct e; try exact IH. discriminate He.
Qed.

(** Logging calls that build no blank element keeps the cache in step. *)
Lemma cache_ok_logging st st' d :
  cache_ok st ->
  removeDataPropertyCache st' = removeDataPropertyCache st ->
  log st' = log st ++ d ->
  Forall (fun e => is_blank e = false) d ->
  cache_ok st'.
Proof.
  intros Hok Hc Hl Hd tag. specialize (Hok tag). rewrite Hc, Hl.
  rewrite blanks_app, (blanks_none tag d Hd), Nat.add_0_r.
  destruct (removeDataPropertyCache st !! tag); [|exact Hok].
  destruct Hok as [Hone Hin]. split; [exact Hone|].
  apply in_or_app. left. exact Hin.
Qed.

#[export] Instance cache_ok_kept factory_default :
  Kept factory_default (fun st st' => cache_ok st -> cache_ok st').
Proof.
  split.
  - auto.
  - auto.
  - intros s r s' H. injection H as _ <-. intros Hok.
    apply (cache_ok_logging s _ []); auto. simpl. rewrite app_nil_r.
    reflexivity.
  - intros e He s r s' H. injection H as _ <-. intros Hok.
    apply (cache_ok_logging s _ [e]); auto.
  - intros v s r s' H. injection H as _ <-. intros Hok.
    apply (cache_ok_logging s _ [CreateTextNode (next s) v]); auto.
  - intros p s r s' H. injection H as _ <-. intros Hok.
    apply (cache_ok_logging s _ []); auto. simpl. rewrite app_nil_r.
    reflexivity.
  - intros m s r s' H. injection H as _ <-. intros Hok.
    apply (cache_ok_logging s _ []); auto. simpl. rewrite app_nil_r.
    reflexivity.
  - intros el tag key s r s' H Hok.
    unfold removeDataProperty, createBlank, setProperty, request, bind, read,
      alloc, emit, set_cache, ret, throw in H. simpl in H.
    destruct (removeDataPropertyCache s !! tag) as [b|] eqn:Hc; simpl in H;
      [|destruct (inherited tag); simpl in H].
    1, 2: destruct (refused s _); injection H as _ <-; [exact Hok|];
      eapply (cache_ok_logging s); [exact Hok|reflexivity|reflexivity|];
      repeat constructor.
    destruct (refused s (CreateBlank _ _)); simpl in H.
    + injection H as _ <-.
      apply (cache_ok_logging s _ []); auto. simpl. rewrite app_nil_r.
      reflexivity.
    + assert (Hbuilt :
        cache_ok (mkState (S (next s)) (texts s) (parentNode s) (MoonEvents s)
                          (<[tag := next s]> (removeDataPropertyCache s))
                          (log s ++ [CreateBlank (next s) tag]) (refused s))).
      { intros tag'. simpl. rewrite blanks_app. simpl.
        destruct (String.eqb_spec tag tag') as [<-|Hne].
        - rewrite lookup_insert_eq. specialize (Hok tag). rewrite Hc in Hok.
          split; [lia|]. apply in_or_app. right. left. reflexivity.
        - rewrite lookup_insert_ne by exact Hne. specialize (Hok tag').
          destruct (removeDataPropertyCache s !! tag');
            [|lia].
          destruct Hok as [Hone Hin]. split; [lia|].
          apply in_or_app. left. exact Hin. }
      destruct (refused s (SetProperty _ _ _)); injection H as _ <-;
        [exact Hbuilt|].
      eapply cache_ok_logging; [exact Hbuilt|reflexivity|reflexivity|].
      repeat constructor.
Qed.

Lemma cache_ok_life factory_default st0 st :
  cache_ok st0 -> rtc (engine_step factory_default) st0 st -> cache_ok st.
Proof.
  intros H0 Hr.
  induction Hr as [|a b c [(n & r & Hstep)|(nodeOld & nodeNew & r & Hstep)]
                     _ IH].
  - exact H0.
  - apply IH.
    exact (respects_viewCreate (factory_default := factory_default)
             (R := fun st st' => cache_ok st -> cache_ok st')
             n a r b Hstep H0).
  - apply IH.
    exact (respects_viewPatch (R := fun st st' => cache_ok st -> cache_ok st')
             nodeOld nodeNew a r b Hstep H0).
Qed.

Lemma cache_ok_at_most_one st tag : cache_ok st -> blanks tag (log st) <= 1.
Proof.
  intros H. specialize (H tag).
  destruct (removeDataPropertyCache st !! tag); [destruct H|]; lia.
Qed.

(** C7, as the code has it.  At any point of the life of a process that
    started with a cache in step with the log, a patch with a description
    of the record's kind that drops a generic attribute key, where neither
    the key nor the kind is the name of a member of [Object.prototype],
    assigns to that property of the element the value the blank element of
    the record's kind has for it; the cache then holds a blank element of
    that kind, the only one built for the kind over the whole life so far;
    and at most one blank element was built for any kind. *)
Theorem removed_property_takes_cached_default
        factory_default st0 nodeOld nodeNew st nodeOld' st' k v :
  cache_ok st0 ->
  rtc (engine_step factory_default) st0 st ->
  name (node nodeOld) = name nodeNew ->
  In (k, v) (data (node nodeOld)) ->
  has k (data nodeNew) = false ->
  classify k = KProperty ->
  inherited k = false ->
  inherited (name (node nodeOld)) = false ->
  viewPatch factory_default nodeOld nodeNew st = (Ok nodeOld', st') ->
  (exists pre post,
      log st' =
      log st ++ pre
      ++ SetProperty (element nodeOld) k
           (factory_default (name (node nodeOld)) k) :: post) /\
  (exists blank,
      removeDataPropertyCache st' !! name (node nodeOld) = Some blank /\
      In (CreateBlank blank (name (node nodeOld))) (log st')) /\
  blanks (name (node nodeOld)) (log st') = 1 /\
  forall tag, blanks tag (log st') <= 1.
Proof.
  intros H0 Hlife Hk Hin Hhas Hclass Hkey Hkind H.
  assert (Hok' : cache_ok st').
  { eapply cache_ok_life; [exact H0|].
    eapply rtc_r; [exact Hlife|]. right.
    exists nodeOld, nodeNew, (Ok nodeOld'). exact H. }
  apply viewPatch_same_kind_inv in H as (cs1 & st1 & cs2 & H1 & H2 & _);
    [|exact Hk].
  assert (Hext : extends st st1).
  { eapply (respects_update_loop (R := extends)). exact H1. }
  destruct Hext as ((d1 & Hd1) & _).
  eapply removal_loop_restores_default in H2
    as (pre & post & Hlog & _ & st2 & Hcache & _ & _ & _ & Hsub);
    [|exact Hin|rewrite key_in_own by exact Hkey; exact Hhas
     |right; exact Hclass].
  destruct (Hcache Hkind) as [b Hb].
  assert (Hb' : removeDataPropertyCache st' !! name (node nodeOld) = Some b)
    by (eapply lookup_weaken; eassumption).
  pose proof (Hok' (name (node nodeOld))) as Hthis. rewrite Hb' in Hthis.
  destruct Hthis as [Hone Hbuilt].
  split; [|split; [|split]].
  - exists (d1 ++ pre), post. rewrite Hlog, Hd1, <- !app_assoc. reflexivity.
  - exists b. split; assumption.
  - exact Hone.
  - intros tag. apply cache_ok_at_most_one. exact Hok'.
Qed.

(** C7 fails as stated: [constructor] is a generic key that the old
    description has and the new one has not, but the test
    [keyOld in nodeNewData] holds of it through [Object.prototype], so the
    removal loop skips the key and the property is not reset. *)
Lemma dropped_inherited_key_is_kept :
  ~ resets_every_dropped_property empty_defaults
      (mkNodeOld constructed 1 0 []) bare page.
Proof.
  intros H.
  destruct (H (mkNodeOld bare 1 0 []) page "constructor" (VStr "x")
              eq_refl (or_introl eq_refl) eq_refl eq_refl eq_refl)
    as (pre & post & Hlog).
  simpl in Hlog. destruct pre; discriminate Hlog.
Qed.

Lemma removed_property_takes_cached_default_witness :
  (exists pre post,
      log page_after_drop =
      log page ++ pre
      ++ SetProperty 1 "title" (empty_defaults "div" "title") :: post) /\
  (exists blank,
      removeDataPropertyCache page_after_drop !! "div" = Some blank /\
      In (CreateBlank blank "div") (log page_after_drop)) /\
  blanks "div" (log page_after_drop) = 1 /\
  forall tag, blanks tag (log page_after_drop) <= 1.
Proof.
  apply (removed_property_takes_cached_default empty_defaults page
           (mkNodeOld styled 1 0 []) bare page (mkNodeOld bare 1 0 [])
           page_after_drop "title" (VStr "t")).
  - intros tag. reflexivity.
  - apply rtc_refl.
  - reflexivity.
  - right. left. reflexivity.
  - reflexivity.
  - reflexivity.
  - reflexivity.
  - reflexivity.
  - reflexivity.
Defined.
(** ** Footprints *)

Section Within.
Variable F : handle -> Prop.
Variable allowed : effect -> Prop.

Lemma within_refl s : within F allowed s s.
Proof.
  split; [auto|]. exists []. rewrite app_nil_r. split; [reflexivity|constructor].
Qed.

Lemma within_trans a b c :
  within F allowed a b -> within F allowed b c -> within F allowed a c.
Proof.
  intros (Hf1 & d1 & H1 & A1) (Hf2 & d2 & H2 & A2). split.
  - intros h Hh. destruct (Hf1 h Hh) as [E1 E2].
    destruct (Hf2 h Hh) as [E3 E4]. split; congruence.
  - exists (d1 ++ d2). split; [rewrite H2, H1, app_assoc; reflexivity|].
    apply Forall_app. split; assumption.
Qed.

Lemma within_emit e : allowed e -> respects (within F allowed) (emit e).
Proof.
  intros He s r s' H. injection H as _ <-. split; [auto|].
  exists [e]. split; [reflexivity|]. constructor; [exact He|constructor].
Qed.

Lemma within_alloc : respects (within F allowed) alloc.
Proof.
  intros s r s' H. injection H as _ <-. split; [auto|].
  exists []. simpl. rewrite app_nil_r. split; [reflexivity|constructor].
Qed.

Lemma within_set_texts t : respects (within F allowed) (set_texts t).
Proof.
  intros s r s' H. injection H as _ <-. split; [auto|].
  exists []. simpl. rewrite app_nil_r. split; [reflexivity|constructor].
Qed.

Lemma within_set_cache c : respects (within F allowed) (set_cache c).
Proof.
  intros s r s' H. injection H as _ <-. split; [auto|].
  exists []. simpl. rewrite app_nil_r. split; [reflexivity|constructor].
Qed.

Local Ltac step :=
  first
    [ apply respects_ret; apply within_refl
    | apply respects_throw; apply within_refl
    | apply respects_read; apply within_refl
    | apply respects_lift; apply within_refl
    | apply respects_for_in; apply within_refl
    | apply within_alloc
    | apply within_set_texts
    | apply within_set_cache
    | apply within_emit; assumption
    | apply respects_bind; [apply within_trans | | intros ?]
    | match goal with
      | |- respects _ (if ?b then _ else _) => destruct b
      | |- respects _ (match ?x with _ => _ end) => destruct x
      end ].

Lemma within_element_only h : respects (within F allowed) (element_only h).
Proof. unfold element_only. repeat step. Qed.

Lemma within_setAttribute h a v :
  allowed (SetAttribute h a v) ->
  respects (within F allowed) (setAttribute h a v).
Proof. intros. unfold setAttribute, element_only. repeat step. Qed.

Lemma within_removeAttribute h a :
  allowed (RemoveAttribute h a) ->
  respects (within F allowed) (removeAttribute h a).
Proof. intros. unfold removeAttribute, element_only. repeat step. Qed.

Lemma within_setDataset h k v :
  allowed (SetDataset h k v) ->
  respects (within F allowed) (setDataset h k v).
Proof. intros. unfold setDataset, element_only. repeat step. Qed.

Lemma within_deleteDataset h k :
  allowed (DeleteDataset h k) ->
  respects (within F allowed) (deleteDataset h k).
Proof. intros. unfold deleteDataset, element_only. repeat step. Qed.

Lemma within_setStyle h k v :
  allowed (SetStyle h k v) ->
  respects (within F allowed) (setStyle h k v).
Proof. intros. unfold setStyle, element_only. repeat step. Qed.

Lemma within_focus h :
  allowed (Focus h) -> respects (within F allowed) (focus h).
Proof. intros. unfold focus, element_only. repeat step. Qed.

Lemma within_blur h :
  allowed (Blur h) -> respects (within F allowed) (blur h).
Proof. intros. unfold blur, element_only. repeat step. Qed.

Lemma within_setProperty h k v :
  allowed (SetProperty h k v) ->
  respects (within F allowed) (setProperty h k v).
Proof. intros. unfold setProperty. repeat step. Qed.

Lemma within_addEventListener h t :
  allowed (AddEventListener h t) ->
  respects (within F allowed) (addEventListener h t).
Proof. intros. unfold addEventListener. repeat step. Qed.

Lemma within_removeEventListener h t :
  allowed (RemoveEventListener h t) ->
  respects (within F allowed) (removeEventListener h t).
Proof. intros. unfold removeEventListener. repeat step. Qed.

Lemma within_createTextNode v s h s' :
  allowed (CreateTextNode (next s) v) ->
  createTextNode v s = (Ok h, s') ->
  h = next s /\ next s' = S (next s) /\ within F allowed s s'.
Proof.
  intros Ha H. injection H as <- <-. simpl. split; [reflexivity|].
  split; [reflexivity|]. split; [auto|].
  eexists. split; [reflexivity|]. constructor; [exact Ha|constructor].
Qed.

Lemma within_createElement tag s h s' :
  allowed (CreateElement (next s) tag) ->
  createElement tag s = (Ok h, s') ->
  h = next s /\ next s' = S (next s) /\ within F allowed s s' /\
  log s' = log s ++ [CreateElement (next s) tag].
Proof.
  intros Ha H. unfold createElement in H.
  apply bind_Ok in H as (h0 & s0 & Halloc & H). injection Halloc as <- <-.
  apply bind_Ok in H as ([] & s1 & Hreq & H).
  apply request_Ok in Hreq as [_ Hreq]. injection Hreq as <-.
  injection H as <- <-. simpl. split; [reflexivity|].
  split; [reflexivity|]. split; [|reflexivity]. split; [auto|].
  eexists. split; [reflexivity|]. constructor; [exact Ha|constructor].
Qed.

Lemma within_appendChild p c :
  F c -> allowed (AppendChild p c) ->
  respects (within F allowed) (appendChild p c).
Proof.
  intros Hc Ha s r s' H. unfold appendChild, bind, read in H. simpl in H.
  destruct (decide (p ∈ texts s)); injection H as _ <-.
  - apply within_refl.
  - split.
    + intros h Hh. simpl. split; [|reflexivity].
      apply lookup_insert_ne. intros ->. exact (Hh Hc).
    + eexists. split; [reflexivity|]. constructor; [exact Ha|constructor].
Qed.

Lemma within_removeChild p c :
  F c -> allowed (RemoveChild p c) ->
  respects (within F allowed) (removeChild p c).
Proof.
  intros Hc Ha s r s' H. unfold removeChild, bind, read in H. simpl in H.
  destruct (decide (parentNode s !! c = Some p)); injection H as _ <-.
  - split.
    + intros h Hh. simpl. split; [|reflexivity].
      apply lookup_delete_ne. intros ->. exact (Hh Hc).
    + eexists. split; [reflexivity|]. constructor; [exact Ha|constructor].
  - apply within_refl.
Qed.

Lemma within_replaceInParent new old :
  F new -> F old ->
  (forall p, allowed (ReplaceChild p new old)) ->
  respects (within F allowed) (replaceInParent new old).
Proof.
  intros Hn Ho Ha s r s' H. unfold replaceInParent, bind, read in H.
  simpl in H.
  destruct (parentNode s !! old) as [p|]; injection H as _ <-.
  - split.
    + intros h Hh. simpl. split; [|reflexivity].
      rewrite lookup_insert_ne by (intros ->; exact (Hh Hn)).
      apply lookup_delete_ne. intros ->. exact (Hh Ho).
    + eexists. split; [reflexivity|]. constructor; [apply Ha|constructor].
  - apply within_refl.
Qed.

Lemma within_setMoonEvent el k v :
  F el -> respects (within F allowed) (setMoonEvent el k v).
Proof.
  intros Hel s r s' H. injection H as _ <-. split.
  - intros h Hh. simpl. split; [reflexivity|].
    apply lookup_insert_ne. intros ->. exact (Hh Hel).
  - exists []. simpl. rewrite app_nil_r. split; [reflexivity|constructor].
Qed.

End Within.

Lemma within_mono (F F' : handle -> Prop) (allowed allowed' : effect -> Prop)
      s s' :
  (forall h, F h -> F' h) ->
  (forall e, allowed e -> allowed' e) ->
  within F allowed s s' -> within F' allowed' s s'.
Proof.
  intros HF HA (Hf & d & Hd & Hall). split.
  - intros h Hh. apply Hf. intros HFh. exact (Hh (HF h HFh)).
  - exists d. split; [exact Hd|].
    eapply Forall_impl; [exact Hall|exact HA].
Qed.

(** ** What creation touches *)

Lemma extends_next s s' : extends s s' -> next s <= next s'.
Proof. intros (_ & H & _). exact H. Qed.

Lemma handles_bound_mono (lo hi hi' : nat) (cs : list NodeOld) :
  hi <= hi' ->
  Forall (fun c => Forall (fun h => lo < h < hi) (handles c)) cs ->
  Forall (fun c => Forall (fun h => lo < h < hi') (handles c)) cs.
Proof.
  intros Hle H. eapply Forall_impl; [exact H|]. intros c Hc.
  eapply Forall_impl; [exact Hc|]. intros h. simpl. lia.
Qed.

Lemma created_handles n st r st' :
  created n st r st' ->
  Forall (fun h => next st < h < next st') (handles r).
Proof.
  intros (_ & _ & Hel & Hn & Hcs & _ & _). destruct r as [nd el cref cs].
  simpl in *. subst el. constructor; [lia|].
  apply Forall_flat_map. eapply Forall_impl; [exact Hcs|].
  intros c Hc. eapply Forall_impl; [exact Hc|]. intros h. simpl. lia.
Qed.

Section CreateFootprint.
Variable F : handle -> Prop.
Variable allowed : effect -> Prop.
Variable el : handle.

Lemma appendNew_created items cs s cs' s' :
  (forall c, In c items ->
             forall s r s', viewCreate c s = (Ok r, s') -> created c s r s') ->
  el < next s ->
  (forall h, next s <= h -> F h) ->
  (forall e, next s <= subject e -> allowed e) ->
  (forall e, subject e = el -> is_listener e = false -> allowed e) ->
  Forall (fun c => Forall (fun h => el < h < next s) (handles c)) cs ->
  appendNew viewCreate el items cs s = (Ok cs', s') ->
  next s <= next s' /\
  within F allowed s s' /\
  Forall (fun c => Forall (fun h => el < h < next s') (handles c)) cs' /\
  exists new, cs' = cs ++ new /\ map node new = items.
Proof.
  intros IH Hel HF Hfresh Hown Hcs H. unfold appendNew in H.
  revert cs s Hel HF Hfresh Hcs H.
  induction items as [|c items IHitems]; intros cs s Hel HF Hfresh Hcs H;
    simpl in H.
  - injection H as <- <-. split; [lia|]. split; [apply within_refl|].
    split; [exact Hcs|]. exists []. rewrite app_nil_r. auto.
  - apply bind_Ok in H as (cs1 & s1 & Hstep & Hrest).
    apply bind_Ok in Hstep as (rc & s2 & Hc & Hstep).
    apply bind_Ok in Hstep as ([] & s3 & Happ & Hret).
    injection Hret as <- <-.
    pose proof (IH c (or_introl eq_refl) _ _ _ Hc) as Hcr.
    pose proof (created_handles _ _ _ _ Hcr) as Hh.
    destruct Hcr as (Hnode & _ & Helc & Hn2 & _ & Hw & _).
    pose proof (respects_appendChild (R := extends) (factory_default := fun _ _ => VUndef)
                  el (element rc) _ _ _ Happ) as He3.
    apply extends_next in He3.
    assert (Hw3 : within F allowed s2 s3).
    { eapply within_appendChild; [| |exact Happ].
      - apply HF. lia.
      - apply Hown; reflexivity. }
    assert (Hw2 : within F allowed s s2).
    { eapply within_mono; [| |exact Hw]; simpl; auto. }
    apply IHitems in Hrest as (Hn & Hw' & Hcs' & new & -> & Hmap).
    + split; [lia|]. split.
      * eapply within_trans; [|exact Hw'].
        eapply within_trans; eassumption.
      * split; [exact Hcs'|]. exists (rc :: new).
        rewrite <- app_assoc. simpl. split; [reflexivity|]. congruence.
    + intros c' Hin. apply IH. right. exact Hin.
    + lia.
    + intros h Hle. apply HF. lia.
    + intros e Hle. apply Hfresh. lia.
    + apply Forall_app. split.
      * eapply handles_bound_mono; [|exact Hcs]. lia.
      * constructor; [|constructor].
        eapply Forall_impl; [exact Hh|]. intros h. simpl. lia.
Qed.

Local Ltac by_respects H tac :=
  match type of H with
  | ?m ?s = _ =>
      let Hr := fresh "Hr" in
      assert (Hr : respects (within F allowed) m); [tac | exact (Hr _ _ _ H)]
  end.

Local Ltac own :=
  match goal with
  | Hown : forall e, subject e = el -> is_listener e = false -> allowed e
    |- allowed _ => apply Hown; reflexivity
  end.

Local Ltac step :=
  first
    [ apply respects_ret; apply within_refl
    | apply respects_for_in; apply within_refl
    | apply within_setAttribute; own
    | apply within_setDataset; own
    | apply within_setStyle; own
    | apply within_focus; own
    | apply within_setProperty; own
    | apply respects_bind; [apply within_trans | | intros ?]
    | apply respects_for_each;
      [apply within_refl | apply within_trans | intros ? _]
    | match goal with
      | |- respects _ (if ?b then _ else _) => destruct b
      end ].

Lemma createData_created key v cs s cs' s' :
  (forall a items c, v = VArr a items -> In c items ->
             forall s r s', viewCreate c s = (Ok r, s') -> created c s r s') ->
  el < next s ->
  (forall h, next s <= h -> F h) ->
  (forall e, next s <= subject e -> allowed e) ->
  (forall e, subject e = el -> is_listener e = false -> allowed e) ->
  (classify key = KEvent ->
   F el /\ allowed (AddEventListener el (slice1 key))) ->
  Forall (fun c => Forall (fun h => el < h < next s) (handles c)) cs ->
  createData viewCreate el key v cs s = (Ok cs', s') ->
  next s <= next s' /\
  within F allowed s s' /\
  Forall (fun c => Forall (fun h => el < h < next s') (handles c)) cs'.
Proof.
  intros IH Hel HF Hfresh Hown Hev Hcs H.
  pose proof (respects_createData (R := extends)
                (factory_default := fun _ _ => VUndef) viewCreate el key v cs
                (fun _ _ c _ _ => respects_viewCreate
                                    (factory_default := fun _ _ => VUndef) c)
                _ _ _ H) as Hext.
  apply extends_next in Hext.
  unfold createData in H.
  destruct (classify key) eqn:Hclass.
  9: { (* a generic property *)
    split; [exact Hext|]. split.
    - by_respects H ltac:(repeat step).
    - apply bind_Ok in H as (? & ? & _ & H). injection H as <- _.
      eapply handles_bound_mono; [|exact Hcs]. exact Hext. }
  8: { (* children *)
    destruct v; try discriminate H.
    eapply appendNew_created in H as (Hn & Hw & Hcs' & _); eauto. }
  1: { (* an event *)
    destruct (Hev eq_refl) as [HFel Hadd].
    split; [exact Hext|]. split.
    - by_respects H ltac:(
        apply respects_bind; [apply within_trans| |intros ?];
        [ apply within_setMoonEvent; exact HFel
        | apply respects_bind; [apply within_trans| |intros ?];
          [ apply within_addEventListener; exact Hadd
          | apply respects_ret; apply within_refl ] ]).
    - apply bind_Ok in H as (? & ? & _ & H).
      apply bind_Ok in H as (? & ? & _ & H). injection H as <- _.
      eapply handles_bound_mono; [|exact Hcs]. exact Hext. }
  all: split; [exact Hext|]; split;
    [ by_respects H ltac:(repeat step)
    | repeat (apply bind_Ok in H as (? & ? & _ & H)); injection H as <- _;
      eapply handles_bound_mono; [|exact Hcs]; exact Hext ].
Qed.

End CreateFootprint.

Lemma viewCreate_created n s r s' :
  viewCreate n s = (Ok r, s') -> created n s r s'.
Proof.
  revert s r s'. induction n as [ref nm nodeData IH] using NodeNew_children_ind.
  intros s r s' H. rewrite viewCreate_eq in H. simpl name in H. simpl data in H.
  apply bind_Ok in H as (cref & s1 & Halloc & H). injection Halloc as <- <-.
  destruct (nm =? "text")%string eqn:Htext.
  - apply bind_Ok in H as (h & s2 & Hc & H). injection H as <- <-.
    injection Hc as <- <-. unfold created. simpl. rewrite Htext.
    split; [reflexivity|]. split; [reflexivity|]. split; [reflexivity|].
    split; [lia|]. split; [constructor|]. split; [|exists []; reflexivity].
    split; [intros h _; simpl; auto|].
    exists [CreateTextNode (S (next s)) (get "data" nodeData)].
    split; [reflexivity|]. constructor; [simpl; lia|constructor].
  - apply bind_Ok in H as (h & s2 & Hc & H).
    apply bind_Ok in H as (cs & s3 & Hfold & H). injection H as <- <-.
    apply createElement_Ok in Hc as (-> & -> & _). simpl in Hfold |- *.
    set (s2 := mkState (S (S (next s))) (texts s) (parentNode s)
                       (MoonEvents s) (removeDataPropertyCache s)
                       (log s ++ [CreateElement (S (next s)) nm])
                       (refused s)) in *.
    assert (Hinv :
      next s2 <= next s3 /\
      within (fun h => next s <= h) (fun e => next s <= subject e) s2 s3 /\
      Forall (fun c => Forall (fun h => S (next s) < h < next s3) (handles c))
             cs).
    { eapply (fold_m_inv
                (fun cs0 s0 =>
                   next s2 <= next s0 /\
                   within (fun h => next s <= h)
                          (fun e => next s <= subject e) s2 s0 /\
                   Forall (fun c => Forall (fun h => S (next s) < h < next s0)
                                           (handles c)) cs0));
        [| |exact Hfold].
      - split; [lia|]. split; [apply within_refl|constructor].
      - intros cs0 [k v] s0 cs1 s1 Hin (Hn0 & Hw0 & Hcs0) Hstep. simpl in Hstep.
        eapply (createData_created (fun h => next s <= h)
                  (fun e => next s <= subject e)) in Hstep
          as (Hn1 & Hw1 & Hcs1).
        + split; [lia|]. split; [|exact Hcs1].
          eapply within_trans; eassumption.
        + intros a items c -> Hc. eapply IH; eassumption.
        + simpl in Hn0. lia.
        + simpl in Hn0. intros h. lia.
        + simpl in Hn0. intros e. lia.
        + intros e ->. lia.
        + intros _. simpl. split; lia.
        + exact Hcs0. }
    destruct Hinv as (Hn & Hw & Hcs). simpl in Hn.
    assert (Hw0 : within (fun h => next s <= h)
                         (fun e => next s <= subject e) s s2).
    { split; [intros h _; simpl; auto|].
      exists [CreateElement (S (next s)) nm]. split; [reflexivity|].
      constructor; [simpl; lia|constructor]. }
    unfold created. simpl. rewrite Htext.
    split; [reflexivity|]. split; [reflexivity|]. split; [reflexivity|].
    split; [lia|]. split; [exact Hcs|].
    split; [eapply within_trans; eassumption|].
    destruct Hw as (_ & d & Hd & _). exists d. rewrite Hd. simpl.
    rewrite <- app_assoc. reflexivity.
Qed.

(** ** Replacing a record of another kind *)

(** C3. A patch with a description of another kind than the record's
    creates a record from the description, puts the new node in the place
    of the old one under the old node's parent, and returns a record that
    holds the description, the new node and the new children: the state is
    the state creation left, with the replacement as its only further
    call.  The new node is of the kind of the description, and every handle
    of the new record was allocated by this patch, so that neither the old
    node nor a node of the old children is among them. *)
Theorem viewPatch_kind_change_replaces
        factory_default nodeOld nodeNew st nodeOldNew st1 parent :
  name (node nodeOld) <> name nodeNew ->
  element nodeOld < next st ->
  parentNode st !! element nodeOld = Some parent ->
  viewCreate nodeNew st = (Ok nodeOldNew, st1) ->
  viewPatch factory_default nodeOld nodeNew st
  = (Ok (mkNodeOld nodeNew (element nodeOldNew) (children_ref nodeOldNew)
                   (children nodeOldNew)),
     mkState (next st1) (texts st1)
             (<[element nodeOldNew := parent]>
                (delete (element nodeOld) (parentNode st1)))
             (MoonEvents st1) (removeDataPropertyCache st1)
             (log st1
              ++ [ReplaceChild parent (element nodeOldNew)
                               (element nodeOld)])
             (refused st1)) /\
  (exists rest,
      log st1 =
      log st
      ++ (if String.eqb (name nodeNew) "text"
          then CreateTextNode (element nodeOldNew) (get "data" (data nodeNew))
          else CreateElement (element nodeOldNew) (name nodeNew)) :: rest) /\
  Forall (fun h => next st <= h) (handles nodeOldNew).
Proof.
  intros Hk Hel Hp Hc.
  pose proof (viewCreate_created _ _ _ _ Hc) as Hcr.
  pose proof (created_handles _ _ _ _ Hcr) as Hh.
  destruct Hcr as (_ & _ & Helc & _ & _ & (Hframe & _) & rest & Hlog).
  split; [|split].
  - rewrite viewPatch_eq.
    replace (name (node nodeOld) =? name nodeNew)%string with false
      by (symmetry; apply String.eqb_neq; exact Hk).
    simpl. rewrite (bind_Ok_intro _ _ _ _ _ Hc).
    destruct (Hframe (element nodeOld)) as [Hpar _]; [lia|].
    rewrite Hp in Hpar.
    unfold replaceInParent, bind, read, set_parentNode, emit, ret. simpl.
    rewrite Hpar. reflexivity.
  - exists rest. rewrite Helc. exact Hlog.
  - eapply Forall_impl; [exact Hh|]. intros h Hlt. simpl in Hlt. lia.
Qed.


(** ** The children of a record follow its description *)

Lemma NodeOld_children_ind (P : NodeOld -> Prop) :
  (forall n el cref cs, Forall P cs -> P (mkNodeOld n el cref cs)) ->
  forall r, P r.
Proof.
  intros Hstep. fix IH 1. intros [n el cref cs]. apply Hstep.
  induction cs as [|c cs IHcs]; constructor; [apply IH | exact IHcs].
Qed.

Lemma tracked_mono H st st' r :
  texts st ⊆ texts st' -> tracked H st r -> tracked H st' r.
Proof.
  intros Hsub. induction r as [n el cref cs IH] using NodeOld_children_ind.
  intros Ht. inversion Ht as [n0 el0 cref0 cs0 Hlen Hsh Htext Hcs]. subst.
  constructor; [exact Hlen|exact Hsh| |].
  - intros Hn. apply Hsub. apply Htext. exact Hn.
  - rewrite Forall_forall in IH, Hcs. apply Forall_forall. intros c Hc.
    apply IH; [exact Hc|]. apply Hcs. exact Hc.
Qed.

Lemma extends_texts s s' : extends s s' -> texts s ⊆ texts s'.
Proof. intros (_ & _ & H & _). exact H. Qed.

Lemma Forall_tracked_mono H st st' cs :
  extends st st' -> Forall (tracked H st) cs -> Forall (tracked H st') cs.
Proof.
  intros He Hcs. eapply Forall_impl; [exact Hcs|]. intros c.
  apply tracked_mono. apply extends_texts. exact He.
Qed.

Lemma classify_children k : classify k = KChildren -> k = "children".
Proof.
  unfold classify. destruct (is_event k); [discriminate|].
  repeat match goal with
         | |- (if (k =? ?s)%string then _ else _) = _ -> _ =>
             destruct (String.eqb_spec k s); [try discriminate|]
         end; auto. discriminate.
Qed.

Lemma children_count_cons_other k v l :
  k <> "children" -> children_count ((k, v) :: l) = children_count l.
Proof.
  intros Hk. unfold children_count. simpl.
  destruct (String.eqb_spec k "children"); [contradiction|reflexivity].
Qed.

Lemma children_count_absent l : has "children" l = false -> children_count l = 0.
Proof. intros H. unfold children_count. rewrite has_false_get by exact H. reflexivity. Qed.

Lemma has_not_In k (l : list (string * value)) :
  k ∉ map fst l -> has k l = false.
Proof.
  induction l as [|[k' v] l IH]; simpl; intros Hk; [reflexivity|].
  rewrite not_elem_of_cons in Hk. destruct Hk as [Hne Hk].
  destruct (String.eqb_spec k' k); [congruence|]. apply IH. exact Hk.
Qed.

Lemma createData_keeps_children create el k v cs s cs' s' :
  classify k <> KChildren ->
  createData create el k v cs s = (Ok cs', s') -> cs' = cs.
Proof.
  intros Hk H. unfold createData in H.
  destruct (classify k); try contradiction;
    repeat (apply bind_Ok in H as (? & ? & _ & H));
    injection H as <- _; reflexivity.
Qed.

Lemma appendChild_not_text p c s s' :
  appendChild p c s = (Ok tt, s') -> p ∉ texts s.
Proof.
  unfold appendChild, bind, read. simpl.
  destruct (decide (p ∈ texts s)); [discriminate|auto].
Qed.

Lemma appendNew_tracked H el items cs s cs' s' :
  (forall c, In c items ->
             forall s r s', viewCreate c s = (Ok r, s') -> tracked H s' r) ->
  Forall (tracked H s) cs ->
  appendNew viewCreate el items cs s = (Ok cs', s') ->
  Forall (tracked H s') cs' /\
  length cs' = length cs + length items /\
  (items <> [] -> el ∉ texts s).
Proof.
  unfold appendNew. revert cs s.
  induction items as [|c items IH]; intros cs s Hcr Hcs Hrun; simpl in Hrun.
  - injection Hrun as <- <-. split; [exact Hcs|]. split; [simpl; lia|].
    congruence.
  - apply bind_Ok in Hrun as (cs1 & s1 & Hstep & Hrest).
    apply bind_Ok in Hstep as (rc & s2 & Hc & Hstep).
    apply bind_Ok in Hstep as ([] & s3 & Happ & Hret).
    injection Hret as <- <-.
    pose proof (viewCreate_extends _ _ _ _ Hc) as He2.
    pose proof (appendChild_extends _ _ _ _ _ Happ) as He3.
    apply IH in Hrest as (Hall & Hlen & _).
    + split; [exact Hall|]. split.
      * rewrite Hlen, length_app. simpl. lia.
      * intros _ Hin. apply (appendChild_not_text _ _ _ _ Happ).
        apply (extends_texts _ _ He2). exact Hin.
    + intros c' Hin. apply Hcr. right. exact Hin.
    + apply Forall_app. split.
      * eapply Forall_tracked_mono; [|exact Hcs].
        eapply extends_trans; eassumption.
      * constructor; [|constructor].
        eapply tracked_mono; [apply extends_texts; exact He3|].
        eapply Hcr; [left; reflexivity|exact Hc].
Qed.

Lemma classify_children_key : classify "children" = KChildren.
Proof. reflexivity. Qed.

Lemma create_loop_tracked H el l cs s cs' s' :
  (forall a items c, In ("children", VArr a items) l -> In c items ->
             forall s r s', viewCreate c s = (Ok r, s') -> tracked H s' r) ->
  NoDup (map fst l) ->
  Forall (tracked H s) cs ->
  fold_m (fun cs kv => createData viewCreate el kv.1 kv.2 cs) l cs s
    = (Ok cs', s') ->
  Forall (tracked H s') cs' /\
  length cs' = length cs + children_count l.
Proof.
  revert cs s. induction l as [|[k v] l IH]; intros cs s Hcr Hnd Hcs Hrun;
    simpl in Hrun.
  - injection Hrun as <- <-. split; [exact Hcs|].
    unfold children_count. simpl. lia.
  - apply bind_Ok in Hrun as (cs1 & s1 & Hstep & Hrest). simpl in Hstep.
    simpl in Hnd. apply NoDup_cons in Hnd as [Hk Hnd].
    pose proof (respects_createData (R := extends)
                  (factory_default := fun _ _ => VUndef) viewCreate el k v cs
                  (fun _ _ c _ _ => respects_viewCreate
                                      (factory_default := fun _ _ => VUndef) c)
                  _ _ _ Hstep) as He1.
    destruct (classify k) eqn:Hclass.
    8: { (* the children *)
      apply classify_children in Hclass as ->.
      unfold createData in Hstep. rewrite classify_children_key in Hstep.
      destruct v as [| | | | | | | |a items]; try discriminate Hstep.
      apply (appendNew_tracked H) in Hstep as (Hall & Hlen & _);
        [| |exact Hcs].
      - apply IH in Hrest as (Hall' & Hlen'); [| |exact Hnd|exact Hall].
        + split; [exact Hall'|]. rewrite Hlen', Hlen.
          rewrite (children_count_absent l) by (apply has_not_In; exact Hk).
          unfold children_count. simpl. lia.
        + intros a' items' c Hin. apply (Hcr a' items' c). right. exact Hin.
      - intros c Hin. apply (Hcr a items c); [left; reflexivity|exact Hin]. }
    all: apply createData_keeps_children in Hstep as ->;
      [|rewrite Hclass; discriminate].
    all: apply IH in Hrest as (Hall' & Hlen');
      [ | intros a' items' c Hin; apply (Hcr a' items' c); right; exact Hin
        | exact Hnd
        | eapply Forall_tracked_mono; [exact He1|exact Hcs] ].
    all: split; [exact Hall'|]; rewrite Hlen';
      rewrite children_count_cons_other;
      [reflexivity|intros ->; rewrite classify_children_key in Hclass;
                   discriminate Hclass].
Qed.

Lemma viewCreate_tracked H n s r s' :
  shaped H n -> viewCreate n s = (Ok r, s') -> tracked H s' r.
Proof.
  revert s r s'. induction n as [ref nm nodeData IH] using NodeNew_children_ind.
  intros s r s' Hsh Hrun. rewrite viewCreate_eq in Hrun.
  simpl name in Hrun. simpl data in Hrun.
  inversion Hsh as [ref0 nm0 nodeData0 Hnd Harr]. subst.
  apply bind_Ok in Hrun as (cref & s1 & Halloc & Hrun).
  destruct (nm =? "text")%string eqn:Htext.
  - apply bind_Ok in Hrun as (h & s2 & Hc & Hrun). injection Hrun as <- <-.
    injection Hc as <- <-. injection Halloc as <- <-.
    constructor; [|exact Hsh| |constructor].
    + unfold implied. simpl. rewrite Htext. reflexivity.
    + intros _. simpl. apply elem_of_union_l, elem_of_singleton. reflexivity.
  - apply bind_Ok in Hrun as (h & s2 & Hc & Hrun).
    apply bind_Ok in Hrun as (cs & s3 & Hfold & Hrun). injection Hrun as <- <-.
    apply (create_loop_tracked H) in Hfold as (Hall & Hlen);
      [| |exact Hnd|constructor].
    + constructor; [|exact Hsh| |exact Hall].
      * unfold implied. simpl. rewrite Htext. exact Hlen.
      * simpl. intros ->. discriminate Htext.
    + intros a items c Hin Hc' s0 r0 s0' Hrun0.
      eapply IH; [exact Hin|exact Hc'| |exact Hrun0].
      pose proof (Harr a items Hin) as [_ Hitems].
      rewrite Forall_forall in Hitems. apply Hitems.
      apply list_elem_of_In. exact Hc'.
Qed.

(** ** The three regimes of the children loop *)

Lemma popChildren_spec el n cs s cs' s' :
  popChildren el n cs s = (Ok cs', s') ->
  n <= length cs /\
  cs' = take (length cs - n) cs /\
  log s' =
    log s
    ++ map (fun c => RemoveChild el (element c))
           (rev (drop (length cs - n) cs)) /\
  next s' = next s /\
  texts s' = texts s.
Proof.
  revert cs s. induction n as [|n IH]; intros cs s H; simpl in H.
  - injection H as <- <-. rewrite Nat.sub_0_r, take_ge, drop_ge by lia.
    simpl. rewrite app_nil_r. repeat split; try reflexivity. lia.
  - destruct (last cs) as [c|] eqn:Hlast; [|discriminate H].
    apply bind_Ok in H as ([] & s1 & Hrm & Hrest).
    apply last_Some in Hlast as [l ->]. rewrite removelast_last in Hrest.
    apply IH in Hrest as (Hn & -> & Hlog & Hnext & Htexts).
    unfold removeChild, bind, read in Hrm. simpl in Hrm.
    destruct (decide (parentNode s !! element c = Some el));
      [|discriminate Hrm].
    injection Hrm as <-. simpl in *.
    rewrite length_app. simpl.
    replace (length l + 1 - S n) with (length l - n) by lia.
    split; [lia|]. split; [|split; [|split]]; try assumption.
    + rewrite take_app_le by lia. reflexivity.
    + rewrite Hlog. rewrite <- app_assoc. f_equal.
      rewrite drop_app_le by lia. rewrite rev_app_distr. reflexivity.
Qed.

Lemma patchPrefix_length patch valueOld k i items cs s cs' s' :
  patchPrefix patch valueOld k i items cs s = (Ok cs', s') ->
  length cs' = length cs.
Proof.
  revert k i cs s. induction items as [|childNew items IH];
    intros k i cs s H.
  - destruct k; simpl in H; injection H as <- _; reflexivity.
  - destruct k; simpl in H; [injection H as <- _; reflexivity|].
    apply bind_Ok in H as (differs & s1 & _ & H).
    apply bind_Ok in H as (cs1 & s2 & Hstep & H).
    apply IH in H. rewrite H.
    destruct differs.
    + destruct (cs !! i); [|discriminate Hstep].
      apply bind_Ok in Hstep as (c' & s3 & _ & Hret).
      injection Hret as <- _. apply length_insert.
    + injection Hstep as <- _. reflexivity.
Qed.

Lemma patchPrefix_beyond patch valueOld k i items cs s cs' s' j :
  patchPrefix patch valueOld k i items cs s = (Ok cs', s') ->
  j < i \/ i + k <= j ->
  cs' !! j = cs !! j.
Proof.
  revert k i cs s. induction items as [|childNew items IH];
    intros k i cs s H Hj.
  - destruct k; simpl in H; injection H as <- _; reflexivity.
  - destruct k; simpl in H; [injection H as <- _; reflexivity|].
    apply bind_Ok in H as (differs & s1 & _ & H).
    apply bind_Ok in H as (cs1 & s2 & Hstep & H).
    apply IH in H; [|lia]. rewrite H.
    destruct differs.
    + destruct (cs !! i); [|discriminate Hstep].
      apply bind_Ok in Hstep as (c' & s3 & _ & Hret).
      injection Hret as <- _. apply list_lookup_insert_ne. lia.
    + injection Hstep as <- _. reflexivity.
Qed.

Section PatchTracked.
Variable H : gmap nat (list NodeNew).
Variable factory_default : string -> string -> value.

Lemma patchPrefix_tracked valueOld items k i cs s cs' s' :
  patches_track H factory_default items ->
  Forall (shaped H) items ->
  Forall (tracked H s) cs ->
  patchPrefix (viewPatch factory_default) valueOld k i items cs s
    = (Ok cs', s') ->
  Forall (tracked H s') cs'.
Proof.
  revert k i cs s. induction items as [|childNew items IH];
    intros k i cs s Hp Hsh Hcs Hrun.
  - destruct k; simpl in Hrun; injection Hrun as <- <-; exact Hcs.
  - destruct k; simpl in Hrun; [injection Hrun as <- <-; exact Hcs|].
    apply bind_Ok in Hrun as (differs & s1 & Hd & Hrun).
    apply bind_Ok in Hrun as (cs1 & s2 & Hstep & Hrun).
    assert (s1 = s) as ->.
    { unfold differs_at in Hd.
      repeat match type of Hd with
             | context [match ?x with _ => _ end] => destruct x
             end; injection Hd as _ <-; reflexivity. }
    apply Forall_cons in Hsh as [Hsh1 Hsh].
    eapply IH; [| |  |exact Hrun].
    + intros c0 Hin. apply Hp. right. exact Hin.
    + exact Hsh.
    + destruct differs.
      * destruct (cs !! i) as [c|] eqn:Hc; [|discriminate Hstep].
        apply bind_Ok in Hstep as (c' & s3 & Hpatch & Hret).
        injection Hret as <- <-.
        pose proof (viewPatch_extends _ _ _ _ _ _ Hpatch) as Hext.
        apply Forall_insert.
        -- eapply Forall_tracked_mono; eassumption.
        -- eapply Hp; [left; reflexivity| |exact Hsh1|exact Hpatch].
           rewrite Forall_forall in Hcs. apply Hcs.
           eapply list_elem_of_lookup_2. exact Hc.
      * injection Hstep as <- <-. exact Hcs.
Qed.

Lemma patchChildren_tracked valueOld el items cs s cs' s' :
  patches_track H factory_default items ->
  Forall (shaped H) items ->
  Forall (tracked H s) cs ->
  patchChildren (viewPatch factory_default) valueOld el items cs s
    = (Ok cs', s') ->
  Forall (tracked H s') cs' /\
  length cs' = length items /\
  (el ∈ texts s -> length items <= length cs).
Proof.
  intros Hp Hsh Hcs Hrun. unfold patchChildren in Hrun.
  destruct (Nat.eqb_spec (length cs) (length items)) as [Heq|Hne].
  - split; [eapply patchPrefix_tracked; eassumption|].
    apply patchPrefix_length in Hrun. split; lia.
  - destruct (Nat.ltb_spec (length items) (length cs)) as [Hlt|Hge].
    + apply bind_Ok in Hrun as (cs1 & s1 & Hpre & Hpop).
      pose proof (patchPrefix_length _ _ _ _ _ _ _ _ _ Hpre) as Hlen.
      eapply patchPrefix_tracked in Hpre; [|eassumption..].
      pose proof (respects_popChildren (R := extends)
                    (factory_default := factory_default) _ _ _ _ _ _ Hpop)
        as Hext.
      apply popChildren_spec in Hpop as (_ & -> & _).
      split; [|split; [|lia]].
      * apply Forall_take. eapply Forall_tracked_mono; eassumption.
      * rewrite length_take. lia.
    + apply bind_Ok in Hrun as (cs1 & s1 & Hpre & Happ).
      pose proof (patchPrefix_length _ _ _ _ _ _ _ _ _ Hpre) as Hlen.
      pose proof (respects_patchPrefix (R := extends)
                    (factory_default := factory_default) _ _ _ _ _ _
                    (fun c childNew _ => respects_viewPatch c childNew)
                    _ _ _ Hpre) as Hext.
      eapply patchPrefix_tracked in Hpre; [|eassumption..].
      apply (appendNew_tracked H) in Happ as (Hall & Hlen' & Htext);
        [| |exact Hpre].
      * split; [exact Hall|]. rewrite length_skipn in Hlen'.
        split; [lia|]. intros Hin. exfalso. apply Htext.
        -- intros Hnil. apply (f_equal length) in Hnil.
           rewrite length_skipn in Hnil. simpl in Hnil. lia.
        -- apply (extends_texts _ _ Hext). exact Hin.
      * intros c Hin s0 r0 s0' Hc. eapply viewCreate_tracked; [|exact Hc].
        rewrite Forall_forall in Hsh. apply Hsh.
        apply (subseteq_drop (length cs) items). apply list_elem_of_In.
        exact Hin.
Qed.

End PatchTracked.

Lemma strict_eq_array x a items :
  strict_eq x (VArr a items) = true -> exists olds, x = VArr a olds.
Proof.
  destruct x; simpl; try discriminate. intros Heq.
  apply Nat.eqb_eq in Heq as ->. eauto.
Qed.

Lemma strict_eq_not_array x v :
  strict_eq x v = true ->
  (forall a items, v <> VArr a items) ->
  forall a olds, x <> VArr a olds.
Proof.
  intros Heq Hv a olds ->. destruct v; simpl in Heq; try discriminate.
  eapply Hv. reflexivity.
Qed.

Lemma patchData_keeps_children patch el valueOld k v cs s cs' s' :
  classify k <> KChildren ->
  patchData patch el valueOld k v cs s = (Ok cs', s') -> cs' = cs.
Proof.
  intros Hk Hrun. unfold patchData in Hrun.
  destruct (classify k); try contradiction.
  1: { apply bind_Ok in Hrun as (m & s1 & _ & Hrun).
       destruct (decide _);
         repeat (apply bind_Ok in Hrun as (? & ? & _ & Hrun));
         injection Hrun as <- _; reflexivity. }
  all: repeat (apply bind_Ok in Hrun as (? & ? & _ & Hrun));
    injection Hrun as <- _; reflexivity.
Qed.

Lemma removeData_keeps_children factory_default el nm k v cs s cs' s' :
  classify k <> KChildren ->
  removeData factory_default el nm k v cs s = (Ok cs', s') -> cs' = cs.
Proof.
  intros Hk Hrun. unfold removeData in Hrun.
  destruct (classify k); try contradiction.
  1: { apply bind_Ok in Hrun as (m & s1 & _ & Hrun).
       destruct (m !! el); [|discriminate Hrun].
       repeat (apply bind_Ok in Hrun as (? & ? & _ & Hrun)).
       injection Hrun as <- _. reflexivity. }
  all: repeat (apply bind_Ok in Hrun as (? & ? & _ & Hrun));
    injection Hrun as <- _; reflexivity.
Qed.

Section PatchLoops.
Variable H : gmap nat (list NodeNew).
Variable factory_default : string -> string -> value.
Variable el : handle.
Variable nm : string.

Lemma update_loop_tracked nodeOldNodeData l cs s cs' s' :
  NoDup (map fst l) ->
  (forall a items,
      In ("children", VArr a items) l ->
      H !! a = Some items /\ Forall (shaped H) items /\
      patches_track H factory_default items) ->
  (forall a olds,
      get "children" nodeOldNodeData = VArr a olds -> H !! a = Some olds) ->
  (nm = "text" -> el ∈ texts s) ->
  Forall (tracked H s) cs ->
  (has "children" l = true ->
   length cs = (if (nm =? "text")%string then 0
                else children_count nodeOldNodeData)) ->
  fold_m (updateData (viewPatch factory_default) el nodeOldNodeData) l cs s
    = (Ok cs', s') ->
  Forall (tracked H s') cs' /\
  length cs' =
    if has "children" l
    then (if (nm =? "text")%string then 0 else children_count l)
    else length cs.
Proof.
  revert cs s. induction l as [|[k v] l IH];
    intros cs s Hnd Hnew Hold Htext Hcs Hlen Hrun; simpl in Hrun.
  - injection Hrun as <- <-. auto.
  - apply bind_Ok in Hrun as (cs1 & s1 & Hstep & Hrest).
    simpl in Hnd. apply NoDup_cons in Hnd as [Hk Hnd].
    pose proof (respects_updateData (R := extends) el nodeOldNodeData cs
                  (k, v) s _ s1 Hstep) as Hext.
    assert (Hnew' : forall a items,
               In ("children", VArr a items) l ->
               H !! a = Some items /\ Forall (shaped H) items /\
               patches_track H factory_default items).
    { intros a items Hin. apply Hnew. right. exact Hin. }
    assert (Htext' : nm = "text" -> el ∈ texts s1).
    { intros Hn. apply (extends_texts _ _ Hext). auto. }
    destruct (classify k) eqn:Hclass.
    8: { (* the children *)
      apply classify_children in Hclass as ->.
      simpl has in *. simpl String.eqb in *. specialize (Hlen eq_refl).
      assert (Hhas : has "children" l = false) by (apply has_not_In; exact Hk).
      assert (Hcount : children_count (("children", v) :: l)
                       = match v with VArr _ items => length items | _ => 0 end)
        by reflexivity.
      rewrite Hcount.
      assert (Hstep' :
        Forall (tracked H s1) cs1 /\
        length cs1 = if (nm =? "text")%string then 0
                     else match v with VArr _ items => length items | _ => 0 end).
      { rewrite (at_key_own "children") in Hstep by reflexivity.
        destruct (strict_eq (get "children" nodeOldNodeData) v) eqn:Hsame.
        - injection Hstep as <- <-. split; [exact Hcs|]. rewrite Hlen.
          destruct (nm =? "text")%string; [reflexivity|].
          destruct v as [| | | | | | | |a items].
          9: { apply strict_eq_array in Hsame as [olds Holds].
               destruct (Hnew a items (or_introl eq_refl)) as (Hitems & _).
               pose proof (Hold a olds Holds) as Holds'.
               rewrite Hitems in Holds'. injection Holds' as <-.
               unfold children_count. rewrite Holds. reflexivity. }
          all: unfold children_count;
            destruct (get "children" nodeOldNodeData); try reflexivity;
            discriminate Hsame.
        - unfold patchData in Hstep. rewrite classify_children_key in Hstep.
          destruct v as [| | | | | | | |a items]; try discriminate Hstep.
          destruct (Hnew a items (or_introl eq_refl)) as (_ & Hsh & Hp).
          eapply (patchChildren_tracked H) in Hstep
            as (Hall & Hlen1 & Hbound); [|eassumption..].
          split; [exact Hall|].
          destruct (String.eqb_spec nm "text") as [Hn|_]; [|exact Hlen1].
          specialize (Hbound (Htext Hn)). lia. }
      destruct Hstep' as [Hcs1 Hlen1].
      eapply IH in Hrest as (Hall & Hlen'); [|eassumption..|].
      - split; [exact Hall|]. rewrite Hlen', Hhas. exact Hlen1.
      - rewrite Hhas. discriminate. }
    all: assert (Hne : k <> "children")
      by (intros ->; rewrite classify_children_key in Hclass;
          discriminate Hclass).
    all: assert (cs1 = cs) as ->
      by (destruct (strict_eq (at_key k nodeOldNodeData) v);
          [ injection Hstep as <- _; reflexivity
          | eapply patchData_keeps_children; [|exact Hstep];
            rewrite Hclass; discriminate ]).
    all: assert (Hhas : has "children" ((k, v) :: l) = has "children" l)
      by (simpl; destruct (String.eqb_spec k "children");
          [contradiction|reflexivity]).
    all: rewrite Hhas in *; rewrite children_count_cons_other by exact Hne.
    all: eapply IH; [eassumption..| |exact Hlen|exact Hrest].
    all: eapply Forall_tracked_mono; eassumption.
Qed.

Lemma removal_loop_tracked nodeNewData l cs s cs' s' :
  Forall (tracked H s) cs ->
  fold_m (removeOld factory_default el nm nodeNewData) l cs s
    = (Ok cs', s') ->
  Forall (tracked H s') cs' /\
  length cs' =
    if has "children" l && negb (has "children" nodeNewData)
    then 0 else length cs.
Proof.
  revert cs s. induction l as [|[k v] l IH]; intros cs s Hcs Hrun;
    simpl in Hrun.
  - injection Hrun as <- <-. auto.
  - apply bind_Ok in Hrun as (cs1 & s1 & Hstep & Hrest).
    pose proof (respects_removeOld (R := extends) el nm nodeNewData cs
                  (k, v) s _ s1 Hstep) as Hext.
    simpl has. destruct (String.eqb_spec k "children") as [->|Hne].
    + rewrite (key_in_own "children") in Hstep by reflexivity.
      destruct (has "children" nodeNewData) eqn:Hhas.
      * injection Hstep as <- <-. apply IH in Hrest as (Hall & Hlen);
          [|exact Hcs].
        split; [exact Hall|]. rewrite Hlen, andb_false_r. reflexivity.
      * unfold removeData in Hstep. rewrite classify_children_key in Hstep.
        apply popChildren_spec in Hstep as (_ & -> & _).
        rewrite Nat.sub_diag, take_0 in Hrest.
        apply IH in Hrest as (Hall & Hlen); [|constructor].
        split; [exact Hall|]. rewrite Hlen. simpl.
        destruct (has "children" l); reflexivity.
    + assert (cs1 = cs) as ->.
      { destruct (key_in k nodeNewData);
          [injection Hstep as <- _; reflexivity|].
        eapply removeData_keeps_children; [|exact Hstep].
        intros Hclass. apply classify_children in Hclass. contradiction. }
      eapply IH; [|exact Hrest].
      eapply Forall_tracked_mono; eassumption.
Qed.

End PatchLoops.

Lemma shaped_children H r nm nodeData :
  shaped H (mkNodeNew r nm nodeData) ->
  NoDup (map fst nodeData) /\
  forall a items,
    In ("children", VArr a items) nodeData ->
    H !! a = Some items /\ Forall (shaped H) items.
Proof. intros Hs. inversion Hs. subst. auto. Qed.

Lemma get_In_has key (obj : list (string * value)) :
  has key obj = true -> In (key, get key obj) obj.
Proof.
  induction obj as [|[k w] obj IH]; simpl; [discriminate|].
  destruct (String.eqb_spec k key) as [->|_]; auto.
Qed.

Lemma viewPatch_tracked H factory_default nodeNew :
  forall nodeOld s nodeOld' s',
    tracked H s nodeOld -> shaped H nodeNew ->
    viewPatch factory_default nodeOld nodeNew s = (Ok nodeOld', s') ->
    tracked H s' nodeOld'.
Proof.
  induction nodeNew as [ref nm nodeData IH] using NodeNew_children_ind.
  intros nodeOld s nodeOld' s' Ht Hsh Hrun.
  destruct (String.eqb_spec (name (node nodeOld)) nm) as [Hk|Hk].
  - (* the same kind *)
    apply viewPatch_same_kind_inv in Hrun as (cs1 & s1 & cs2 & H1 & H2 & ->);
      [|exact Hk].
    simpl data in *.
    destruct nodeOld as [[oref onm od] el cref cs]. simpl in *. subst onm.
    inversion Ht as [n0 el0 cref0 cs0 Hlen Hosh Htext Hcs]. subst.
    apply shaped_children in Hsh as Hnew. destruct Hnew as [Hnd Harr].
    apply shaped_children in Hosh as [Hond Holdarr].
    unfold implied in Hlen. simpl in Hlen.
    pose proof (respects_update_loop (R := extends) _ _ _ _ _ _ _ H1) as He1.
    pose proof (respects_removal_loop (R := extends) _ _ _ _ _ _ _ _ H2)
      as He2.
    eapply (update_loop_tracked H factory_default el nm) in H1
      as (Hall1 & Hlen1); [|exact Hnd| | |exact Htext|exact Hcs|intros _; exact Hlen].
    + eapply (removal_loop_tracked H) in H2 as (Hall2 & Hlen2); [|exact Hall1].
      constructor; [|exact Hsh| |exact Hall2].
      * unfold implied. simpl. rewrite Hlen2, Hlen1.
        destruct (has "children" nodeData) eqn:Hhas.
        -- rewrite andb_false_r. reflexivity.
        -- rewrite andb_true_r.
           rewrite (children_count_absent nodeData) by exact Hhas.
           destruct (has "children" od) eqn:Hohas.
           ++ destruct (nm =? "text")%string; reflexivity.
           ++ rewrite Hlen.
              rewrite (children_count_absent od) by exact Hohas.
              destruct (nm =? "text")%string; reflexivity.
      * simpl. intros Hn. apply (extends_texts _ _ He2).
        apply (extends_texts _ _ He1). exact (Htext Hn).
    + intros a items Hin. destruct (Harr a items Hin) as [Ha Hitems].
      split; [exact Ha|]. split; [exact Hitems|].
      intros childNew Hc c s0 c' s0' Htc Hshc Hp.
      eapply IH; eassumption.
    + intros a olds Hget. apply (Holdarr a olds).
      rewrite <- Hget. apply get_In_has.
      destruct (has "children" od) eqn:Hohas; [reflexivity|].
      rewrite has_false_get in Hget by exact Hohas. discriminate Hget.
  - (* another kind *)
    apply viewPatch_other_kind_inv in Hrun as (rc & s1 & Hc & Hrep & ->);
      [|exact Hk].
    pose proof (respects_replaceInParent (R := extends)
                  (factory_default := factory_default) _ _ _ _ _ Hrep) as He.
    pose proof (viewCreate_created _ _ _ _ Hc) as (Hnode & _).
    apply (viewCreate_tracked H) in Hc; [|exact Hsh].
    eapply tracked_mono; [apply extends_texts; exact He|].
    destruct rc as [n e c cs]. simpl in *. subst n. exact Hc.
Qed.

(** C8. After an operation of the engine that returns, on arguments that
    satisfy the invariant, the record it returns and every record below it
    has as many child records as its description implies: the length of
    the [children] array of the description, or zero when the key is absent
    or the kind is text. *)
Theorem children_follow_description H factory_default op st r st' :
  ready H st op ->
  perform factory_default op st = (Ok r, st') ->
  tracked H st' r.
Proof.
  destruct op as [n|nodeOld nodeNew]; simpl.
  - apply viewCreate_tracked.
  - intros [Ht Hsh]. eapply viewPatch_tracked; eassumption.
Qed.

Lemma children_follow_description_witness :
  tracked arrays (viewPatch empty_defaults adopted listed page).2
          (mkNodeOld listed 1 0
             [mkNodeOld (mkNodeNew 16 "text" [("data", VStr "hi")]) 3 2 []]).
Proof.
  apply (children_follow_description arrays empty_defaults
           (Patch adopted listed) page).
  - split.
    + constructor; [reflexivity| |discriminate|constructor].
      constructor; [constructor|intros a items []].
    + constructor.
      * apply NoDup_cons. split; [apply not_elem_of_nil|apply NoDup_nil_2].
      * intros a items [Heq|[]]. injection Heq as <- <-.
        split; [reflexivity|]. constructor; [|constructor].
        constructor; [|intros a items [Heq|[]]; discriminate Heq].
        apply NoDup_cons. split; [apply not_elem_of_nil|apply NoDup_nil_2].
  - reflexivity.
Defined.

(** ** Growing and shrinking the children *)

Lemma appendChild_log p c s s' :
  appendChild p c s = (Ok tt, s') ->
  log s' = log s ++ [AppendChild p c] /\ next s' = next s.
Proof.
  unfold appendChild, bind, read. simpl.
  destruct (decide (p ∈ texts s)); [discriminate|].
  intros H. injection H as <-. auto.
Qed.

Lemma patchPrefix_drop patch valueOld k items cs s cs' s' :
  patchPrefix patch valueOld k 0 items cs s = (Ok cs', s') ->
  drop k cs' = drop k cs.
Proof.
  intros H. apply list_eq. intros j. rewrite !lookup_drop.
  eapply patchPrefix_beyond; [exact H|]. lia.
Qed.

Lemma differs_at_spec valueOld i childNew s b s1 :
  differs_at valueOld i childNew s = (Ok b, s1) ->
  s1 = s /\
  (b = false -> same_at valueOld i childNew) /\
  (b = true -> ~ same_at valueOld i childNew).
Proof.
  unfold differs_at, ret, throw, same_at.
  destruct valueOld as [| | | | | | | |a olds]; try discriminate;
    try (intros H; injection H as <- <-; split; [reflexivity|];
         split; [discriminate|]; intros _ (a & olds & o & Hv & _);
         discriminate Hv).
  destruct (olds !! i) as [o|] eqn:Ho; intros H; injection H as <- <-;
    (split; [reflexivity|]).
  - split.
    + intros Heq. apply negb_false_iff, Nat.eqb_eq in Heq.
      exists a, olds, o. auto.
    + intros Hne (a' & olds' & o' & Hv & Ho' & Href).
      injection Hv as <- <-. rewrite Ho in Ho'. injection Ho' as <-.
      apply negb_true_iff, Nat.eqb_neq in Hne. contradiction.
  - split; [discriminate|]. intros _ (a' & olds' & o' & Hv & Ho' & _).
    injection Hv as <- <-. rewrite Ho in Ho'. discriminate Ho'.
Qed.

(** The loop over the common indices patches in place. *)
Lemma patchPrefix_in_place patch valueOld items :
  forall k i cs s cs' s',
    k <= length items -> i + k <= length cs ->
    patchPrefix patch valueOld k i items cs s = (Ok cs', s') ->
    patched_in_place patch valueOld i (take k (drop i cs)) (take k items) s
                     (take k (drop i cs')) s'.
Proof.
  induction items as [|childNew items IH]; intros k i cs s cs' s' Hk Hi H.
  - simpl in Hk. assert (k = 0) as -> by lia. simpl in H.
    injection H as <- <-. simpl. constructor.
  - destruct k as [|k];
      [simpl in H; injection H as <- <-; simpl; constructor|].
    simpl in Hk, H.
    apply bind_Ok in H as (differs & s0 & Hd & H).
    apply differs_at_spec in Hd as (-> & Hsame & Hdiff).
    apply bind_Ok in H as (cs1 & s1 & Hstep & H).
    assert (Hc : is_Some (cs !! i)) by (apply lookup_lt_is_Some_2; lia).
    destruct Hc as [c Hc].
    assert (Hlen1 : length cs1 = length cs /\ drop (S i) cs1 = drop (S i) cs).
    { destruct differs.
      - rewrite Hc in Hstep.
        apply bind_Ok in Hstep as (c' & s2 & _ & Hret).
        injection Hret as <- _. rewrite length_insert. split; [reflexivity|].
        apply drop_insert_lt. lia.
      - injection Hstep as <- _. auto. }
    destruct Hlen1 as [Hlen1 Hdrop1].
    pose proof (patchPrefix_beyond _ _ _ _ _ _ _ _ _ i H
                  ltac:(left; lia)) as Hi'.
    pose proof (patchPrefix_length _ _ _ _ _ _ _ _ _ H) as Hlen'.
    apply IH in H; [|lia|lia]. rewrite Hdrop1 in H.
    rewrite (drop_S cs c i Hc). simpl.
    destruct differs.
    + rewrite Hc in Hstep.
      apply bind_Ok in Hstep as (c' & s2 & Hp & Hret).
      injection Hret as <- <-.
      assert (Hc' : cs' !! i = Some c').
      { rewrite Hi'. apply list_lookup_insert_eq.
        apply lookup_lt_Some in Hc. exact Hc. }
      rewrite (drop_S cs' c' i Hc'). simpl.
      eapply in_place_patch; [apply Hdiff; reflexivity|exact Hp|exact H].
    + injection Hstep as <- <-.
      assert (Hc' : cs' !! i = Some c) by (rewrite Hi'; exact Hc).
      rewrite (drop_S cs' c i Hc'). simpl.
      apply in_place_skip; [apply Hsame; reflexivity|exact H].
Qed.

Lemma popChildren_removed el n cs s cs' s' :
  popChildren el n cs s = (Ok cs', s') ->
  removed_from el (rev (drop (length cs - n) cs)) s s'.
Proof.
  revert cs s. induction n as [|n IH]; intros cs s H; simpl in H.
  - injection H as _ <-. rewrite Nat.sub_0_r, drop_ge by lia. constructor.
  - destruct (last cs) as [c|] eqn:Hlast; [|discriminate H].
    apply bind_Ok in H as ([] & s1 & Hrm & Hrest).
    apply last_Some in Hlast as [l ->]. rewrite removelast_last in Hrest.
    pose proof (popChildren_spec _ _ _ _ _ _ Hrest) as (Hn & _).
    apply IH in Hrest.
    rewrite length_app. simpl.
    replace (length l + 1 - S n) with (length l - n) by lia.
    rewrite drop_app_le by lia. rewrite rev_app_distr. simpl.
    econstructor; [exact Hrm|exact Hrest].
Qed.

Lemma appendNew_created_under el items cs s cs' s' :
  appendNew viewCreate el items cs s = (Ok cs', s') ->
  exists new, cs' = cs ++ new /\ created_under el items s new s'.
Proof.
  unfold appendNew. revert cs s.
  induction items as [|c items IH]; intros cs s H; simpl in H.
  - injection H as <- <-. exists []. rewrite app_nil_r.
    split; [reflexivity|constructor].
  - apply bind_Ok in H as (cs1 & s1 & Hstep & Hrest).
    apply bind_Ok in Hstep as (rc & s2 & Hc & Hstep).
    apply bind_Ok in Hstep as ([] & s3 & Happ & Hret).
    injection Hret as <- <-.
    apply IH in Hrest as (new & -> & Hnew).
    exists (rc :: new). rewrite <- app_assoc. split; [reflexivity|].
    econstructor; eassumption.
Qed.

Lemma created_under_length el items s new s' :
  created_under el items s new s' -> length new = length items.
Proof. induction 1; simpl; congruence. Qed.

(** ** What a patch touches *)

Lemma within_removeDataProperty F allowed factory_default el tag key s r s' :
  allowed (SetProperty el key (factory_default tag key)) ->
  allowed (CreateBlank (next s) tag) ->
  removeDataProperty factory_default el tag key s = (r, s') ->
  within F allowed s s'.
Proof.
  intros Hset Hblank H.
  unfold removeDataProperty, createBlank, setProperty, request, bind, read,
    alloc, emit, set_cache, ret, throw in H. simpl in H.
  destruct (removeDataPropertyCache s !! tag); simpl in H;
    [|destruct (inherited tag); simpl in H].
  1, 2: destruct (refused s _); injection H as _ <-; [apply within_refl|];
    (split; [auto|]); simpl; eexists; (split; [reflexivity|]);
    constructor; [exact Hset|constructor].
  destruct (refused s (CreateBlank _ _)); simpl in H.
  - injection H as _ <-. split; [auto|]. exists []. simpl.
    rewrite app_nil_r. split; [reflexivity|constructor].
  - destruct (refused s (SetProperty _ _ _)); injection H as _ <-;
      (split; [auto|]); simpl.
    + eexists. split; [reflexivity|].
      constructor; [exact Hblank|constructor].
    + eexists. split; [rewrite <- app_assoc; reflexivity|].
      constructor; [exact Hblank|]. constructor; [exact Hset|constructor].
Qed.

Lemma respects_get_sub_within F allowed v k :
  respects (within F allowed) (get_sub v k).
Proof.
  unfold get_sub. destruct v;
    first [apply respects_ret | apply respects_throw]; apply within_refl.
Qed.

Lemma respects_has_sub_within F allowed k v :
  respects (within F allowed) (has_sub k v).
Proof.
  unfold has_sub. destruct v;
    first [apply respects_ret | apply respects_throw]; apply within_refl.
Qed.

Section PatchFootprint.
Variable factory_default : string -> string -> value.
Variable G : handle -> Prop.
Variable el : handle.

Local Abbreviation allowed := (own_or G el).

Lemma own_allowed e : subject e = el -> is_listener e = false -> allowed e.
Proof. intros. right. auto. Qed.

Lemma popChildren_within n cs s cs' s' :
  Forall (fun c => Forall G (handles c)) cs ->
  popChildren el n cs s = (Ok cs', s') ->
  within G allowed s s' /\
  Forall (fun c => Forall G (handles c)) cs'.
Proof.
  revert cs s. induction n as [|n IH]; intros cs s Hcs H; simpl in H.
  - injection H as <- <-. split; [apply within_refl|exact Hcs].
  - destruct (last cs) as [c|] eqn:Hlast; [|discriminate H].
    apply bind_Ok in H as ([] & s1 & Hrm & Hrest).
    apply last_Some in Hlast as [l ->]. rewrite removelast_last in Hrest.
    apply Forall_app in Hcs as [Hl Hc].
    apply Forall_cons in Hc as [Hc _].
    apply IH in Hrest as [Hw Hcs']; [|exact Hl].
    split; [|exact Hcs'].
    eapply within_trans; [|exact Hw].
    eapply within_removeChild; [| |exact Hrm].
    + destruct c as [nd e cref ccs]. simpl in *.
      apply Forall_cons in Hc as [He _]. exact He.
    + apply own_allowed; reflexivity.
Qed.

Lemma patchPrefix_within valueOld items k i cs s cs' s' :
  (forall childNew, In childNew items ->
     forall c s c' s',
       viewPatch factory_default c childNew s = (Ok c', s') ->
       patched c s c' s') ->
  (forall h, next s <= h -> G h) ->
  Forall (fun c => Forall G (handles c)) cs ->
  patchPrefix (viewPatch factory_default) valueOld k i items cs s
    = (Ok cs', s') ->
  next s <= next s' /\
  within G allowed s s' /\
  Forall (fun c => Forall G (handles c)) cs'.
Proof.
  revert k i cs s. induction items as [|childNew items IH];
    intros k i cs s Hp HG Hcs H.
  - destruct k; simpl in H; injection H as <- <-;
      (split; [lia|]; split; [apply within_refl|exact Hcs]).
  - destruct k; simpl in H;
      [injection H as <- <-;
       (split; [lia|]; split; [apply within_refl|exact Hcs])|].
    apply bind_Ok in H as (differs & s1 & Hd & H).
    apply bind_Ok in H as (cs1 & s2 & Hstep & H).
    assert (s1 = s) as ->.
    { unfold differs_at in Hd.
      repeat match type of Hd with
             | context [match ?x with _ => _ end] => destruct x
             end; injection Hd as _ <-; reflexivity. }
    assert (Hstep' : next s <= next s2 /\ within G allowed s s2 /\
                     Forall (fun c => Forall G (handles c)) cs1).
    { destruct differs.
      - destruct (cs !! i) as [c|] eqn:Hc; [|discriminate Hstep].
        apply bind_Ok in Hstep as (c' & s3 & Hpatch & Hret).
        injection Hret as <- <-.
        apply Hp in Hpatch as (Hn & Hw & Hh); [|left; reflexivity].
        assert (HcG : Forall G (handles c)).
        { rewrite Forall_forall in Hcs. apply Hcs.
          eapply list_elem_of_lookup_2. exact Hc. }
        assert (Hreach : forall h, reach c s h -> G h).
        { intros h [Hin|Hge]; [|auto].
          rewrite Forall_forall in HcG. apply HcG.
          apply list_elem_of_In. exact Hin. }
        split; [exact Hn|]. split.
        + eapply within_mono; [exact Hreach| |exact Hw].
          intros e He. left. apply Hreach. exact He.
        + apply Forall_insert; [exact Hcs|].
          eapply Forall_impl; [exact Hh|]. exact Hreach.
      - injection Hstep as <- <-.
        split; [lia|]. split; [apply within_refl|exact Hcs]. }
    destruct Hstep' as (Hn2 & Hw2 & Hcs1).
    apply IH in H as (Hn & Hw & Hcs').
    + split; [lia|]. split; [|exact Hcs'].
      eapply within_trans; eassumption.
    + intros c0 Hin. apply Hp. right. exact Hin.
    + intros h Hh. apply HG. lia.
    + exact Hcs1.
Qed.

Lemma handles_fresh_G lo hi cs :
  (forall h, lo < h -> G h) ->
  Forall (fun c => Forall (fun h => lo < h < hi) (handles c)) cs ->
  Forall (fun c => Forall G (handles c)) cs.
Proof.
  intros HG Hcs. eapply Forall_impl; [exact Hcs|]. intros c Hc.
  eapply Forall_impl; [exact Hc|]. intros h Hh. apply HG. simpl in Hh. lia.
Qed.

Lemma appendNew_within items cs s cs' s' :
  (forall h, next s <= h -> G h) ->
  Forall (fun c => Forall G (handles c)) cs ->
  appendNew viewCreate el items cs s = (Ok cs', s') ->
  next s <= next s' /\
  within G allowed s s' /\
  Forall (fun c => Forall G (handles c)) cs'.
Proof.
  unfold appendNew. revert cs s.
  induction items as [|c items IH]; intros cs s HG Hcs H; simpl in H.
  - injection H as <- <-. split; [lia|]. split; [apply within_refl|exact Hcs].
  - apply bind_Ok in H as (cs1 & s1 & Hstep & Hrest).
    apply bind_Ok in Hstep as (rc & s2 & Hc & Hstep).
    apply bind_Ok in Hstep as ([] & s3 & Happ & Hret).
    injection Hret as <- <-.
    apply viewCreate_created in Hc as Hcr.
    pose proof (created_handles _ _ _ _ Hcr) as Hh.
    destruct Hcr as (_ & _ & Helc & Hn2 & _ & Hw & _).
    pose proof (appendChild_log _ _ _ _ Happ) as [_ Hn3].
    assert (Hw2 : within G allowed s s2).
    { eapply within_mono; [| |exact Hw]; simpl.
      - exact HG.
      - intros e He. left. apply HG. exact He. }
    assert (Hw3 : within G allowed s2 s3).
    { eapply within_appendChild; [| |exact Happ].
      - apply HG. lia.
      - apply own_allowed; reflexivity. }
    apply IH in Hrest as (Hn & Hw' & Hcs').
    + split; [lia|]. split; [|exact Hcs'].
      eapply within_trans; [|exact Hw']. eapply within_trans; eassumption.
    + intros h Hle. apply HG. lia.
    + apply Forall_app. split; [exact Hcs|]. constructor; [|constructor].
      eapply Forall_impl; [exact Hh|]. intros h Hlt. apply HG.
      simpl in Hlt. lia.
Qed.

Lemma patchChildren_within valueOld items cs s cs' s' :
  (forall childNew, In childNew items ->
     forall c s c' s',
       viewPatch factory_default c childNew s = (Ok c', s') ->
       patched c s c' s') ->
  (forall h, next s <= h -> G h) ->
  Forall (fun c => Forall G (handles c)) cs ->
  patchChildren (viewPatch factory_default) valueOld el items cs s
    = (Ok cs', s') ->
  next s <= next s' /\
  within G allowed s s' /\
  Forall (fun c => Forall G (handles c)) cs'.
Proof.
  intros Hp HG Hcs H. unfold patchChildren in H.
  destruct (Nat.eqb (length cs) (length items)).
  - eapply patchPrefix_within; eassumption.
  - destruct (Nat.ltb (length items) (length cs)).
    + apply bind_Ok in H as (cs1 & s1 & Hpre & Hpop).
      eapply patchPrefix_within in Hpre as (Hn1 & Hw1 & Hcs1);
        [|eassumption..].
      pose proof (popChildren_spec _ _ _ _ _ _ Hpop) as (_ & _ & _ & Hn & _).
      apply popChildren_within in Hpop as (Hw2 & Hcs2); [|exact Hcs1].
      split; [lia|]. split; [|exact Hcs2]. eapply within_trans; eassumption.
    + apply bind_Ok in H as (cs1 & s1 & Hpre & Happ).
      eapply patchPrefix_within in Hpre as (Hn1 & Hw1 & Hcs1);
        [|eassumption..].
      apply appendNew_within in Happ as (Hn2 & Hw2 & Hcs2); [| |exact Hcs1].
      * split; [lia|]. split; [|exact Hcs2]. eapply within_trans; eassumption.
      * intros h Hle. apply HG. lia.
Qed.

Local Ltac by_respects H tac :=
  match type of H with
  | ?m ?s = _ =>
      let Hr := fresh "Hr" in
      assert (Hr : respects (within G allowed) m); [tac | exact (Hr _ _ _ H)]
  end.

Local Ltac own := apply own_allowed; reflexivity.

Local Ltac step :=
  first
    [ apply respects_ret; apply within_refl
    | apply respects_throw; apply within_refl
    | apply respects_read; apply within_refl
    | apply respects_for_in; apply within_refl
    | apply respects_get_sub_within
    | apply respects_has_sub_within
    | apply within_setAttribute; own
    | apply within_removeAttribute; own
    | apply within_setDataset; own
    | apply within_deleteDataset; own
    | apply within_setStyle; own
    | apply within_focus; own
    | apply within_blur; own
    | apply within_setProperty; own
    | apply respects_bind; [apply within_trans | | intros ?]
    | apply respects_for_each;
      [apply within_refl | apply within_trans | intros ? _]
    | match goal with
      | |- respects _ (if ?b then _ else _) => destruct b
      end ].

Lemma patchData_within valueOld k v cs s cs' s' :
  (forall a items childNew, v = VArr a items -> In childNew items ->
     forall c s c' s',
       viewPatch factory_default c childNew s = (Ok c', s') ->
       patched c s c' s') ->
  (forall h, next s <= h -> G h) ->
  (classify k = KEvent -> G el) ->
  Forall (fun c => Forall G (handles c)) cs ->
  patchData (viewPatch factory_default) el valueOld k v cs s = (Ok cs', s') ->
  next s <= next s' /\
  within G allowed s s' /\
  Forall (fun c => Forall G (handles c)) cs'.
Proof.
  intros Hp HG Hev Hcs H.
  pose proof (respects_patchData (R := extends)
                (factory_default := factory_default) _ el valueOld k v cs
                (fun _ _ c childNew _ _ => respects_viewPatch c childNew)
                _ _ _ H) as Hext.
  apply extends_next in Hext.
  destruct (classify k) eqn:Hclass.
  8: { unfold patchData in H. rewrite Hclass in H.
       destruct v; try discriminate H.
       eapply patchChildren_within; [|eassumption..].
       intros childNew Hin. eapply Hp; [reflexivity|exact Hin]. }
  all: pose proof (patchData_keeps_children _ _ _ _ _ _ _ _ _
                     ltac:(rewrite Hclass; discriminate) H) as ->.
  all: split; [exact Hext|]; split; [|exact Hcs].
  all: unfold patchData in H; rewrite Hclass in H.
  1: { specialize (Hev eq_refl).
       by_respects H ltac:(
         apply respects_bind; [apply within_trans| |intros ?];
         [ apply respects_read; apply within_refl
         | destruct (decide _);
           repeat first
             [ apply within_setMoonEvent; exact Hev
             | apply within_addEventListener; left; exact Hev
             | step ] ]). }
  all: by_respects H ltac:(repeat step).
Qed.

Lemma removeData_within nm k v cs s cs' s' :
  (forall h, next s <= h -> G h) ->
  (classify k = KEvent -> G el) ->
  Forall (fun c => Forall G (handles c)) cs ->
  removeData factory_default el nm k v cs s = (Ok cs', s') ->
  next s <= next s' /\
  within G allowed s s' /\
  Forall (fun c => Forall G (handles c)) cs'.
Proof.
  intros HG Hev Hcs H.
  pose proof (respects_removeData (R := extends) _ _ _ _ _ _ _ _ H) as Hext.
  apply extends_next in Hext.
  destruct (classify k) eqn:Hclass.
  8: { unfold removeData in H. rewrite Hclass in H.
       apply popChildren_within in H as [Hw Hcs']; [|exact Hcs]. auto. }
  all: pose proof (removeData_keeps_children _ _ _ _ _ _ _ _ _
                     ltac:(rewrite Hclass; discriminate) H) as ->.
  all: split; [exact Hext|]; split; [|exact Hcs].
  all: unfold removeData in H; rewrite Hclass in H.
  1: { specialize (Hev eq_refl).
       unfold bind, read, set_MoonEvents, removeEventListener, emit, ret in H.
       simpl in H. destruct (MoonEvents s !! el) as [d|]; [|discriminate H].
       injection H as <-. split.
       - intros h Hh. simpl. split; [reflexivity|].
         apply lookup_insert_ne. intros ->. exact (Hh Hev).
       - eexists. split; [reflexivity|].
         constructor; [left; exact Hev|constructor]. }
  3, 7: apply bind_Ok in H as ([] & s1 & H & Hret); injection Hret as <-;
    eapply within_removeDataProperty; [| |exact H];
    [ own | left; apply HG; simpl; lia ].
  all: by_respects H ltac:(repeat step).
Qed.

End PatchFootprint.

Lemma handles_children_In r c h :
  In c (children r) -> In h (handles c) -> In h (handles r).
Proof.
  destruct r as [n e cref cs]. simpl. intros Hc Hh. right.
  apply in_flat_map. exists c. auto.
Qed.

Lemma viewPatch_patched factory_default nodeNew :
  forall nodeOld s nodeOld' s',
    viewPatch factory_default nodeOld nodeNew s = (Ok nodeOld', s') ->
    patched nodeOld s nodeOld' s'.
Proof.
  induction nodeNew as [ref nm nodeData IH] using NodeNew_children_ind.
  intros nodeOld s nodeOld' s' Hrun.
  set (G := reach nodeOld s).
  assert (HGel : G (element nodeOld)).
  { left. destruct nodeOld. simpl. auto. }
  assert (HG : forall h, next s <= h -> G h) by (intros h Hh; right; exact Hh).
  assert (Hown : forall e, own_or G (element nodeOld) e -> G (subject e)).
  { intros e [He|[-> _]]; assumption. }
  destruct (String.eqb_spec (name (node nodeOld)) nm) as [Hk|Hk].
  - apply viewPatch_same_kind_inv in Hrun as (cs1 & s1 & cs2 & H1 & H2 & ->);
      [|exact Hk].
    simpl data in *.
    assert (Hinv1 :
      next s <= next s1 /\
      within G (own_or G (element nodeOld)) s s1 /\
      Forall (fun c => Forall G (handles c)) cs1).
    { eapply (fold_m_inv
                (fun cs0 s0 =>
                   next s <= next s0 /\
                   within G (own_or G (element nodeOld)) s s0 /\
                   Forall (fun c => Forall G (handles c)) cs0));
        [| |exact H1].
      - split; [lia|]. split; [apply within_refl|].
        apply Forall_forall. intros c Hc. apply Forall_forall. intros h Hh.
        left. eapply handles_children_In; apply list_elem_of_In; eassumption.
      - intros cs0 [k v] s0 cs3 s3 Hin (Hn0 & Hw0 & Hcs0) Hstep.
        unfold updateData in Hstep.
        destruct (strict_eq (at_key k (data (node nodeOld))) v).
        + injection Hstep as <- <-. auto.
        + eapply patchData_within in Hstep as (Hn3 & Hw3 & Hcs3).
          * split; [lia|]. split; [|exact Hcs3].
            eapply within_trans; eassumption.
          * intros a items childNew -> Hc. eapply IH; eassumption.
          * intros h Hh. apply HG. lia.
          * intros _. exact HGel.
          * exact Hcs0. }
    destruct Hinv1 as (Hn1 & Hw1 & Hcs1).
    assert (Hinv2 :
      next s1 <= next s' /\
      within G (own_or G (element nodeOld)) s1 s' /\
      Forall (fun c => Forall G (handles c)) cs2).
    { eapply (fold_m_inv
                (fun cs0 s0 =>
                   next s1 <= next s0 /\
                   within G (own_or G (element nodeOld)) s1 s0 /\
                   Forall (fun c => Forall G (handles c)) cs0));
        [| |exact H2].
      - split; [lia|]. split; [apply within_refl|exact Hcs1].
      - intros cs0 [k v] s0 cs3 s3 Hin (Hn0 & Hw0 & Hcs0) Hstep.
        unfold removeOld in Hstep.
        destruct (key_in k nodeData).
        + injection Hstep as <- <-. auto.
        + eapply removeData_within in Hstep as (Hn3 & Hw3 & Hcs3).
          * split; [lia|]. split; [|exact Hcs3].
            eapply within_trans; eassumption.
          * intros h Hh. apply HG. lia.
          * intros _. exact HGel.
          * exact Hcs0. }
    destruct Hinv2 as (Hn2 & Hw2 & Hcs2).
    split; [lia|]. split.
    + eapply within_mono; [intros h Hh; exact Hh|exact Hown|].
      eapply within_trans; eassumption.
    + simpl. constructor; [exact HGel|].
      apply Forall_flat_map. exact Hcs2.
  - apply viewPatch_other_kind_inv in Hrun as (rc & s1 & Hc & Hrep & ->);
      [|exact Hk].
    apply viewCreate_created in Hc as Hcr.
    pose proof (created_handles _ _ _ _ Hcr) as Hh.
    destruct Hcr as (_ & _ & Helc & Hn1 & _ & Hw & _).
    pose proof (respects_replaceInParent (R := extends)
                  (factory_default := factory_default) _ _ _ _ _ Hrep) as He.
    apply extends_next in He.
    split; [lia|]. split.
    + eapply within_trans.
      * eapply within_mono; [| |exact Hw]; simpl; intros; apply HG; assumption.
      * eapply within_replaceInParent; [| | |exact Hrep].
        -- apply HG. lia.
        -- exact HGel.
        -- intros p. simpl. exact HGel.
    + destruct rc as [n e c cs]. simpl in *.
      eapply Forall_impl; [exact Hh|]. intros h Hlt. apply HG.
      simpl in Hlt. lia.
Qed.

(** ** Bindings of events *)

Lemma registrations_app h t l1 l2 :
  registrations h t (l1 ++ l2) = registrations h t l1 ++ registrations h t l2.
Proof.
  induction l1 as [|e l1 IH]; simpl; [reflexivity|].
  destruct e; try exact IH;
    destruct (Nat.eqb _ _ && String.eqb _ _); simpl; congruence.
Qed.

Lemma keeps_refl el key s : keeps el key s s.
Proof. split; [reflexivity|]. exists []. rewrite app_nil_r. auto. Qed.

Lemma keeps_trans el key a b c :
  keeps el key a b -> keeps el key b c -> keeps el key a c.
Proof.
  intros (Hb1 & d1 & H1 & R1) (Hb2 & d2 & H2 & R2). split; [congruence|].
  exists (d1 ++ d2). split; [rewrite H2, H1, app_assoc; reflexivity|].
  rewrite registrations_app, R1, R2. reflexivity.
Qed.

Lemma within_keeps (G : handle -> Prop) el key s s' :
  ~ G el -> within G (own_or G el) s s' -> keeps el key s s'.
Proof.
  intros HG (Hframe & d & Hd & Hall). split.
  - unfold bound. destruct (Hframe el HG) as [_ ->]. reflexivity.
  - exists d. split; [exact Hd|]. clear Hd.
    induction Hall as [|e d He _ IH]; [reflexivity|]. simpl.
    destruct e; try exact IH.
    + destruct He as [He|[_ He]]; [|discriminate He]. simpl in He.
      destruct (Nat.eqb_spec h el) as [->|_]; [contradiction|exact IH].
    + destruct He as [He|[_ He]]; [|discriminate He]. simpl in He.
      destruct (Nat.eqb_spec h el) as [->|_]; [contradiction|exact IH].
Qed.

Lemma classify_event k : classify k = KEvent <-> is_event k = true.
Proof.
  unfold classify. destruct (is_event k); [tauto|].
  split; [|discriminate].
  repeat match goal with
         | |- context [if ?b then _ else _] => destruct b
         end; discriminate.
Qed.

Lemma event_key k : is_event k = true -> k = ("@" ++ slice1 k)%string.
Proof.
  destruct k as [|c k]; simpl; [discriminate|].
  intros H. apply Ascii.eqb_eq in H as ->. reflexivity.
Qed.

Lemma slice1_inj k k' :
  is_event k = true -> is_event k' = true -> slice1 k = slice1 k' -> k = k'.
Proof.
  intros Hk Hk' Heq. rewrite (event_key k Hk), (event_key k' Hk'), Heq.
  reflexivity.
Qed.

Lemma registrations_other el k key :
  is_event k = true -> is_event key = true -> k <> key ->
  (Nat.eqb el el && String.eqb (slice1 k) (slice1 key)) = false.
Proof.
  intros Hk Hkey Hne. rewrite Nat.eqb_refl. simpl.
  apply String.eqb_neq. intros Heq. apply Hne.
  apply slice1_inj; assumption.
Qed.

Lemma bound_setMoonEvent el k v s :
  forall key,
    bound (setMoonEvent el k v s).2 el key =
    if decide (k = key) then Some v else bound s el key.
Proof.
  intros key. unfold bound, setMoonEvent, bind, read, set_MoonEvents. simpl.
  rewrite lookup_insert_eq. simpl. apply lookup_insert.
Qed.

Section Rebinding.
Variable factory_default : string -> string -> value.
Variable el : handle.
Variable key : string.
Hypothesis Hkey : is_event key = true.

Lemma create_event_step k v cs s cs' s' :
  is_event k = true ->
  createData viewCreate el k v cs s = (Ok cs', s') ->
  cs' = cs /\ next s' = next s /\
  bound s' el key = (if decide (k = key) then Some v else bound s el key) /\
  log s' = log s ++ [AddEventListener el (slice1 k)].
Proof.
  intros Hk H. unfold createData in H.
  rewrite (proj2 (classify_event k) Hk) in H.
  pose proof (bound_setMoonEvent el k v s key) as Hb.
  apply bind_Ok in H as ([] & s1 & Hs & H).
  apply bind_Ok in H as ([] & s2 & Ha & H).
  injection H as <- <-. injection Ha as <-.
  apply (f_equal snd) in Hs. simpl in Hs. subst s1. auto.
Qed.

Lemma patch_event_step valueOld k v cs s cs' s' :
  is_event k = true ->
  patchData (viewPatch factory_default) el valueOld k v cs s = (Ok cs', s') ->
  cs' = cs /\ next s' = next s /\
  bound s' el key = (if decide (k = key) then Some v else bound s el key) /\
  (log s' = log s /\ is_Some (bound s el k) \/
   log s' = log s ++ [AddEventListener el (slice1 k)] /\ bound s el k = None).
Proof.
  intros Hk H. unfold patchData in H.
  rewrite (proj2 (classify_event k) Hk) in H.
  pose proof (bound_setMoonEvent el k v s key) as Hb.
  apply bind_Ok in H as (m & s0 & Hm & H). injection Hm as <- <-.
  destruct (decide (is_Some (default ∅ (MoonEvents s !! el) !! k)))
    as [Hsome|Hnone].
  - apply bind_Ok in H as ([] & s1 & Hs & H). injection H as <- <-.
    apply (f_equal snd) in Hs. simpl in Hs. subst s1.
    split; [reflexivity|]. split; [reflexivity|]. split; [exact Hb|].
    left. auto.
  - apply bind_Ok in H as ([] & s1 & Hs & H).
    apply bind_Ok in H as ([] & s2 & Ha & H).
    injection H as <- <-. injection Ha as <-.
    apply (f_equal snd) in Hs. simpl in Hs. subst s1.
    split; [reflexivity|]. split; [reflexivity|]. split; [exact Hb|].
    right. split; [reflexivity|]. unfold bound.
    destruct (default ∅ (MoonEvents s !! el) !! k) eqn:E; [|reflexivity].
    exfalso. apply Hnone. eauto.
Qed.

Lemma remove_event_step nm k v cs s cs' s' :
  is_event k = true -> k <> key ->
  removeData factory_default el nm k v cs s = (Ok cs', s') ->
  cs' = cs /\ next s' = next s /\
  bound s' el key = bound s el key /\
  log s' = log s ++ [RemoveEventListener el (slice1 k)].
Proof.
  intros Hk Hne H. unfold removeData in H.
  rewrite (proj2 (classify_event k) Hk) in H.
  unfold bind, read, set_MoonEvents, removeEventListener, emit, ret in H.
  simpl in H. destruct (MoonEvents s !! el) as [d|] eqn:Hd; [|discriminate H].
  injection H as <- <-. simpl.
  split; [reflexivity|]. split; [reflexivity|]. split; [|reflexivity].
  unfold bound. simpl. rewrite lookup_insert_eq, Hd. simpl.
  apply lookup_delete_ne. exact Hne.
Qed.

Lemma other_event_keeps k s s' d :
  is_event k = true -> k <> key ->
  bound s' el key = bound s el key ->
  log s' = log s ++ d ->
  d = [] \/ d = [AddEventListener el (slice1 k)] \/
  d = [RemoveEventListener el (slice1 k)] ->
  keeps el key s s'.
Proof.
  intros Hk Hne Hb Hlog Hd. split; [exact Hb|]. exists d.
  split; [exact Hlog|].
  destruct Hd as [->|[->| ->]]; simpl; try reflexivity;
    rewrite (registrations_other el k key Hk Hkey Hne); reflexivity.
Qed.

Local Abbreviation above := (fun h : nat => el < h).

Lemma above_not_el : ~ above el.
Proof. simpl. lia. Qed.

Lemma bounded_above hi cs :
  Forall (fun c => Forall (fun h => el < h < hi) (handles c)) cs ->
  Forall (fun c => Forall above (handles c)) cs.
Proof.
  intros Hcs. eapply Forall_impl; [exact Hcs|]. intros c Hc.
  eapply Forall_impl; [exact Hc|]. intros h. simpl. lia.
Qed.

Lemma create_other_step k v cs s cs' s' :
  is_event k = false ->
  el < next s ->
  Forall (fun c => Forall (fun h => el < h < next s) (handles c)) cs ->
  createData viewCreate el k v cs s = (Ok cs', s') ->
  next s <= next s' /\ keeps el key s s' /\
  Forall (fun c => Forall (fun h => el < h < next s') (handles c)) cs'.
Proof.
  intros Hk Hel Hcs H.
  eapply (createData_created above (own_or above el)) in H
    as (Hn & Hw & Hcs'); [| |exact Hel| | | | |exact Hcs].
  - split; [exact Hn|]. split; [|exact Hcs'].
    eapply within_keeps; [apply above_not_el|exact Hw].
  - intros a items c _ _ s0 r0 s0'. apply viewCreate_created.
  - intros h. simpl. lia.
  - intros e He. left. simpl. lia.
  - intros e He Hl. right. auto.
  - intros Hclass. apply classify_event in Hclass. congruence.
Qed.

Lemma patch_other_step valueOld k v cs s cs' s' :
  is_event k = false ->
  el < next s ->
  Forall (fun c => Forall above (handles c)) cs ->
  patchData (viewPatch factory_default) el valueOld k v cs s = (Ok cs', s') ->
  next s <= next s' /\ keeps el key s s' /\
  Forall (fun c => Forall above (handles c)) cs'.
Proof.
  intros Hk Hel Hcs H.
  eapply (patchData_within factory_default above el) in H
    as (Hn & Hw & Hcs'); [| | | |exact Hcs].
  - split; [exact Hn|]. split; [|exact Hcs'].
    eapply within_keeps; [apply above_not_el|exact Hw].
  - intros a items childNew _ _ c s0 c' s0'. apply viewPatch_patched.
  - intros h. simpl. lia.
  - intros Hclass. apply classify_event in Hclass. congruence.
Qed.

Lemma remove_other_step nm k v cs s cs' s' :
  is_event k = false ->
  el < next s ->
  Forall (fun c => Forall above (handles c)) cs ->
  removeData factory_default el nm k v cs s = (Ok cs', s') ->
  next s <= next s' /\ keeps el key s s' /\
  Forall (fun c => Forall above (handles c)) cs'.
Proof.
  intros Hk Hel Hcs H.
  eapply (removeData_within factory_default above el) in H
    as (Hn & Hw & Hcs'); [| | |exact Hcs].
  - split; [exact Hn|]. split; [|exact Hcs'].
    eapply within_keeps; [apply above_not_el|exact Hw].
  - intros h. simpl. lia.
  - intros Hclass. apply classify_event in Hclass. congruence.
Qed.

End Rebinding.

Section RebindingLoops.
Variable factory_default : string -> string -> value.
Variable el : handle.
Variable key : string.
Hypothesis Hkey : is_event key = true.

Lemma create_step_binding k v cs s cs' s' :
  el < next s ->
  Forall (fun c => Forall (fun h => el < h < next s) (handles c)) cs ->
  createData viewCreate el k v cs s = (Ok cs', s') ->
  next s <= next s' /\
  Forall (fun c => Forall (fun h => el < h < next s') (handles c)) cs' /\
  (k <> key -> keeps el key s s') /\
  (k = key ->
   bound s' el key = Some v /\
   log s' = log s ++ [AddEventListener el (slice1 key)]).
Proof.
  intros Hel Hcs H. destruct (is_event k) eqn:Hk.
  - apply (create_event_step el key) in H as (-> & Hn & Hb & Hlog);
      [|exact Hk].
    split; [lia|]. split; [rewrite Hn; exact Hcs|]. split.
    + intros Hne.
      apply (other_event_keeps el key Hkey k s s'
               [AddEventListener el (slice1 k)]); auto.
      rewrite Hb. destruct (decide (k = key)); [contradiction|reflexivity].
    + intros Heq. subst k. rewrite Hb.
      destruct (decide (key = key)); [|contradiction]. auto.
  - eapply create_other_step with (key := key) in H
      as (Hn & Hkeep & Hcs'); eauto.
    split; [exact Hn|]. split; [exact Hcs'|]. split; [auto|].
    intros Heq. subst k. congruence.
Qed.

Lemma create_loop_binding l cs s cs' s' :
  NoDup (map fst l) ->
  el < next s ->
  Forall (fun c => Forall (fun h => el < h < next s) (handles c)) cs ->
  fold_m (fun cs kv => createData viewCreate el kv.1 kv.2 cs) l cs s
    = (Ok cs', s') ->
  next s <= next s' /\
  Forall (fun c => Forall (fun h => el < h < next s') (handles c)) cs' /\
  (key ∉ map fst l -> keeps el key s s') /\
  (forall v, In (key, v) l ->
             bound s' el key = Some v /\
             exists d, log s' = log s ++ d /\
                       registrations el (slice1 key) d = [true]).
Proof.
  revert cs s. induction l as [|[k v0] l IH]; intros cs s Hnd Hel Hcs H;
    simpl in H.
  - injection H as <- <-. split; [lia|]. split; [exact Hcs|].
    split; [intros _; apply keeps_refl|]. intros v [].
  - apply bind_Ok in H as (cs1 & s1 & Hstep & Hrest). simpl in Hstep.
    simpl in Hnd. apply NoDup_cons in Hnd as [Hk Hnd].
    apply create_step_binding in Hstep as (Hn1 & Hcs1 & Hother & Hsame);
      [|exact Hel|exact Hcs].
    apply IH in Hrest as (Hn & Hcs' & Hkeep & Hbind);
      [|exact Hnd|lia|exact Hcs1].
    split; [lia|]. split; [exact Hcs'|]. split.
    + intros Hnot. simpl in Hnot. rewrite not_elem_of_cons in Hnot.
      destruct Hnot as [Hne Hnot].
      eapply keeps_trans; [apply Hother; congruence|apply Hkeep; exact Hnot].
    + intros v [Heq|Hin].
      * injection Heq as -> ->.
        destruct (Hsame eq_refl) as [Hb Hlog].
        destruct (Hkeep Hk) as (Hb' & d & Hd & Hr).
        split; [congruence|].
        exists (AddEventListener el (slice1 key) :: d).
        split; [rewrite Hd, Hlog, <- app_assoc; reflexivity|].
        simpl. rewrite Nat.eqb_refl, String.eqb_refl, Hr. reflexivity.
      * assert (Hne : k <> key).
        { intros ->. apply Hk. apply list_elem_of_In.
          change key with (fst (key, v)). apply in_map. exact Hin. }
        destruct (Hother Hne) as (_ & d1 & Hd1 & Hr1).
        destruct (Hbind v Hin) as (Hb & d & Hd & Hr).
        split; [exact Hb|]. exists (d1 ++ d).
        split; [rewrite Hd, Hd1, app_assoc; reflexivity|].
        rewrite registrations_app, Hr1, Hr. reflexivity.
Qed.

Local Abbreviation above := (fun h : nat => el < h).

Lemma update_step_binding nodeOldNodeData k v cs s cs' s' :
  el < next s ->
  Forall (fun c => Forall above (handles c)) cs ->
  updateData (viewPatch factory_default) el nodeOldNodeData cs (k, v) s
    = (Ok cs', s') ->
  next s <= next s' /\
  Forall (fun c => Forall above (handles c)) cs' /\
  (k <> key -> keeps el key s s') /\
  (k = key -> is_Some (bound s el key) ->
   log s' = log s /\
   is_Some (bound s' el key) /\
   (strict_eq (at_key key nodeOldNodeData) v = false ->
    bound s' el key = Some v)).
Proof.
  intros Hel Hcs H. unfold updateData in H.
  destruct (strict_eq (at_key k nodeOldNodeData) v) eqn:Hsame.
  - injection H as <- <-. split; [lia|]. split; [exact Hcs|].
    split; [intros _; apply keeps_refl|].
    intros Heq Hb. subst k. split; [reflexivity|]. split; [exact Hb|].
    congruence.
  - destruct (is_event k) eqn:Hk.
    + apply (patch_event_step factory_default el key) in H
        as (-> & Hn & Hb & Hlog); [|exact Hk].
      split; [lia|]. split; [exact Hcs|]. split.
      * intros Hne.
        assert (Hb' : bound s' el key = bound s el key).
        { rewrite Hb. destruct (decide (k = key)); [contradiction|].
          reflexivity. }
        destruct Hlog as [[Hl _]|[Hl _]].
        -- apply (other_event_keeps el key Hkey k s s' []); auto.
           rewrite app_nil_r. exact Hl.
        -- apply (other_event_keeps el key Hkey k s s'
                    [AddEventListener el (slice1 k)]); auto.
      * intros Heq Hbound. subst k. rewrite Hb.
        destruct (decide (key = key)); [|contradiction].
        destruct Hlog as [[Hl _]|[_ Hnone]].
        -- split; [exact Hl|]. split; [eauto|auto].
        -- rewrite Hnone in Hbound. destruct Hbound as [? Hx]. discriminate Hx.
    + eapply patch_other_step with (key := key) in H
        as (Hn & Hkeep & Hcs'); eauto.
      split; [exact Hn|]. split; [exact Hcs'|]. split; [auto|].
      intros Heq. subst k. congruence.
Qed.

Lemma update_loop_binding nodeOldNodeData l cs s cs' s' :
  NoDup (map fst l) ->
  el < next s ->
  Forall (fun c => Forall above (handles c)) cs ->
  is_Some (bound s el key) ->
  fold_m (updateData (viewPatch factory_default) el nodeOldNodeData) l cs s
    = (Ok cs', s') ->
  next s <= next s' /\
  Forall (fun c => Forall above (handles c)) cs' /\
  is_Some (bound s' el key) /\
  (exists d, log s' = log s ++ d /\
             registrations el (slice1 key) d = []) /\
  (key ∉ map fst l -> bound s' el key = bound s el key) /\
  (forall v, In (key, v) l ->
             strict_eq (at_key key nodeOldNodeData) v = false ->
             bound s' el key = Some v).
Proof.
  revert cs s. induction l as [|[k v0] l IH];
    intros cs s Hnd Hel Hcs Hb H; simpl in H.
  - injection H as <- <-. split; [lia|]. split; [exact Hcs|].
    split; [exact Hb|]. split; [|split; [reflexivity|intros v []]].
    exists []. rewrite app_nil_r. auto.
  - apply bind_Ok in H as (cs1 & s1 & Hstep & Hrest).
    simpl in Hnd. apply NoDup_cons in Hnd as [Hk Hnd].
    apply update_step_binding in Hstep as (Hn1 & Hcs1 & Hother & Hsame);
      [|exact Hel|exact Hcs].
    assert (Hb1 : is_Some (bound s1 el key)).
    { destruct (decide (k = key)) as [Heq|Hne].
      - apply (Hsame Heq Hb).
      - destruct (Hother Hne) as [-> _]. exact Hb. }
    assert (Hr1 : exists d, log s1 = log s ++ d /\
                            registrations el (slice1 key) d = []).
    { destruct (decide (k = key)) as [Heq|Hne].
      - destruct (Hsame Heq Hb) as (Hl & _). exists [].
        rewrite app_nil_r. auto.
      - destruct (Hother Hne) as [_ Hd]. exact Hd. }
    apply IH in Hrest as (Hn & Hcs' & Hb' & (d & Hd & Hr) & Hsame' & Hbind);
      [|exact Hnd|lia|exact Hcs1|exact Hb1].
    destruct Hr1 as (d1 & Hd1 & Hr1).
    split; [lia|]. split; [exact Hcs'|]. split; [exact Hb'|].
    split; [|split].
    + exists (d1 ++ d). split; [rewrite Hd, Hd1, app_assoc; reflexivity|].
      rewrite registrations_app, Hr1, Hr. reflexivity.
    + intros Hnot. simpl in Hnot. rewrite not_elem_of_cons in Hnot.
      destruct Hnot as [Hne Hnot]. rewrite (Hsame' Hnot).
      apply Hother. congruence.
    + intros v [Heq|Hin] Hdiff.
      * injection Heq as -> ->.
        destruct (Hsame eq_refl Hb) as (_ & _ & Hv).
        rewrite (Hsame' Hk). apply Hv. exact Hdiff.
      * apply Hbind; assumption.
Qed.

Lemma removal_loop_binding nm nodeNewData l cs s cs' s' :
  has key nodeNewData = true ->
  el < next s ->
  Forall (fun c => Forall above (handles c)) cs ->
  fold_m (removeOld factory_default el nm nodeNewData) l cs s
    = (Ok cs', s') ->
  keeps el key s s'.
Proof.
  intros Hhas. revert cs s. induction l as [|[k v0] l IH];
    intros cs s Hel Hcs H; simpl in H.
  - injection H as <- <-. apply keeps_refl.
  - apply bind_Ok in H as (cs1 & s1 & Hstep & Hrest).
    assert (Hstep' : next s <= next s1 /\ keeps el key s s1 /\
                     Forall (fun c => Forall above (handles c)) cs1).
    { unfold removeOld in Hstep. destruct (key_in k nodeNewData) eqn:Hk.
      - injection Hstep as <- <-. split; [lia|].
        split; [apply keeps_refl|exact Hcs].
      - assert (Hne : k <> key)
          by (apply key_in_false in Hk as [Hk _]; congruence).
        destruct (is_event k) eqn:Hev.
        + apply (remove_event_step factory_default el key) in Hstep
            as (-> & Hn & Hb & Hlog); [|exact Hev|exact Hne].
          split; [lia|]. split; [|exact Hcs].
          apply (other_event_keeps el key Hkey k s s1
                   [RemoveEventListener el (slice1 k)]); auto.
        + eapply remove_other_step with (key := key) in Hstep; eauto. }
    destruct Hstep' as (Hn1 & Hk1 & Hcs1).
    eapply keeps_trans; [exact Hk1|].
    eapply IH; [|exact Hcs1|exact Hrest]. lia.
Qed.



End RebindingLoops.

(** ** The application a cycle calls *)

Section JournalsOnly.
Context {W : Type}.
Variable ok : call -> Prop.

Lemma journals_only_refl (c : cycle W) : journals_only ok c c.
Proof. exists []. rewrite app_nil_r. split; [reflexivity|constructor]. Qed.

Lemma journals_only_trans (a b c : cycle W) :
  journals_only ok a b -> journals_only ok b c -> journals_only ok a c.
Proof.
  intros (d1 & H1 & F1) (d2 & H2 & F2). exists (d1 ++ d2).
  split; [rewrite H2, H1, app_assoc; reflexivity|].
  apply Forall_app. split; assumption.
Qed.

Lemma journals_only_note x :
  ok x -> respects (journals_only (W := W) ok) (note x).
Proof.
  intros Hx c r c' H. injection H as _ <-. exists [x].
  split; [reflexivity|]. constructor; [exact Hx|constructor].
Qed.

Lemma journals_only_on_world {A} (m : ST W A) :
  respects (journals_only ok) (on_world m).
Proof.
  intros c r c' H. unfold on_world in H. destruct (m (world c)) as [r0 w].
  injection H as _ <-. exists []. simpl. rewrite app_nil_r.
  split; [reflexivity|constructor].
Qed.

End JournalsOnly.

Lemma run_calls_root {W} apply (drivers : list (string * driver W)) root :
  respects (journals_only (calls_root root)) (run apply drivers root).
Proof.
  unfold run, gather, call_root, deliver, error.
  repeat first
    [ apply respects_ret; apply journals_only_refl
    | apply respects_throw; apply journals_only_refl
    | apply respects_lift; apply journals_only_refl
    | apply respects_for_in; apply journals_only_refl
    | apply journals_only_on_world
    | apply journals_only_note; simpl; auto; fail
    | apply respects_bind; [apply journals_only_trans | | intros ?]
    | apply respects_fold_m;
      [apply journals_only_refl | apply journals_only_trans | intros ? ? _]
    | apply respects_for_each;
      [apply journals_only_refl | apply journals_only_trans | intros ? _]
    | match goal with
      | |- respects _ (match ?x with _ => _ end) => destruct x
      end ].
Qed.

Section CallsOnce.
Context {W : Type}.
Variable apply : nat -> list (string * value) -> res value.

(** The journal of the first loop of [run], while it returns. *)
Lemma gather_journal (drivers : list (string * driver W)) acc s inputs s' :
  fold_m (fun inputs kd =>
            match input kd.2 with
            | None => error (NoInput kd.1) ;; throw TypeError
            | Some f =>
                note (CallInput kd.1) ;;
                let* v := on_world f in
                ret (set kd.1 v inputs)
            end) drivers acc s = (Ok inputs, s') ->
  journal s' = journal s ++ map (fun kd => CallInput kd.1) drivers.
Proof.
  revert acc s. induction drivers as [|[k d] drivers IH]; intros acc s H.
  - simpl in H. injection H as _ <-. rewrite app_nil_r. reflexivity.
  - simpl in H. apply bind_Ok in H as (acc1 & s1 & Hstep & Hrest).
    apply IH in Hrest. rewrite Hrest. simpl in Hstep.
    destruct (input d) as [f|].
    + apply bind_Ok in Hstep as ([] & s2 & Hnote & Hstep).
      apply bind_Ok in Hstep as (v & s3 & Hcall & Hret).
      injection Hnote as <-. injection Hret as _ <-.
      unfold on_world in Hcall. simpl in Hcall.
      destruct (f (world s)) as [r w']. injection Hcall as _ <-.
      simpl. rewrite <- app_assoc. reflexivity.
    + apply bind_Ok in Hstep as ([] & s2 & _ & Hthrow). discriminate Hthrow.
Qed.

Local Ltac no_root :=
  apply journals_only_note; intros ? ?; discriminate.

Lemma gather_calls_no_root (drivers : list (string * driver W)) :
  respects (journals_only (fun x => forall g i, x <> CallRoot g i))
           (gather drivers).
Proof.
  unfold gather, error.
  apply respects_fold_m;
    [apply journals_only_refl | apply journals_only_trans | intros ? ? _].
  destruct (input a.2).
  - apply respects_bind; [apply journals_only_trans|no_root|intros _].
    apply respects_bind;
      [apply journals_only_trans|apply journals_only_on_world|intros v].
    apply respects_ret. apply journals_only_refl.
  - apply respects_bind; [apply journals_only_trans|no_root|intros _].
    apply respects_throw. apply journals_only_refl.
Qed.

Lemma deliver_calls_no_root (drivers : list (string * driver W)) entries :
  respects (journals_only (fun x => forall g i, x <> CallRoot g i))
           (for_each (deliver drivers) entries).
Proof.
  apply respects_for_each;
    [apply journals_only_refl | apply journals_only_trans | intros [k v] _].
  unfold deliver, error. simpl.
  destruct (find_driver k drivers) as [d|];
    [destruct (output d) as [f|]|destruct (inherited k)].
  - apply respects_bind; [apply journals_only_trans|no_root|intros _].
    apply journals_only_on_world.
  - apply respects_bind; [apply journals_only_trans|no_root|intros _].
    apply respects_throw. apply journals_only_refl.
  - apply respects_bind; [apply journals_only_trans|no_root|intros _].
    apply respects_throw. apply journals_only_refl.
  - apply respects_bind; [apply journals_only_trans|no_root|intros _].
    apply respects_throw. apply journals_only_refl.
Qed.

(** A cycle on a function whose first loop returns calls the function
    once, on the record the loop collected, whatever happens next. *)
Lemma run_calls_once (drivers : list (string * driver W)) f s inputs s1 :
  gather drivers s = (Ok inputs, s1) ->
  exists rest,
    journal (run apply drivers (VFun f) s).2
    = journal s ++ map (fun kd => CallInput kd.1) drivers
      ++ CallRoot (VFun f) inputs :: rest /\
    forall g i, ~ In (CallRoot g i) rest.
Proof.
  intros Hg. pose proof (gather_journal _ _ _ _ _ Hg) as Hj.
  unfold run. rewrite (bind_Ok_intro _ _ s tt s) by reflexivity.
  rewrite (bind_Ok_intro _ _ _ _ _ Hg).
  unfold call_root. unfold bind at 1. unfold bind at 1. simpl.
  unfold lift.
  destruct (apply f inputs) as [outputs|e].
  - unfold bind at 1. unfold for_in, lift.
    destruct (enumerate outputs) as [entries|e].
    + destruct (for_each (deliver drivers) entries
                  (mkCycle (world s1)
                           (journal s1 ++ [CallRoot (VFun f) inputs])))
        as [r c'] eqn:Hd.
      apply deliver_calls_no_root in Hd as (rest & Hrest & Hall).
      exists rest. simpl in Hrest |- *. rewrite Hrest, Hj, <- !app_assoc.
      split; [reflexivity|]. intros g i Hin.
      rewrite Forall_forall in Hall. apply list_elem_of_In in Hin.
      exact (Hall _ Hin g i eq_refl).
    + exists []. simpl. rewrite Hj, <- app_assoc. split; [reflexivity|].
      intros g i [].
  - exists []. simpl. rewrite Hj, <- app_assoc. split; [reflexivity|].
    intros g i [].
Qed.

End CallsOnce.

Lemma listening_after h t pre calls :
  registrations h t calls = [true] -> listening h t (pre ++ calls) = true.
Proof.
  intros H. unfold listening. rewrite registrations_app, H, last_snoc.
  reflexivity.
Qed.

Lemma bound_dispatcher st el key v :
  bound st el key = Some v ->
  exists this, MoonEvents st !! el = Some this /\ this !! key = Some v.
Proof.
  unfold bound. destruct (MoonEvents st !! el) as [this|]; simpl.
  - eauto.
  - rewrite lookup_empty. discriminate.
Qed.

(** ** Rebinding an event *)



Lemma viewPatch_kind_change_replaces_witness :
  viewPatch empty_defaults div_record spanned lived_in
  = (Ok (mkNodeOld spanned (element span_record) (children_ref span_record)
                   (children span_record)),
     mkState (next lived_in_spanned) (texts lived_in_spanned)
             (<[element span_record := 0]>
                (delete (element div_record) (parentNode lived_in_spanned)))
             (MoonEvents lived_in_spanned)
             (removeDataPropertyCache lived_in_spanned)
             (log lived_in_spanned
              ++ [ReplaceChild 0 (element span_record)
                               (element div_record)])
             (refused lived_in_spanned)) /\
  (exists rest,
      log lived_in_spanned =
      log lived_in
      ++ (if String.eqb (name spanned) "text"
          then CreateTextNode (element span_record) (get "data" (data spanned))
          else CreateElement (element span_record) (name spanned)) :: rest) /\
  Forall (fun h => next lived_in <= h) (handles span_record).
Proof.
  apply (viewPatch_kind_change_replaces empty_defaults div_record spanned
           lived_in span_record lived_in_spanned 0).
  - discriminate.
  - simpl. lia.
  - reflexivity.
  - reflexivity.
Defined.


(** ** The two branches of a patch *)

Lemma viewPatch_same_kind factory_default nodeOld nodeNew :
  name (node nodeOld) = name nodeNew ->
  viewPatch factory_default nodeOld nodeNew =
  (let* cs :=
     fold_m (updateData (viewPatch factory_default) (element nodeOld)
                        (data (node nodeOld)))
            (data nodeNew) (children nodeOld) in
   let* cs :=
     fold_m (removeOld factory_default (element nodeOld)
                       (name (node nodeOld)) (data nodeNew))
            (data (node nodeOld)) cs in
   ret (mkNodeOld nodeNew (element nodeOld) (children_ref nodeOld) cs)).
Proof.
  intros Hk. rewrite viewPatch_eq.
  replace (name (node nodeOld) =? name nodeNew)%string with true
    by (symmetry; apply String.eqb_eq; exact Hk).
  reflexivity.
Qed.

Lemma viewPatch_other_kind factory_default nodeOld nodeNew :
  name (node nodeOld) <> name nodeNew ->
  viewPatch factory_default nodeOld nodeNew =
  (let* nodeOldNew := viewCreate nodeNew in
   replaceInParent (element nodeOldNew) (element nodeOld) ;;
   ret (mkNodeOld nodeNew (element nodeOldNew)
                  (children_ref nodeOldNew) (children nodeOldNew))).
Proof.
  intros Hk. rewrite viewPatch_eq.
  replace (name (node nodeOld) =? name nodeNew)%string with false
    by (symmetry; apply String.eqb_neq; exact Hk).
  reflexivity.
Qed.

Lemma created_frame n s r s' :
  created n s r s' ->
  forall h, h < next s ->
            parentNode s' !! h = parentNode s !! h /\
            MoonEvents s' !! h = MoonEvents s !! h.
Proof.
  intros (_ & _ & _ & _ & _ & (Hframe & _) & _) h Hh. apply Hframe. lia.
Qed.


Lemma classify_not_children k : k <> "children" -> classify k <> KChildren.
Proof. intros Hne Hc. apply Hne. apply classify_children. exact Hc. Qed.
(** ** The dispatch loop when a cycle fails *)

Section DispatchEdges.
Context {W : Type}.
Variable apply : nat -> list (string * value) -> res value.

Lemma fold_m_app {S A X} (body : X -> A -> ST S X) l1 l2 x s :
  fold_m body (l1 ++ l2) x s
  = (let* x1 := fold_m body l1 x in fold_m body l2 x1) s.
Proof.
  revert x s. induction l1 as [|a l1 IH]; intros x s; simpl.
  - reflexivity.
  - unfold bind. destruct (body x a s) as [[x1|e] s1]; [|reflexivity].
    rewrite IH. reflexivity.
Qed.

(** X1. A root that is not a function is reported; the inputs of the drivers
    are read all the same, and the cycle then fails on the call of the
    root: no application and no [output] is called. *)
Theorem run_reports_invalid_root
        (drivers : list (string * driver W)) root s inputs s1 :
  (forall f, root <> VFun f) ->
  gather drivers (mkCycle (world s) (journal s ++ [Report InvalidRoot]))
    = (Ok inputs, s1) ->
  run apply drivers root s = (Throw TypeError, s1) /\
  journal s1 =
    journal s ++ Report InvalidRoot :: map (fun kd => CallInput kd.1) drivers.
Proof.
  intros Hroot Hg. split.
  - unfold run.
    assert (Hcheck :
              (match root with VFun _ => ret tt | _ => error InvalidRoot end) s
              = (Ok tt, mkCycle (world s) (journal s ++ [Report InvalidRoot]))).
    { destruct root; try reflexivity. exfalso. eapply Hroot. reflexivity. }
    rewrite (bind_Ok_intro _ _ _ _ _ Hcheck).
    rewrite (bind_Ok_intro _ _ _ _ _ Hg).
    apply bind_Throw_intro. unfold call_root.
    destruct root; try reflexivity. exfalso. eapply Hroot. reflexivity.
  - apply gather_journal in Hg. rewrite Hg. simpl.
    rewrite <- app_assoc. reflexivity.
Qed.

(** X2. A registered driver without an [input] function is reported, and the
    cycle fails there: the drivers before it have been asked, those after
    it are not, and the application is not called. *)
Theorem run_stops_at_driver_without_input
        (pre post : list (string * driver W)) k d f s inputs s1 :
  input d = None ->
  gather pre s = (Ok inputs, s1) ->
  run apply (pre ++ (k, d) :: post) (VFun f) s
  = (Throw TypeError,
     mkCycle (world s1)
             (journal s
              ++ map (fun kd => CallInput kd.1) pre ++ [Report (NoInput k)])).
Proof.
  intros Hin Hg. unfold run.
  rewrite (bind_Ok_intro _ _ s tt s) by reflexivity.
  apply bind_Throw_intro. unfold gather in *.
  rewrite fold_m_app. rewrite (bind_Ok_intro _ _ _ _ _ Hg).
  apply gather_journal in Hg.
  simpl. apply bind_Throw_intro. rewrite Hin.
  unfold bind, error, note, throw. simpl. rewrite Hg, <- app_assoc.
  reflexivity.
Qed.

End DispatchEdges.

(** ** What a cycle never does *)

Section DispatchNever.
Context {W : Type}.
Variable apply : nat -> list (string * value) -> res value.

Local Ltac journal_steps :=
  repeat first
    [ apply respects_ret; apply journals_only_refl
    | apply respects_throw; apply journals_only_refl
    | apply respects_lift; apply journals_only_refl
    | apply journals_only_on_world
    | apply journals_only_note; simpl; auto; fail
    | apply respects_bind; [apply journals_only_trans | | intros ?] ].

Lemma gather_calls_no_output (drivers : list (string * driver W)) :
  respects (journals_only (fun x => forall k v, x <> CallOutput k v))
           (gather drivers).
Proof.
  unfold gather, error.
  apply respects_fold_m;
    [apply journals_only_refl | apply journals_only_trans | intros ? ? _].
  destruct (input a.2); journal_steps;
    apply journals_only_note; intros k v; discriminate.
Qed.

Lemma deliver_calls_entries (drivers : list (string * driver W)) entries :
  respects (journals_only
              (fun x => forall k v,
                   x = CallOutput k v ->
                   In (k, v) entries /\ deliverable drivers (k, v)))
           (for_each (deliver drivers) entries).
Proof.
  apply respects_for_each;
    [apply journals_only_refl | apply journals_only_trans | intros [k v] Hin].
  unfold deliver, error. simpl.
  destruct (find_driver k drivers) as [d|] eqn:Hfind;
    [destruct (output d) as [f|] eqn:Hout|destruct (inherited k)];
    journal_steps.
  - apply journals_only_note. intros k' v' Heq. injection Heq as <- <-.
    split; [exact Hin|]. exists d, f. auto.
  - apply journals_only_note. intros k' v'. discriminate.
  - apply journals_only_note. intros k' v'. discriminate.
  - apply journals_only_note. intros k' v'. discriminate.
Qed.

Lemma classic_root (root : value) :
  (exists f, root = VFun f) \/ (forall f, root <> VFun f).
Proof. destruct root; eauto; right; intros f; discriminate. Qed.

Lemma run_invalid_calls_no_output (drivers : list (string * driver W)) root :
  (forall f, root <> VFun f) ->
  respects (journals_only (fun x => forall k v, x <> CallOutput k v))
           (run apply drivers root).
Proof.
  intros Hroot. unfold run.
  apply respects_bind; [apply journals_only_trans| |intros _].
  { destruct root; try (apply journals_only_note; intros k v; discriminate).
    exfalso. eapply Hroot. reflexivity. }
  apply respects_bind;
    [apply journals_only_trans|apply gather_calls_no_output|intros inputs].
  intros c r c' H. unfold bind, call_root in H.
  assert (Hr : r = Throw TypeError /\ c' = c).
  { destruct root; try (injection H as <- <-; auto).
    exfalso. eapply Hroot. reflexivity. }
  destruct Hr as [_ ->]. apply journals_only_refl.
Qed.

(** X3. Whatever the outcome of a cycle, an [output] it called was called
    after every driver's [input] had returned and the application had
    returned a record, for an entry of that record, with the value of the
    entry, on the registered driver of that name. *)
Theorem run_outputs_only_what_root_returned
        (drivers : list (string * driver W)) root s r s' d k v :
  run apply drivers root s = (r, s') ->
  journal s' = journal s ++ d ->
  In (CallOutput k v) d ->
  exists f inputs s1 outputs entries,
    root = VFun f /\
    gather drivers s = (Ok inputs, s1) /\
    apply f inputs = Ok outputs /\
    enumerate outputs = Ok entries /\
    In (k, v) entries /\
    deliverable drivers (k, v).
Proof.
  intros Hrun Hd Hin.
  assert (Hno : forall (c c' : cycle W) d',
             journals_only (fun x => forall k v, x <> CallOutput k v) c c' ->
             journal c' = journal c ++ d' -> ~ In (CallOutput k v) d').
  { intros c c' d' (d0 & H0 & Hall) Heq Hin'. rewrite H0 in Heq.
    apply app_inv_head in Heq as <-. rewrite Forall_forall in Hall.
    apply list_elem_of_In in Hin'. exact (Hall _ Hin' k v eq_refl). }
  destruct (classic_root root) as [[f ->]|Hroot]; cycle 1.
  { exfalso. eapply Hno; [|exact Hd|exact Hin].
    eapply run_invalid_calls_no_output; eassumption. }
  unfold run in Hrun.
  rewrite (bind_Ok_intro _ _ s tt s) in Hrun by reflexivity.
  unfold bind at 1 in Hrun.
  destruct (gather drivers s) as [[inputs|e] s1] eqn:Hg.
  - pose proof (gather_calls_no_output _ _ _ _ Hg) as (d1 & H1 & Hall1).
    unfold call_root in Hrun.
    unfold bind at 1 in Hrun. unfold bind at 1 in Hrun. simpl in Hrun.
    unfold lift in Hrun.
    destruct (apply f inputs) as [outputs|e] eqn:Happ.
    + unfold bind at 1 in Hrun. unfold for_in, lift in Hrun.
      destruct (enumerate outputs) as [entries|e] eqn:Hen.
      * apply deliver_calls_entries in Hrun as (d2 & H2 & Hall2).
        simpl in H2. rewrite H2, H1, <- !app_assoc in Hd.
        apply app_inv_head in Hd as <-.
        apply in_app_or in Hin as [Hin|Hin].
        { exfalso. rewrite Forall_forall in Hall1.
          apply list_elem_of_In in Hin. exact (Hall1 _ Hin k v eq_refl). }
        destruct Hin as [Hin|Hin]; [discriminate Hin|].
        rewrite Forall_forall in Hall2. apply list_elem_of_In in Hin.
        destruct (Hall2 _ Hin k v eq_refl) as [He Hdel].
        exists f, inputs, s1, outputs, entries. repeat split; auto.
      * exfalso. injection Hrun as _ <-. simpl in Hd.
        rewrite H1, <- app_assoc in Hd. apply app_inv_head in Hd as <-.
        apply in_app_or in Hin as [Hin|[Hin|[]]]; [|discriminate Hin].
        rewrite Forall_forall in Hall1.
        apply list_elem_of_In in Hin. exact (Hall1 _ Hin k v eq_refl).
    + exfalso. injection Hrun as _ <-. simpl in Hd.
      rewrite H1, <- app_assoc in Hd. apply app_inv_head in Hd as <-.
      apply in_app_or in Hin as [Hin|[Hin|[]]]; [|discriminate Hin].
      rewrite Forall_forall in Hall1.
      apply list_elem_of_In in Hin. exact (Hall1 _ Hin k v eq_refl).
  - exfalso. injection Hrun as _ <-.
    apply gather_calls_no_output in Hg as (d1 & H1 & Hall1).
    rewrite H1 in Hd. apply app_inv_head in Hd as <-.
    rewrite Forall_forall in Hall1.
    apply list_elem_of_In in Hin. exact (Hall1 _ Hin k v eq_refl).
Qed.

End DispatchNever.

(** ** Removing an event *)

Section Unbinding.
Variable factory_default : string -> string -> value.
Variable el : handle.
Variable key : string.
Hypothesis Hkey : is_event key = true.

Local Abbreviation above := (fun h : nat => el < h).

Lemma removal_step_keeps nm nodeNewData k v0 cs s cs' s' :
  k <> key ->
  el < next s ->
  Forall (fun c => Forall above (handles c)) cs ->
  removeOld factory_default el nm nodeNewData cs (k, v0) s = (Ok cs', s') ->
  next s <= next s' /\ keeps el key s s' /\
  Forall (fun c => Forall above (handles c)) cs'.
Proof.
  intros Hne Hel Hcs Hstep. unfold removeOld in Hstep.
  destruct (key_in k nodeNewData).
  - injection Hstep as <- <-. split; [lia|].
    split; [apply keeps_refl|exact Hcs].
  - destruct (is_event k) eqn:Hev.
    + apply (remove_event_step factory_default el key) in Hstep
        as (-> & Hn & Hb & Hlog); [|exact Hev|exact Hne].
      split; [lia|]. split; [|exact Hcs].
      apply (other_event_keeps el key Hkey k s s'
               [RemoveEventListener el (slice1 k)]); auto.
    + eapply remove_other_step with (key := key) in Hstep; eauto.
Qed.

Lemma removal_loop_keeps nm nodeNewData l cs s cs' s' :
  key ∉ map fst l ->
  el < next s ->
  Forall (fun c => Forall above (handles c)) cs ->
  fold_m (removeOld factory_default el nm nodeNewData) l cs s
    = (Ok cs', s') ->
  next s <= next s' /\ keeps el key s s' /\
  Forall (fun c => Forall above (handles c)) cs'.
Proof.
  revert cs s. induction l as [|[k v0] l IH];
    intros cs s Hk Hel Hcs H; simpl in H.
  - injection H as <- <-. split; [lia|]. split; [apply keeps_refl|exact Hcs].
  - simpl in Hk. rewrite not_elem_of_cons in Hk. destruct Hk as [Hne Hk].
    apply bind_Ok in H as (cs1 & s1 & Hstep & Hrest).
    apply removal_step_keeps in Hstep as (Hn1 & Hk1 & Hcs1);
      [|congruence|exact Hel|exact Hcs].
    apply IH in Hrest as (Hn2 & Hk2 & Hcs2); [|exact Hk|lia|exact Hcs1].
    split; [lia|]. split; [|exact Hcs2].
    eapply keeps_trans; eassumption.
Qed.

Lemma removal_loop_unbinds nm nodeNewData l cs s cs' s' v :
  NoDup (map fst l) ->
  In (key, v) l ->
  has key nodeNewData = false ->
  el < next s ->
  Forall (fun c => Forall above (handles c)) cs ->
  fold_m (removeOld factory_default el nm nodeNewData) l cs s
    = (Ok cs', s') ->
  bound s' el key = None /\
  exists d, log s' = log s ++ d /\
            registrations el (slice1 key) d = [false].
Proof.
  intros Hnd Hin Hhas. revert cs s. induction l as [|[k v0] l IH];
    intros cs s Hel Hcs H; [destruct Hin|].
  simpl in Hnd. apply NoDup_cons in Hnd as [Hk Hnd].
  simpl in H. apply bind_Ok in H as (cs1 & s1 & Hstep & Hrest).
  destruct (String.eqb_spec k key) as [->|Hne].
  - unfold removeOld in Hstep.
    rewrite key_in_own, Hhas in Hstep by (apply inherited_event; exact Hkey).
    unfold removeData in Hstep.
    rewrite (proj2 (classify_event key) Hkey) in Hstep.
    unfold bind, read, set_MoonEvents, removeEventListener, emit, ret
      in Hstep. simpl in Hstep.
    destruct (MoonEvents s !! el) as [d0|] eqn:Hd0; [|discriminate Hstep].
    injection Hstep as <- <-.
    apply removal_loop_keeps in Hrest as (_ & (Hb & d & Hd & Hr) & _);
      [|exact Hk|exact Hel|exact Hcs].
    split.
    + rewrite Hb. unfold bound. simpl. rewrite lookup_insert_eq. simpl.
      apply lookup_delete_eq.
    + exists (RemoveEventListener el (slice1 key) :: d). split.
      * rewrite Hd. simpl. rewrite <- app_assoc. reflexivity.
      * simpl. rewrite Nat.eqb_refl, String.eqb_refl, Hr. reflexivity.
  - destruct Hin as [Heq|Hin]; [congruence|].
    apply removal_step_keeps in Hstep as (Hn1 & (Hb1 & d1 & Hd1 & Hr1) & Hcs1);
      [|exact Hne|exact Hel|exact Hcs].
    apply IH in Hrest as (Hb & d & Hd & Hr);
      [|exact Hnd|exact Hin|lia|exact Hcs1].
    split; [exact Hb|]. exists (d1 ++ d). split.
    + rewrite Hd, Hd1, app_assoc. reflexivity.
    + rewrite registrations_app, Hr1, Hr. reflexivity.
Qed.

End Unbinding.

Lemma has_false_not_In k (l : list (string * value)) :
  has k l = false -> k ∉ map fst l.
Proof.
  induction l as [|[k' v] l IH]; simpl; intros H; [apply not_elem_of_nil|].
  destruct (String.eqb_spec k' k) as [->|Hne]; [discriminate H|].
  apply not_elem_of_cons. split; [congruence|]. apply IH. exact H.
Qed.


(** ** The event an application sees *)

Lemma get_set_same k v (obj : list (string * value)) :
  get k (set k v obj) = v.
Proof.
  induction obj as [|[k' w] obj IH]; simpl.
  - rewrite String.eqb_refl. reflexivity.
  - destruct (String.eqb_spec k' k) as [->|Hne]; simpl.
    + rewrite String.eqb_refl. reflexivity.
    + destruct (String.eqb_spec k' k); [congruence|exact IH].
Qed.

Lemma get_set_other k k' v (obj : list (string * value)) :
  k' <> k -> get k (set k' v obj) = get k obj.
Proof.
  intros Hne. induction obj as [|[k0 w] obj IH]; simpl.
  - destruct (String.eqb_spec k' k); [congruence|reflexivity].
  - destruct (String.eqb_spec k0 k') as [->|Hne0]; simpl.
    + destruct (String.eqb_spec k' k); [congruence|reflexivity].
    + destruct (String.eqb_spec k0 k); [reflexivity|exact IH].
Qed.

Section RootInput.
Context {W : Type}.
Variable apply : nat -> list (string * value) -> res value.

(** A cycle calls an application only on the record its first loop
    returned. *)
Lemma run_root_input (drivers : list (string * driver W)) f s r s' d g i :
  run apply drivers (VFun f) s = (r, s') ->
  journal s' = journal s ++ d ->
  In (CallRoot g i) d ->
  exists s1, gather drivers s = (Ok i, s1).
Proof.
  intros Hrun Hd Hin. unfold run in Hrun.
  rewrite (bind_Ok_intro _ _ s tt s) in Hrun by reflexivity.
  unfold bind at 1 in Hrun.
  destruct (gather drivers s) as [[inputs|e] s1] eqn:Hg.
  - pose proof (gather_calls_no_root _ _ _ _ Hg) as (d1 & H1 & Hall1).
    rewrite Forall_forall in Hall1.
    unfold call_root in Hrun.
    unfold bind at 1 in Hrun. unfold bind at 1 in Hrun. simpl in Hrun.
    unfold lift in Hrun.
    assert (Hcase : exists d2,
               journal s' = (journal s1 ++ [CallRoot (VFun f) inputs]) ++ d2 /\
               forall x, x ∈ d2 -> forall g i, x <> CallRoot g i).
    { destruct (apply f inputs) as [outputs|e].
      - unfold bind at 1 in Hrun. unfold for_in, lift in Hrun.
        destruct (enumerate outputs) as [entries|e].
        + apply deliver_calls_no_root in Hrun as (d2 & H2 & Hall2).
          rewrite Forall_forall in Hall2. eauto.
        + injection Hrun as _ <-. exists []. rewrite app_nil_r.
          split; [reflexivity|]. intros x Hx. inversion Hx.
      - injection Hrun as _ <-. exists []. rewrite app_nil_r.
        split; [reflexivity|]. intros x Hx. inversion Hx. }
    destruct Hcase as (d2 & H2 & Hall2).
    rewrite H2, H1, <- !app_assoc in Hd. apply app_inv_head in Hd as <-.
    apply in_app_or in Hin as [Hin|[Hin|Hin]].
    + exfalso. apply list_elem_of_In in Hin. exact (Hall1 _ Hin g i eq_refl).
    + injection Hin as _ <-. eauto.
    + exfalso. apply list_elem_of_In in Hin. exact (Hall2 _ Hin g i eq_refl).
  - exfalso. injection Hrun as _ <-.
    apply gather_calls_no_root in Hg as (d1 & H1 & Hall1).
    rewrite H1 in Hd. apply app_inv_head in Hd as <-.
    rewrite Forall_forall in Hall1.
    apply list_elem_of_In in Hin. exact (Hall1 _ Hin g i eq_refl).
Qed.

End RootInput.

Section ViewInput.
Variable apply : nat -> list (string * value) -> res value.

Local Abbreviation gather_body :=
  (fun (inputs : list (string * value)) (kd : string * driver process) =>
     match input kd.2 with
     | None => error (NoInput kd.1) ;; throw TypeError
     | Some f =>
         note (CallInput kd.1) ;;
         let* v := on_world f in
         ret (set kd.1 v inputs)
     end).

Lemma gather_step_inv (acc : list (string * value)) k d
      (s : cycle process) acc' s' :
  gather_body acc (k, d) s = (Ok acc', s') ->
  exists f v w',
    input d = Some f /\ f (world s) = (Ok v, w') /\
    acc' = set k v acc /\ world s' = w'.
Proof.
  simpl. destruct (input d) as [f|]; intros H.
  - apply bind_Ok in H as ([] & s2 & Hnote & H).
    apply bind_Ok in H as (v & s3 & Hcall & Hret).
    injection Hnote as <-. injection Hret as <- <-.
    unfold on_world in Hcall. simpl in Hcall.
    destruct (f (world s)) as [r w'] eqn:Hf. injection Hcall as -> <-.
    exists f, v, w'. auto.
  - apply bind_Ok in H as ([] & s2 & _ & Hthrow). discriminate Hthrow.
Qed.

Lemma gather_view pre d post s inputs s' :
  NoDup (map fst (pre ++ ("view", d) :: post)) ->
  input d = Some view_input ->
  Forall (fun kd => forall g, input kd.2 = Some g -> keeps_viewEvent g) pre ->
  gather (pre ++ ("view", d) :: post) s = (Ok inputs, s') ->
  get "view" inputs = viewEvent (world s).
Proof.
  intros Hnd Hd Hpre H. unfold gather in H.
  apply fold_m_split in H as (x1 & s1 & x2 & s2 & H1 & H2 & H3).
  assert (Hev : viewEvent (world s1) = viewEvent (world s)).
  { revert H1. generalize (@nil (string * value)) as acc. revert s.
    induction pre as [|[k0 d0] pre IH]; intros s acc H1; simpl in H1.
    - injection H1 as _ <-. reflexivity.
    - apply bind_Ok in H1 as (acc1 & t & Hstep & Hrest).
      apply gather_step_inv in Hstep as (f & v & w' & Hf & Hrun & _ & Hw).
      inversion Hpre as [|? ? Hk0 Hpre']; subst.
      simpl in Hnd. apply NoDup_cons in Hnd as [_ Hnd].
      rewrite (IH Hnd Hpre' _ _ Hrest).
      eapply (Hk0 f Hf). exact Hrun. }
  apply gather_step_inv in H2 as (f & v & w' & Hf & Hrun & -> & Hw).
  rewrite Hd in Hf. injection Hf as <-. injection Hrun as <- <-.
  rewrite map_app in Hnd. apply NoDup_app in Hnd as (_ & _ & Hnd).
  simpl in Hnd. apply NoDup_cons in Hnd as [Hview _].
  rewrite <- Hev.
  assert (Hget : get "view" (set "view" (viewEvent (world s1)) x1)
                 = viewEvent (world s1)) by apply get_set_same.
  revert Hget H3. generalize (set "view" (viewEvent (world s1)) x1) as acc.
  generalize (viewEvent (world s1)) as ev. clear - Hview.
  revert s2. induction post as [|[k0 d0] post IH]; intros s2 ev acc Hget H3;
    simpl in H3.
  - injection H3 as <- _. exact Hget.
  - apply bind_Ok in H3 as (acc1 & t & Hstep & Hrest).
    apply gather_step_inv in Hstep as (f & v & w' & _ & _ & -> & _).
    simpl in Hview. rewrite not_elem_of_cons in Hview.
    destruct Hview as [Hne Hview].
    eapply IH; [exact Hview| |exact Hrest].
    rewrite get_set_other by congruence. exact Hget.
Qed.

(** X6. When the dispatcher of an element handles an event, the application
    bound to the type of the event, if the cycle calls it, receives the
    event as the input of the view driver, provided that the [input] of
    the drivers registered before the view driver leave the current event
    alone. *)
Theorem handleEvent_hands_event_to_root
        (pre post : list (string * driver process)) d this ref fields type f
        c r c' entries i :
  NoDup (map fst (pre ++ ("view", d) :: post)) ->
  input d = Some view_input ->
  Forall (fun kd => forall g, input kd.2 = Some g -> keeps_viewEvent g) pre ->
  get "type" fields = VStr type ->
  this !! ("@" ++ type)%string = Some (VFun f) ->
  handleEvent apply (pre ++ ("view", d) :: post) this (VObj ref fields) c
    = (r, c') ->
  journal c' = journal c ++ entries ->
  In (CallRoot (VFun f) i) entries ->
  get "view" i = VObj ref fields.
Proof.
  intros Hnd Hd Hpre Htype Hthis H Hj Hin.
  unfold handleEvent, on_world, event_type, bind, ret in H. simpl in H.
  rewrite Htype, Hthis in H. simpl in H.
  eapply run_root_input in H as (s1 & Hg); [|exact Hj|exact Hin].
  eapply gather_view in Hg; [|exact Hnd|exact Hd|exact Hpre].
  exact Hg.
Qed.

End ViewInput.

(** ** The diff of a group *)

Lemma logging_nil s : logging [] s = s.
Proof. destruct s. unfold logging. simpl. rewrite app_nil_r. reflexivity. Qed.

Lemma logging_app d1 d2 s : logging d2 (logging d1 s) = logging (d1 ++ d2) s.
Proof. unfold logging. simpl. rewrite app_assoc. reflexivity. Qed.

Lemma for_each_logging {A} (body : A -> M unit) (eff : A -> list effect) l s :
  (forall a s',
      In a l -> texts s' = texts s -> refused s' = refused s ->
      body a s' = (Ok tt, logging (eff a) s')) ->
  for_each body l s = (Ok tt, logging (flat_map eff l) s).
Proof.
  intros Hb. revert s Hb. induction l as [|a l IH]; intros s Hb; simpl.
  - rewrite logging_nil. reflexivity.
  - rewrite (bind_Ok_intro _ _ _ _ _
               (Hb a s (or_introl eq_refl) eq_refl eq_refl)).
    rewrite IH; [rewrite logging_app; reflexivity|].
    intros b s' Hin Hs' Hr'. apply Hb; [right; exact Hin|..].
    + rewrite Hs'. reflexivity.
    + rewrite Hr'. reflexivity.
Qed.

Lemma flat_map_unless {A B} (p : A -> bool) (g : A -> B) l :
  flat_map (fun a => if p a then [] else [g a]) l
  = map g (List.filter (fun a => negb (p a)) l).
Proof.
  induction l as [|a l IH]; simpl; [reflexivity|].
  destruct (p a); simpl; rewrite IH; reflexivity.
Qed.

Lemma on_element h e s :
  h ∉ texts s -> (element_only h ;; emit e) s = (Ok tt, logging [e] s).
Proof.
  intros Hh. unfold element_only, bind, read. simpl.
  destruct (decide (h ∈ texts s)); [contradiction|reflexivity].
Qed.

Lemma on_element_request h e s :
  h ∉ texts s -> refused s e = None ->
  (element_only h ;; request e) s = (Ok tt, logging [e] s).
Proof.
  intros Hh He. unfold element_only, request, bind, read. simpl.
  destruct (decide (h ∈ texts s)); [contradiction|]. simpl.
  rewrite He. reflexivity.
Qed.

Lemma get_sub_group valueOld olds k s :
  group_of valueOld olds -> get_sub valueOld k s = (Ok (old_at valueOld k), s).
Proof. intros Hg. destruct Hg; reflexivity. Qed.

Section GroupDiff.
Variable el : handle.
Variable put : string -> value -> M unit.
Variable unset : string -> M unit.
Variable put_call : string -> value -> effect.
Variable unset_call : string -> effect.
(** Whether the DOM has a say on the removal. *)
Variable unset_asks : bool.
Hypothesis put_logs :
  forall k v s,
    el ∉ texts s -> refused s (put_call k v) = None ->
    put k v s = (Ok tt, logging [put_call k v] s).
Hypothesis unset_logs :
  forall k s,
    el ∉ texts s ->
    (unset_asks = true -> refused s (unset_call k) = None) ->
    unset k s = (Ok tt, logging [unset_call k] s).

Lemma group_diff {A} valueOld olds r fields (cs : A) s :
  group_of valueOld olds ->
  el ∉ texts s ->
  accepted s (map (fun kv => put_call kv.1 kv.2) (changed valueOld fields)) ->
  (unset_asks = true ->
   accepted s (map (fun kv => unset_call kv.1) (dropped olds fields))) ->
  (let* fields := for_in (VObj r fields) in
   for_each (fun kv =>
               let* setValueOld := get_sub valueOld kv.1 in
               if strict_eq setValueOld kv.2 then ret tt
               else put kv.1 kv.2) fields ;;
   (if strict_eq valueOld VUndef then ret tt
    else
      let* olds := for_in valueOld in
      for_each (fun kv =>
                  let* present := has_sub kv.1 (VObj r fields) in
                  if present then ret tt
                  else unset kv.1) olds) ;;
   ret cs) s
  = (Ok cs,
     logging (map (fun kv => put_call kv.1 kv.2) (changed valueOld fields)
              ++ map (fun kv => unset_call kv.1) (dropped olds fields)) s).
Proof.
  intros Hg Hel Hput Hunset.
  unfold accepted in Hput, Hunset. rewrite Forall_map in Hput.
  rewrite Forall_forall in Hput.
  rewrite (bind_Ok_intro _ _ s fields s) by reflexivity.
  erewrite bind_Ok_intro; cycle 1.
  { apply (for_each_logging _
             (fun kv => if strict_eq (old_at valueOld kv.1) kv.2 then []
                        else [put_call kv.1 kv.2])).
    intros kv s' Hin Hs' Hr'.
    rewrite (bind_Ok_intro _ _ _ _ _ (get_sub_group _ _ kv.1 s' Hg)).
    destruct (strict_eq (old_at valueOld kv.1) kv.2) eqn:Hsame.
    - rewrite logging_nil. reflexivity.
    - apply put_logs; [rewrite Hs'; exact Hel|]. rewrite Hr'.
      apply (Hput kv). apply list_elem_of_In. unfold changed.
      apply filter_In. split; [exact Hin|]. rewrite Hsame. reflexivity. }
  rewrite flat_map_unless. fold (changed valueOld fields).
  rewrite <- logging_app.
  set (s1 := logging _ s).
  assert (Hel1 : el ∉ texts s1) by exact Hel.
  assert (Hr1 : refused s1 = refused s) by reflexivity.
  clearbody s1.
  erewrite bind_Ok_intro; [reflexivity|].
  destruct Hg as [|r0 olds]; simpl.
  - rewrite logging_nil. reflexivity.
  - rewrite (bind_Ok_intro _ _ s1 olds s1) by reflexivity.
    unfold dropped. rewrite <- flat_map_unless.
    apply for_each_logging. intros kv s' Hin Hs' Hr'.
    unfold has_sub, bind, ret.
    destruct (key_in kv.1 fields) eqn:Hpresent.
    + rewrite logging_nil. reflexivity.
    + apply unset_logs; [rewrite Hs'; exact Hel1|].
      intros Hasks. specialize (Hunset Hasks).
      rewrite Forall_map, Forall_forall in Hunset.
      rewrite Hr', Hr1. apply (Hunset kv). apply list_elem_of_In.
      unfold dropped. apply filter_In. split; [exact Hin|].
      rewrite Hpresent. reflexivity.
Qed.

End GroupDiff.

(** X8. In the update loop of a patch, a group of style properties whose
    object changed is applied to an element as follows, when the DOM
    refuses none of the assignments: one assignment, in the order of the
    new object, for each of its sub-keys whose value is not the one the
    old object has or inherits for it; then one assignment of the empty
    string, in the order of the old object, for each sub-key of the old
    object that the new object neither has nor inherits.  Nothing else
    changes. *)
Theorem style_update_assigns_changes_and_blanks
        factory_default el valueOld olds r fields cs s :
  group_of valueOld olds ->
  el ∉ texts s ->
  accepted s (map (fun kv => SetStyle el kv.1 kv.2) (changed valueOld fields)
              ++ map (fun kv => SetStyle el kv.1 (VStr ""))
                     (dropped olds fields)) ->
  patchData (viewPatch factory_default) el valueOld "style" (VObj r fields)
            cs s
  = (Ok cs,
     logging (map (fun kv => SetStyle el kv.1 kv.2) (changed valueOld fields)
              ++ map (fun kv => SetStyle el kv.1 (VStr ""))
                     (dropped olds fields)) s).
Proof.
  intros Hg Hel Hacc. unfold patchData. simpl classify. cbv iota.
  apply Forall_app in Hacc as [Hput Hunset].
  apply (group_diff el (setStyle el) (fun k => setStyle el k (VStr ""))
           (SetStyle el) (fun k => SetStyle el k (VStr "")) true).
  - intros k v s0 Hs0 Hr0. apply on_element_request; assumption.
  - intros k s0 Hs0 Hr0. apply on_element_request; auto.
  - exact Hg.
  - exact Hel.
  - exact Hput.
  - intros _. exact Hunset.
Qed.

(** X9. In the update loop of a patch, a group of aria attributes whose
    object changed is applied to an element as follows, when the DOM
    refuses none of the attributes set: one [setAttribute] of [aria-]
    followed by the sub-key, in the order of the new object, for each of
    its sub-keys whose value is not the one the old object has or inherits
    for it; then one [removeAttribute], in the order of the old object,
    for each sub-key of the old object that the new object neither has nor
    inherits.  Nothing else changes. *)
Theorem ariaset_update_sets_changes_and_removes
        factory_default el valueOld olds r fields cs s :
  group_of valueOld olds ->
  el ∉ texts s ->
  accepted s (map (fun kv => SetAttribute el ("aria-" ++ kv.1) kv.2)
                  (changed valueOld fields)) ->
  patchData (viewPatch factory_default) el valueOld "ariaset" (VObj r fields)
            cs s
  = (Ok cs,
     logging (map (fun kv => SetAttribute el ("aria-" ++ kv.1) kv.2)
                  (changed valueOld fields)
              ++ map (fun kv => RemoveAttribute el ("aria-" ++ kv.1))
                     (dropped olds fields)) s).
Proof.
  intros Hg Hel Hacc. unfold patchData. simpl classify. cbv iota.
  apply (group_diff el
           (fun k => setAttribute el ("aria-" ++ k))
           (fun k => removeAttribute el ("aria-" ++ k))
           (fun k => SetAttribute el ("aria-" ++ k))
           (fun k => RemoveAttribute el ("aria-" ++ k)) false).
  - intros k v s0 Hs0 Hr0. apply on_element_request; assumption.
  - intros k s0 Hs0 _. apply on_element. exact Hs0.
  - exact Hg.
  - exact Hel.
  - exact Hacc.
  - discriminate.
Qed.

(** X10. In the update loop of a patch, a group of data attributes whose
    object changed is applied to an element as follows, when the DOM
    refuses none of the assignments: one assignment to the [dataset] of
    the element, in the order of the new object, for each of its sub-keys
    whose value is not the one the old object has or inherits for it; then
    one [delete], in the order of the old object, for each sub-key of the
    old object that the new object neither has nor inherits.  Nothing else
    changes. *)
Theorem dataset_update_sets_changes_and_deletes
        factory_default el valueOld olds r fields cs s :
  group_of valueOld olds ->
  el ∉ texts s ->
  accepted s (map (fun kv => SetDataset el kv.1 kv.2)
                  (changed valueOld fields)) ->
  patchData (viewPatch factory_default) el valueOld "dataset" (VObj r fields)
            cs s
  = (Ok cs,
     logging (map (fun kv => SetDataset el kv.1 kv.2) (changed valueOld fields)
              ++ map (fun kv => DeleteDataset el kv.1)
                     (dropped olds fields)) s).
Proof.
  intros Hg Hel Hacc. unfold patchData. simpl classify. cbv iota.
  apply (group_diff el (setDataset el) (deleteDataset el)
           (SetDataset el) (DeleteDataset el) false).
  - intros k v s0 Hs0 Hr0. apply on_element_request; assumption.
  - intros k s0 Hs0 _. apply on_element. exact Hs0.
  - exact Hg.
  - exact Hel.
  - exact Hacc.
  - discriminate.
Qed.

(** ** The nodes an operation acts on *)

(** X13. A creation that returns acted on nodes of its own only: every handle
    of the record it returns was allocated by the creation, the parent and
    the dispatcher of every node allocated before are as they were, and
    every DOM call of the creation is made on a node it allocated. *)
Theorem viewCreate_acts_on_new_nodes n st r st' :
  viewCreate n st = (Ok r, st') ->
  Forall (fun h => next st < h < next st') (handles r) /\
  (forall h, h < next st ->
             parentNode st' !! h = parentNode st !! h /\
             MoonEvents st' !! h = MoonEvents st !! h) /\
  exists calls,
    log st' = log st ++ calls /\
    Forall (fun e => next st <= subject e) calls.
Proof.
  intros H. apply viewCreate_created in H as Hcr.
  split; [eapply created_handles; exact Hcr|].
  destruct Hcr as (_ & _ & _ & _ & _ & (Hframe & Hlog) & _).
  split; [|exact Hlog].
  intros h Hh. apply Hframe. lia.
Qed.


(** ** Cycles that complete *)

Section Completes.
Context {W : Type}.
Variable apply : nat -> list (string * value) -> res value.

Lemma find_driver_In k (drivers : list (string * driver W)) d :
  find_driver k drivers = Some d -> In (k, d) drivers.
Proof.
  induction drivers as [|[k0 d0] drivers IH]; simpl; [discriminate|].
  destruct (String.eqb_spec k0 k) as [->|_].
  - intros H. injection H as <-. left. reflexivity.
  - intros H. right. apply IH. exact H.
Qed.

Lemma find_driver_registered k (drivers : list (string * driver W)) :
  k ∈ map fst drivers -> exists d, find_driver k drivers = Some d.
Proof.
  induction drivers as [|[k0 d0] drivers IH]; simpl; intros Hin.
  - inversion Hin.
  - destruct (String.eqb_spec k0 k) as [->|Hne]; [eauto|].
    apply elem_of_cons in Hin as [Heq|Hin]; [congruence|auto].
Qed.

Lemma gather_completes (drivers : list (string * driver W)) acc s :
  Forall (fun kd => healthy kd.2) drivers ->
  exists inputs s',
    fold_m (fun inputs kd =>
              match input kd.2 with
              | None => error (NoInput kd.1) ;; throw TypeError
              | Some f =>
                  note (CallInput kd.1) ;;
                  let* v := on_world f in
                  ret (set kd.1 v inputs)
              end) drivers acc s = (Ok inputs, s').
Proof.
  revert acc s. induction drivers as [|[k d] drivers IH]; intros acc s Hh.
  - exists acc, s. reflexivity.
  - apply Forall_cons in Hh as [[(f & Hf & Hfok) _] Hh]. simpl in Hf.
    destruct (Hfok (world s)) as (v & w' & Hrun).
    destruct (IH (set k v acc) (mkCycle w' (journal s ++ [CallInput k])) Hh)
      as (inputs & s' & Hrest).
    exists inputs, s'. simpl. rewrite Hf.
    unfold bind at 1. unfold bind at 1. simpl.
    unfold bind at 1. unfold on_world. simpl. rewrite Hrun. simpl.
    exact Hrest.
Qed.

Lemma deliver_completes (drivers : list (string * driver W)) entries s :
  Forall (fun kd => healthy kd.2) drivers ->
  Forall (fun kv => kv.1 ∈ map fst drivers) entries ->
  exists s', for_each (deliver drivers) entries s = (Ok tt, s').
Proof.
  intros Hh. revert s. induction entries as [|[k v] entries IH]; intros s He.
  - exists s. reflexivity.
  - apply Forall_cons in He as [Hk He]. simpl in Hk.
    destruct (find_driver_registered k drivers Hk) as [d Hd].
    rewrite Forall_forall in Hh.
    destruct (Hh (k, d)) as [_ (g & Hg & Hgok)].
    { apply list_elem_of_In. apply find_driver_In. exact Hd. }
    simpl in Hg. destruct (Hgok v (world s)) as [w' Hrun].
    destruct (IH (mkCycle w' (journal s ++ [CallOutput k v])) He)
      as [s' Hrest].
    exists s'. simpl. unfold bind at 1. unfold deliver. simpl.
    rewrite Hd, Hg. unfold bind at 1. simpl. unfold on_world. simpl.
    rewrite Hrun. exact Hrest.
Qed.

(** X4. A cycle returns when every registered driver has both functions and
    they do not throw, and the application returns an object whose keys
    all name registered drivers. *)
Theorem run_completes (drivers : list (string * driver W)) f s :
  Forall (fun kd => healthy kd.2) drivers ->
  (forall inputs,
      exists r fields,
        apply f inputs = Ok (VObj r fields) /\
        Forall (fun kv => kv.1 ∈ map fst drivers) fields) ->
  exists s', run apply drivers (VFun f) s = (Ok tt, s').
Proof.
  intros Hh Happ. unfold run.
  rewrite (bind_Ok_intro _ _ s tt s) by reflexivity.
  destruct (gather_completes drivers [] s Hh) as (inputs & s1 & Hg).
  unfold gather. rewrite (bind_Ok_intro _ _ _ _ _ Hg).
  destruct (Happ inputs) as (r & fields & Hout & Hkeys).
  assert (Hcall : call_root apply (VFun f) inputs s1
                  = (Ok (VObj r fields),
                     mkCycle (world s1)
                             (journal s1 ++ [CallRoot (VFun f) inputs]))).
  { unfold call_root, bind, note, lift. simpl. rewrite Hout. reflexivity. }
  rewrite (bind_Ok_intro _ _ _ _ _ Hcall).
  rewrite (bind_Ok_intro _ _ _ fields _) by reflexivity.
  apply deliver_completes; assumption.
Qed.

End Completes.

(** ** The data a cycle stores *)

Section StoredData.
Context {W : Type}.
Variable data_of : W -> value.
Variable with_data : value -> W -> W.
Hypothesis data_with_data : forall v w, data_of (with_data v w) = v.
Variable apply : nat -> list (string * value) -> res value.

Lemma deliver_keeps_data (drivers : list (string * driver W)) entries s s' :
  Forall (fun kd => kd.1 <> "data" -> keeps_data data_of kd.2) drivers ->
  "data" ∉ map fst entries ->
  for_each (deliver drivers) entries s = (Ok tt, s') ->
  data_of (world s') = data_of (world s).
Proof.
  intros Hk. revert s. induction entries as [|[k v] entries IH];
    intros s Hno H; simpl in H.
  - injection H as <-. reflexivity.
  - simpl in Hno. rewrite not_elem_of_cons in Hno. destruct Hno as [Hne Hno].
    apply bind_Ok in H as ([] & s1 & Hd & Hrest).
    rewrite (IH s1 Hno Hrest).
    unfold deliver in Hd. simpl in Hd.
    destruct (find_driver k drivers) as [d|] eqn:Hfind.
    + destruct (output d) as [g|] eqn:Hout.
      * apply bind_Ok in Hd as ([] & s2 & Hnote & Hcall).
        injection Hnote as <-. unfold on_world in Hcall. simpl in Hcall.
        destruct (g v (world s)) as [r w'] eqn:Hg.
        injection Hcall as _ <-. simpl.
        rewrite Forall_forall in Hk.
        apply find_driver_In in Hfind. apply list_elem_of_In in Hfind.
        eapply (Hk _ Hfind); [simpl; congruence|exact Hout|exact Hg].
      * apply bind_Ok in Hd as ([] & s2 & _ & Hthrow). discriminate Hthrow.
    + destruct (inherited k);
        apply bind_Ok in Hd as ([] & s2 & _ & Hthrow); discriminate Hthrow.
Qed.

(** X5. When the data driver is registered under [data] and the [output] of
    the other drivers leave the stored data alone, a cycle that returns
    and whose application returned an entry [data] has stored the value of
    that entry. *)
Theorem run_stores_data_output
        (drivers : list (string * driver W)) f s s' inputs s1 r pre v post :
  find_driver "data" drivers = Some (data_driver data_of with_data) ->
  Forall (fun kd => kd.1 <> "data" -> keeps_data data_of kd.2) drivers ->
  gather drivers s = (Ok inputs, s1) ->
  apply f inputs = Ok (VObj r (pre ++ ("data", v) :: post)) ->
  "data" ∉ map fst post ->
  run apply drivers (VFun f) s = (Ok tt, s') ->
  data_of (world s') = v.
Proof.
  intros Hfind Hk Hg Happ Hpost Hrun. unfold run in Hrun.
  rewrite (bind_Ok_intro _ _ s tt s) in Hrun by reflexivity.
  rewrite (bind_Ok_intro _ _ _ _ _ Hg) in Hrun.
  assert (Hcall : call_root apply (VFun f) inputs s1
                  = (Ok (VObj r (pre ++ ("data", v) :: post)),
                     mkCycle (world s1)
                             (journal s1 ++ [CallRoot (VFun f) inputs]))).
  { unfold call_root, bind, note, lift. simpl. rewrite Happ. reflexivity. }
  rewrite (bind_Ok_intro _ _ _ _ _ Hcall) in Hrun.
  rewrite (bind_Ok_intro _ _ _ (pre ++ ("data", v) :: post) _) in Hrun
    by reflexivity.
  rewrite for_each_app in Hrun.
  apply bind_Ok in Hrun as ([] & s2 & _ & Hrun).
  simpl in Hrun. apply bind_Ok in Hrun as ([] & s3 & Hd & Hrest).
  rewrite (deliver_keeps_data drivers post s3 s' Hk Hpost Hrest).
  unfold deliver in Hd. simpl in Hd. rewrite Hfind in Hd. simpl in Hd.
  injection Hd as <-. simpl. apply data_with_data.
Qed.

End StoredData.

(** ** Patches that fail *)

(** X12. A patch with a description of another kind, on a record whose node
    has no parent, creates the record of the description and then fails:
    there is no parent to replace the old node in. *)
Theorem viewPatch_kind_change_needs_parent
        factory_default nodeOld nodeNew st nodeOldNew st1 :
  name (node nodeOld) <> name nodeNew ->
  element nodeOld < next st ->
  parentNode st !! element nodeOld = None ->
  viewCreate nodeNew st = (Ok nodeOldNew, st1) ->
  viewPatch factory_default nodeOld nodeNew st = (Throw TypeError, st1).
Proof.
  intros Hk Hel Hp Hc. rewrite viewPatch_other_kind by exact Hk.
  rewrite (bind_Ok_intro _ _ _ _ _ Hc).
  apply viewCreate_created in Hc.
  destruct (created_frame _ _ _ _ Hc (element nodeOld) Hel) as [Hp1 _].
  unfold replaceInParent, bind, read. simpl. rewrite Hp1, Hp. reflexivity.
Qed.

Section GroupOnText.
Variable el : handle.
Variable put : string -> value -> M unit.
Hypothesis put_throws :
  forall k v s, el ∈ texts s -> put k v s = (Throw TypeError, s).

Lemma group_on_text {A} valueOld olds fields s (rest : M A) :
  group_of valueOld olds ->
  el ∈ texts s ->
  changed valueOld fields <> [] ->
  (for_each (fun kv =>
               let* setValueOld := get_sub valueOld kv.1 in
               if strict_eq setValueOld kv.2 then ret tt
               else put kv.1 kv.2) fields ;; rest) s
  = (Throw TypeError, s).
Proof.
  intros Hg Hel Hch. apply bind_Throw_intro.
  induction fields as [|kv fields IH]; [contradiction|].
  simpl.
  pose proof (get_sub_group valueOld olds kv.1 s Hg) as Hget.
  unfold bind at 1. unfold bind at 1. rewrite Hget.
  unfold changed in Hch. simpl in Hch.
  destruct (strict_eq (old_at valueOld kv.1) kv.2); simpl in Hch.
  - simpl. apply IH. exact Hch.
  - rewrite put_throws by exact Hel. reflexivity.
Qed.

End GroupOnText.

Lemma on_text h e s :
  h ∈ texts s -> (element_only h ;; request e) s = (Throw TypeError, s).
Proof.
  intros Hh. unfold element_only, bind, read. simpl.
  destruct (decide (h ∈ texts s)); [reflexivity|contradiction].
Qed.

(** X11. In the update loop of a patch on a text node, a group whose object
    has a sub-key with a new value fails at the first such sub-key, before
    any DOM call: a text node has no attributes, no dataset and no
    style. *)
Theorem group_update_on_text_throws
        factory_default el valueOld olds k r fields cs s :
  is_group k = true ->
  group_of valueOld olds ->
  el ∈ texts s ->
  changed valueOld fields <> [] ->
  patchData (viewPatch factory_default) el valueOld k (VObj r fields) cs s
  = (Throw TypeError, s).
Proof.
  intros Hk Hg Hel Hch. unfold patchData. unfold is_group in Hk.
  destruct (classify k); try discriminate Hk;
    rewrite (bind_Ok_intro _ _ s fields s) by reflexivity.
  - apply (group_on_text el (fun k => setAttribute el ("aria-" ++ k)))
      with (olds := olds); [|assumption..].
    intros k0 v s0 Hs0. apply on_text. exact Hs0.
  - apply (group_on_text el (setDataset el)) with (olds := olds);
      [|assumption..].
    intros k0 v s0 Hs0. apply on_text. exact Hs0.
  - apply (group_on_text el (setStyle el)) with (olds := olds);
      [|assumption..].
    intros k0 v s0 Hs0. apply on_text. exact Hs0.
Qed.

(** ** Rendering *)

#[export] Instance same_rules_kept factory_default :
  Kept factory_default same_rules.
Proof.
  unfold same_rules. split.
  - reflexivity.
  - intros a b c H1 H2. congruence.
  - intros s r s' H. injection H as _ <-. reflexivity.
  - intros e _ s r s' H. injection H as _ <-. reflexivity.
  - intros v s r s' H. injection H as _ <-. reflexivity.
  - intros p s r s' H. injection H as _ <-. reflexivity.
  - intros m s r s' H. injection H as _ <-. reflexivity.
  - intros el tag key s r s' H.
    unfold removeDataProperty, createBlank, setProperty, request, bind, read,
      alloc, emit, set_cache, ret, throw in H. simpl in H.
    destruct (removeDataPropertyCache s !! tag) as [b|]; simpl in H;
      [|destruct (inherited tag); simpl in H].
    1, 2: destruct (refused s _); injection H as _ <-; reflexivity.
    destruct (refused s (CreateBlank _ _)); simpl in H;
      [injection H as _ <-; reflexivity|].
    destruct (refused s (SetProperty _ _ _)); injection H as _ <-;
      reflexivity.
Qed.

Lemma viewCreate_same_rules n st r st' :
  viewCreate n st = (r, st') -> refused st' = refused st.
Proof.
  exact (respects_viewCreate (factory_default := fun _ _ => VUndef)
           (R := same_rules) n st r st').
Qed.

Lemma viewPatch_same_rules factory_default nodeOld nodeNew st r st' :
  viewPatch factory_default nodeOld nodeNew st = (r, st') ->
  refused st' = refused st.
Proof. exact (respects_viewPatch (R := same_rules) nodeOld nodeNew st r st'). Qed.

Lemma welcomes_same N st st' :
  refused st' = refused st -> welcomes N st -> welcomes N st'.
Proof. intros Hr Hw e k He Hk. rewrite Hr. eapply Hw; eassumption. Qed.

#[export] Instance grows_kept factory_default : Kept factory_default grows.
Proof.
  split.
  - intros s. split; [lia|]. auto.
  - intros a b c [Hn1 Ht1] [Hn2 Ht2]. split; [lia|].
    intros h Hh. destruct (Ht2 h Hh) as [Hb|Hb]; [|right; lia].
    destruct (Ht1 h Hb) as [Ha|Ha]; [auto|right; lia].
  - intros s r s' H. injection H as _ <-. split; simpl; [lia|auto].
  - intros e _ s r s' H. injection H as _ <-. split; simpl; [lia|auto].
  - intros v s r s' H. injection H as _ <-. split; simpl; [lia|].
    intros h Hh. apply elem_of_union in Hh as [Hh|Hh]; [|auto].
    apply elem_of_singleton in Hh as ->. right. lia.
  - intros p s r s' H. injection H as _ <-. split; simpl; [lia|auto].
  - intros m s r s' H. injection H as _ <-. split; simpl; [lia|auto].
  - intros el tag key s r s' H.
    unfold removeDataProperty, createBlank, setProperty, request, bind, read,
      alloc, emit, set_cache, ret, throw in H. simpl in H.
    destruct (removeDataPropertyCache s !! tag) as [b|]; simpl in H;
      [|destruct (inherited tag); simpl in H].
    1, 2: destruct (refused s _); injection H as _ <-; split; simpl; auto;
      lia.
    destruct (refused s (CreateBlank _ _)); simpl in H;
      [injection H as _ <-; split; simpl; auto; lia|].
    destruct (refused s (SetProperty _ _ _)); injection H as _ <-;
      split; simpl; auto; lia.
Qed.

Section Rendered.
Context {N : string -> Prop}.

Lemma viewCreate_grows n st r st' :
  viewCreate n st = (r, st') -> grows st st'.
Proof. apply (respects_viewCreate (factory_default := fun _ _ => VUndef)). Qed.

Lemma viewPatch_grows factory_default nodeOld nodeNew st r st' :
  viewPatch factory_default nodeOld nodeNew st = (r, st') -> grows st st'.
Proof. apply respects_viewPatch. Qed.

Lemma grows_allocated st st' : grows st st' -> allocated st -> allocated st'.
Proof.
  intros [Hn Ht] Ha h Hh. destruct (Ht h Hh) as [Hold|Hnew]; [|lia].
  specialize (Ha h Hold). lia.
Qed.

Lemma grows_texts st st' h :
  grows st st' -> extends st st' -> h < next st ->
  (h ∈ texts st' <-> h ∈ texts st).
Proof.
  intros [_ Ht] (_ & _ & Hsub & _) Hh. split.
  - intros Hin. destruct (Ht h Hin) as [Hold|Hnew]; [exact Hold|lia].
  - intros Hin. apply Hsub. exact Hin.
Qed.

Lemma wired_handles st r : wired N st r -> Forall (fun h => h < next st) (handles r).
Proof.
  induction r as [n el cref cs IH] using NodeOld_children_ind.
  intros Hw. inversion Hw as [? ? ? ? _ Hel _ _ _ _ Hcs]; subst.
  simpl. constructor; [exact Hel|].
  apply Forall_flat_map. rewrite Forall_forall in IH, Hcs.
  apply Forall_forall. intros c Hc. apply IH; [exact Hc|]. apply Hcs. exact Hc.
Qed.

Lemma wired_NoDup st r : wired N st r -> NoDup (handles r).
Proof. intros Hw. inversion Hw; subst. simpl. assumption. Qed.

Lemma element_handles r : In (element r) (handles r).
Proof. destruct r. simpl. auto. Qed.

(** The invariant looks at the state through the nodes of the record
    only: the parents of the nodes below the root of the record, and the
    dispatchers and the text flags of all of them. *)
Lemma wired_frame st st' r :
  next st <= next st' ->
  (forall h, In h (flat_map handles (children r)) ->
             parentNode st' !! h = parentNode st !! h) ->
  (forall h, In h (handles r) ->
             MoonEvents st' !! h = MoonEvents st !! h /\
             (h ∈ texts st' <-> h ∈ texts st)) ->
  wired N st r -> wired N st' r.
Proof.
  intros Hn. induction r as [n el cref cs IH] using NodeOld_children_ind.
  intros Hp Hm Hw.
  inversion Hw as [? ? ? ? Hr Hel Htext Hev Hlinks Hnd Hcs]; subst.
  simpl in Hp, Hm.
  constructor.
  - exact Hr.
  - lia.
  - destruct (Hm el (or_introl eq_refl)) as [_ Ht]. rewrite Ht. exact Htext.
  - intros He. destruct (Hm el (or_introl eq_refl)) as [-> _]. auto.
  - rewrite Forall_forall in Hlinks. apply Forall_forall. intros c Hc.
    rewrite Hp; [apply Hlinks; exact Hc|].
    apply list_elem_of_In in Hc.
    apply in_flat_map. exists c. split; [exact Hc|apply element_handles].
  - exact Hnd.
  - rewrite Forall_forall in IH, Hcs. apply Forall_forall. intros c Hc.
    apply IH; [exact Hc| | |apply Hcs; exact Hc].
    + intros h Hh. apply Hp. apply in_flat_map. exists c.
      apply list_elem_of_In in Hc. split; [exact Hc|].
      destruct c as [nc ec crc ccs]. simpl in *. right. exact Hh.
    + intros h Hh. apply Hm. right. apply in_flat_map. exists c.
      apply list_elem_of_In in Hc. auto.
Qed.

End Rendered.
Section Nested.
Context {N : string -> Prop}.


Lemma nest_not_el el s cs c h :
  nest N el s cs -> In c cs -> In h (handles c) -> h <> el.
Proof.
  intros (_ & _ & _ & _ & Hnd & _) Hc Hh ->.
  apply NoDup_cons in Hnd as [Hel _]. apply Hel. apply list_elem_of_In.
  apply in_flat_map. exists c. auto.
Qed.

Lemma nest_same el s s' cs :
  next s <= next s' -> texts s' = texts s -> parentNode s' = parentNode s ->
  refused s' = refused s ->
  (forall h, h <> el -> MoonEvents s' !! h = MoonEvents s !! h) ->
  nest N el s cs -> nest N el s' cs.
Proof.
  intros Hn Ht Hp Hr Hm Hnest.
  pose proof Hnest as (Ha & Hel & Helt & Hlinks & Hnd & Hw & Hwel).
  unfold nest. rewrite Ht, Hp.
  split; [intros h Hh; rewrite Ht in Hh; specialize (Ha h Hh); lia|].
  split; [lia|]. split; [exact Helt|]. split; [exact Hlinks|].
  split; [exact Hnd|].
  split; [|eapply welcomes_same; eassumption].
  rewrite Forall_forall in Hw. apply Forall_forall. intros c Hc.
  apply (wired_frame s); [lia| | |apply Hw; exact Hc].
  - intros h _. rewrite Hp. reflexivity.
  - intros h Hh. rewrite Ht. split; [|tauto].
    apply Hm. apply list_elem_of_In in Hc.
    eapply nest_not_el; eassumption.
Qed.

Lemma nest_logging el d s cs : nest N el s cs -> nest N el (logging d s) cs.
Proof. apply nest_same; simpl; auto. Qed.

Lemma wired_grown s s' r :
  grows s s' -> extends s s' ->
  (forall h, In h (handles r) ->
             parentNode s' !! h = parentNode s !! h /\
             MoonEvents s' !! h = MoonEvents s !! h) ->
  wired N s r -> wired N s' r.
Proof.
  intros Hg He Hf Hw. pose proof (wired_handles _ _ Hw) as Hh.
  rewrite Forall_forall in Hh.
  apply (wired_frame s); [apply Hg| | |exact Hw].
  - intros h Hin. apply Hf. destruct r as [n el cref cs]. simpl in *.
    right. exact Hin.
  - intros h Hin. split; [apply Hf; exact Hin|].
    apply grows_texts; [exact Hg|exact He|].
    apply Hh. apply list_elem_of_In. exact Hin.
Qed.

Lemma nest_handles el s cs c h :
  nest N el s cs -> In c cs -> In h (handles c) -> h < next s.
Proof.
  intros (_ & _ & _ & _ & _ & Hw & _) Hc Hh.
  rewrite Forall_forall in Hw. apply list_elem_of_In in Hc.
  specialize (Hw c Hc). apply wired_handles in Hw.
  rewrite Forall_forall in Hw. apply Hw. apply list_elem_of_In. exact Hh.
Qed.

Lemma nest_grown el s s' cs :
  grows s s' -> extends s s' -> refused s' = refused s ->
  (forall h, h < next s ->
             parentNode s' !! h = parentNode s !! h /\
             MoonEvents s' !! h = MoonEvents s !! h) ->
  nest N el s cs -> nest N el s' cs.
Proof.
  intros Hg He Hr Hf Hnest.
  pose proof Hnest as (Ha & Hel & Helt & Hlinks & Hnd & Hw & Hwel).
  split; [eapply grows_allocated; eassumption|].
  split; [destruct Hg; lia|].
  split; [rewrite (grows_texts s s' el Hg He Hel); exact Helt|].
  split; [|split; [exact Hnd|split; [|eapply welcomes_same; eassumption]]].
  - rewrite Forall_forall in Hlinks. apply Forall_forall. intros c Hc.
    destruct (Hf (element c)) as [-> _]; [|apply Hlinks; exact Hc].
    apply list_elem_of_In in Hc.
    eapply nest_handles; [exact Hnest|exact Hc|apply element_handles].
  - rewrite Forall_forall in Hw. apply Forall_forall. intros c Hc.
    apply (wired_grown s); [exact Hg|exact He| |apply Hw; exact Hc].
    intros h Hh. apply Hf. apply list_elem_of_In in Hc.
    eapply nest_handles; eassumption.
Qed.

Lemma nest_append el s cs r :
  nest N el s cs -> wired N s r ->
  (forall h, In h (handles r) -> ~ In h (el :: flat_map handles cs)) ->
  exists s',
    appendChild el (element r) s = (Ok tt, s') /\
    nest N el s' (cs ++ [r]) /\
    MoonEvents s' = MoonEvents s /\ next s' = next s.
Proof.
  intros Hnest Hr Hnew.
  pose proof Hnest as (Ha & Hel & Helt & Hlinks & Hnd & Hw & Hwel).
  unfold appendChild, bind, read. simpl.
  destruct (decide (el ∈ texts s)) as [Hin|_]; [contradiction|].
  eexists. split; [reflexivity|]. simpl.
  split; [|split; reflexivity].
  assert (Hne : forall c h, In c cs -> In h (handles c) -> h <> element r).
  { intros c h Hc Hh ->. apply (Hnew (element r) (element_handles r)).
    right. apply in_flat_map. exists c. auto. }
  unfold nest. simpl.
  split; [exact Ha|]. split; [exact Hel|]. split; [exact Helt|].
  split; [|split; [|split; [|exact Hwel]]].
  - apply Forall_app. split.
    + rewrite Forall_forall in Hlinks. apply Forall_forall. intros c Hc.
      rewrite lookup_insert_ne; [apply Hlinks; exact Hc|].
      apply list_elem_of_In in Hc. intros Heq. symmetry in Heq. revert Heq.
      apply (Hne c); [exact Hc|apply element_handles].
    + constructor; [|constructor]. apply lookup_insert_eq.
  - rewrite flat_map_app. simpl. rewrite app_nil_r.
    apply NoDup_cons in Hnd as [Hel' Hnd].
    apply NoDup_cons. split.
    + rewrite elem_of_app. intros [Hin|Hin]; [exact (Hel' Hin)|].
      apply list_elem_of_In in Hin. apply (Hnew el Hin). left. reflexivity.
    + apply NoDup_app. split; [exact Hnd|].
      split; [|eapply wired_NoDup; exact Hr].
      intros h Hh Hh'. apply list_elem_of_In in Hh, Hh'.
      apply (Hnew h Hh'). right. exact Hh.
  - apply Forall_app. split.
    + rewrite Forall_forall in Hw. apply Forall_forall. intros c Hc.
      apply (wired_frame s); [simpl; lia| | |apply Hw; exact Hc].
      * intros h Hh. simpl. apply lookup_insert_ne.
        apply list_elem_of_In in Hc. intros Heq. symmetry in Heq. revert Heq.
        apply (Hne c); [exact Hc|].
        destruct c as [nc ec crc ccs]. simpl in *. right. exact Hh.
      * intros h _. simpl. tauto.
    + constructor; [|constructor].
      apply (wired_frame s); [simpl; lia| | |exact Hr].
      * intros h Hh. simpl. apply lookup_insert_ne.
        apply wired_NoDup in Hr. destruct r as [nr er crr rcs].
        simpl in *. apply NoDup_cons in Hr as [Her _].
        intros ->. apply Her. apply list_elem_of_In. exact Hh.
      * intros h _. simpl. tauto.
Qed.

End Nested.

Section CreateRenders.
Context {N : string -> Prop}.
Variable el : handle.

Lemma appendNew_renders items cs s :
  (forall c, In c items ->
     forall st, allocated st -> welcomes N st ->
       exists r st', viewCreate c st = (Ok r, st') /\
                     allocated st' /\ wired N st' r) ->
  nest N el s cs ->
  exists cs' s',
    appendNew viewCreate el items cs s = (Ok cs', s') /\
    nest N el s' cs' /\
    next s <= next s' /\
    forall h, h < next s ->
              parentNode s' !! h = parentNode s !! h /\
              MoonEvents s' !! h = MoonEvents s !! h.
Proof.
  unfold appendNew. revert cs s.
  induction items as [|c items IH]; intros cs s Hc Hnest.
  - exists cs, s. simpl. split; [reflexivity|]. split; [exact Hnest|].
    split; [lia|auto].
  - destruct (Hc c (or_introl eq_refl) s) as (r & s1 & Hr & Ha1 & Hw1);
      [apply Hnest|apply Hnest|].
    pose proof (viewCreate_created _ _ _ _ Hr) as Hcr.
    pose proof (created_handles _ _ _ _ Hcr) as Hh.
    pose proof (created_frame _ _ _ _ Hcr) as Hf1.
    pose proof (viewCreate_grows _ _ _ _ Hr) as Hg.
    pose proof (viewCreate_extends _ _ _ _ Hr) as He.
    pose proof (viewCreate_same_rules _ _ _ _ Hr) as Hsr.
    pose proof (nest_grown el s s1 cs Hg He Hsr Hf1 Hnest) as Hnest1.
    rewrite Forall_forall in Hh.
    destruct (nest_append el s1 cs r Hnest1 Hw1) as (s3 & Happ & Hnest3 & Hm3 & Hn3).
    { intros h Hin [<-|Hin'].
      - apply list_elem_of_In, Hh in Hin. destruct Hnest as (_ & Hel & _). lia.
      - apply in_flat_map in Hin' as (c0 & Hc0 & Hin').
        pose proof (nest_handles _ _ _ _ _ Hnest Hc0 Hin').
        apply list_elem_of_In, Hh in Hin. lia. }
    destruct (IH (cs ++ [r]) s3) as (cs' & s' & Hrest & Hnest' & Hn' & Hf');
      [intros c0 Hc0; apply Hc; right; exact Hc0|exact Hnest3|].
    exists cs', s'. split; [|split; [exact Hnest'|split]].
    + simpl. unfold bind at 1. unfold bind at 1. rewrite Hr.
      unfold bind at 1. rewrite Happ. simpl. exact Hrest.
    + destruct Hg. lia.
    + intros h Hlt. destruct Hg as [Hle _].
      destruct (Hf' h) as [-> ->]; [lia|].
      rewrite Hm3. destruct (Hf1 h Hlt) as [<- <-]. split; [|reflexivity].
      unfold appendChild, bind, read in Happ. simpl in Happ.
      destruct (decide (el ∈ texts s1)); [discriminate|].
      injection Happ as <-. simpl. apply lookup_insert_ne.
      pose proof (Hh (element r)) as Hlt'.
      specialize (Hlt' ltac:(apply list_elem_of_In, element_handles)).
      lia.
Qed.

Lemma for_each_on_element {A} (call : A -> effect) (l : list A) s :
  el ∉ texts s ->
  accepted s (map call l) ->
  for_each (fun a => element_only el ;; request (call a)) l s
  = (Ok tt, logging (map call l) s).
Proof.
  intros Hel Hacc.
  assert (Hmap : flat_map (fun a => [call a]) l = map call l)
    by (clear Hacc; induction l; simpl; congruence).
  rewrite <- Hmap. apply for_each_logging.
  intros a s' Hin Hs' Hr'. apply on_element_request.
  - rewrite Hs'. exact Hel.
  - rewrite Hr'. unfold accepted in Hacc.
    rewrite Forall_map, Forall_forall in Hacc. apply Hacc.
    apply list_elem_of_In. exact Hin.
Qed.

(** The calls on welcome names are accepted. *)
Lemma welcomes_accepted {A} (call : A -> effect) (name : A -> string)
      (l : list A) s :
  welcomes N s ->
  (forall a, mentions (call a) = Some (name a)) ->
  Forall N (map name l) ->
  accepted s (map call l).
Proof.
  intros Hw Hm Hn. unfold accepted. rewrite Forall_map in Hn |- *.
  eapply Forall_impl; [exact Hn|]. intros a Ha. simpl in Ha.
  eapply Hw; [apply Hm|exact Ha].
Qed.

Lemma setProperty_accepted k v s :
  welcomes N s -> N k ->
  setProperty el k v s = (Ok tt, logging [SetProperty el k v] s).
Proof.
  intros Hw Hk. unfold setProperty.
  rewrite request_accepted by (eapply Hw; [reflexivity|exact Hk]).
  reflexivity.
Qed.

Lemma createData_renders k v cs s :
  (is_group k = true -> exists a fields, v = VObj a fields) ->
  (k = "children" ->
   exists a items,
     v = VArr a items /\
     forall c, In c items ->
       forall st, allocated st -> welcomes N st ->
         exists r st', viewCreate c st = (Ok r, st') /\
                       allocated st' /\ wired N st' r) ->
  Forall N (names_of k v) ->
  nest N el s cs ->
  exists cs' s',
    createData viewCreate el k v cs s = (Ok cs', s') /\
    nest N el s' cs' /\
    (is_Some (MoonEvents s !! el) \/ is_event k = true ->
     is_Some (MoonEvents s' !! el)).
Proof.
  intros Hgroup Hchildren Hnames Hnest.
  pose proof Hnest as (_ & Hel & Helt & _ & _ & _ & Hwel).
  unfold createData. unfold is_group in Hgroup.
  unfold names_of in Hnames.
  destruct (classify k) eqn:Hclass.
  - (* event *)
    eexists cs, _. split; [reflexivity|]. simpl. split.
    + eapply nest_same; [| | | | |exact Hnest]; try reflexivity.
      intros h Hne. simpl. apply lookup_insert_ne. congruence.
    + intros _. rewrite lookup_insert_eq. eauto.
  - destruct (Hgroup eq_refl) as (a & fields & ->).
    rewrite (bind_Ok_intro _ _ s fields s) by reflexivity.
    rewrite (bind_Ok_intro _ _ _ _ _
               (for_each_on_element
                  (fun kv => SetAttribute el ("aria-" ++ kv.1) kv.2)
                  fields s Helt
                  (welcomes_accepted
                     (fun kv => SetAttribute el ("aria-" ++ kv.1) kv.2)
                     (fun kv => "aria-" ++ kv.1)%string
                     fields s Hwel (fun _ => eq_refl) Hnames))).
    eexists cs, _. split; [reflexivity|].
    split; [apply nest_logging; exact Hnest|].
    simpl. intros [H|H]; [exact H|].
    apply classify_event in H. congruence.
  - destruct (Hgroup eq_refl) as (a & fields & ->).
    rewrite (bind_Ok_intro _ _ s fields s) by reflexivity.
    rewrite (bind_Ok_intro _ _ _ _ _
               (for_each_on_element (fun kv => SetDataset el kv.1 kv.2)
                  fields s Helt
                  (welcomes_accepted (fun kv => SetDataset el kv.1 kv.2)
                     fst fields s Hwel
                     (fun _ => eq_refl) Hnames))).
    eexists cs, _. split; [reflexivity|].
    split; [apply nest_logging; exact Hnest|].
    simpl. intros [H|H]; [exact H|].
    apply classify_event in H. congruence.
  - destruct (Hgroup eq_refl) as (a & fields & ->).
    rewrite (bind_Ok_intro _ _ s fields s) by reflexivity.
    apply Forall_cons in Hnames as [_ Hnames].
    rewrite (bind_Ok_intro _ _ _ _ _
               (for_each_on_element (fun kv => SetStyle el kv.1 kv.2)
                  fields s Helt
                  (welcomes_accepted (fun kv => SetStyle el kv.1 kv.2)
                     fst fields s Hwel
                     (fun _ => eq_refl) Hnames))).
    eexists cs, _. split; [reflexivity|].
    split; [apply nest_logging; exact Hnest|].
    simpl. intros [H|H]; [exact H|].
    apply classify_event in H. congruence.
  - (* focus *)
    destruct (truthy v).
    + unfold focus. rewrite (bind_Ok_intro _ _ _ _ _ (on_element el _ s Helt)).
      eexists cs, _. split; [reflexivity|].
      split; [apply nest_logging; exact Hnest|].
      simpl. intros [H|H]; [exact H|].
      apply classify_event in H. congruence.
    + exists cs, s. split; [reflexivity|]. split; [exact Hnest|].
      intros [H|H]; [exact H|]. apply classify_event in H. congruence.
  - apply Forall_cons in Hnames as [Hname _].
    rewrite (bind_Ok_intro _ _ _ _ _ (setProperty_accepted _ v s Hwel Hname)).
    eexists cs, _. split; [reflexivity|].
    split; [apply (nest_logging el [_]); exact Hnest|].
    simpl. intros [H|H]; [exact H|].
    apply classify_event in H. congruence.
  - apply Forall_cons in Hnames as [Hname _].
    rewrite (bind_Ok_intro _ _ _ _ _ (setProperty_accepted _ v s Hwel Hname)).
    eexists cs, _. split; [reflexivity|].
    split; [apply (nest_logging el [_]); exact Hnest|].
    simpl. intros [H|H]; [exact H|].
    apply classify_event in H. congruence.
  - (* children *)
    destruct (Hchildren (classify_children _ Hclass)) as (a & items & -> & Hc).
    destruct (appendNew_renders items cs s Hc Hnest)
      as (cs' & s' & Hrun & Hnest' & _ & Hf).
    exists cs', s'. split; [exact Hrun|]. split; [exact Hnest'|].
    destruct (Hf el Hel) as [_ ->].
    intros [H|H]; [exact H|]. apply classify_event in H. congruence.
  - apply Forall_cons in Hnames as [Hname _].
    rewrite (bind_Ok_intro _ _ _ _ _ (setProperty_accepted _ v s Hwel Hname)).
    eexists cs, _. split; [reflexivity|].
    split; [apply (nest_logging el [_]); exact Hnest|].
    simpl. intros [H|H]; [exact H|].
    apply classify_event in H. congruence.
Qed.

Lemma create_loop_renders l cs s :
  (forall k v, In (k, v) l -> is_group k = true ->
               exists a fields, v = VObj a fields) ->
  (forall v, In ("children", v) l ->
     exists a items,
       v = VArr a items /\
       forall c, In c items ->
         forall st, allocated st -> welcomes N st ->
           exists r st', viewCreate c st = (Ok r, st') /\
                         allocated st' /\ wired N st' r) ->
  (forall k v, In (k, v) l -> Forall N (names_of k v)) ->
  nest N el s cs ->
  exists cs' s',
    fold_m (fun cs kv => createData viewCreate el kv.1 kv.2 cs) l cs s
    = (Ok cs', s') /\
    nest N el s' cs' /\
    (is_Some (MoonEvents s !! el) \/
     (exists k v, In (k, v) l /\ is_event k = true) ->
     is_Some (MoonEvents s' !! el)).
Proof.
  revert cs s. induction l as [|[k v] l IH]; intros cs s Hg Hc Hn Hnest.
  - exists cs, s. split; [reflexivity|]. split; [exact Hnest|].
    intros [H|(k & v & [] & _)]. exact H.
  - destruct (createData_renders k v cs s) as (cs1 & s1 & H1 & Hnest1 & Hev1).
    { apply (Hg k v). left. reflexivity. }
    { intros ->. apply Hc. left. reflexivity. }
    { apply (Hn k v). left. reflexivity. }
    { exact Hnest. }
    destruct (IH cs1 s1) as (cs' & s' & Hrest & Hnest' & Hev').
    { intros k0 v0 Hin. apply (Hg k0 v0). right. exact Hin. }
    { intros v0 Hin. apply Hc. right. exact Hin. }
    { intros k0 v0 Hin. apply (Hn k0 v0). right. exact Hin. }
    { exact Hnest1. }
    exists cs', s'. split; [|split; [exact Hnest'|]].
    + simpl. rewrite (bind_Ok_intro _ _ _ _ _ H1). exact Hrest.
    + intros [H|(k0 & v0 & [Heq|Hin] & Hk0)].
      * apply Hev'. left. apply Hev1. left. exact H.
      * injection Heq as <- <-. apply Hev'. left. apply Hev1. right. exact Hk0.
      * apply Hev'. right. eauto.
Qed.

End CreateRenders.

Lemma viewCreate_renders_lemma {N : string -> Prop} n :
  forall st, renderable N n -> allocated st -> welcomes N st ->
    exists r st', viewCreate n st = (Ok r, st') /\ allocated st' /\ wired N st' r.
Proof.
  induction n as [ref nm nodeData IH] using NodeNew_children_ind.
  intros st Hr Ha Hwel. rewrite viewCreate_eq. simpl name. simpl data.
  rewrite (bind_Ok_intro _ _ st (next st) (alloc st).2) by reflexivity.
  inversion Hr as [? ? Hplain Hv|? ? ? Hnm Hev Hgroup Hchildren Hv]; subst.
  - simpl. eexists _, _. split; [reflexivity|]. simpl. split.
    + intros h Hh. simpl in *. apply elem_of_union in Hh as [Hh|Hh].
      * apply elem_of_singleton in Hh as ->. lia.
      * specialize (Ha h Hh). lia.
    + constructor; simpl.
      * exact Hr.
      * lia.
      * split; [reflexivity|]. intros _. apply elem_of_union_l.
        apply elem_of_singleton. reflexivity.
      * intros (k & v & Hin & Hk). apply Hplain in Hin.
        unfold is_plain in Hin. apply classify_event in Hk.
        rewrite Hk in Hin. discriminate Hin.
      * constructor.
      * apply NoDup_cons. split; [apply not_elem_of_nil|apply NoDup_nil_2].
      * constructor.
  - replace (nm =? "text")%string with false
      by (symmetry; apply String.eqb_neq; exact Hnm).
    destruct Hv as [Hname Hnames]. simpl in Hname, Hnames.
    set (el := S (next st)).
    set (s2 := logging [CreateElement el nm]
                 (mkState (S (S (next st))) (texts st) (parentNode st)
                          (MoonEvents st) (removeDataPropertyCache st)
                          (log st) (refused st))).
    assert (Hs2 : createElement nm (alloc st).2 = (Ok el, s2)).
    { apply createElement_accepted. simpl.
      eapply Hwel; [reflexivity|exact Hname]. }
    rewrite (bind_Ok_intro _ _ _ _ _ Hs2).
    assert (Hnest : nest N el s2 []).
    { split; [intros h Hh; specialize (Ha h Hh); simpl; lia|].
      split; [simpl; lia|].
      split; [intros Hh; specialize (Ha _ Hh); subst el; lia|].
      split; [constructor|].
      split; [|split; [constructor|exact Hwel]].
      apply NoDup_cons. split; [apply not_elem_of_nil|apply NoDup_nil_2]. }
    destruct (create_loop_renders (N := N) el nodeData [] s2)
      as (cs & s3 & Hloop & Hnest3 & Hev3).
    { exact Hgroup. }
    { intros v Hin. destruct (Hchildren v Hin) as (a & items & -> & Hitems).
      exists a, items. split; [reflexivity|].
      intros c Hc st0 Ha0 Hw0.
      eapply IH; [exact Hin|exact Hc| |exact Ha0|exact Hw0].
      rewrite Forall_forall in Hitems. apply Hitems.
      apply list_elem_of_In. exact Hc. }
    { exact Hnames. }
    { exact Hnest. }
    rewrite (bind_Ok_intro _ _ _ _ _ Hloop).
    exists (mkNodeOld (mkNodeNew ref nm nodeData) el (next st) cs), s3.
    split; [reflexivity|].
    destruct Hnest3 as (Ha3 & Hel3 & Helt3 & Hlinks3 & Hnd3 & Hw3 & _).
    split; [exact Ha3|].
    constructor; simpl; try assumption.
    + split; [contradiction|congruence].
    + intros Hex. apply Hev3. right. exact Hex.
Qed.

(** ** Patching in step with the DOM *)

Section Patched.
Context {N : string -> Prop}.

Lemma nest_pop el s cs c :
  nest N el s (cs ++ [c]) ->
  exists s',
    removeChild el (element c) s = (Ok tt, s') /\
    nest N el s' cs /\
    next s' = next s /\ texts s' = texts s /\
    MoonEvents s' = MoonEvents s /\
    parentNode s' !! el = parentNode s !! el.
Proof.
  intros Hnest.
  pose proof Hnest as (Ha & Hel & Helt & Hlinks & Hnd & Hw & Hwel).
  apply Forall_app in Hlinks as [Hlinks Hc].
  apply Forall_cons in Hc as [Hc _].
  apply Forall_app in Hw as [Hw _].
  rewrite flat_map_app in Hnd. simpl in Hnd. rewrite app_nil_r in Hnd.
  apply NoDup_cons in Hnd as [Hel' Hnd].
  apply NoDup_app in Hnd as (Hnd1 & Hdisj & Hnd2).
  rewrite elem_of_app in Hel'.
  unfold removeChild, bind, read. simpl.
  destruct (decide (parentNode s !! element c = Some el)) as [_|Hno];
    [|contradiction].
  eexists. split; [reflexivity|]. simpl.
  assert (Hne : forall c0 h, In c0 cs -> In h (handles c0) -> h <> element c).
  { intros c0 h Hc0 Hh ->. apply (Hdisj (element c)).
    - apply list_elem_of_In. apply in_flat_map. exists c0. auto.
    - apply list_elem_of_In. apply element_handles. }
  split; [|repeat split; try reflexivity].
  - unfold nest. simpl.
    split; [exact Ha|]. split; [exact Hel|]. split; [exact Helt|].
    split; [|split; [|split; [|exact Hwel]]].
    + rewrite Forall_forall in Hlinks. apply Forall_forall. intros c0 Hc0.
      rewrite lookup_delete_ne; [apply Hlinks; exact Hc0|].
      apply list_elem_of_In in Hc0. intros Heq. symmetry in Heq. revert Heq.
      apply (Hne c0); [exact Hc0|apply element_handles].
    + apply NoDup_cons. split; [tauto|exact Hnd1].
    + rewrite Forall_forall in Hw. apply Forall_forall. intros c0 Hc0.
      apply (wired_frame s); [simpl; lia| | |apply Hw; exact Hc0].
      * intros h Hh. simpl. apply lookup_delete_ne.
        apply list_elem_of_In in Hc0. intros Heq. symmetry in Heq. revert Heq.
        apply (Hne c0); [exact Hc0|].
        destruct c0 as [nc ec crc ccs]. simpl in *. right. exact Hh.
      * intros h _. simpl. tauto.
  - apply lookup_delete_ne. intros Heq. apply Hel'. right. rewrite <- Heq.
    apply list_elem_of_In. apply element_handles.
Qed.

Lemma popChildren_renders el n cs s :
  n <= length cs ->
  nest N el s cs ->
  exists cs' s',
    popChildren el n cs s = (Ok cs', s') /\
    nest N el s' cs' /\
    length cs' = length cs - n /\
    next s' = next s /\ texts s' = texts s /\
    MoonEvents s' = MoonEvents s /\
    parentNode s' !! el = parentNode s !! el.
Proof.
  revert cs s. induction n as [|n IH]; intros cs s Hn Hnest.
  - exists cs, s. simpl. split; [reflexivity|]. split; [exact Hnest|].
    split; [lia|]. auto.
  - destruct (last cs) as [c|] eqn:Hlast.
    + apply last_Some in Hlast as [l ->].
      destruct (nest_pop el s l c Hnest)
        as (s1 & Hrm & Hnest1 & Hn1 & Ht1 & Hm1 & Hp1).
      rewrite length_app in Hn. simpl in Hn.
      destruct (IH l s1) as (cs' & s' & Hrest & Hnest' & Hlen & Hn' & Ht' & Hm' & Hp');
        [lia|exact Hnest1|].
      exists cs', s'. split.
      * simpl. rewrite last_snoc.
        rewrite (bind_Ok_intro _ _ _ _ _ Hrm).
        rewrite removelast_last. exact Hrest.
      * split; [exact Hnest'|]. rewrite length_app. simpl.
        repeat split; try congruence. lia.
    + apply last_None in Hlast. subst cs. simpl in Hn. lia.
Qed.

Lemma nest_replace el s s' pre c post c' :
  nest N el s (pre ++ c :: post) ->
  grows s s' -> extends s s' -> refused s' = refused s ->
  (forall h, ~ In h (handles c) -> h < next s ->
             parentNode s' !! h = parentNode s !! h /\
             MoonEvents s' !! h = MoonEvents s !! h) ->
  Forall (fun h => In h (handles c) \/ next s <= h) (handles c') ->
  allocated s' -> wired N s' c' ->
  parentNode s' !! element c' = Some el ->
  nest N el s' (pre ++ c' :: post).
Proof.
  intros Hnest Hg He Hsr Hf Hreach Ha' Hw' Hlink'.
  pose proof Hnest as (Ha & Hel & Helt & Hlinks & Hnd & Hw & Hwel).
  assert (Hlt : forall c0 h, In c0 (pre ++ c :: post) ->
                             In h (handles c0) -> h < next s).
  { intros c0 h Hc0 Hh. eapply nest_handles; eassumption. }
  rewrite flat_map_app in Hnd. simpl in Hnd.
  apply NoDup_cons in Hnd as [Hel' Hnd].
  rewrite !elem_of_app in Hel'.
  apply NoDup_app in Hnd as (Hnd1 & Hd1 & Hnd2).
  apply NoDup_app in Hnd2 as (Hndc & Hd2 & Hnd3).
  assert (Hout : forall c0 h, In c0 pre \/ In c0 post ->
                              In h (handles c0) -> ~ In h (handles c)).
  { intros c0 h [Hc0|Hc0] Hh Hhc.
    - apply (Hd1 h).
      + apply list_elem_of_In, in_flat_map. exists c0. auto.
      + apply elem_of_app. left. apply list_elem_of_In. exact Hhc.
    - apply (Hd2 h).
      + apply list_elem_of_In. exact Hhc.
      + apply list_elem_of_In, in_flat_map. exists c0. auto. }
  assert (Hin : forall c0, In c0 pre \/ In c0 post -> In c0 (pre ++ c :: post)).
  { intros c0 [H|H]; apply in_or_app; [left|right; right]; exact H. }
  assert (Hkeep : forall c0, In c0 pre \/ In c0 post ->
                             parentNode s' !! element c0 = Some el /\
                             wired N s' c0).
  { intros c0 Hc0. rewrite Forall_forall in Hlinks, Hw.
    pose proof (Hin c0 Hc0) as Hc0'. apply list_elem_of_In in Hc0'.
    split.
    - destruct (Hf (element c0)) as [-> _]; [| |apply Hlinks; exact Hc0'].
      + apply (Hout c0); [exact Hc0|apply element_handles].
      + apply (Hlt c0); [apply Hin; exact Hc0|apply element_handles].
    - apply (wired_grown s); [exact Hg|exact He| |apply Hw; exact Hc0'].
      intros h Hh. apply Hf; [apply (Hout c0); assumption|].
      apply (Hlt c0); [apply Hin; exact Hc0|exact Hh]. }
  rewrite Forall_forall in Hreach.
  assert (Hnew : forall h, In h (handles c') ->
                           In h (handles c) \/ next s <= h).
  { intros h Hh. apply Hreach. apply list_elem_of_In. exact Hh. }
  unfold nest.
  split; [exact Ha'|]. split; [destruct Hg; lia|].
  split; [rewrite (grows_texts s s' el Hg He Hel); exact Helt|].
  split; [|split; [|split; [|exact (welcomes_same N _ _ Hsr Hwel)]]].
  - apply Forall_app. split; [|constructor; [exact Hlink'|]];
      apply Forall_forall; intros c0 Hc0; apply list_elem_of_In in Hc0;
      apply Hkeep; auto.
  - rewrite flat_map_app. simpl.
    apply NoDup_cons. split.
    + rewrite !elem_of_app. intros [Hin'|[Hin'|Hin']]; [tauto| |tauto].
      apply list_elem_of_In in Hin'. destruct (Hnew el Hin') as [Hc|Hc];
        [|lia]. apply Hel'. right. left. apply list_elem_of_In. exact Hc.
    + apply NoDup_app. split; [exact Hnd1|]. split.
      * intros h Hh Hh'. apply elem_of_app in Hh' as [Hh'|Hh'].
        -- apply list_elem_of_In in Hh'. destruct (Hnew h Hh') as [Hc|Hc].
           ++ apply (Hd1 h Hh). apply elem_of_app. left.
              apply list_elem_of_In. exact Hc.
           ++ apply list_elem_of_In, in_flat_map in Hh as (c0 & Hc0 & Hh).
              pose proof (Hlt c0 h (Hin c0 (or_introl Hc0)) Hh). lia.
        -- apply (Hd1 h Hh). apply elem_of_app. right. exact Hh'.
      * apply NoDup_app. split; [eapply wired_NoDup; exact Hw'|].
        split; [|exact Hnd3].
        intros h Hh Hh'. apply list_elem_of_In in Hh.
        destruct (Hnew h Hh) as [Hc|Hc].
        -- apply (Hd2 h); [apply list_elem_of_In; exact Hc|exact Hh'].
        -- apply list_elem_of_In, in_flat_map in Hh' as (c0 & Hc0 & Hh').
           pose proof (Hlt c0 h (Hin c0 (or_intror Hc0)) Hh'). lia.
  - apply Forall_app. split; [|constructor; [exact Hw'|]];
      apply Forall_forall; intros c0 Hc0; apply list_elem_of_In in Hc0;
      apply Hkeep; auto.
Qed.

End Patched.

Section PatchRenders.
Context {N : string -> Prop}.
Variable H : gmap nat (list NodeNew).
Variable factory_default : string -> string -> value.
Variable el : handle.

Lemma patchPrefix_renders valueOld items k i cs s :
  k = 0 \/ (exists a olds, valueOld = VArr a olds) ->
  (forall childNew, In childNew items ->
     shaped H childNew /\ patches_render N H factory_default childNew) ->
  i + k <= length cs ->
  nest N el s cs ->
  Forall (tracked H s) cs ->
  exists cs' s',
    patchPrefix (viewPatch factory_default) valueOld k i items cs s
    = (Ok cs', s') /\
    nest N el s' cs' /\ length cs' = length cs /\
    next s <= next s' /\
    parentNode s' !! el = parentNode s !! el /\
    MoonEvents s' !! el = MoonEvents s !! el.
Proof.
  intros Hold. revert k i cs s Hold.
  induction items as [|childNew items IH]; intros k i cs s Hold Hp Hk Hnest Ht.
  { exists cs, s. destruct k; simpl; auto 10. }
  destruct k as [|k].
  { exists cs, s. simpl. auto 10. }
  destruct Hold as [Hold|(a & olds & ->)]; [discriminate Hold|].
  simpl patchPrefix.
  assert (Hd : exists b, differs_at (VArr a olds) i childNew s = (Ok b, s)).
  { unfold differs_at. destruct (olds !! i); eexists; reflexivity. }
  destruct Hd as [b Hd]. rewrite (bind_Ok_intro _ _ _ _ _ Hd).
  assert (Hstep : exists cs1 s1,
             (if b then
                match cs !! i with
                | Some c =>
                    let* c' := viewPatch factory_default c childNew in
                    ret (<[i := c']> cs)
                | None => throw TypeError
                end
              else ret cs) s = (Ok cs1, s1) /\
             nest N el s1 cs1 /\ length cs1 = length cs /\
             next s <= next s1 /\
             parentNode s1 !! el = parentNode s !! el /\
             MoonEvents s1 !! el = MoonEvents s !! el /\
             Forall (tracked H s1) cs1).
  { destruct b; [|exists cs, s; auto 10].
    destruct (lookup_lt_is_Some_2 cs i ltac:(lia)) as [c Hc].
    rewrite Hc.
    pose proof Hnest as (Ha & Hel & Helt & Hlinks & Hnd & Hw & Hwel).
    destruct (Hp childNew (or_introl eq_refl)) as [Hsh Hpatch].
    destruct (Hpatch c s) as (c' & s1 & Hrun & Ha1 & Hw1 & Hp1).
    { exact Ha. }
    { exact Hwel. }
    { rewrite Forall_lookup in Ht. eapply Ht. exact Hc. }
    { rewrite Forall_lookup in Hw. eapply Hw. exact Hc. }
    { rewrite Forall_lookup in Hlinks. rewrite (Hlinks _ _ Hc). eauto. }
    exists (<[i := c']> cs), s1.
    rewrite (bind_Ok_intro _ _ _ _ _ Hrun).
    split; [reflexivity|].
    pose proof (viewPatch_grows _ _ _ _ _ _ Hrun) as Hg.
    pose proof (viewPatch_extends _ _ _ _ _ _ Hrun) as He.
    pose proof (viewPatch_same_rules _ _ _ _ _ _ Hrun) as Hsr.
    pose proof (viewPatch_patched _ _ _ _ _ _ Hrun) as (_ & (Hframe & _) & Hreach).
    assert (Hf : forall h, ~ In h (handles c) -> h < next s ->
                           parentNode s1 !! h = parentNode s !! h /\
                           MoonEvents s1 !! h = MoonEvents s !! h).
    { intros h Hout Hlt. apply Hframe. intros [Hin|Hge]; [auto|lia]. }
    assert (Hcs : cs = take i cs ++ c :: drop (S i) cs)
      by (symmetry; apply take_drop_middle; exact Hc).
    assert (Helc : ~ In el (handles c)).
    { intros Hin. eapply nest_not_el; [exact Hnest| |exact Hin|reflexivity].
      eapply list_elem_of_lookup_2 in Hc. apply list_elem_of_In. exact Hc. }
    split; [|split; [apply length_insert|split; [destruct Hg; lia|]]].
    - rewrite insert_take_drop by (apply lookup_lt_is_Some; eauto).
      apply (nest_replace el s s1 (take i cs) c (drop (S i) cs) c');
        try assumption.
      + rewrite <- Hcs. exact Hnest.
      + rewrite Hp1. rewrite Forall_lookup in Hlinks. eapply Hlinks. exact Hc.
    - destruct (Hf el Helc Hel) as [-> ->]. split; [reflexivity|].
      split; [reflexivity|].
      apply Forall_insert.
      + eapply Forall_tracked_mono; [exact He|exact Ht].
      + eapply viewPatch_tracked; [| |exact Hrun]; [|exact Hsh].
        rewrite Forall_lookup in Ht. eapply Ht. exact Hc. }
  destruct Hstep as (cs1 & s1 & Hrun1 & Hnest1 & Hlen1 & Hn1 & Hp1 & Hm1 & Ht1).
  rewrite (bind_Ok_intro _ _ _ _ _ Hrun1).
  destruct (IH k (S i) cs1 s1) as (cs' & s' & Hrest & Hnest' & Hlen' & Hn' & Hp' & Hm').
  { destruct k; [left; reflexivity|right; eauto]. }
  { intros c0 Hc0. apply Hp. right. exact Hc0. }
  { lia. }
  { exact Hnest1. }
  { exact Ht1. }
  exists cs', s'. split; [exact Hrest|]. split; [exact Hnest'|].
  split; [lia|]. split; [lia|]. split; congruence.
Qed.

Lemma patchChildren_renders valueOld items cs s :
  cs = [] \/ (exists a olds, valueOld = VArr a olds) ->
  (forall childNew, In childNew items ->
     shaped H childNew /\ renderable N childNew /\
     patches_render N H factory_default childNew) ->
  nest N el s cs ->
  Forall (tracked H s) cs ->
  exists cs' s',
    patchChildren (viewPatch factory_default) valueOld el items cs s
    = (Ok cs', s') /\
    nest N el s' cs' /\
    next s <= next s' /\
    parentNode s' !! el = parentNode s !! el /\
    MoonEvents s' !! el = MoonEvents s !! el.
Proof.
  intros Hold Hp Hnest Ht. unfold patchChildren.
  assert (Hp' : forall childNew, In childNew items ->
                  shaped H childNew /\
                  patches_render N H factory_default childNew).
  { intros c Hc. destruct (Hp c Hc) as (? & _ & ?). auto. }
  assert (Hel : el < next s) by apply Hnest.
  destruct (Nat.eqb_spec (length cs) (length items)) as [Heq|Hne].
  - destruct (patchPrefix_renders valueOld items (length cs) 0 cs s)
      as (cs' & s' & Hrun & Hnest' & _ & Hn & Hpar & Hm); try assumption.
    { destruct Hold as [->|Hold]; [left; reflexivity|right; exact Hold]. }
    { lia. }
    exists cs', s'. auto 10.
  - destruct (Nat.ltb_spec (length items) (length cs)) as [Hlt|Hge].
    + destruct (patchPrefix_renders valueOld items (length items) 0 cs s)
        as (cs1 & s1 & Hrun & Hnest1 & Hlen & Hn & Hpar & Hm);
        try assumption.
      { destruct Hold as [->|Hold]; [simpl in Hlt; lia|right; exact Hold]. }
      { lia. }
      destruct (popChildren_renders (N := N) el (length cs - length items) cs1 s1)
        as (cs' & s' & Hpop & Hnest' & _ & Hn' & _ & Hm' & Hpar');
        [lia|exact Hnest1|].
      exists cs', s'. rewrite (bind_Ok_intro _ _ _ _ _ Hrun).
      split; [exact Hpop|]. split; [exact Hnest'|]. split; [lia|].
      split; [congruence|]. rewrite Hm'. exact Hm.
    + destruct (patchPrefix_renders valueOld items (length cs) 0 cs s)
        as (cs1 & s1 & Hrun & Hnest1 & Hlen & Hn & Hpar & Hm);
        try assumption.
      { destruct Hold as [->|Hold]; [left; reflexivity|right; exact Hold]. }
      { lia. }
      destruct (appendNew_renders (N := N) el (skipn (length cs) items) cs1 s1)
        as (cs' & s' & Happ & Hnest' & Hn' & Hf'); [|exact Hnest1|].
      { intros c Hc st Hst Hwst.
        apply viewCreate_renders_lemma; [|exact Hst|exact Hwst].
        apply Hp. apply list_elem_of_In in Hc. apply list_elem_of_In.
        eapply subseteq_drop. exact Hc. }
      exists cs', s'. rewrite (bind_Ok_intro _ _ _ _ _ Hrun).
      split; [exact Happ|]. split; [exact Hnest'|]. split; [lia|].
      destruct (Hf' el) as [-> ->]; [lia|]. auto.
Qed.

Lemma removeDataProperty_renders tag key s :
  welcomes N s -> N tag -> N key ->
  exists s',
    removeDataProperty factory_default el tag key s = (Ok tt, s') /\
    next s <= next s' /\ texts s' = texts s /\
    parentNode s' = parentNode s /\ MoonEvents s' = MoonEvents s /\
    refused s' = refused s.
Proof.
  intros Hwel Htag Hkey.
  assert (Hblank : forall h st, refused st = refused s ->
                                refused st (CreateBlank h tag) = None).
  { intros h st ->. eapply Hwel; [reflexivity|exact Htag]. }
  assert (Hset : forall v st, refused st = refused s ->
                              refused st (SetProperty el key v) = None).
  { intros v st ->. eapply Hwel; [reflexivity|exact Hkey]. }
  unfold removeDataProperty, createBlank, setProperty, request, bind, read,
    alloc, emit, set_cache, ret, throw. simpl.
  destruct (removeDataPropertyCache s !! tag); simpl.
  - rewrite Hset by reflexivity.
    eexists; (split; [reflexivity|]); simpl; auto.
  - destruct (inherited tag); simpl.
    + rewrite Hset by reflexivity.
      eexists; (split; [reflexivity|]); simpl; auto.
    + rewrite Hblank by reflexivity. simpl.
      rewrite Hset by reflexivity.
      eexists; (split; [reflexivity|]); simpl; auto 10.
Qed.

Lemma Forall_map_filter {A} (f : A -> string) (p : A -> bool) l :
  Forall N (map f l) -> Forall N (map f (List.filter p l)).
Proof.
  induction l as [|a l IH]; simpl; intros Hl; [constructor|].
  apply Forall_cons in Hl as [Ha Hl].
  destruct (p a); simpl; [constructor|]; auto.
Qed.

Local Ltac no_event Hclass :=
  let H := fresh in
  intros [H|H]; [exact H|apply classify_event in H; congruence].

Lemma patchData_renders valueOld k v cs s :
  (is_group k = true ->
   (exists olds, group_of valueOld olds) /\ exists a fields, v = VObj a fields) ->
  (k = "children" ->
   (cs = [] \/ exists a olds, valueOld = VArr a olds) /\
   Forall (tracked H s) cs /\
   exists a items,
     v = VArr a items /\
     forall childNew, In childNew items ->
       shaped H childNew /\ renderable N childNew /\
       patches_render N H factory_default childNew) ->
  Forall N (names_of k v) ->
  (classify k = KStyle ->
   forall olds, group_of valueOld olds -> Forall N (map fst olds)) ->
  nest N el s cs ->
  exists cs' s',
    patchData (viewPatch factory_default) el valueOld k v cs s = (Ok cs', s') /\
    nest N el s' cs' /\
    next s <= next s' /\
    parentNode s' !! el = parentNode s !! el /\
    (is_Some (MoonEvents s !! el) \/ is_event k = true ->
     is_Some (MoonEvents s' !! el)).
Proof.
  intros Hgroup Hchildren Hnames Holds Hnest.
  pose proof Hnest as (_ & Hel & Helt & _ & _ & _ & Hwel).
  unfold is_group in Hgroup. unfold names_of in Hnames.
  destruct (classify k) eqn:Hclass.
  - (* event *)
    unfold patchData. rewrite Hclass.
    unfold bind, read, setMoonEvent, set_MoonEvents, addEventListener, emit,
      ret. simpl.
    destruct (decide (is_Some (default ∅ (MoonEvents s !! el) !! k)));
      eexists cs, _; (split; [reflexivity|]); simpl;
      (split; [eapply nest_same; [| | | | |exact Hnest]; simpl; auto;
               intros h Hne; apply lookup_insert_ne; congruence|]);
      (split; [lia|]); (split; [reflexivity|]);
      intros _; rewrite lookup_insert_eq; eauto.
  - destruct (Hgroup eq_refl) as ((olds & Hg) & a & fields & ->).
    simpl in Hnames.
    pose proof (group_diff el (fun k => setAttribute el ("aria-" ++ k))
                  (fun k => removeAttribute el ("aria-" ++ k))
                  (fun k => SetAttribute el ("aria-" ++ k))
                  (fun k => RemoveAttribute el ("aria-" ++ k)) false
                  (fun k v s0 Hs0 Hr0 => on_element_request el _ s0 Hs0 Hr0)
                  (fun k s0 Hs0 _ => on_element el _ s0 Hs0)
                  valueOld olds a fields cs s Hg Helt
                  (welcomes_accepted
                     (fun kv => SetAttribute el ("aria-" ++ kv.1) kv.2)
                     (fun kv => "aria-" ++ kv.1)%string
                     _ s Hwel (fun _ => eq_refl)
                     (Forall_map_filter _ _ _ Hnames))
                  ltac:(discriminate)) as Hrun.
    eexists cs, _. split; [unfold patchData; rewrite Hclass; exact Hrun|].
    split; [apply nest_logging; exact Hnest|]. simpl.
    split; [lia|]. split; [reflexivity|]. no_event Hclass.
  - destruct (Hgroup eq_refl) as ((olds & Hg) & a & fields & ->).
    simpl in Hnames.
    pose proof (group_diff el (setDataset el)
                  (deleteDataset el)
                  (SetDataset el)
                  (DeleteDataset el) false
                  (fun k v s0 Hs0 Hr0 => on_element_request el _ s0 Hs0 Hr0)
                  (fun k s0 Hs0 _ => on_element el _ s0 Hs0)
                  valueOld olds a fields cs s Hg Helt
                  (welcomes_accepted
                     (fun kv => SetDataset el kv.1 kv.2) fst
                     _ s Hwel (fun _ => eq_refl)
                     (Forall_map_filter _ _ _ Hnames))
                  ltac:(discriminate)) as Hrun.
    eexists cs, _. split; [unfold patchData; rewrite Hclass; exact Hrun|].
    split; [apply nest_logging; exact Hnest|]. simpl.
    split; [lia|]. split; [reflexivity|]. no_event Hclass.
  - destruct (Hgroup eq_refl) as ((olds & Hg) & a & fields & ->).
    simpl in Hnames. apply Forall_cons in Hnames as [_ Hnames].
    pose proof (group_diff el (setStyle el)
                  (fun k => setStyle el k (VStr ""))
                  (SetStyle el)
                  (fun k => SetStyle el k (VStr "")) true
                  (fun k v s0 Hs0 Hr0 => on_element_request el _ s0 Hs0 Hr0)
                  (fun k s0 Hs0 Hr0 =>
                     on_element_request el _ s0 Hs0 (Hr0 eq_refl))
                  valueOld olds a fields cs s Hg Helt
                  (welcomes_accepted
                     (fun kv => SetStyle el kv.1 kv.2) fst
                     _ s Hwel (fun _ => eq_refl)
                     (Forall_map_filter _ _ _ Hnames))
                  (fun _ =>
                     welcomes_accepted
                       (fun kv => SetStyle el kv.1 (VStr "")) fst
                       _ s Hwel (fun _ => eq_refl)
                       (Forall_map_filter _ _ _ (Holds eq_refl olds Hg)))) as Hrun.
    eexists cs, _. split; [unfold patchData; rewrite Hclass; exact Hrun|].
    split; [apply nest_logging; exact Hnest|]. simpl.
    split; [lia|]. split; [reflexivity|]. no_event Hclass.
  - (* focus *)
    unfold patchData. rewrite Hclass. unfold focus, blur.
    destruct (truthy v);
      rewrite (bind_Ok_intro _ _ _ _ _ (on_element el _ s Helt));
      eexists cs, _; (split; [reflexivity|]);
      (split; [apply nest_logging; exact Hnest|]); simpl;
      (split; [lia|]); (split; [reflexivity|]); no_event Hclass.
  - unfold patchData. rewrite Hclass.
    apply Forall_cons in Hnames as [Hname _].
    rewrite (bind_Ok_intro _ _ _ _ _ (setProperty_accepted el _ v s Hwel Hname)).
    eexists cs, _. split; [reflexivity|].
    split; [apply (nest_logging el [_]); exact Hnest|]. simpl.
    split; [lia|]. split; [reflexivity|]. no_event Hclass.
  - unfold patchData. rewrite Hclass.
    apply Forall_cons in Hnames as [Hname _].
    rewrite (bind_Ok_intro _ _ _ _ _ (setProperty_accepted el _ v s Hwel Hname)).
    eexists cs, _. split; [reflexivity|].
    split; [apply (nest_logging el [_]); exact Hnest|]. simpl.
    split; [lia|]. split; [reflexivity|]. no_event Hclass.
  - (* children *)
    destruct (Hchildren (classify_children _ Hclass))
      as (Hold & Ht & a & items & -> & Hp).
    unfold patchData. rewrite Hclass.
    destruct (patchChildren_renders valueOld items cs s Hold Hp Hnest Ht)
      as (cs' & s' & Hrun & Hnest' & Hn & Hpar & Hm).
    exists cs', s'. split; [exact Hrun|]. split; [exact Hnest'|].
    split; [exact Hn|]. split; [exact Hpar|]. rewrite Hm. no_event Hclass.
  - unfold patchData. rewrite Hclass.
    apply Forall_cons in Hnames as [Hname _].
    rewrite (bind_Ok_intro _ _ _ _ _ (setProperty_accepted el _ v s Hwel Hname)).
    eexists cs, _. split; [reflexivity|].
    split; [apply (nest_logging el [_]); exact Hnest|]. simpl.
    split; [lia|]. split; [reflexivity|]. no_event Hclass.
Qed.

End PatchRenders.


Lemma classify_style k : classify k = KStyle -> k = "style".
Proof.
  unfold classify. destruct (is_event k); [discriminate|].
  repeat match goal with
         | |- (if (k =? ?s)%string then _ else _) = _ -> _ =>
             destruct (String.eqb_spec k s); [try discriminate|]
         end; auto. discriminate.
Qed.

Section LoopsRender.
Context {N : string -> Prop}.
Variable H : gmap nat (list NodeNew).
Variable factory_default : string -> string -> value.
Variable el : handle.

Lemma update_loop_renders nodeOldNodeData l cs s :
  NoDup (map fst l) ->
  (forall k, is_group k = true ->
             exists olds, group_of (at_key k nodeOldNodeData) olds) ->
  (forall k v, In (k, v) l -> is_group k = true ->
               exists a fields, v = VObj a fields) ->
  (forall v, In ("children", v) l ->
     exists a items,
       v = VArr a items /\
       forall childNew, In childNew items ->
         shaped H childNew /\ renderable N childNew /\
         patches_render N H factory_default childNew) ->
  (has "children" l = true ->
   (cs = [] \/
    exists a olds, at_key "children" nodeOldNodeData = VArr a olds) /\
   Forall (tracked H s) cs) ->
  (forall k v, In (k, v) l -> Forall N (names_of k v)) ->
  (forall olds, group_of (at_key "style" nodeOldNodeData) olds ->
                Forall N (map fst olds)) ->
  nest N el s cs ->
  exists cs' s',
    fold_m (updateData (viewPatch factory_default) el nodeOldNodeData)
           l cs s = (Ok cs', s') /\
    nest N el s' cs' /\
    next s <= next s' /\
    parentNode s' !! el = parentNode s !! el /\
    (is_Some (MoonEvents s !! el) -> is_Some (MoonEvents s' !! el)) /\
    (forall k v, In (k, v) l -> is_event k = true ->
                 strict_eq (at_key k nodeOldNodeData) v = false ->
                 is_Some (MoonEvents s' !! el)).
Proof.
  intros Hnd Hog. revert cs s Hnd.
  induction l as [|[k v] l IH]; intros cs s Hnd Hg Hc Hch Hnames Holds Hnest.
  { exists cs, s. simpl. split; [reflexivity|]. split; [exact Hnest|].
    split; [lia|]. split; [reflexivity|]. split; [auto|]. intros k v []. }
  simpl in Hnd. apply NoDup_cons in Hnd as [Hk Hnd].
  assert (Hstep : exists cs1 s1,
             updateData (viewPatch factory_default) el nodeOldNodeData cs
                        (k, v) s = (Ok cs1, s1) /\
             nest N el s1 cs1 /\ next s <= next s1 /\
             parentNode s1 !! el = parentNode s !! el /\
             (is_Some (MoonEvents s !! el) \/
              (is_event k = true /\
               strict_eq (at_key k nodeOldNodeData) v = false) ->
              is_Some (MoonEvents s1 !! el))).
  { unfold updateData.
    destruct (strict_eq (at_key k nodeOldNodeData) v) eqn:Heq.
    - exists cs, s. split; [reflexivity|]. split; [exact Hnest|].
      split; [lia|]. split; [reflexivity|].
      intros [Hs|[_ Hs]]; [exact Hs|discriminate Hs].
    - destruct (patchData_renders (N := N) H factory_default el
                  (at_key k nodeOldNodeData) k v cs s)
        as (cs1 & s1 & Hrun & Hnest1 & Hn1 & Hp1 & Hm1).
      + intros Hgk. split; [apply Hog; exact Hgk|].
        apply (Hg k v); [left; reflexivity|exact Hgk].
      + intros ->. destruct Hch as [Hold Ht].
        { simpl. reflexivity. }
        split; [exact Hold|]. split; [exact Ht|].
        apply Hc. left. reflexivity.
      + apply (Hnames k v). left. reflexivity.
      + intros Hks. apply classify_style in Hks. subst k. exact Holds.
      + exact Hnest.
      + exists cs1, s1. split; [exact Hrun|]. split; [exact Hnest1|].
        split; [exact Hn1|]. split; [exact Hp1|].
        intros [Hs|[Hs _]]; apply Hm1; auto. }
  destruct Hstep as (cs1 & s1 & Hrun1 & Hnest1 & Hn1 & Hp1 & Hm1).
  destruct (IH cs1 s1 Hnd) as (cs' & s' & Hrest & Hnest' & Hn' & Hp' & Hm' & Hev').
  { intros k0 v0 Hin. apply (Hg k0 v0). right. exact Hin. }
  { intros v0 Hin. apply Hc. right. exact Hin. }
  { intros Hhas.
    assert (Hne : k <> "children").
    { intros ->. apply Hk. apply list_elem_of_In.
      apply get_In_has in Hhas.
      change "children" with (fst ("children", get "children" l)).
      apply in_map. exact Hhas. }
    destruct Hch as [Hold Ht].
    { simpl. destruct (String.eqb_spec k "children"); [reflexivity|exact Hhas]. }
    assert (Hcs1 : cs1 = cs).
    { unfold updateData in Hrun1.
      destruct (strict_eq (at_key k nodeOldNodeData) v).
      - injection Hrun1 as <- _. reflexivity.
      - eapply patchData_keeps_children; [|exact Hrun1].
        apply classify_not_children. exact Hne. }
    subst cs1. split; [exact Hold|].
    eapply Forall_tracked_mono; [|exact Ht].
    eapply (respects_updateData (R := extends)). exact Hrun1. }
  { intros k0 v0 Hin. apply (Hnames k0 v0). right. exact Hin. }
  { exact Holds. }
  { exact Hnest1. }
  exists cs', s'. split; [|split; [exact Hnest'|]].
  { simpl. rewrite (bind_Ok_intro _ _ _ _ _ Hrun1). exact Hrest. }
  split; [lia|]. split; [congruence|]. split.
  - intros Hs. apply Hm'. apply Hm1. left. exact Hs.
  - intros k0 v0 [Heq|Hin] Hk0 Hdiff.
    + injection Heq as <- <-. apply Hm'. apply Hm1. right. auto.
    + eapply Hev'; eassumption.
Qed.

Lemma for_each_on_element_told {A} (call : A -> effect) (l : list A) s :
  el ∉ texts s ->
  for_each (fun a => element_only el ;; emit (call a)) l s
  = (Ok tt, logging (map call l) s).
Proof.
  intros Hel.
  assert (Hmap : flat_map (fun a => [call a]) l = map call l)
    by (induction l; simpl; congruence).
  rewrite <- Hmap. apply for_each_logging.
  intros a s' _ Hs' _. apply on_element. rewrite Hs'. exact Hel.
Qed.

Lemma removeData_renders nm k v cs s :
  (is_group k = true -> exists a fields, v = VObj a fields) ->
  (is_event k = true -> is_Some (MoonEvents s !! el)) ->
  N nm -> Forall N (names_of k v) ->
  nest N el s cs ->
  exists cs' s',
    removeData factory_default el nm k v cs s = (Ok cs', s') /\
    nest N el s' cs' /\
    next s <= next s' /\
    parentNode s' !! el = parentNode s !! el /\
    (is_Some (MoonEvents s !! el) -> is_Some (MoonEvents s' !! el)).
Proof.
  intros Hgroup Hev Hnm Hnames Hnest.
  pose proof Hnest as (_ & Hel & Helt & _ & _ & _ & Hwel).
  unfold is_group in Hgroup. unfold removeData.
  assert (Hrdp : N k -> exists cs' s',
             (removeDataProperty factory_default el nm k ;; ret cs) s
             = (Ok cs', s') /\
             nest N el s' cs' /\ next s <= next s' /\
             parentNode s' !! el = parentNode s !! el /\
             (is_Some (MoonEvents s !! el) -> is_Some (MoonEvents s' !! el))).
  { intros Hk.
    destruct (removeDataProperty_renders (N := N) factory_default el nm k s
                Hwel Hnm Hk)
      as (s' & Hrun & Hn & Ht & Hp & Hm & Hsr).
    exists cs, s'. rewrite (bind_Ok_intro _ _ _ _ _ Hrun).
    split; [reflexivity|].
    split; [eapply nest_same;
            [exact Hn|exact Ht|exact Hp|exact Hsr| |exact Hnest];
            intros h _; rewrite Hm; reflexivity|].
    split; [exact Hn|]. rewrite Hp, Hm. auto. }
  unfold names_of in Hnames.
  destruct (classify k) eqn:Hclass.
  - (* event *)
    destruct (Hev (proj1 (classify_event k) Hclass)) as [d Hd].
    unfold bind, read, set_MoonEvents, removeEventListener, emit, ret.
    simpl. rewrite Hd.
    eexists cs, _. split; [reflexivity|]. simpl.
    split; [eapply nest_same; [| | | | |exact Hnest]; simpl; auto;
            intros h Hne; apply lookup_insert_ne; congruence|].
    split; [lia|]. split; [reflexivity|].
    intros _. rewrite lookup_insert_eq. eauto.
  - destruct (Hgroup eq_refl) as (a & fields & ->).
    rewrite (bind_Ok_intro _ _ s fields s) by reflexivity.
    rewrite (bind_Ok_intro _ _ _ _ _
               (for_each_on_element_told
                  (fun kv => RemoveAttribute el ("aria-" ++ kv.1))
                  fields s Helt)).
    eexists cs, _. split; [reflexivity|].
    split; [apply nest_logging; exact Hnest|]. simpl. auto.
  - destruct (Hgroup eq_refl) as (a & fields & ->).
    rewrite (bind_Ok_intro _ _ s fields s) by reflexivity.
    rewrite (bind_Ok_intro _ _ _ _ _
               (for_each_on_element_told (fun kv => DeleteDataset el kv.1)
                                         fields s Helt)).
    eexists cs, _. split; [reflexivity|].
    split; [apply nest_logging; exact Hnest|]. simpl. auto.
  - apply Hrdp. apply classify_style in Hclass. subst k.
    apply Forall_cons in Hnames as [Hname _]. exact Hname.
  - destruct (truthy v).
    + unfold blur. rewrite (bind_Ok_intro _ _ _ _ _ (on_element el _ s Helt)).
      eexists cs, _. split; [reflexivity|].
      split; [apply nest_logging; exact Hnest|]. simpl. auto.
    + exists cs, s. split; [reflexivity|]. split; [exact Hnest|]. auto.
  - apply Forall_cons in Hnames as [Hname _].
    rewrite (bind_Ok_intro _ _ _ _ _
               (setProperty_accepted el _ (VStr "") s Hwel Hname)).
    eexists cs, _. split; [reflexivity|].
    split; [apply (nest_logging el [_]); exact Hnest|]. simpl. auto.
  - apply Forall_cons in Hnames as [Hname _].
    rewrite (bind_Ok_intro _ _ _ _ _
               (setProperty_accepted el _ (VStr "") s Hwel Hname)).
    eexists cs, _. split; [reflexivity|].
    split; [apply (nest_logging el [_]); exact Hnest|]. simpl. auto.
  - destruct (popChildren_renders (N := N) el (length cs) cs s)
      as (cs' & s' & Hpop & Hnest' & _ & Hn' & _ & Hm' & Hpar');
      [lia|exact Hnest|].
    exists cs', s'. split; [exact Hpop|]. split; [exact Hnest'|].
    split; [lia|]. split; [exact Hpar'|]. rewrite Hm'. auto.
  - apply Hrdp. apply Forall_cons in Hnames as [Hname _]. exact Hname.
Qed.

Lemma removal_loop_renders nm nodeNewData l cs s :
  (forall k v, In (k, v) l -> is_group k = true ->
               exists a fields, v = VObj a fields) ->
  ((exists k v, In (k, v) l /\ is_event k = true) ->
   is_Some (MoonEvents s !! el)) ->
  N nm ->
  (forall k v, In (k, v) l -> Forall N (names_of k v)) ->
  nest N el s cs ->
  exists cs' s',
    fold_m (removeOld factory_default el nm nodeNewData) l cs s
    = (Ok cs', s') /\
    nest N el s' cs' /\
    next s <= next s' /\
    parentNode s' !! el = parentNode s !! el /\
    (is_Some (MoonEvents s !! el) -> is_Some (MoonEvents s' !! el)).
Proof.
  intros Hg Hev Hnm. revert cs s Hg Hev.
  induction l as [|[k v] l IH]; intros cs s Hg Hev Hnames Hnest.
  { exists cs, s. simpl. split; [reflexivity|]. split; [exact Hnest|].
    split; [lia|]. auto. }
  assert (Hstep : exists cs1 s1,
             removeOld factory_default el nm nodeNewData cs (k, v) s
             = (Ok cs1, s1) /\
             nest N el s1 cs1 /\ next s <= next s1 /\
             parentNode s1 !! el = parentNode s !! el /\
             (is_Some (MoonEvents s !! el) -> is_Some (MoonEvents s1 !! el))).
  { unfold removeOld. destruct (key_in k nodeNewData).
    - exists cs, s. split; [reflexivity|]. split; [exact Hnest|].
      split; [lia|]. auto.
    - apply removeData_renders; [| |exact Hnm| |exact Hnest].
      + apply (Hg k v). left. reflexivity.
      + intros Hk. apply Hev. exists k, v. split; [left; reflexivity|exact Hk].
      + apply (Hnames k v). left. reflexivity. }
  destruct Hstep as (cs1 & s1 & Hrun1 & Hnest1 & Hn1 & Hp1 & Hm1).
  destruct (IH cs1 s1) as (cs' & s' & Hrest & Hnest' & Hn' & Hp' & Hm').
  { intros k0 v0 Hin. apply (Hg k0 v0). right. exact Hin. }
  { intros (k0 & v0 & Hin & Hk0). apply Hm1. apply Hev.
    exists k0, v0. split; [right; exact Hin|exact Hk0]. }
  { intros k0 v0 Hin. apply (Hnames k0 v0). right. exact Hin. }
  { exact Hnest1. }
  exists cs', s'. split; [|split; [exact Hnest'|]].
  { simpl. rewrite (bind_Ok_intro _ _ _ _ _ Hrun1). exact Hrest. }
  split; [lia|]. split; [congruence|]. auto.
Qed.

(** The loops of a patch between two texts: every key is assigned. *)
Lemma plain_update_loop nodeOldNodeData l cs s :
  (forall k v, In (k, v) l -> is_plain k = true) ->
  (forall k v, In (k, v) l -> Forall N (names_of k v)) ->
  welcomes N s ->
  exists d,
    fold_m (updateData (viewPatch factory_default) el nodeOldNodeData)
           l cs s = (Ok cs, logging d s).
Proof.
  revert s. induction l as [|[k v] l IH]; intros s Hplain Hnames Hwel.
  { exists []. simpl. rewrite logging_nil. reflexivity. }
  assert (Hstep : exists d1,
             updateData (viewPatch factory_default) el nodeOldNodeData cs
                        (k, v) s = (Ok cs, logging d1 s)).
  { unfold updateData. destruct (strict_eq _ _).
    - exists []. rewrite logging_nil. reflexivity.
    - specialize (Hplain k v (or_introl eq_refl)).
      specialize (Hnames k v (or_introl eq_refl)).
      unfold is_plain in Hplain. unfold patchData.
      unfold names_of in Hnames.
      destruct (classify k); try discriminate Hplain;
        apply Forall_cons in Hnames as [Hname _];
        rewrite (bind_Ok_intro _ _ _ _ _
                   (setProperty_accepted el _ v s Hwel Hname));
        eexists [_]; reflexivity. }
  destruct Hstep as [d1 H1].
  destruct (IH (logging d1 s)) as [d2 H2].
  { intros k0 v0 Hin. apply (Hplain k0 v0). right. exact Hin. }
  { intros k0 v0 Hin. apply (Hnames k0 v0). right. exact Hin. }
  { exact Hwel. }
  exists (d1 ++ d2). simpl. rewrite (bind_Ok_intro _ _ _ _ _ H1).
  rewrite H2, logging_app. reflexivity.
Qed.

Lemma plain_removal_loop nm nodeNewData l cs s :
  (forall k v, In (k, v) l -> is_plain k = true) ->
  N nm ->
  (forall k v, In (k, v) l -> Forall N (names_of k v)) ->
  welcomes N s ->
  exists s',
    fold_m (removeOld factory_default el nm nodeNewData) l cs s
    = (Ok cs, s') /\
    next s <= next s' /\ texts s' = texts s /\
    parentNode s' = parentNode s /\ MoonEvents s' = MoonEvents s /\
    refused s' = refused s.
Proof.
  intros Hplain Hnm. revert s Hplain.
  induction l as [|[k v] l IH]; intros s Hplain Hnames Hwel.
  { exists s. simpl. auto 10. }
  assert (Hstep : exists s1,
             removeOld factory_default el nm nodeNewData cs (k, v) s
             = (Ok cs, s1) /\
             next s <= next s1 /\ texts s1 = texts s /\
             parentNode s1 = parentNode s /\ MoonEvents s1 = MoonEvents s /\
             refused s1 = refused s).
  { unfold removeOld. destruct (key_in k nodeNewData).
    - exists s. auto 10.
    - specialize (Hplain k v (or_introl eq_refl)).
      specialize (Hnames k v (or_introl eq_refl)).
      unfold is_plain in Hplain. unfold removeData.
      unfold names_of in Hnames.
      destruct (classify k); try discriminate Hplain;
        apply Forall_cons in Hnames as [Hname _].
      + rewrite (bind_Ok_intro _ _ _ _ _
                   (setProperty_accepted el _ (VStr "") s Hwel Hname)).
        eexists. split; [reflexivity|]. simpl. auto 10.
      + rewrite (bind_Ok_intro _ _ _ _ _
                   (setProperty_accepted el _ (VStr "") s Hwel Hname)).
        eexists. split; [reflexivity|]. simpl. auto 10.
      + destruct (removeDataProperty_renders (N := N) factory_default el nm k
                    s Hwel Hnm Hname)
          as (s1 & Hrun & Hrest).
        exists s1. rewrite (bind_Ok_intro _ _ _ _ _ Hrun). auto. }
  destruct Hstep as (s1 & H1 & Hn1 & Ht1 & Hp1 & Hm1 & Hr1).
  destruct (IH s1) as (s' & H2 & Hn2 & Ht2 & Hp2 & Hm2 & Hr2).
  { intros k0 v0 Hin. apply (Hplain k0 v0). right. exact Hin. }
  { intros k0 v0 Hin. apply (Hnames k0 v0). right. exact Hin. }
  { exact (welcomes_same N _ _ Hr1 Hwel). }
  exists s'. simpl. rewrite (bind_Ok_intro _ _ _ _ _ H1).
  split; [exact H2|]. split; [lia|]. repeat split; congruence.
Qed.

End LoopsRender.

Lemma strict_eq_undef v : strict_eq VUndef v = true -> v = VUndef.
Proof. destruct v; simpl; intros H; try discriminate H. reflexivity. Qed.

Lemma inherited_group k : is_group k = true -> inherited k = false.
Proof.
  intros Hg. destruct (inherited k) eqn:Hi; [|reflexivity].
  apply get_In_has in Hi. remember (get k Object_prototype) as v eqn:Hv.
  clear Hv. unfold Object_prototype in Hi. simpl in Hi.
  repeat (destruct Hi as [Hi|Hi];
          [injection Hi as <- _; vm_compute in Hg; discriminate Hg|]).
  destruct Hi.
Qed.

Section PatchRendered.
Context {N : string -> Prop}.

Lemma renderable_voiced n : renderable N n -> voiced N n.
Proof. intros Hr. inversion Hr; subst; assumption. Qed.

Lemma renderable_text_inv r nodeData :
  renderable N (mkNodeNew r "text" nodeData) ->
  forall k v, In (k, v) nodeData -> is_plain k = true.
Proof. intros Hr. inversion Hr; subst; [assumption|congruence]. Qed.

Lemma renderable_element_inv r nm nodeData :
  nm <> "text" ->
  renderable N (mkNodeNew r nm nodeData) ->
  (forall k v, In (k, v) nodeData -> is_event k = true -> v <> VUndef) /\
  (forall k v, In (k, v) nodeData -> is_group k = true ->
               exists a fields, v = VObj a fields) /\
  (forall v, In ("children", v) nodeData ->
             exists a items, v = VArr a items /\ Forall (renderable N) items).
Proof. intros Hnm Hr. inversion Hr; subst; [congruence|auto]. Qed.

Lemma viewPatch_renders_lemma H factory_default nodeNew :
  shaped H nodeNew -> renderable N nodeNew ->
  patches_render N H factory_default nodeNew.
Proof.
  induction nodeNew as [ref nm nodeData IH] using NodeNew_children_ind.
  intros Hsh Hr [n0 el cref cs] st Ha Hwel Ht Hw Hpar.
  pose proof (renderable_voiced _ Hr) as [Hname Hnames].
  inversion Hw as [? ? ? ? Hr0 Hel Htext Hev Hlinks Hnd Hwcs]; subst.
  inversion Ht as [? ? ? ? Hlen Hsh0 _ Htcs]; subst.
  pose proof (renderable_voiced _ Hr0) as [Hname0 Hnames0].
  simpl element in *.
  destruct (String.eqb_spec (name n0) nm) as [Hk|Hk].
  - (* the same kind *)
    rewrite viewPatch_same_kind by exact Hk.
    cbn [node element children children_ref name data].
    destruct n0 as [ref0 nm0 data0]. simpl in Hk. subst nm0.
    cbn [name data] in *.
    destruct (String.eqb_spec nm "text") as [->|Hnm].
    + (* two texts *)
      pose proof (renderable_text_inv _ _ Hr) as Hplain.
      pose proof (renderable_text_inv _ _ Hr0) as Hplain0.
      destruct (plain_update_loop (N := N) factory_default el data0 nodeData
                  cs st Hplain Hnames Hwel)
        as [d H1].
      destruct (plain_removal_loop (N := N) factory_default el "text" nodeData
                  data0 cs (logging d st) Hplain0 Hname0 Hnames0 Hwel)
        as (s' & H2 & Hn2 & Ht2 & Hp2 & Hm2 & _).
      rewrite (bind_Ok_intro _ _ _ _ _ H1).
      rewrite (bind_Ok_intro _ _ _ _ _ H2).
      eexists _, s'. split; [reflexivity|]. simpl.
      assert (Hcs : cs = []).
      { unfold implied in Hlen. simpl in Hlen.
        destruct cs; [reflexivity|discriminate Hlen]. }
      subst cs. simpl in *.
      split; [intros h Hh; rewrite Ht2 in Hh; specialize (Ha h Hh); lia|].
      split; [|rewrite Hp2; reflexivity].
      constructor; simpl.
      * exact Hr.
      * lia.
      * rewrite Ht2. exact Htext.
      * intros (k & v & Hin & Hk). apply Hplain in Hin.
        unfold is_plain in Hin. apply classify_event in Hk.
        rewrite Hk in Hin. discriminate Hin.
      * constructor.
      * exact Hnd.
      * constructor.
    + (* two elements *)
      destruct (renderable_element_inv _ _ _ Hnm Hr) as (Hev1 & Hg1 & Hc1).
      destruct (renderable_element_inv _ _ _ Hnm Hr0) as (Hev0 & Hg0 & Hc0).
      destruct (shaped_children _ _ _ _ Hsh) as [Hnd1 Hheap1].
      assert (Helt : el ∉ texts st) by (rewrite Htext; exact Hnm).
      assert (Hnest : nest N el st cs) by (unfold nest; auto 10).
      destruct (update_loop_renders (N := N) H factory_default el data0
                  nodeData cs st)
        as (cs1 & s1 & H1 & Hnest1 & Hn1 & Hp1 & Hm1 & Hb1).
      { exact Hnd1. }
      { intros k Hgk. rewrite (at_key_own k) by (apply inherited_group, Hgk).
        destruct (has k data0) eqn:Hhas.
        - apply get_In_has in Hhas.
          destruct (Hg0 _ _ Hhas Hgk) as (a & fields & ->).
          exists fields. constructor.
        - rewrite (has_false_get _ _ Hhas). exists []. constructor. }
      { exact Hg1. }
      { intros v Hin. destruct (Hc1 v Hin) as (a & items & -> & Hitems).
        exists a, items. split; [reflexivity|]. intros childNew Hc.
        destruct (Hheap1 a items Hin) as [_ Hshi].
        rewrite Forall_forall in Hitems, Hshi.
        apply list_elem_of_In in Hc as Hc'.
        split; [apply Hshi; exact Hc'|]. split; [apply Hitems; exact Hc'|].
        eapply IH; [exact Hin|exact Hc|apply Hshi; exact Hc'|].
        apply Hitems. exact Hc'. }
      { intros _. split; [|exact Htcs].
        rewrite (at_key_own "children") by reflexivity.
        destruct (has "children" data0) eqn:Hhas.
        - apply get_In_has in Hhas.
          destruct (Hc0 _ Hhas) as (a & olds & -> & _). right. eauto.
        - left. unfold implied in Hlen. simpl in Hlen.
          replace (nm =? "text")%string with false in Hlen
            by (symmetry; apply String.eqb_neq; exact Hnm).
          rewrite (children_count_absent _ Hhas) in Hlen.
          destruct cs; [reflexivity|discriminate Hlen]. }
      { exact Hnames. }
      { intros olds Hgo. rewrite (at_key_own "style") in Hgo by reflexivity.
        inversion Hgo as [Hu|r fields Hv]; subst; [constructor|].
        destruct (has "style" data0) eqn:Hhas.
        - apply get_In_has in Hhas. rewrite <- Hv in Hhas.
          apply Hnames0 in Hhas. unfold names_of in Hhas. simpl in Hhas.
          apply Forall_cons in Hhas as [_ Hhas]. exact Hhas.
        - rewrite (has_false_get _ _ Hhas) in Hv. discriminate Hv. }
      { exact Hnest. }
      destruct (removal_loop_renders (N := N) factory_default el nm nodeData
                  data0 cs1 s1)
        as (cs2 & s2 & H2 & Hnest2 & Hn2 & Hp2 & Hm2).
      { exact Hg0. }
      { intros Hex. apply Hm1. apply Hev. exact Hex. }
      { exact Hname0. }
      { exact Hnames0. }
      { exact Hnest1. }
      rewrite (bind_Ok_intro _ _ _ _ _ H1).
      rewrite (bind_Ok_intro _ _ _ _ _ H2).
      eexists _, s2. split; [reflexivity|]. simpl.
      destruct Hnest2 as (Ha2 & Hel2 & Helt2 & Hlinks2 & Hnd2 & Hw2 & _).
      split; [exact Ha2|]. split; [|congruence].
      constructor; simpl; try assumption.
      * split; [contradiction|congruence].
      * intros (k & v & Hin & Hke). apply Hm2.
        destruct (strict_eq (at_key k data0) v) eqn:Heq.
        -- rewrite (at_key_own k) in Heq by (apply inherited_event, Hke).
           apply Hm1. apply Hev. exists k, (get k data0).
           split; [|exact Hke]. apply get_In_has.
           destruct (has k data0) eqn:Hhas; [reflexivity|].
           rewrite (has_false_get _ _ Hhas) in Heq.
           apply strict_eq_undef in Heq. exfalso.
           exact (Hev1 k v Hin Hke Heq).
        -- eapply Hb1; eassumption.
  - (* another kind *)
    destruct (viewCreate_renders_lemma (mkNodeNew ref nm nodeData) st Hr Ha
                Hwel)
      as (rc & s1 & Hc & Ha1 & Hw1).
    pose proof (viewCreate_created _ _ _ _ Hc) as Hcr.
    pose proof (created_handles _ _ _ _ Hcr) as Hh.
    pose proof (created_frame _ _ _ _ Hcr el Hel) as [Hp1 _].
    destruct Hcr as (Hnode & _).
    destruct Hpar as [p Hp].
    rewrite viewPatch_other_kind by exact Hk.
    cbn [node element].
    rewrite (bind_Ok_intro _ _ _ _ _ Hc).
    unfold replaceInParent, bind, read. simpl.
    rewrite Hp1, Hp. simpl.
    eexists _, _. split; [reflexivity|]. simpl.
    split; [exact Ha1|]. split; [|rewrite lookup_insert_eq; reflexivity].
    destruct rc as [nc ec crc ccs]. simpl in *. subst nc.
    rewrite Forall_forall in Hh.
    apply (wired_frame s1); [simpl; lia| | |exact Hw1].
    + intros h Hin. simpl.
      assert (Hlt : next st < h < next s1).
      { apply Hh. apply list_elem_of_In. simpl. right. exact Hin. }
      rewrite lookup_insert_ne, lookup_delete_ne; [reflexivity| |].
      * intros Heq. lia.
      * apply wired_NoDup in Hw1. simpl in Hw1.
        apply NoDup_cons in Hw1 as [Hec _]. intros Heq. apply Hec.
        rewrite Heq. apply list_elem_of_In. exact Hin.
    + intros h _. simpl. tauto.
Qed.

End PatchRendered.



(** ** The view driver *)

Lemma set_keys k v (obj : list (string * value)) :
  NoDup (map fst obj) -> NoDup (map fst (set k v obj)) /\
  forall k', k' ∈ map fst (set k v obj) <-> k' = k \/ k' ∈ map fst obj.
Proof.
  induction obj as [|[k0 w] obj IH]; simpl; intros Hnd.
  - split; [apply NoDup_cons; split; [apply not_elem_of_nil|apply NoDup_nil_2]|].
    intros k'. rewrite list_elem_of_singleton, elem_of_nil. tauto.
  - apply NoDup_cons in Hnd as [Hk0 Hnd].
    destruct (IH Hnd) as [IH1 IH2].
    destruct (String.eqb_spec k0 k) as [->|Hne]; simpl.
    + split; [apply NoDup_cons; auto|].
      intros k'. rewrite elem_of_cons. tauto.
    + split.
      * apply NoDup_cons. split; [|exact IH1].
        rewrite IH2. intros [Heq|Hin]; [congruence|exact (Hk0 Hin)].
      * intros k'. rewrite !elem_of_cons, IH2. tauto.
Qed.

Lemma set_values k v (obj : list (string * value)) k' v' :
  In (k', v') (set k v obj) -> (k' = k /\ v' = v) \/ In (k', v') obj.
Proof.
  induction obj as [|[k0 w] obj IH]; simpl.
  - intros [Heq|[]]. injection Heq as <- <-. auto.
  - destruct (String.eqb_spec k0 k) as [->|Hne]; simpl.
    + intros [Heq|Hin]; [injection Heq as <- <-; auto|auto].
    + intros [Heq|Hin]; [auto|]. destruct (IH Hin); auto.
Qed.

Lemma dataOld_of_spec (attrs : list (string * string)) :
  NoDup (map fst (dataOld_of attrs)) /\
  forall k v, In (k, v) (dataOld_of attrs) ->
              exists s, v = VStr s /\ In (k, s) attrs.
Proof.
  unfold dataOld_of.
  assert (Hgen : forall acc,
             NoDup (map fst acc) ->
             (forall k v, In (k, v) acc -> exists s, v = VStr s) ->
             NoDup (map fst (fold_left
                               (fun dataOld (a : string * string) =>
                                  set a.1 (VStr a.2) dataOld) attrs acc)) /\
             forall k v,
               In (k, v) (fold_left
                            (fun dataOld (a : string * string) =>
                               set a.1 (VStr a.2) dataOld) attrs acc) ->
               exists s, v = VStr s /\ (In (k, s) attrs \/ In (k, v) acc)).
  { induction attrs as [|[k0 s0] attrs IH]; intros acc Hnd Hacc; simpl.
    - split; [exact Hnd|]. intros k v Hin.
      destruct (Hacc k v Hin) as [s ->]. eauto.
    - destruct (IH (set k0 (VStr s0) acc)) as [IH1 IH2].
      + apply set_keys. exact Hnd.
      + intros k v Hin. apply set_values in Hin as [[_ ->]|Hin]; eauto.
      + split; [exact IH1|]. intros k v Hin.
        destruct (IH2 k v Hin) as (s & -> & [Hs|Hs]); [eauto|].
        apply set_values in Hs as [[-> Heq]|Hs]; [|eauto].
        injection Heq as ->. eauto. }
  destruct (Hgen []) as [H1 H2]; [apply NoDup_nil_2|intros k v []|].
  split; [exact H1|]. intros k v Hin.
  destruct (H2 k v Hin) as (s & -> & [Hs|[]]). eauto.
Qed.

Lemma outputs_render (N : string -> Prop) H factory_default views :
  Forall (shaped H) views -> Forall (renderable N) views ->
  forall viewOld st,
    allocated st -> welcomes N st ->
    tracked H st viewOld -> wired N st viewOld ->
    is_Some (parentNode st !! element viewOld) ->
    exists viewOld' st',
      outputs factory_default viewOld views st = (Ok viewOld', st') /\
      allocated st' /\ tracked H st' viewOld' /\ wired N st' viewOld' /\
      parentNode st' !! element viewOld' = parentNode st !! element viewOld.
Proof.
  induction views as [|v views IH];
    intros Hsh Hr viewOld st Ha Hwel Ht Hw Hp.
  - exists viewOld, st. simpl. auto 10.
  - apply Forall_cons in Hsh as [Hsh1 Hsh], Hr as [Hr1 Hr].
    destruct (viewPatch_renders_lemma H factory_default v Hsh1 Hr1
                viewOld st Ha Hwel Ht Hw Hp)
      as (r1 & s1 & Hrun & Ha1 & Hw1 & Hp1).
    pose proof (viewPatch_tracked _ _ _ _ _ _ _ Ht Hsh1 Hrun) as Ht1.
    pose proof (welcomes_same N _ _
                  (viewPatch_same_rules _ _ _ _ _ _ Hrun) Hwel) as Hwel1.
    destruct (IH Hsh Hr r1 s1 Ha1 Hwel1 Ht1 Hw1) as (r' & s' & Hrest & Hfin).
    { rewrite Hp1. exact Hp. }
    exists r', s'. simpl. rewrite (bind_Ok_intro _ _ _ _ _ Hrun).
    split; [exact Hrest|]. destruct Hfin as (? & ? & ? & ->). auto.
Qed.


(** ** Records that mirror their descriptions *)

Lemma children_of_cons_other k v l :
  k <> "children" -> children_of ((k, v) :: l) = children_of l.
Proof.
  intros Hk. unfold children_of. simpl.
  destruct (String.eqb_spec k "children"); [contradiction|reflexivity].
Qed.

Lemma appendNew_mirrored H el items cs s cs' s' :
  (forall c, In c items ->
     forall s r s', viewCreate c s = (Ok r, s') -> mirrored H r) ->
  appendNew viewCreate el items cs s = (Ok cs', s') ->
  exists new,
    cs' = cs ++ new /\ map node new = items /\ Forall (mirrored H) new.
Proof.
  unfold appendNew. revert cs s.
  induction items as [|c items IH]; intros cs s Hcr Hrun; simpl in Hrun.
  - injection Hrun as <- <-. exists []. rewrite app_nil_r. auto.
  - apply bind_Ok in Hrun as (cs1 & s1 & Hstep & Hrest).
    apply bind_Ok in Hstep as (rc & s2 & Hc & Hstep).
    apply bind_Ok in Hstep as ([] & s3 & Happ & Hret).
    injection Hret as <- <-.
    apply IH in Hrest as (new & -> & Hmap & Hall);
      [|intros c0 Hc0; apply Hcr; right; exact Hc0].
    exists (rc :: new). rewrite <- app_assoc. split; [reflexivity|].
    split.
    + simpl. f_equal; [|exact Hmap].
      apply viewCreate_created in Hc as (Hnode & _). exact Hnode.
    + constructor; [|exact Hall]. eapply Hcr; [left; reflexivity|exact Hc].
Qed.

Lemma create_loop_mirrored H el l cs s cs' s' :
  (forall a items c, In ("children", VArr a items) l -> In c items ->
     forall s r s', viewCreate c s = (Ok r, s') -> mirrored H r) ->
  NoDup (map fst l) ->
  fold_m (fun cs kv => createData viewCreate el kv.1 kv.2 cs) l cs s
    = (Ok cs', s') ->
  exists new,
    cs' = cs ++ new /\ map node new = children_of l /\
    Forall (mirrored H) new.
Proof.
  revert cs s. induction l as [|[k v] l IH]; intros cs s Hcr Hnd Hrun;
    simpl in Hrun.
  - injection Hrun as <- <-. exists []. rewrite app_nil_r. auto.
  - apply bind_Ok in Hrun as (cs1 & s1 & Hstep & Hrest). simpl in Hstep.
    simpl in Hnd. apply NoDup_cons in Hnd as [Hk Hnd].
    apply IH in Hrest as (new' & -> & Hmap' & Hall');
      [|intros a items c Hin; apply (Hcr a items c); right; exact Hin
       |exact Hnd].
    destruct (String.eqb_spec k "children") as [->|Hne].
    + unfold createData in Hstep. rewrite classify_children_key in Hstep.
      destruct v as [| | | | | | | |a items]; try discriminate Hstep.
      apply (appendNew_mirrored H) in Hstep as (new & -> & Hmap & Hall);
        [|intros c Hin; apply (Hcr a items c); [left; reflexivity|exact Hin]].
      assert (Hnone : children_of l = []).
      { unfold children_of.
        rewrite has_false_get by (apply has_not_In; exact Hk). reflexivity. }
      rewrite Hnone in Hmap'. apply map_eq_nil in Hmap'. subst new'.
      exists new. rewrite app_nil_r. split; [reflexivity|].
      split; [exact Hmap|exact Hall].
    + apply createData_keeps_children in Hstep as ->;
        [|apply classify_not_children; exact Hne].
      exists new'. split; [reflexivity|].
      rewrite children_of_cons_other by exact Hne. auto.
Qed.

Lemma viewCreate_mirrored H n s r s' :
  shaped H n -> viewCreate n s = (Ok r, s') -> mirrored H r.
Proof.
  revert s r s'. induction n as [ref nm nodeData IH] using NodeNew_children_ind.
  intros s r s' Hsh Hrun. rewrite viewCreate_eq in Hrun.
  simpl name in Hrun. simpl data in Hrun.
  inversion Hsh as [ref0 nm0 nodeData0 Hnd Harr]. subst.
  apply bind_Ok in Hrun as (cref & s1 & Halloc & Hrun).
  destruct (nm =? "text")%string eqn:Htext.
  - apply bind_Ok in Hrun as (h & s2 & Hc & Hrun). injection Hrun as <- <-.
    constructor; [exact Hsh| |constructor].
    simpl. intros Hn. apply String.eqb_eq in Htext. contradiction.
  - apply bind_Ok in Hrun as (h & s2 & Hc & Hrun).
    apply bind_Ok in Hrun as (cs & s3 & Hfold & Hrun). injection Hrun as <- <-.
    apply (create_loop_mirrored H) in Hfold as (new & -> & Hmap & Hall);
      [| |exact Hnd].
    + constructor; [exact Hsh| |exact Hall].
      intros _. simpl. rewrite Hmap. reflexivity.
    + intros a items c Hin Hc' s0 r0 s0' Hrun0.
      eapply IH; [exact Hin|exact Hc'| |exact Hrun0].
      pose proof (Harr a items Hin) as [_ Hitems].
      rewrite Forall_forall in Hitems. apply Hitems.
      apply list_elem_of_In. exact Hc'.
Qed.

Lemma differs_at_same valueOld i childNew s s1 :
  differs_at valueOld i childNew s = (Ok false, s1) ->
  exists a olds o,
    valueOld = VArr a olds /\ olds !! i = Some o /\ ref o = ref childNew.
Proof.
  unfold differs_at, ret, throw.
  destruct valueOld as [| | | | | | | |a olds]; try discriminate.
  destruct (olds !! i) as [o|] eqn:Ho; [|discriminate].
  intros Heq. injection Heq as Heq _.
  apply negb_false_iff, Nat.eqb_eq in Heq. exists a, olds, o. auto.
Qed.

Section PatchMirrored.
Variable H : gmap nat (list NodeNew).
Variable factory_default : string -> string -> value.

Lemma patchPrefix_mirrored valueOld items k i cs s cs' s' :
  patches_mirror H factory_default items ->
  Forall (shaped H) items ->
  Forall (mirrored H) cs ->
  patchPrefix (viewPatch factory_default) valueOld k i items cs s
    = (Ok cs', s') ->
  Forall (mirrored H) cs' /\
  ((forall j c a olds o,
       i <= j -> valueOld = VArr a olds -> olds !! j = Some o ->
       cs !! j = Some c -> ref (node c) = ref o) ->
   forall j item c',
     j < k -> items !! j = Some item -> cs' !! (i + j) = Some c' ->
     ref (node c') = ref item).
Proof.
  revert k i cs s. induction items as [|childNew items IH];
    intros k i cs s Hp Hsh Hcs Hrun.
  - destruct k; simpl in Hrun; injection Hrun as <- <-;
      (split; [exact Hcs|]); intros _ j item c' _ Hitem; discriminate Hitem.
  - destruct k; simpl in Hrun.
    + injection Hrun as <- <-. split; [exact Hcs|]. intros _ j item c' Hj. lia.
    + apply Forall_cons in Hsh as [Hsh1 Hsh].
      apply bind_Ok in Hrun as (differs & s1 & Hd & Hrun).
      apply bind_Ok in Hrun as (cs1 & s2 & Hstep & Hrest).
      pose proof (patchPrefix_beyond _ _ _ _ _ _ _ _ _ i Hrest
                    (or_introl (Nat.lt_succ_diag_r i))) as Hi.
      assert (Hstep' :
        Forall (mirrored H) cs1 /\
        (forall j, j <> i -> cs1 !! j = cs !! j) /\
        ((forall j c a olds o,
             i <= j -> valueOld = VArr a olds -> olds !! j = Some o ->
             cs !! j = Some c -> ref (node c) = ref o) ->
         forall c', cs1 !! i = Some c' -> ref (node c') = ref childNew)).
      { destruct differs.
        - destruct (cs !! i) as [c|] eqn:Hc; [|discriminate Hstep].
          apply bind_Ok in Hstep as (c' & s3 & Hpatch & Hret).
          injection Hret as <- <-.
          assert (Hm : mirrored H c').
          { eapply (Hp childNew (or_introl eq_refl)); [|exact Hsh1|exact Hpatch].
            rewrite Forall_lookup in Hcs. eapply Hcs. exact Hc. }
          split; [apply Forall_insert; assumption|].
          split; [intros j Hj; apply list_lookup_insert_ne; congruence|].
          intros _ c0 Hc0.
          rewrite list_lookup_insert_eq in Hc0
            by (apply lookup_lt_is_Some; eauto).
          injection Hc0 as <-.
          rewrite (viewPatch_node _ _ _ _ _ _ Hpatch). reflexivity.
        - injection Hstep as <- <-. split; [exact Hcs|]. split; [auto|].
          intros Hold c' Hc'.
          apply differs_at_same in Hd as (a & olds & o & Hv & Ho & Href).
          rewrite <- Href. eapply Hold; [|exact Hv|exact Ho|exact Hc']. lia. }
      destruct Hstep' as (Hcs1 & Hsame & Hhere).
      apply IH in Hrest as (Hall & Hrefs);
        [|intros c0 Hc0; apply Hp; right; exact Hc0|exact Hsh|exact Hcs1].
      split; [exact Hall|]. intros Hold j item c' Hj Hitem Hc'.
      destruct j as [|j].
      * simpl in Hitem. injection Hitem as <-.
        rewrite Nat.add_0_r, Hi in Hc'. apply Hhere; assumption.
      * simpl in Hitem. apply (Hrefs) with (j := j); [|lia|exact Hitem|].
        -- intros j0 c a olds o Hj0 Hv Ho Hc.
           rewrite Hsame in Hc by lia.
           eapply Hold; [|exact Hv|exact Ho|exact Hc]. lia.
        -- replace (S i + j) with (i + S j) by lia. exact Hc'.
Qed.

Lemma refs_prefix (cs : list NodeOld) (items : list NodeNew) n :
  length cs = n -> n <= length items ->
  (forall j item c, j < n -> items !! j = Some item -> cs !! j = Some c ->
                    ref (node c) = ref item) ->
  map ref (map node cs) = map ref (take n items).
Proof.
  intros Hlen Hn Hrefs. apply list_eq. intros j.
  rewrite !list_lookup_fmap.
  destruct (cs !! j) as [c|] eqn:Hc; simpl.
  - assert (Hj : j < n).
    { rewrite <- Hlen. apply lookup_lt_is_Some. eauto. }
    rewrite lookup_take_lt by exact Hj.
    destruct (lookup_lt_is_Some_2 items j ltac:(lia)) as [item Hitem].
    rewrite Hitem. simpl. f_equal. eapply Hrefs; eassumption.
  - apply lookup_ge_None in Hc.
    rewrite lookup_take_ge by lia. reflexivity.
Qed.

Lemma patchChildren_mirrored valueOld el items cs s cs' s' :
  patches_mirror H factory_default items ->
  Forall (shaped H) items ->
  (forall c, In c items ->
     forall s r s', viewCreate c s = (Ok r, s') -> mirrored H r) ->
  Forall (mirrored H) cs ->
  patchChildren (viewPatch factory_default) valueOld el items cs s
    = (Ok cs', s') ->
  Forall (mirrored H) cs' /\
  ((forall j c a olds o,
       valueOld = VArr a olds -> olds !! j = Some o ->
       cs !! j = Some c -> ref (node c) = ref o) ->
   map ref (map node cs') = map ref items).
Proof.
  intros Hp Hsh Hcr Hcs Hrun. unfold patchChildren in Hrun.
  destruct (Nat.eqb_spec (length cs) (length items)) as [Heq|Hne].
  - pose proof (patchPrefix_length _ _ _ _ _ _ _ _ _ Hrun) as Hlen.
    apply patchPrefix_mirrored in Hrun as (Hall & Hrefs); try assumption.
    split; [exact Hall|]. intros Hold.
    replace (map ref items) with (map ref (take (length items) items))
      by (rewrite firstn_all; reflexivity).
    apply refs_prefix; [lia|lia|].
    intros j item c Hj Hitem Hc.
    apply (Hrefs ltac:(intros; eapply Hold; eassumption) j item c);
      [lia|exact Hitem|exact Hc].
  - destruct (Nat.ltb_spec (length items) (length cs)) as [Hlt|Hge].
    + apply bind_Ok in Hrun as (cs1 & s1 & Hpre & Hpop).
      pose proof (patchPrefix_length _ _ _ _ _ _ _ _ _ Hpre) as Hlen.
      apply patchPrefix_mirrored in Hpre as (Hall & Hrefs); try assumption.
      apply popChildren_spec in Hpop as (_ & -> & _).
      replace (length cs1 - (length cs - length items)) with (length items)
        by lia.
      split.
      * rewrite Forall_forall in Hall. apply Forall_forall. intros c Hc.
        apply Hall. eapply subseteq_take. exact Hc.
      * intros Hold. replace (map ref items) with (map ref (take (length items) items))
      by (rewrite firstn_all; reflexivity).
        apply refs_prefix; [rewrite length_take; lia|lia|].
        intros j item c Hj Hitem Hc.
        rewrite lookup_take_lt in Hc by exact Hj.
        apply (Hrefs ltac:(intros; eapply Hold; eassumption) j item c);
          [lia|exact Hitem|exact Hc].
    + apply bind_Ok in Hrun as (cs1 & s1 & Hpre & Happ).
      pose proof (patchPrefix_length _ _ _ _ _ _ _ _ _ Hpre) as Hlen.
      apply patchPrefix_mirrored in Hpre as (Hall & Hrefs); try assumption.
      apply (appendNew_mirrored H) in Happ as (new & -> & Hmap & Hnew).
      * split; [apply Forall_app; auto|]. intros Hold.
        rewrite !map_app, Hmap.
        replace (map ref items)
          with (map ref (take (length cs) items)
                ++ map ref (drop (length cs) items))
          by (rewrite <- map_app, take_drop; reflexivity).
        f_equal.
        apply refs_prefix; [lia|lia|].
        intros j item c Hj Hitem Hc.
        apply (Hrefs ltac:(intros; eapply Hold; eassumption) j item c);
          [lia|exact Hitem|exact Hc].
      * intros c Hc. apply Hcr. apply list_elem_of_In.
        eapply subseteq_drop. apply list_elem_of_In. exact Hc.
Qed.

End PatchMirrored.

Section LoopsMirrored.
Variable H : gmap nat (list NodeNew).
Variable factory_default : string -> string -> value.
Variable el : handle.

Lemma refs_at (cs : list NodeOld) (olds : list NodeNew) j c o :
  map ref (map node cs) = map ref olds ->
  olds !! j = Some o -> cs !! j = Some c -> ref (node c) = ref o.
Proof.
  intros Hmap Ho Hc. apply (f_equal (fun l => l !! j)) in Hmap.
  rewrite !list_lookup_fmap, Ho, Hc in Hmap. simpl in Hmap.
  injection Hmap as Heq. exact Heq.
Qed.

Lemma update_loop_mirrored nodeOldNodeData l cs s cs' s' :
  NoDup (map fst l) ->
  (forall a items,
      In ("children", VArr a items) l ->
      H !! a = Some items /\ Forall (shaped H) items /\
      patches_mirror H factory_default items) ->
  (forall a olds,
      get "children" nodeOldNodeData = VArr a olds -> H !! a = Some olds) ->
  Forall (mirrored H) cs ->
  fold_m (updateData (viewPatch factory_default) el nodeOldNodeData) l cs s
    = (Ok cs', s') ->
  Forall (mirrored H) cs' /\
  (has "children" l = false -> cs' = cs) /\
  (has "children" l = true ->
   map ref (map node cs) = map ref (children_of nodeOldNodeData) ->
   map ref (map node cs') = map ref (children_of l)).
Proof.
  revert cs s. induction l as [|[k v] l IH];
    intros cs s Hnd Hnew Hold Hcs Hrun; simpl in Hrun.
  - injection Hrun as <- <-. split; [exact Hcs|]. split; [auto|discriminate].
  - apply bind_Ok in Hrun as (cs1 & s1 & Hstep & Hrest).
    simpl in Hnd. apply NoDup_cons in Hnd as [Hk Hnd].
    assert (Hnew' : forall a items,
               In ("children", VArr a items) l ->
               H !! a = Some items /\ Forall (shaped H) items /\
               patches_mirror H factory_default items).
    { intros a items Hin. apply Hnew. right. exact Hin. }
    destruct (String.eqb_spec k "children") as [->|Hne].
    + assert (Hhas : has "children" l = false) by (apply has_not_In; exact Hk).
      assert (Hstep' :
        Forall (mirrored H) cs1 /\
        (map ref (map node cs) = map ref (children_of nodeOldNodeData) ->
         map ref (map node cs1)
         = map ref (children_of (("children", v) :: l)))).
      { unfold updateData in Hstep.
        rewrite (at_key_own "children") in Hstep by reflexivity.
        destruct (strict_eq (get "children" nodeOldNodeData) v) eqn:Hsame.
        - injection Hstep as <- <-. split; [exact Hcs|]. intros ->.
          unfold children_of at 2. simpl.
          destruct v as [| | | | | | | |a items].
          9: { apply strict_eq_array in Hsame as [olds Holds].
               destruct (Hnew a items (or_introl eq_refl)) as (Hitems & _).
               pose proof (Hold a olds Holds) as Holds'.
               rewrite Hitems in Holds'. injection Holds' as <-.
               unfold children_of. rewrite Holds. reflexivity. }
          all: unfold children_of;
            destruct (get "children" nodeOldNodeData); try reflexivity;
            discriminate Hsame.
        - unfold patchData in Hstep. rewrite classify_children_key in Hstep.
          destruct v as [| | | | | | | |a items]; try discriminate Hstep.
          destruct (Hnew a items (or_introl eq_refl)) as (_ & Hsh & Hp).
          apply (patchChildren_mirrored H) in Hstep as (Hall & Hrefs);
            try assumption.
          + split; [exact Hall|]. intros Hmap.
            unfold children_of. simpl. apply Hrefs.
            intros j c a0 olds o Hv Ho Hc.
            eapply refs_at; [|exact Ho|exact Hc].
            rewrite Hmap. unfold children_of. rewrite Hv. reflexivity.
          + intros c Hc s0 r0 s0' Hrun0.
            eapply viewCreate_mirrored; [|exact Hrun0].
            rewrite Forall_forall in Hsh. apply Hsh.
            apply list_elem_of_In. exact Hc. }
      destruct Hstep' as [Hcs1 Hmap1].
      eapply IH in Hrest as (Hall & Hsame' & _); [|eassumption..].
      rewrite (Hsame' Hhas).
      split; [exact Hcs1|]. split; [simpl; discriminate|].
      intros _. exact Hmap1.
    + assert (cs1 = cs) as ->.
      { unfold updateData in Hstep.
        destruct (strict_eq (at_key k nodeOldNodeData) v);
          [ injection Hstep as <- _; reflexivity
          | eapply patchData_keeps_children; [|exact Hstep];
            apply classify_not_children; exact Hne ]. }
      assert (Hhas : has "children" ((k, v) :: l) = has "children" l)
        by (simpl; destruct (String.eqb_spec k "children");
            [contradiction|reflexivity]).
      rewrite Hhas, children_of_cons_other by exact Hne.
      eapply IH; eassumption.
Qed.

Lemma removal_loop_mirrored nm nodeNewData l cs s cs' s' :
  Forall (mirrored H) cs ->
  fold_m (removeOld factory_default el nm nodeNewData) l cs s
    = (Ok cs', s') ->
  Forall (mirrored H) cs' /\
  if has "children" l && negb (has "children" nodeNewData)
  then cs' = [] else cs' = cs.
Proof.
  revert cs s. induction l as [|[k v] l IH]; intros cs s Hcs Hrun;
    simpl in Hrun.
  - injection Hrun as <- <-. split; [exact Hcs|reflexivity].
  - apply bind_Ok in Hrun as (cs1 & s1 & Hstep & Hrest).
    simpl has. destruct (String.eqb_spec k "children") as [->|Hne].
    + unfold removeOld in Hstep.
      rewrite (key_in_own "children") in Hstep by reflexivity.
      destruct (has "children" nodeNewData) eqn:Hhas.
      * injection Hstep as <- <-. apply IH in Hrest as (Hall & Hlen);
          [|exact Hcs].
        split; [exact Hall|]. rewrite andb_false_r in Hlen. exact Hlen.
      * unfold removeData in Hstep. rewrite classify_children_key in Hstep.
        apply popChildren_spec in Hstep as (_ & -> & _).
        rewrite Nat.sub_diag, take_0 in Hrest.
        apply IH in Hrest as (Hall & Hlen); [|constructor].
        split; [exact Hall|]. simpl.
        destruct (has "children" l); exact Hlen.
    + assert (cs1 = cs) as ->.
      { unfold removeOld in Hstep.
        destruct (key_in k nodeNewData);
          [injection Hstep as <- _; reflexivity|].
        eapply removeData_keeps_children; [|exact Hstep].
        apply classify_not_children. exact Hne. }
      eapply IH; eassumption.
Qed.

End LoopsMirrored.

Lemma viewPatch_mirrored H factory_default nodeNew :
  forall nodeOld s nodeOld' s',
    mirrored H nodeOld -> shaped H nodeNew ->
    viewPatch factory_default nodeOld nodeNew s = (Ok nodeOld', s') ->
    mirrored H nodeOld'.
Proof.
  induction nodeNew as [r nm nodeData IH] using NodeNew_children_ind.
  intros [n0 el cref cs] s nodeOld' s' Hm Hsh Hrun.
  inversion Hm as [? ? ? ? Hsh0 Hrefs0 Hcs]; subst.
  destruct (shaped_children _ _ _ _ Hsh) as [Hnd Hheap].
  destruct (String.eqb_spec (name n0) nm) as [Hk|Hk].
  - apply viewPatch_same_kind_inv in Hrun as (cs1 & s1 & cs2 & H1 & H2 & ->);
      [|exact Hk].
    cbn [node element children children_ref name data] in *.
    destruct n0 as [r0 nm0 data0]. cbn [name data] in *. subst nm0.
    destruct (shaped_children _ _ _ _ Hsh0) as [_ Hheap0].
    apply (update_loop_mirrored H) in H1 as (Hcs1 & Hsame1 & Hmap1);
      [|exact Hnd| |
       |exact Hcs].
    2: { intros a items Hin. destruct (Hheap a items Hin) as [Ha Hshi].
         split; [exact Ha|]. split; [exact Hshi|].
         intros childNew Hc c s0 c' s0' Hmc Hshc Hrunc.
         eapply IH; eassumption. }
    2: { intros a olds Hget. apply Hheap0.
         rewrite <- Hget. apply get_In_has.
         destruct (has "children" data0) eqn:Hhas; [reflexivity|].
         rewrite (has_false_get _ _ Hhas) in Hget. discriminate Hget. }
    apply (removal_loop_mirrored H) in H2 as (Hcs2 & Hlen2); [|exact Hcs1].
    constructor; [exact Hsh| |exact Hcs2].
    cbn [name data]. intros Hnm. specialize (Hrefs0 Hnm).
    destruct (has "children" nodeData) eqn:Hhas.
    + rewrite andb_false_r in Hlen2. subst cs2. apply Hmap1; auto.
    + rewrite (Hsame1 eq_refl) in *. rewrite andb_true_r in Hlen2.
      assert (Hnone : children_of nodeData = []).
      { unfold children_of. rewrite (has_false_get _ _ Hhas). reflexivity. }
      rewrite Hnone. destruct (has "children" data0) eqn:Hhas0.
      * subst cs2. reflexivity.
      * subst cs2. rewrite Hrefs0. unfold children_of.
        rewrite (has_false_get _ _ Hhas0). reflexivity.
  - apply viewPatch_other_kind_inv in Hrun as (rc & s1 & Hc & _ & ->);
      [|exact Hk].
    pose proof (viewCreate_mirrored H _ _ _ _ Hsh Hc) as Hmc.
    apply viewCreate_created in Hc as (Hnode & _).
    destruct rc as [nc ec crc ccs]. simpl in *. subst nc. exact Hmc.
Qed.

(** X18. A record that [viewCreate] returns for a shaped description holds the
    description, and unless the description is a text its child records
    hold the child descriptions themselves, in the order of the children
    array; the same holds for every record below it. *)
Theorem viewCreate_mirrors_description H n st r st' :
  shaped H n ->
  viewCreate n st = (Ok r, st') ->
  node r = n /\
  (name n <> "text" -> map node (children r) = children_of (data n)) /\
  mirrored H r.
Proof.
  intros Hsh Hrun. split; [|split].
  - apply viewCreate_created in Hrun as (Hnode & _). exact Hnode.
  - intros Hnm. destruct n as [r0 nm nodeData].
    rewrite viewCreate_eq in Hrun. cbn [name data] in *.
    inversion Hsh as [? ? ? Hnd Harr]. subst.
    apply bind_Ok in Hrun as (cref & s1 & _ & Hrun).
    replace (nm =? "text")%string with false in Hrun
      by (symmetry; apply String.eqb_neq; exact Hnm).
    apply bind_Ok in Hrun as (h & s2 & _ & Hrun).
    apply bind_Ok in Hrun as (cs & s3 & Hfold & Hrun).
    injection Hrun as <- _. simpl.
    apply (create_loop_mirrored H) in Hfold as (new & -> & Hmap & _);
      [exact Hmap| |exact Hnd].
    intros a items c Hin Hc s0 r1 s0' Hrun0.
    eapply viewCreate_mirrored; [|exact Hrun0].
    destruct (Harr a items Hin) as [_ Hitems].
    rewrite Forall_forall in Hitems. apply Hitems.
    apply list_elem_of_In. exact Hc.
  - eapply viewCreate_mirrored; eassumption.
Qed.

(** X19. A patch that returns keeps the mirror: from a record that mirrors its
    description and a shaped new description, the returned record holds the
    new description, and at every level below it the child records hold,
    position by position, descriptions at the addresses of the child
    descriptions of the record above them. *)
Theorem viewPatch_keeps_mirror H factory_default nodeOld nodeNew st r st' :
  mirrored H nodeOld ->
  shaped H nodeNew ->
  viewPatch factory_default nodeOld nodeNew st = (Ok r, st') ->
  node r = nodeNew /\
  (name nodeNew <> "text" ->
   map ref (map node (children r)) = map ref (children_of (data nodeNew))) /\
  mirrored H r.
Proof.
  intros Hm Hsh Hrun.
  pose proof (viewPatch_mirrored H factory_default nodeNew _ _ _ _ Hm Hsh Hrun)
    as Hr.
  assert (Hnode : node r = nodeNew).
  { destruct (String.eqb_spec (name (node nodeOld)) (name nodeNew)) as [Hk|Hk].
    - apply viewPatch_same_kind_inv in Hrun as (cs1 & s1 & cs2 & _ & _ & ->);
        [reflexivity|exact Hk].
    - apply viewPatch_other_kind_inv in Hrun as (rc & s1 & _ & _ & ->);
        [reflexivity|exact Hk]. }
  split; [exact Hnode|]. split; [|exact Hr].
  destruct r as [n el cref cs]. simpl in Hnode. subst n.
  inversion Hr as [? ? ? ? _ Hrefs _]; subst. exact Hrefs.
Qed.

(** ** Instances *)

Lemma run_reports_invalid_root_witness :
  run echo one_driver VNull (mkCycle tt [])
  = (Throw TypeError, mkCycle tt [Report InvalidRoot; CallInput "a"]) /\
  journal (mkCycle tt [Report InvalidRoot; CallInput "a"])
  = journal (mkCycle tt [])
    ++ Report InvalidRoot :: map (fun kd => CallInput kd.1) one_driver.
Proof.
  apply (run_reports_invalid_root echo one_driver VNull (mkCycle tt [])
           [("a", VNull)]).
  - intros f. discriminate.
  - reflexivity.
Defined.

Lemma run_stops_at_driver_without_input_witness :
  run echo (one_driver ++ [("mute", mute)]) (VFun 0) (mkCycle tt [])
  = (Throw TypeError,
     mkCycle tt
             (journal (mkCycle tt [])
              ++ map (fun kd => CallInput kd.1) one_driver
              ++ [Report (NoInput "mute")])).
Proof.
  apply (run_stops_at_driver_without_input echo one_driver [] "mute" mute 0
           (mkCycle tt []) [("a", VNull)] (mkCycle tt [CallInput "a"])).
  - reflexivity.
  - reflexivity.
Defined.

Lemma run_outputs_only_what_root_returned_witness :
  exists f inputs s1 outputs entries,
    VFun 0 = VFun f /\
    gather one_driver (mkCycle tt []) = (Ok inputs, s1) /\
    echo f inputs = Ok outputs /\
    enumerate outputs = Ok entries /\
    In ("a", VNum 2) entries /\
    deliverable one_driver ("a", VNum 2).
Proof.
  apply (run_outputs_only_what_root_returned echo one_driver (VFun 0)
           (mkCycle tt []) (Ok tt)
           (mkCycle tt [CallInput "a"; CallRoot (VFun 0) [("a", VNull)];
                        CallOutput "a" (VNum 2)])
           [CallInput "a"; CallRoot (VFun 0) [("a", VNull)];
            CallOutput "a" (VNum 2)]).
  - reflexivity.
  - reflexivity.
  - right. right. left. reflexivity.
Defined.


Lemma handleEvent_hands_event_to_root_witness :
  get "view" [("view", click)] = VObj 50 [("type", VStr "click")].
Proof.
  apply (handleEvent_hands_event_to_root echo [] []
           (mkDriver (Some view_input) None) on_click 50
           [("type", VStr "click")] "click" 1
           (mkCycle (mkProcess page VNull) [])
           (Throw TypeError)
           (mkCycle (mkProcess page click)
                    [CallInput "view"; CallRoot (VFun 1) [("view", click)];
                     Report (UnknownDriver "a")])
           [CallInput "view"; CallRoot (VFun 1) [("view", click)];
            Report (UnknownDriver "a")]).
  - apply NoDup_cons. split; [apply not_elem_of_nil | apply NoDup_nil_2].
  - reflexivity.
  - constructor.
  - reflexivity.
  - reflexivity.
  - reflexivity.
  - reflexivity.
  - right. left. reflexivity.
Defined.

Lemma style_update_assigns_changes_and_blanks_witness :
  patchData (viewPatch empty_defaults) 1 (VObj 12 red_wide) "style"
            (VObj 13 blue) [] page
  = (Ok [],
     logging [SetStyle 1 "color" (VStr "blue");
              SetStyle 1 "width" (VStr "")] page).
Proof.
  apply (style_update_assigns_changes_and_blanks empty_defaults 1
           (VObj 12 red_wide) red_wide 13 blue [] page).
  - constructor.
  - apply not_elem_of_empty.
  - vm_compute. repeat constructor.
Defined.

Lemma ariaset_update_sets_changes_and_removes_witness :
  patchData (viewPatch empty_defaults) 1 (VObj 12 red_wide) "ariaset"
            (VObj 13 blue) [] page
  = (Ok [],
     logging [SetAttribute 1 "aria-color" (VStr "blue");
              RemoveAttribute 1 "aria-width"] page).
Proof.
  apply (ariaset_update_sets_changes_and_removes empty_defaults 1
           (VObj 12 red_wide) red_wide 13 blue [] page).
  - constructor.
  - apply not_elem_of_empty.
  - vm_compute. repeat constructor.
Defined.

Lemma dataset_update_sets_changes_and_deletes_witness :
  patchData (viewPatch empty_defaults) 1 VUndef "dataset"
            (VObj 13 blue) [] page
  = (Ok [], logging [SetDataset 1 "color" (VStr "blue")] page).
Proof.
  apply (dataset_update_sets_changes_and_deletes empty_defaults 1
           VUndef [] 13 blue [] page).
  - constructor.
  - apply not_elem_of_empty.
  - vm_compute. repeat constructor.
Defined.

Lemma viewCreate_acts_on_new_nodes_witness :
  Forall (fun h => next page < h < next page_pressed) (handles pressed) /\
  (forall h, h < next page ->
             parentNode page_pressed !! h = parentNode page !! h /\
             MoonEvents page_pressed !! h = MoonEvents page !! h) /\
  exists calls,
    log page_pressed = log page ++ calls /\
    Forall (fun e => next page <= subject e) calls.
Proof.
  apply (viewCreate_acts_on_new_nodes press_A page pressed page_pressed).
  vm_compute. reflexivity.
Defined.


Lemma run_completes_witness :
  exists s', run echo one_driver (VFun 0) (mkCycle tt []) = (Ok tt, s').
Proof.
  apply (run_completes echo one_driver 0 (mkCycle tt [])).
  - constructor; [|constructor]. split.
    + exists (ret VNull). split; [reflexivity|]. intros w. eexists _, _.
      reflexivity.
    + exists (fun _ => ret tt). split; [reflexivity|]. intros v w. eexists.
      reflexivity.
  - intros inputs. exists 1, [("a", VNum 2)]. split; [reflexivity|].
    constructor; [|constructor]. simpl. apply elem_of_cons. left. reflexivity.
Defined.

Lemma run_stores_data_output_witness :
  stored (world (mkCycle (VNum 7)
                         [CallInput "data";
                          CallRoot (VFun 0) [("data", VUndef)];
                          CallOutput "data" (VNum 7)])) = VNum 7.
Proof.
  apply (run_stores_data_output stored store (fun v w => eq_refl) seven
           data_only 0 (mkCycle VUndef [])
           (mkCycle (VNum 7)
                    [CallInput "data"; CallRoot (VFun 0) [("data", VUndef)];
                     CallOutput "data" (VNum 7)])
           [("data", VUndef)] (mkCycle VUndef [CallInput "data"])
           1 [] (VNum 7) []).
  - reflexivity.
  - constructor; [|constructor]. simpl. intros Hne. contradiction.
  - reflexivity.
  - reflexivity.
  - apply not_elem_of_nil.
  - reflexivity.
Defined.

Lemma shaped_text H r s : shaped H (mkNodeNew r "text" [("data", VStr s)]).
Proof.
  constructor.
  - apply NoDup_cons. split; [apply not_elem_of_nil|apply NoDup_nil_2].
  - intros a items [Heq|[]]. discriminate Heq.
Qed.

Lemma welcomes_page st : refused st = read_only_tagName -> welcomes page_names st.
Proof.
  intros Hr e k Hm [Ht He]. rewrite Hr.
  destruct e; simpl in Hm |- *; try reflexivity; injection Hm as ->;
    match goal with
    | |- (if (k =? ?s)%string then _ else _) = _ =>
        destruct (String.eqb_spec k s); [contradiction|reflexivity]
    end.
Qed.

Local Ltac named :=
  repeat constructor; discriminate.

Lemma renderable_data r s :
  renderable page_names (mkNodeNew r "text" [("data", VStr s)]).
Proof.
  constructor.
  - intros k v [Heq|[]]. injection Heq as <- <-. reflexivity.
  - split; [split; discriminate|].
    intros k v [Heq|[]]. injection Heq as <- <-. named.
Qed.

Lemma shaped_press_A : shaped button_arrays press_A.
Proof.
  constructor.
  - apply NoDup_cons. split; [|apply NoDup_cons; split;
      [apply not_elem_of_nil | apply NoDup_nil_2]].
    intros Hin. apply list_elem_of_singleton in Hin. discriminate Hin.
  - intros a items [Heq|[Heq|[]]]; [discriminate Heq|].
    injection Heq as <- <-. split; [reflexivity|].
    constructor; [apply shaped_text|constructor].
Qed.

Lemma renderable_press_A : renderable page_names press_A.
Proof.
  apply renderable_element.
  - discriminate.
  - intros k v [Heq|[Heq|[]]] Hk; injection Heq as <- <-; discriminate.
  - intros k v [Heq|[Heq|[]]] Hk; injection Heq as <- <-; discriminate Hk.
  - intros v [Heq|[Heq|[]]]; [discriminate Heq|]. injection Heq as <-.
    eexists _, _. split; [reflexivity|].
    constructor; [apply renderable_data|constructor].
  - split; [split; discriminate|].
    intros k v [Heq|[Heq|[]]]; injection Heq as <- <-; named.
Qed.

Lemma allocated_page : allocated page.
Proof. intros h Hh. apply elem_of_empty in Hh. destruct Hh. Qed.


Lemma shaped_listed : shaped arrays listed.
Proof.
  constructor.
  - apply NoDup_cons. split; [apply not_elem_of_nil|apply NoDup_nil_2].
  - intros a items [Heq|[]]. injection Heq as <- <-. split; [reflexivity|].
    constructor; [apply shaped_text|constructor].
Qed.

Lemma renderable_listed : renderable page_names listed.
Proof.
  apply renderable_element.
  - discriminate.
  - intros k v [Heq|[]] Hk; injection Heq as <- <-; discriminate Hk.
  - intros k v [Heq|[]] Hk; injection Heq as <- <-; discriminate Hk.
  - intros v [Heq|[]]. injection Heq as <-.
    eexists _, _. split; [reflexivity|].
    constructor; [apply renderable_data|constructor].
  - split; [split; discriminate|].
    intros k v [Heq|[]]; injection Heq as <- <-; named.
Qed.

Lemma renderable_empty r nm :
  nm <> "text" -> page_names nm -> renderable page_names (mkNodeNew r nm []).
Proof.
  intros Hnm Hn. apply renderable_element; [exact Hnm|..];
    try (intros; contradiction).
  split; [exact Hn|]. intros k v [].
Qed.


Lemma viewPatch_kind_change_needs_parent_witness :
  viewPatch empty_defaults pressed listed page_pressed
  = (Throw TypeError, (viewCreate listed page_pressed).2).
Proof.
  apply (viewPatch_kind_change_needs_parent empty_defaults pressed listed
           page_pressed
           (mkNodeOld listed 7 6
              [mkNodeOld (mkNodeNew 16 "text" [("data", VStr "hi")]) 9 8 []])).
  - discriminate.
  - vm_compute. lia.
  - vm_compute. reflexivity.
  - vm_compute. reflexivity.
Defined.

Lemma group_update_on_text_throws_witness :
  patchData (viewPatch empty_defaults) 3 (VObj 0 red_wide) "style"
            (VObj 1 blue) [] lived_in
  = (Throw TypeError, lived_in).
Proof.
  apply (group_update_on_text_throws empty_defaults 3 (VObj 0 red_wide)
           red_wide "style" 1 blue [] lived_in).
  - reflexivity.
  - constructor.
  - apply elem_of_union. left. apply elem_of_singleton. reflexivity.
  - discriminate.
Defined.

Lemma viewCreate_mirrors_description_witness :
  node pressed = press_A /\
  (name press_A <> "text" ->
   map node (children pressed) = children_of (data press_A)) /\
  mirrored button_arrays pressed.
Proof.
  apply (viewCreate_mirrors_description button_arrays press_A page pressed
           page_pressed).
  - exact shaped_press_A.
  - vm_compute. reflexivity.
Defined.

Lemma shaped_press_B : shaped button_arrays press_B.
Proof.
  constructor.
  - apply NoDup_cons. split; [|apply NoDup_cons; split;
      [apply not_elem_of_nil | apply NoDup_nil_2]].
    intros Hin. apply list_elem_of_singleton in Hin. discriminate Hin.
  - intros a items [Heq|[Heq|[]]]; [discriminate Heq|].
    injection Heq as <- <-. split; [reflexivity|].
    constructor; [apply shaped_text|constructor].
Qed.

Lemma viewPatch_keeps_mirror_witness :
  node repressed = press_B /\
  (name press_B <> "text" ->
   map ref (map node (children repressed))
   = map ref (children_of (data press_B))) /\
  mirrored button_arrays repressed.
Proof.
  apply (viewPatch_keeps_mirror button_arrays empty_defaults pressed press_B
           page_pressed repressed page_repressed).
  - constructor; [exact shaped_press_A|reflexivity|].
    constructor; [|constructor].
    constructor; [apply shaped_text|intros Hn; contradiction|constructor].
  - exact shaped_press_B.
  - vm_compute. reflexivity.
Defined.
